(** * micro-llms.ts: the scalar autograd engine and the three model variants

    A shallow embedding of [gpt.ts], [src/models/llama.ts], the Deepseek
    model and the shared training/inference driver, together with the
    properties stated by the specification.

    Conventions of the embedding.

    - A JavaScript [number] is an IEEE-754 double.  It is modelled by a real
      number ([R]): rounding, overflow to [Infinity] and [NaN] are outside
      the model, and every statement about numeric values is a statement
      about the exact arithmetic the code approximates.
    - A [Value] object is a heap cell with identity.  The heap is an arena
      (a list of nodes), a [Value] is an index into it, and [new Value(..)]
      appends a node.  Code that builds graphs lives in the monad [M] that
      threads the heap.
    - A read past the end of an array gives [undefined] in JavaScript.  In
      this code base such a value is always consumed at once, either by a
      property access (a [TypeError]) or by arithmetic (a [NaN] that
      poisons every later result).  Both outcomes, and the [TypeError] of
      [reduce] on an empty array, are the failure [None] of the monad.
    - Arrays that are mutated in place ([keys[li].push(k)]) are threaded
      explicitly: a function that pushes returns the new array. *)

From Stdlib Require Import String DecimalString.
From Stdlib Require Import Reals List Arith Lia Lra Bool.
From Stdlib Require Import Permutation Sorted.
From Stdlib Require DecimalNat DecimalFacts.
Import ListNotations.

(** ** JavaScript numbers *)

Module Num.

Local Open Scope R_scope.

(** [x ** p].  For an integral exponent this is the repeated product (or its
    inverse), for any other exponent it is [exp (p * ln x)], which is the
    JavaScript result when [0 < x].  A negative base with a fractional
    exponent ([NaN] in JavaScript) and a zero base with a negative exponent
    ([Infinity]) are outside the model, as is a division by zero. *)
Definition js_pow (x p : R) : R :=
  if Req_dec_T p (IZR (Int_part p)) then powerRZ x (Int_part p) else Rpower x p.

(** [Math.max(...xs)].  On the empty list JavaScript answers [-Infinity],
    which is not a real; the only caller, [softmax], fails on the empty list
    before the value is used. *)
Definition Math_max (xs : list R) : R :=
  match xs with
  | [] => 0
  | x :: rest => fold_left Rmax rest x
  end.

(** [d > 0 ? 1 : 0] *)
Definition step (d : R) : R := if Rlt_dec 0 d then 1 else 0.

End Num.

(** ** The heap of [Value] objects *)

Module Autograd.

Import Num.

(** An object reference. *)
Abbreviation Value := nat.

(** The fields of [class Value]. *)
Record Node := mkNode {
  data : R;
  grad : R;
  _children : list Value;
  _localGrads : list R
}.

Definition Heap := list Node.

(** Computations that read and extend the heap and may fail. *)
Definition M (A : Type) := Heap -> option (A * Heap).

Definition ret {A} (a : A) : M A := fun h => Some (a, h).

Definition bind {A B} (m : M A) (f : A -> M B) : M B :=
  fun h => match m h with
           | Some (a, h') => f a h'
           | None => None
           end.

Definition throw {A} : M A := fun _ => None.

Declare Scope m_scope.
Delimit Scope m_scope with m.
Notation "x <- m ;; k" := (bind m (fun x => k))
  (at level 61, m at next level, right associativity) : m_scope.
Notation "m ;;; k" := (bind m (fun _ => k))
  (at level 61, right associativity) : m_scope.
Local Open Scope m_scope.

(** [xs[i]!] *)
Definition idx {A} (xs : list A) (i : nat) : M A :=
  match nth_error xs i with
  | Some x => ret x
  | None => throw
  end.

Definition get_node (v : Value) : M Node := fun h =>
  match nth_error h v with
  | Some n => Some (n, h)
  | None => None
  end.

(** [v.data] *)
Definition get_data (v : Value) : M R := n <- get_node v ;; ret (data n).

(** [v.grad] *)
Definition get_grad (v : Value) : M R := n <- get_node v ;; ret (grad n).

Fixpoint update_node (h : Heap) (v : Value) (f : Node -> Node) : option Heap :=
  match h, v with
  | [], _ => None
  | n :: h', O => Some (f n :: h')
  | n :: h', S v' => option_map (cons n) (update_node h' v' f)
  end.

Definition modify (v : Value) (f : Node -> Node) : M unit := fun h =>
  match update_node h v f with
  | Some h' => Some (tt, h')
  | None => None
  end.

Definition with_grad (g : R) (n : Node) : Node :=
  mkNode (data n) g (_children n) (_localGrads n).

Definition with_data (d : R) (n : Node) : Node :=
  mkNode d (grad n) (_children n) (_localGrads n).

(** [v.grad = g] *)
Definition set_grad (v : Value) (g : R) : M unit := modify v (with_grad g).

(** [v.grad += x] *)
Definition add_grad (v : Value) (x : R) : M unit :=
  modify v (fun n => with_grad (grad n + x) n).

(** [new Value(data, children, localGrads)]; the field [grad] starts at 0. *)
Definition new_Value (d : R) (children : list Value) (localGrads : list R)
  : M Value :=
  fun h => Some (length h, h ++ [mkNode d 0 children localGrads]).

(** [other instanceof Value ? other : new Value(other)] *)
Definition as_Value (other : Value + R) : M Value :=
  match other with
  | inl o => ret o
  | inr x => new_Value x [] []
  end.

(** *** The differentiable operators *)

Definition add (this : Value) (other : Value + R) : M Value :=
  o <- as_Value other ;;
  a <- get_data this ;;
  b <- get_data o ;;
  new_Value (a + b) [this; o] [1%R; 1%R].

Definition mul (this : Value) (other : Value + R) : M Value :=
  o <- as_Value other ;;
  a <- get_data this ;;
  b <- get_data o ;;
  new_Value (a * b) [this; o] [b; a].

Definition pow (this : Value) (exp : R) : M Value :=
  a <- get_data this ;;
  new_Value (js_pow a exp) [this] [(exp * js_pow a (exp - 1))%R].

Definition log (this : Value) : M Value :=
  a <- get_data this ;;
  new_Value (ln a) [this] [(1 / a)%R].

Definition exp (this : Value) : M Value :=
  a <- get_data this ;;
  let e := Rtrigo_def.exp a in
  new_Value e [this] [e].

Definition relu (this : Value) : M Value :=
  a <- get_data this ;;
  new_Value (Rmax 0 a) [this] [step a].

Definition neg (this : Value) : M Value := mul this (inr (-1)%R).

Definition sub (this : Value) (other : Value + R) : M Value :=
  match other with
  | inl o => n <- neg o ;; add this (inl n)
  | inr x => add this (inr (- x)%R)
  end.

Definition div (this : Value) (other : Value + R) : M Value :=
  o <- as_Value other ;;
  p <- pow o (-1) ;;
  mul this (inl p).

(** Modelled from the spec: [silu] belongs to [core/value.ts], which is not
    among the sources.  The operator table of the specification gives its
    result [a.data * sigma(a.data)] and its local gradient
    [sigma(a.data) * (1 + a.data * (1 - sigma(a.data)))]. *)
Definition sigmoid (x : R) : R := (1 / (1 + Rtrigo_def.exp (- x)))%R.

Definition silu (this : Value) : M Value :=
  a <- get_data this ;;
  new_Value (a * sigmoid a) [this]
            [(sigmoid a * (1 + a * (1 - sigmoid a)))%R].

(** *** The backward engine *)

(** The two accumulators of [backward]: the set [visited] and the array
    [topo]. *)
Abbreviation dfs_state := (list Value * list Value)%type.

(** The closure [build].  JavaScript recursion has no fuel; [fuel] bounds the
    depth of the recursion, and [build_spec] below shows that the number of
    nodes is enough on every acyclic heap. *)
Fixpoint build (fuel : nat) (h : Heap) (v : Value) (st : dfs_state)
  : option dfs_state :=
  match fuel with
  | O => None
  | S fuel' =>
    let '(visited, topo) := st in
    if existsb (Nat.eqb v) visited then Some st
    else
      match nth_error h v with
      | None => None
      | Some n =>
        match fold_left
                (fun acc c =>
                   match acc with
                   | Some st' => build fuel' h c st'
                   | None => None
                   end)
                (_children n) (Some (v :: visited, topo)) with
        | Some (visited', topo') => Some (visited', topo' ++ [v])
        | None => None
        end
      end
  end.

(** [xs.forEach((x, j) => f(x, j))], from index [j] on. *)
Fixpoint forEach_from {A} (f : A -> nat -> M unit) (xs : list A) (j : nat)
  : M unit :=
  match xs with
  | [] => ret tt
  | x :: xs' => f x j ;;; forEach_from f xs' (S j)
  end.

Definition forEach {A} (f : A -> nat -> M unit) (xs : list A) : M unit :=
  forEach_from f xs 0.

(** The body of the loop over [topo]:
    [child.grad += v._localGrads[j] * v.grad] for every child. *)
Definition distribute (v : Value) : M unit :=
  n <- get_node v ;;
  forEach (fun child j =>
             lg <- idx (_localGrads n) j ;;
             g <- get_grad v ;;
             add_grad child (lg * g)%R)
          (_children n).

Fixpoint distribute_all (order : list Value) : M unit :=
  match order with
  | [] => ret tt
  | v :: rest => distribute v ;;; distribute_all rest
  end.

Definition backward (this : Value) : M unit := fun h =>
  match build (length h) h this ([], []) with
  | None => None
  | Some (_, topo) =>
    (set_grad this 1 ;;; distribute_all (rev topo)) h
  end.


(** *** Array helpers *)

(** [xs.map((x, i) => f(x, i))], from index [i] on. *)
Fixpoint mapi_from {A B} (f : A -> nat -> M B) (xs : list A) (i : nat)
  : M (list B) :=
  match xs with
  | [] => ret []
  | x :: xs' =>
    y <- f x i ;;
    ys <- mapi_from f xs' (S i) ;;
    ret (y :: ys)
  end.

Definition mapiM {A B} (f : A -> nat -> M B) (xs : list A) : M (list B) :=
  mapi_from f xs 0.

(** [xs.map(x => f(x))] *)
Definition mapM {A B} (f : A -> M B) (xs : list A) : M (list B) :=
  mapiM (fun x _ => f x) xs.

(** [xs.reduce((acc, x, i) => f(acc, x, i), init)], from index [i] on. *)
Fixpoint reduce_from {A B} (f : B -> A -> nat -> M B) (acc : B) (xs : list A)
  (i : nat) : M B :=
  match xs with
  | [] => ret acc
  | x :: xs' => acc' <- f acc x i ;; reduce_from f acc' xs' (S i)
  end.

Definition reduce_init {A B} (f : B -> A -> nat -> M B) (init : B)
  (xs : list A) : M B :=
  reduce_from f init xs 0.

(** [xs.reduce((a, b) => f(a, b))]: a [TypeError] on the empty array. *)
Definition reduce {A} (f : A -> A -> M A) (xs : list A) : M A :=
  match xs with
  | [] => throw
  | x :: xs' => reduce_from (fun a b _ => f a b) x xs' 1
  end.

(** [xs.slice(s, e)] for indices that are natural numbers. *)
Definition slice {A} (xs : list A) (s e : nat) : list A :=
  firstn (e - s) (skipn s xs).

(** [for (let i = lo; i < lo + n; i++) acc = body(i, acc)] *)
Fixpoint for_from {T} (n lo : nat) (body : nat -> T -> M T) (acc : T) : M T :=
  match n with
  | O => ret acc
  | S n' => acc' <- body lo acc ;; for_from n' (S lo) body acc'
  end.

(** [for (let i = 0; i < n; i++) acc = body(i, acc)] *)
Definition for_range {T} (n : nat) (body : nat -> T -> M T) (acc : T) : M T :=
  for_from n 0 body acc.

(** A value that must not be [undefined] when it is used. *)
Definition defined {A} (o : option A) : M A :=
  match o with
  | Some a => ret a
  | None => throw
  end.

(** [cache[li]!.push(x)]: a [TypeError] when [cache[li]] is [undefined]. *)
Fixpoint push_at {A} (cache : list (list A)) (li : nat) (x : A)
  : option (list (list A)) :=
  match cache, li with
  | [], _ => None
  | c :: rest, O => Some ((c ++ [x]) :: rest)
  | c :: rest, S li' => option_map (cons c) (push_at rest li' x)
  end.

Definition push {A : Type} (cache : list (list A)) (li : nat) (x : A)
  : M (list (list A)) :=
  defined (push_at cache li x).

End Autograd.

(** ** The parameter store *)

Module Store.

Import Autograd.
Local Open Scope m_scope.

(** [Record<string, Value[][]>] *)
Definition State := string -> option (list (list Value)).

Definition string_of_nat (n : nat) : string :=
  NilZero.string_of_uint (Nat.to_uint n).

(** The key [`layer${li}.${name}`]. *)
Definition layer_key (li : nat) (name : string) : string :=
  ("layer" ++ string_of_nat li ++ "." ++ name)%string.

(** The key [`layer${li}.expert${e}_${name}`]. *)
Definition expert_key (li e : nat) (name : string) : string :=
  ("layer" ++ string_of_nat li ++ ".expert" ++ string_of_nat e ++ "_" ++ name)%string.

(** [state[key]!] *)
Definition lookup (state : State) (key : string) : M (list (list Value)) :=
  defined (state key).

(** [v.data = d] *)
Definition set_data (v : Value) (d : R) : M unit := modify v (with_data d).

(** The body shared by the [load] methods of the models, once the file has
    been read into [floatArray]:
    [this.params.forEach((v, i, _) => (v.data = floatArray[i]!))].
    A parameter past the end of the array receives [undefined]; no real
    number stands for that, so the parameter keeps its field and is returned
    in the list of the parameters that are now undefined. *)
Fixpoint load_from (params : list Value) (floatArray : list R) (i : nat)
  : M (list Value) :=
  match params with
  | [] => ret []
  | v :: rest =>
    match nth_error floatArray i with
    | Some x =>
      set_data v x ;;; load_from rest floatArray (S i)
    | None =>
      undefined <- load_from rest floatArray (S i) ;;
      ret (v :: undefined)
    end
  end.

Definition load_params (params : list Value) (floatArray : list R)
  : M (list Value) :=
  load_from params floatArray 0.

End Store.

(** ** Model operations ([linear], [softmax], [rmsnorm] of [gpt.ts]) *)

Module Ops.

Import Num Autograd.
Local Open Scope m_scope.

Definition add2 (a b : Value) : M Value := add a (inl b).

Definition linear (x : list Value) (w : list (list Value)) : M (list Value) :=
  mapM (fun row =>
          zero <- new_Value 0 [] [] ;;
          reduce_init (fun sum wi i =>
                         xi <- idx x i ;;
                         p <- mul wi (inl xi) ;;
                         add sum (inl p))
                      zero row)
       w.

Definition softmax (logits : list Value) : M (list Value) :=
  ds <- mapM get_data logits ;;
  let maxVal := Math_max ds in
  exps <- mapM (fun v => t <- sub v (inr maxVal) ;; exp t) logits ;;
  total <- reduce add2 exps ;;
  mapM (fun e => div e (inl total)) exps.

Definition rmsnorm (x : list Value) : M (list Value) :=
  sq <- mapM (fun xi => mul xi (inl xi)) x ;;
  s <- reduce add2 sq ;;
  ms <- div s (inr (INR (length x))) ;;
  t <- add ms (inr 1e-5%R) ;;
  scale <- pow t (-0.5) ;;
  mapM (fun xi => mul xi (inl scale)) x.

(** Modelled from the spec: [apply_rope] belongs to [core/ops.ts], which is
    not among the sources.  The specification partitions a vector of even
    length [d] into [d/2] consecutive pairs and rotates the pair
    [(x_2i, x_2i+1)] by the angle [theta_i * position], where
    [theta_i = base ^ (-2i/d)] and [base = 10000], into
    [(x_2i * cos - x_2i+1 * sin, x_2i * sin + x_2i+1 * cos)]. *)
Definition rope_angle (i d pos : nat) : R :=
  (Rpower 10000 (- (2 * INR i) / INR d) * INR pos)%R.

Definition apply_rope (x : list Value) (pos : nat) (d : nat) : M (list Value) :=
  for_range (d / 2)
    (fun i out =>
       x1 <- idx x (2 * i) ;;
       x2 <- idx x (2 * i + 1) ;;
       let c := cos (rope_angle i d pos) in
       let s := sin (rope_angle i d pos) in
       a <- mul x1 (inr c) ;;
       b <- mul x2 (inr s) ;;
       r1 <- sub a (inl b) ;;
       a' <- mul x1 (inr s) ;;
       b' <- mul x2 (inr c) ;;
       r2 <- add a' (inl b') ;;
       ret (out ++ [r1; r2]))
    [].

End Ops.

(** ** Variant A: [gpt.ts] *)

Module GPT.

Import Num Autograd Store Ops.
Local Open Scope m_scope.

(** The hyperparameters.  [gpt.ts] fixes them as constants
    ([script_config]); the driver reads them from [model.config]. *)
Record Config := {
  n_embd : nat;
  n_head : nat;
  n_layer : nat;
  block_size : nat;
  head_dim : nat
}.

Definition script_config : Config :=
  {| n_embd := 16; n_head := 4; n_layer := 1; block_size := 8;
     head_dim := 16 / 4 |}.

(** [Value[][][]]: per layer, per cached position, a vector. *)
Abbreviation Cache := (list (list (list Value))).

(** The body of [for (let h = 0; h < n_head; h++)]. *)
Definition attention_head (c : Config) (q : list Value) (keys values : Cache)
  (li h : nat) (x_attn : list Value) : M (list Value) :=
  let hs := h * head_dim c in
  let qh := slice q hs (hs + head_dim c) in
  keys_li <- idx keys li ;;
  let kh := map (fun kk => slice kk hs (hs + head_dim c)) keys_li in
  values_li <- idx values li ;;
  let vh := map (fun vv => slice vv hs (hs + head_dim c)) values_li in
  logits <- mapM (fun kt =>
                    prods <- mapiM (fun qj j =>
                                      ktj <- idx kt j ;;
                                      mul qj (inl ktj)) qh ;;
                    s <- reduce add2 prods ;;
                    div s (inr (sqrt (INR (head_dim c)))))
                 kh ;;
  weights <- softmax logits ;;
  for_range (head_dim c)
    (fun j x_attn =>
       terms <- mapiM (fun wt t =>
                         vt <- idx vh t ;;
                         vtj <- idx vt j ;;
                         mul wt (inl vtj)) weights ;;
       val <- reduce add2 terms ;;
       ret (x_attn ++ [val]))
    x_attn.

(** [x.map((xi, i) => xi.add(x_res[i]!))] *)
Definition add_residual (x x_res : list Value) : M (list Value) :=
  mapiM (fun xi i => r <- idx x_res i ;; add xi (inl r)) x.

(** The body of [for (let li = 0; li < n_layer; li++)]. *)
Definition layer (c : Config) (state : State) (li : nat)
  (st : list Value * Cache * Cache) : M (list Value * Cache * Cache) :=
  let '(x, keys, values) := st in
  let x_res := x in
  x <- rmsnorm x ;;
  wq <- lookup state (layer_key li "attn_wq") ;;
  q <- linear x wq ;;
  wk <- lookup state (layer_key li "attn_wk") ;;
  k <- linear x wk ;;
  wv <- lookup state (layer_key li "attn_wv") ;;
  v <- linear x wv ;;
  keys <- push keys li k ;;
  values <- push values li v ;;
  x_attn <- for_range (n_head c) (attention_head c q keys values li) [] ;;
  wo <- lookup state (layer_key li "attn_wo") ;;
  x <- linear x_attn wo ;;
  x <- add_residual x x_res ;;
  let x_res := x in
  x <- rmsnorm x ;;
  fc1 <- lookup state (layer_key li "mlp_fc1") ;;
  x <- linear x fc1 ;;
  x <- mapM (fun xi => r <- relu xi ;; pow r 2) x ;;
  fc2 <- lookup state (layer_key li "mlp_fc2") ;;
  x <- linear x fc2 ;;
  x <- add_residual x x_res ;;
  ret (x, keys, values).

Definition gpt (c : Config) (state : State) (tokenId posId : nat)
  (keys values : Cache) : M (list Value * Cache * Cache) :=
  wte <- lookup state "wte" ;;
  row <- idx wte tokenId ;;
  x <- mapiM (fun t i =>
                wpe <- lookup state "wpe" ;;
                prow <- idx wpe posId ;;
                p <- idx prow i ;;
                add t (inl p)) row ;;
  x <- rmsnorm x ;;
  st <- for_range (n_layer c) (layer c state) (x, keys, values) ;;
  let '(x, keys, values) := st in
  lm_head <- lookup state "lm_head" ;;
  logits <- linear x lm_head ;;
  ret (logits, keys, values).

End GPT.

(** ** Variant B: [src/models/llama.ts] *)

Module Llama.

Import Num Autograd Store Ops.
Local Open Scope m_scope.

(** [class LlamaConfig].  The fields hold natural numbers; [head_dim] and
    [n_rep] are fields of their own, which the class initialises from the
    defaults of the other fields. *)
Record LlamaConfig := {
  n_embd : nat;
  n_head : nat;
  n_kv_head : nat;
  n_layer : nat;
  block_size : nat;
  head_dim : nat;
  n_rep : nat
}.

(** [new LlamaConfig()] *)
Definition default_config : LlamaConfig :=
  {| n_embd := 16; n_head := 4; n_kv_head := 2; n_layer := 1;
     block_size := 8; head_dim := 16 / 4; n_rep := 4 / 2 |}.

(** [Value[][][][]]: per layer, per cached position, per key/value head, a
    vector. *)
Abbreviation Cache := (list (list (list (list Value)))).

(** [Math.floor(h / n)] as an array index: the quotient of two natural
    numbers, and no index at all ([Infinity] or [NaN]) when [n] is 0. *)
Definition floor_div (h n : nat) : option nat :=
  if Nat.eqb n 0 then None else Some (h / n).

(** [xs[i]] for an index that may be [Infinity] or [NaN]. *)
Definition at_index {A} (xs : list A) (i : option nat) : option A :=
  match i with
  | Some i => nth_error xs i
  | None => None
  end.

(** The loops that split a projection into heads and rotate each head. *)
Definition rope_heads (n hd posId : nat) (q : list Value)
  : M (list (list Value)) :=
  for_range n
    (fun h heads =>
       let hs := h * hd in
       let q_h := slice q hs (hs + hd) in
       r <- apply_rope q_h posId hd ;;
       ret (heads ++ [r]))
    [].

(** The loop that splits the value projection into heads. *)
Definition split_heads (n hd : nat) (v : list Value) : M (list (list Value)) :=
  for_range n
    (fun h heads =>
       let hs := h * hd in
       ret (heads ++ [slice v hs (hs + hd)]))
    [].

(** The attention logits of one query head against the cached keys
    [k_h_all]. *)
Definition attention_logits (hd : nat) (q_h : option (list Value))
  (k_h_all : list (option (list Value))) : M (list Value) :=
  for_range (length k_h_all)
    (fun t attn_logits =>
       dot <- new_Value 0 [] [] ;;
       dot <- for_range hd
                (fun j dot =>
                   q <- defined q_h ;;
                   qj <- idx q j ;;
                   kt <- idx k_h_all t ;;
                   kt <- defined kt ;;
                   ktj <- idx kt j ;;
                   p <- mul qj (inl ktj) ;;
                   add dot (inl p))
                dot ;;
       s <- new_Value (sqrt (INR hd)) [] [] ;;
       l <- div dot (inl s) ;;
       ret (attn_logits ++ [l]))
    [].

(** The weighted sum of the cached values [v_h_all]. *)
Definition weighted_values (hd : nat) (attn_weights : list Value)
  (v_h_all : list (option (list Value))) : M (list Value) :=
  for_range hd
    (fun j head_out =>
       sum <- new_Value 0 [] [] ;;
       sum <- for_range (length v_h_all)
                (fun t sum =>
                   wt <- idx attn_weights t ;;
                   vt <- idx v_h_all t ;;
                   vt <- defined vt ;;
                   vtj <- idx vt j ;;
                   p <- mul wt (inl vtj) ;;
                   add sum (inl p))
                sum ;;
       ret (head_out ++ [sum]))
    [].

(** The body of the loop over the query heads. *)
Definition attention_head (c : LlamaConfig) (q_heads : list (list Value))
  (keys values : Cache) (li h : nat) (x_attn : list Value) : M (list Value) :=
  let q_h := nth_error q_heads h in
  let kv_head_idx := floor_div h (n_rep c) in
  keys_li <- idx keys li ;;
  let k_h_all := map (fun k_t => at_index k_t kv_head_idx) keys_li in
  values_li <- idx values li ;;
  let v_h_all := map (fun v_t => at_index v_t kv_head_idx) values_li in
  attn_logits <- attention_logits (head_dim c) q_h k_h_all ;;
  attn_weights <- softmax attn_logits ;;
  head_out <- weighted_values (head_dim c) attn_weights v_h_all ;;
  ret (x_attn ++ head_out).

(** [x.map((val, i) => val.add(res[i]!))] *)
Definition add_residual (x res : list Value) : M (list Value) :=
  mapiM (fun val i => r <- idx res i ;; add val (inl r)) x.

(** The loop that builds [swiglu]. *)
Definition swiglu (gate up : list Value) : M (list Value) :=
  for_range (length gate)
    (fun i swiglu =>
       g <- idx gate i ;;
       s <- silu g ;;
       u <- idx up i ;;
       m <- mul s (inl u) ;;
       ret (swiglu ++ [m]))
    [].

(** The body of the loop over the layers. *)
Definition layer (c : LlamaConfig) (state : State) (posId li : nat)
  (st : list Value * Cache * Cache) : M (list Value * Cache * Cache) :=
  let '(x, keys, values) := st in
  let x_res := x in
  x <- rmsnorm x ;;
  wq <- lookup state (layer_key li "attn_wq") ;;
  q <- linear x wq ;;
  wk <- lookup state (layer_key li "attn_wk") ;;
  k <- linear x wk ;;
  wv <- lookup state (layer_key li "attn_wv") ;;
  v <- linear x wv ;;
  q_heads <- rope_heads (n_head c) (head_dim c) posId q ;;
  k_heads <- rope_heads (n_kv_head c) (head_dim c) posId k ;;
  v_heads <- split_heads (n_kv_head c) (head_dim c) v ;;
  keys <- push keys li k_heads ;;
  values <- push values li v_heads ;;
  x_attn <- for_range (n_head c) (attention_head c q_heads keys values li) [] ;;
  wo <- lookup state (layer_key li "attn_wo") ;;
  x <- linear x_attn wo ;;
  x <- add_residual x x_res ;;
  let ffn_residual := x in
  x <- rmsnorm x ;;
  w_gate <- lookup state (layer_key li "ffn_gate") ;;
  gate <- linear x w_gate ;;
  w_up <- lookup state (layer_key li "ffn_up") ;;
  up <- linear x w_up ;;
  sw <- swiglu gate up ;;
  w_down <- lookup state (layer_key li "ffn_down") ;;
  x <- linear sw w_down ;;
  x <- add_residual x ffn_residual ;;
  ret (x, keys, values).

Definition forward (c : LlamaConfig) (state : State) (tokenId posId : nat)
  (keys values : Cache) : M (list Value * Cache * Cache) :=
  wte <- lookup state "wte" ;;
  x <- idx wte tokenId ;;
  x <- rmsnorm x ;;
  st <- for_range (n_layer c) (layer c state posId) (x, keys, values) ;;
  let '(x, keys, values) := st in
  x <- rmsnorm x ;;
  lm_head <- lookup state "lm_head" ;;
  logits <- linear x lm_head ;;
  ret (logits, keys, values).

(** [Llama.load], after the file has been read into [floatArray]. *)
Definition load (params : list Value) (floatArray : list R) : M (list Value) :=
  load_params params floatArray.

End Llama.

(** ** Variant C: the Deepseek model *)

Module Deepseek.

Import Num Autograd Store Ops.
Local Open Scope m_scope.

(** [class DeepseekConfig] *)
Record DeepseekConfig := {
  n_embd : nat;
  n_head : nat;
  n_layer : nat;
  block_size : nat;
  latent_dim : nat;
  n_experts : nat;
  n_active : nat;
  head_dim : nat
}.

(** [new DeepseekConfig()] *)
Definition default_config : DeepseekConfig :=
  {| n_embd := 16; n_head := 4; n_layer := 1; block_size := 16;
     latent_dim := 16; n_experts := 4; n_active := 2; head_dim := 16 / 4 |}.

(** [Value[][][]]: per layer, per cached position, a latent vector. *)
Abbreviation Cache := (list (list (list Value))).

(** [xs[j] = x] for an index inside the array, which is the only case that
    arises: the arrays written to are created with the length that bounds
    the loop. *)
Fixpoint set_at {A} (xs : list A) (j : nat) (x : A) : list A :=
  match xs, j with
  | [], _ => [x]
  | _ :: rest, O => x :: rest
  | y :: rest, S j' => y :: set_at rest j' x
  end.

(** [Array(n).fill(0).map(() => new Value(0))] *)
Definition zeros (n : nat) : M (list Value) :=
  mapM (fun _ : nat => new_Value 0 [] []) (repeat 0%nat n).

(** The loop that splits the query into heads and rotates each head. *)
Definition rope_heads (n hd posId : nat) (q : list Value)
  : M (list (list Value)) :=
  for_range n
    (fun h heads =>
       let hs := h * hd in
       let q_h := slice q hs (hs + hd) in
       r <- apply_rope q_h posId hd ;;
       ret (heads ++ [r]))
    [].

(** The loop that computes the attention logits of one query head: the key
    of every cached position is rebuilt from the cached latent. *)
Definition attention_logits (hd : nat) (state : State) (li : nat)
  (q_h : list Value) (latents : list (list Value)) : M (list Value) :=
  for_range (length latents)
    (fun t attn_logits =>
       latent <- idx latents t ;;
       wkv <- lookup state (layer_key li "attn_wkv") ;;
       kv_full <- linear latent wkv ;;
       let k := slice kv_full 0 hd in
       k_rope <- apply_rope k 0 hd ;;
       dot <- new_Value 0 [] [] ;;
       dot <- for_range hd
                (fun j dot =>
                   qj <- idx q_h j ;;
                   kj <- idx k_rope j ;;
                   p <- mul qj (inl kj) ;;
                   add dot (inl p))
                dot ;;
       s <- new_Value (sqrt (INR hd)) [] [] ;;
       l <- div dot (inl s) ;;
       ret (attn_logits ++ [l]))
    [].

(** The loop that accumulates the weighted values: the value of every
    cached position is rebuilt from the cached latent. *)
Definition weighted_values (hd : nat) (state : State) (li : nat)
  (attn_weights : list Value) (latents : list (list Value))
  (head_out : list Value) : M (list Value) :=
  for_range (length attn_weights)
    (fun t head_out =>
       latent <- idx latents t ;;
       wkv <- lookup state (layer_key li "attn_wkv") ;;
       kv_full <- linear latent wkv ;;
       let v := slice kv_full hd (hd * 2) in
       for_range hd
         (fun j head_out =>
            hj <- idx head_out j ;;
            wt <- idx attn_weights t ;;
            vj <- idx v j ;;
            p <- mul wt (inl vj) ;;
            r <- add hj (inl p) ;;
            ret (set_at head_out j r))
         head_out)
    head_out.

(** The body of the loop over the heads. *)
Definition attention_head (c : DeepseekConfig) (state : State)
  (q_heads : list (list Value)) (keysLatentCache : Cache) (li h : nat)
  (x_attn : list Value) : M (list Value) :=
  q_h <- idx q_heads h ;;
  latents <- idx keysLatentCache li ;;
  attn_logits <- attention_logits (head_dim c) state li q_h latents ;;
  attn_weights <- softmax attn_logits ;;
  head_out <- zeros (head_dim c) ;;
  head_out <- weighted_values (head_dim c) state li attn_weights latents
                              head_out ;;
  ret (x_attn ++ head_out).

(** [x.map((val, i) => val.add(res[i]!))] *)
Definition add_residual (x res : list Value) : M (list Value) :=
  mapiM (fun val i => r <- idx res i ;; add val (inl r)) x.

(** Part 1 of the layer: multi-head latent attention. *)
Definition attention (c : DeepseekConfig) (state : State) (posId li : nat)
  (x : list Value) (keysLatentCache : Cache) : M (list Value * Cache) :=
  let residual1 := x in
  x <- rmsnorm x ;;
  wq <- lookup state (layer_key li "attn_wq") ;;
  q <- linear x wq ;;
  w_compress <- lookup state (layer_key li "attn_compress_kv") ;;
  kv_latent <- linear x w_compress ;;
  keysLatentCache <- push keysLatentCache li kv_latent ;;
  q_heads <- rope_heads (n_head c) (head_dim c) posId q ;;
  x_attn <- for_range (n_head c)
              (attention_head c state q_heads keysLatentCache li) [] ;;
  wo <- lookup state (layer_key li "attn_wo") ;;
  x <- linear x_attn wo ;;
  x <- add_residual x residual1 ;;
  ret (x, keysLatentCache).

(** The loop that builds [swiglu]. *)
Definition swiglu (gate up : list Value) : M (list Value) :=
  for_range (length gate)
    (fun i swiglu =>
       g <- idx gate i ;;
       s <- silu g ;;
       u <- idx up i ;;
       m <- mul s (inl u) ;;
       ret (swiglu ++ [m]))
    [].

(** The body of the first loop over the experts. *)
Definition expert (state : State) (li : nat) (x : list Value) (e : nat)
  (expert_outputs : list (list Value)) : M (list (list Value)) :=
  w_gate <- lookup state (expert_key li e "gate") ;;
  gate <- linear x w_gate ;;
  w_up <- lookup state (expert_key li e "up") ;;
  up <- linear x w_up ;;
  sw <- swiglu gate up ;;
  w_down <- lookup state (expert_key li e "down") ;;
  out <- linear sw w_down ;;
  ret (expert_outputs ++ [out]).

(** The second loop over the experts: the weighted sum of the outputs. *)
Definition mix (n_experts n_embd : nat) (router_probs : list Value)
  (expert_outputs : list (list Value)) (output : list Value)
  : M (list Value) :=
  for_range n_experts
    (fun e output =>
       for_range n_embd
         (fun j output =>
            oj <- idx output j ;;
            pe <- idx router_probs e ;;
            out_e <- idx expert_outputs e ;;
            ej <- idx out_e j ;;
            p <- mul pe (inl ej) ;;
            r <- add oj (inl p) ;;
            ret (set_at output j r))
         output)
    output.

(** Part 2 of the layer: the mixture of experts. *)
Definition moe (c : DeepseekConfig) (state : State) (li : nat)
  (x : list Value) : M (list Value) :=
  let residual2 := x in
  x <- rmsnorm x ;;
  w_router <- lookup state (layer_key li "router") ;;
  router_logits <- linear x w_router ;;
  router_probs <- softmax router_logits ;;
  expert_outputs <- for_range (n_experts c) (expert state li x) [] ;;
  output <- zeros (n_embd c) ;;
  output <- mix (n_experts c) (n_embd c) router_probs expert_outputs output ;;
  add_residual output residual2.

(** The body of the loop over the layers. *)
Definition layer (c : DeepseekConfig) (state : State) (posId li : nat)
  (st : list Value * Cache) : M (list Value * Cache) :=
  let '(x, keysLatentCache) := st in
  r <- attention c state posId li x keysLatentCache ;;
  let '(x, keysLatentCache) := r in
  x <- moe c state li x ;;
  ret (x, keysLatentCache).

Definition forward (c : DeepseekConfig) (state : State) (tokenId posId : nat)
  (keysLatentCache : Cache) : M (list Value * Cache) :=
  wte <- lookup state "wte" ;;
  x <- idx wte tokenId ;;
  x <- rmsnorm x ;;
  st <- for_range (n_layer c) (layer c state posId) (x, keysLatentCache) ;;
  let '(x, keysLatentCache) := st in
  x <- rmsnorm x ;;
  lm_head <- lookup state "lm_head" ;;
  logits <- linear x lm_head ;;
  ret (logits, keysLatentCache).

(** [Deepseek.load], after the file has been read into [floatArray]. *)
Definition load (params : list Value) (floatArray : list R) : M (list Value) :=
  load_params params floatArray.

End Deepseek.

(** ** The shared driver *)

Module Driver.

Import Num Autograd Store Ops.
Local Open Scope m_scope.

(** What [train] and [infere] use of a model, whichever class it belongs to:
    [model.config.n_layer], [model.config.block_size] and
    [model.forward(tokenId, posId, keys, values)].  [K] and [V] are the types
    of the entries of the two caches. *)
Record Model (K V : Type) := {
  n_layer : nat;
  block_size : nat;
  forward : nat -> nat -> list (list K) -> list (list V) ->
            M (list Value * list (list K) * list (list V))
}.

Arguments n_layer {K V} _.
Arguments block_size {K V} _.
Arguments forward {K V} _ _ _ _ _.

(** Modelled from the spec: the class [GPT] belongs to [models/gpt.ts],
    which is not among the sources.  The specification describes Variant A
    as [gpt.ts] computes it, so [forward] is the function [gpt] of [gpt.ts]
    with the hyperparameters read from the configuration. *)
Definition of_gpt (c : GPT.Config) (state : State)
  : Model (list Value) (list Value) :=
  {| n_layer := GPT.n_layer c;
     block_size := GPT.block_size c;
     forward := GPT.gpt c state |}.

Definition of_llama (c : Llama.LlamaConfig) (state : State)
  : Model (list (list Value)) (list (list Value)) :=
  {| n_layer := Llama.n_layer c;
     block_size := Llama.block_size c;
     forward := Llama.forward c state |}.

(** [Deepseek.forward] declares three parameters.  A call with four
    arguments binds the first three and drops the fourth, so the array
    passed as [values] is neither read nor written and is still what the
    caller holds after the call.  [V] is the type the caller gives to the
    entries of that array. *)
Definition of_deepseek (V : Type) (c : Deepseek.DeepseekConfig) (state : State)
  : Model (list Value) V :=
  {| n_layer := Deepseek.n_layer c;
     block_size := Deepseek.block_size c;
     forward := fun tokenId posId keys values =>
                  r <- Deepseek.forward c state tokenId posId keys ;;
                  ret (fst r, snd r, values) |}.

(** [Array.from({ length: n_layer }, () => [])] *)
Definition fresh_cache {A} (n_layer : nat) : list (list A) := repeat [] n_layer.

(** The body of [for (let pos = 0; pos < n; pos++)] in [train]. *)
Definition train_position {K V} (model : Model K V) (tokens : list nat)
  (pos : nat) (st : list Value * list (list K) * list (list V))
  : M (list Value * list (list K) * list (list V)) :=
  let '(losses, keys, values) := st in
  tok <- idx tokens pos ;;
  r <- forward model tok pos keys values ;;
  let '(logits, keys, values) := r in
  probs <- softmax logits ;;
  next <- idx tokens (pos + 1) ;;
  p <- idx probs next ;;
  l <- log p ;;
  nl <- neg l ;;
  ret (losses ++ [nl], keys, values).

(** One step of [train] on the encoded document [tokens], up to and
    including [loss.backward()].  The optimizer step that follows is an
    external collaborator.  The two caches are returned for inspection. *)
Definition train_step {K V} (model : Model K V) (tokens : list nat)
  : M (Value * list (list K) * list (list V)) :=
  let n := Nat.min (block_size model) (length tokens - 1) in
  let keys := fresh_cache (n_layer model) in
  let values := fresh_cache (n_layer model) in
  st <- for_range n (train_position model tokens) ([], keys, values) ;;
  let '(losses, keys, values) := st in
  s <- reduce add2 losses ;;
  loss <- div s (inr (INR n)) ;;
  backward loss ;;;
  ret (loss, keys, values).

(** The loop [for (let pos = 0; pos < block_size; pos++)] of [infere], from
    position [pos] on for at most [fuel] positions.  [choice] stands for
    [weightedChoice], which draws from [Math.random]. *)
Fixpoint infere_from {K V} (model : Model K V) (BOS : nat)
  (choice : list R -> nat) (fuel pos tokenId : nat)
  (sample : list nat) (keys : list (list K)) (values : list (list V))
  : M (list nat * list (list K) * list (list V)) :=
  match fuel with
  | O => ret (sample, keys, values)
  | S fuel' =>
    r <- forward model tokenId pos keys values ;;
    let '(logits, keys, values) := r in
    scaled <- mapM (fun l => div l (inr 0.5%R)) logits ;;
    probs <- softmax scaled ;;
    ps <- mapM get_data probs ;;
    let idx := choice ps in
    if Nat.eqb idx BOS then ret (sample, keys, values)
    else infere_from model BOS choice fuel' (S pos) idx (sample ++ [idx])
                     keys values
  end.

(** One sample of [infere]. *)
Definition infere_sample {K V} (model : Model K V) (BOS : nat)
  (choice : list R -> nat) : M (list nat * list (list K) * list (list V)) :=
  infere_from model BOS choice (block_size model) 0 BOS []
              (fresh_cache (n_layer model)) (fresh_cache (n_layer model)).

(** A sequence of calls of [forward] on the same pair of caches, one per
    pair [(tokenId, posId)], as both loops above make them. *)
Fixpoint forward_calls {K V} (model : Model K V) (args : list (nat * nat))
  (keys : list (list K)) (values : list (list V))
  : M (list (list Value) * list (list K) * list (list V)) :=
  match args with
  | [] => ret ([], keys, values)
  | (tokenId, posId) :: rest =>
    r <- forward model tokenId posId keys values ;;
    let '(logits, keys, values) := r in
    r' <- forward_calls model rest keys values ;;
    let '(outs, keys, values) := r' in
    ret (logits :: outs, keys, values)
  end.

End Driver.


(** ** The rest of [gpt.ts]: utilities, tokenizer, parameters, optimizer *)

Module Script.

Import Num Autograd Store Ops.
Local Open Scope R_scope.
Local Open Scope m_scope.

(** [Math.random()] answers a number of the interval [[0, 1)].  A function
    that draws takes the numbers it draws as arguments. *)
Definition unit_interval (r : R) : Prop := 0 <= r < 1.

(** [randn(mean, std)] (Box-Muller), from the two numbers [r1] and [r2] it
    draws, in this order. *)
Definition randn (mean std r1 r2 : R) : R :=
  let u := 1 - r1 in
  let v := r2 in
  mean + std * sqrt (-2 * ln u) * cos (2 * PI * v).

(** [Math.floor(x)] as an array index, for [0 <= x]. *)
Definition floor_index (x : R) : nat := Z.to_nat (Int_part x).

(** [arr[i] = x] for an index inside the array. *)
Fixpoint store {T} (arr : list T) (i : nat) (x : T) : list T :=
  match arr, i with
  | [], _ => []
  | _ :: rest, O => x :: rest
  | y :: rest, S i' => y :: store rest i' x
  end.

(** [[arr[i], arr[j]] = [arr[j]!, arr[i]!]]: the right-hand side is read
    first, then [arr[i]] and [arr[j]] are written in this order.  An index
    past the end of the array reads [undefined] and makes the write put
    [undefined] into the array: [None] stands for an array that is no longer
    an array of elements of [T]. *)
Definition swap {T} (arr : list T) (i j : nat) : option (list T) :=
  match nth_error arr j, nth_error arr i with
  | Some aj, Some ai => Some (store (store arr i aj) j ai)
  | _, _ => None
  end.

(** The loop of [shuffle], from index [i] down to 1.  [random i] is the
    number drawn in the iteration of index [i]. *)
Fixpoint shuffle_from {T} (random : nat -> R) (i : nat) (arr : list T)
  : option (list T) :=
  match i with
  | O => Some arr
  | S i' =>
    let j := floor_index (random i * INR (i + 1)) in
    match swap arr i j with
    | Some arr' => shuffle_from random i' arr'
    | None => None
    end
  end.

Definition shuffle {T} (random : nat -> R) (arr : list T) : option (list T) :=
  shuffle_from random (length arr - 1) arr.

(** The loop of [weightedChoice] from index [i] on, [r] being what is left
    of the drawn number; [None] when the loop ends without returning. *)
Fixpoint choice_from (weights : list R) (r : R) (i : nat) : option nat :=
  match weights with
  | [] => None
  | w :: rest =>
    let r := r - w in
    if Rle_dec r 0 then Some i else choice_from rest r (S i)
  end.

(** [weightedChoice(weights)], from the number [random] it draws.  The
    result is [weights.length - 1] when the loop ends without returning,
    which is [-1] on the empty array. *)
Definition weightedChoice (weights : list R) (random : R) : Z :=
  let sum := fold_left Rplus weights 0 in
  let r := random * sum in
  match choice_from weights r 0 with
  | Some i => Z.of_nat i
  | None => (Z.of_nat (length weights) - 1)%Z
  end.

(** *** The tokenizer *)

(** A character of the Basic Multilingual Plane is its UTF-16 code unit;
    [sort()] without a comparator orders strings of one such character by
    code unit. *)
Abbreviation Char := nat (only parsing).

(** [new Set(s)], listed in insertion order: the distinct characters of [s]
    in the order of their first occurrence, after those of [seen]. *)
Fixpoint distinct (s : list Char) (seen : list Char) : list Char :=
  match s with
  | [] => seen
  | c :: s' =>
    if existsb (Nat.eqb c) seen then distinct s' seen
    else distinct s' (seen ++ [c])
  end.

Fixpoint insert (c : Char) (l : list Char) : list Char :=
  match l with
  | [] => [c]
  | x :: rest => if Nat.leb c x then c :: l else x :: insert c rest
  end.

(** [l.sort()] *)
Definition sort (l : list Char) : list Char := fold_right insert [] l.

(** [l.indexOf(c)], from index [i] on: [-1] when [c] does not occur. *)
Fixpoint indexOf_from (l : list Char) (c : Char) (i : nat) : Z :=
  match l with
  | [] => (-1)%Z
  | x :: rest => if Nat.eqb x c then Z.of_nat i else indexOf_from rest c (S i)
  end.

Definition indexOf (l : list Char) (c : Char) : Z := indexOf_from l c 0.

(** [Array.from(new Set(docs.join(""))).sort()] *)
Definition uchars (docs : list (list Char)) : list Char :=
  sort (distinct (concat docs) []).

Definition BOS (docs : list (list Char)) : nat := length (uchars docs).

Definition vocabSize (docs : list (list Char)) : nat := length (uchars docs) + 1.

(** [[BOS, ...Array.from(doc).map((c) => uchars.indexOf(c)), BOS]] *)
Definition tokens (docs : list (list Char)) (doc : list Char) : list Z :=
  [Z.of_nat (BOS docs)] ++ map (indexOf (uchars docs)) doc
    ++ [Z.of_nat (BOS docs)].

(** [uchars[idx]] *)
Definition decode (docs : list (list Char)) (idx : nat) : option Char :=
  nth_error (uchars docs) idx.

(** *** The parameters *)

(** [matrix(nout, nin, std)]: [nout] rows of [nin] new leaves, made row by
    row.  [random] lists the numbers that [Math.random] answers, of which
    [k] have been drawn before the call; every entry draws two. *)
Definition matrix (nout nin : nat) (std : R) (random : nat -> R) (k : nat)
  : M (list (list Value)) :=
  mapM (fun i =>
          mapM (fun j =>
                  let d := (k + 2 * (i * nin + j))%nat in
                  new_Value (randn 0 std (random d) (random (S d))) [] [])
               (seq 0 nin))
       (seq 0 nout).

(** The object [state], as the list of its properties in insertion order.
    No key of this code base is an integer index, so [Object.values] lists
    the values in this order. *)
Abbreviation Entries := (list (string * list (list Value))) (only parsing).

(** [state[key] = w] *)
Fixpoint assign (state : list (string * list (list Value))) (key : string)
  (w : list (list Value)) : list (string * list (list Value)) :=
  match state with
  | [] => [(key, w)]
  | (k, x) :: rest =>
    if String.eqb k key then (k, w) :: rest else (k, x) :: assign rest key w
  end.

(** [state[key]] *)
Definition state_of (state : list (string * list (list Value))) : State :=
  fun key => option_map snd (find (fun e => String.eqb (fst e) key) state).

(** [Object.values(state).forEach((mat) => mat.forEach((row) =>
    row.forEach((p) => params.push(p))))] *)
Definition flatten (state : list (string * list (list Value))) : list Value :=
  concat (concat (map snd state)).

(** The statement [state[key] = matrix(nout, nin, std)], on the object and
    the number of draws made so far. *)
Definition define (random : nat -> R) (key : string) (nout nin : nat) (std : R)
  (st : list (string * list (list Value)) * nat)
  : M (list (string * list (list Value)) * nat) :=
  let '(state, k) := st in
  w <- matrix nout nin std random k ;;
  ret (assign state key w, (k + 2 * (nout * nin))%nat).

(** The body of the loop that makes the parameters of layer [i]. *)
Definition layer_parameters (c : GPT.Config) (random : nat -> R) (i : nat)
  (st : list (string * list (list Value)) * nat)
  : M (list (string * list (list Value)) * nat) :=
  let n := GPT.n_embd c in
  st <- define random (layer_key i "attn_wq") n n 0.02 st ;;
  st <- define random (layer_key i "attn_wk") n n 0.02 st ;;
  st <- define random (layer_key i "attn_wv") n n 0.02 st ;;
  st <- define random (layer_key i "attn_wo") n n 0 st ;;
  st <- define random (layer_key i "mlp_fc1") (4 * n) n 0.02 st ;;
  define random (layer_key i "mlp_fc2") n (4 * n) 0 st.

(** The parameters of [gpt.ts]: the object [state] and the array
    [params]. *)
Definition parameters (c : GPT.Config) (vocabSize : nat) (random : nat -> R)
  : M (list (string * list (list Value)) * list Value) :=
  let n := GPT.n_embd c in
  st <- define random "wte" vocabSize n 0.02 ([], 0%nat) ;;
  st <- define random "wpe" (GPT.block_size c) n 0.02 st ;;
  st <- define random "lm_head" vocabSize n 0.02 st ;;
  st <- for_range (GPT.n_layer c) (layer_parameters c random) st ;;
  ret (fst st, flatten (fst st)).

(** *** The optimizer *)

Definition lr : R := 1e-2.
Definition beta1 : R := 0.9.
Definition beta2 : R := 0.95.
Definition eps : R := 1e-8.

(** [lr * 0.5 * (1 + Math.cos(Math.PI * step / numSteps))] *)
Definition lr_t (step numSteps : nat) : R :=
  lr * 0.5 * (1 + cos (PI * INR step / INR numSteps)).

(** The callback of [params.forEach((p, i) => ..)] on the arrays [m] and
    [v]. *)
Definition adam_param (step numSteps : nat) (mv : list R * list R) (p : Value)
  (i : nat) : M (list R * list R) :=
  let '(m, v) := mv in
  mi <- idx m i ;;
  g <- get_grad p ;;
  let mi := beta1 * mi + (1 - beta1) * g in
  let m := store m i mi in
  vi <- idx v i ;;
  g <- get_grad p ;;
  let vi := beta2 * vi + (1 - beta2) * js_pow g 2 in
  let v := store v i vi in
  let mhat := mi / (1 - js_pow beta1 (INR (step + 1))) in
  let vhat := vi / (1 - js_pow beta2 (INR (step + 1))) in
  d <- get_data p ;;
  set_data p (d - lr_t step numSteps * mhat / (sqrt vhat + eps)) ;;;
  set_grad p 0 ;;;
  ret (m, v).

(** The update that follows [loss.backward()]. *)
Definition adam_update (step numSteps : nat) (params : list Value)
  (mv : list R * list R) : M (list R * list R) :=
  reduce_init (adam_param step numSteps) mv params.

(** One iteration of the training loop on the encoded document [tokens]:
    the forward passes, the loss, [loss.backward()] and the update. *)
Definition training_step (c : GPT.Config) (state : State)
  (params : list Value) (tokens : list nat) (step numSteps : nat)
  (mv : list R * list R) : M (Value * (list R * list R)) :=
  r <- Driver.train_step (Driver.of_gpt c state) tokens ;;
  mv <- adam_update step numSteps params mv ;;
  ret (fst (fst r), mv).

(** A token used as an index of an array of [bound] elements ([wte] and
    the array of the probabilities have one element per token of the
    vocabulary): a negative number is the index of no element, as [bound]
    is. *)
Definition as_index (bound : nat) (z : Z) : nat :=
  if Z.ltb z 0 then bound else Z.to_nat z.

(** The training loop: [for (let step = 0; step < numSteps; step++)] on
    the arrays [m] and [v], which start filled with zeros. *)
Definition training_loop (c : GPT.Config) (state : State)
  (params : list Value) (docs : list (list nat)) (numSteps : nat)
  : M (list R * list R) :=
  for_range numSteps
    (fun step mv =>
       doc <- idx docs (step mod length docs) ;;
       let tokens := map (as_index (vocabSize docs)) (tokens docs doc) in
       r <- training_step c state params tokens step numSteps mv ;;
       ret (snd r))
    (repeat 0 (length params), repeat 0 (length params)).

End Script.


(** ** Construction and storage of the models *)

Module Models.

Import Num Autograd Store Ops Script.
Local Open Scope m_scope.

(** The body of the loop of the constructor of [Llama]. *)
Definition llama_layer (c : Llama.LlamaConfig) (random : nat -> R) (i : nat)
  (st : list (string * list (list Value)) * nat)
  : M (list (string * list (list Value)) * nat) :=
  let n := Llama.n_embd c in
  let kv := (Llama.n_kv_head c * Llama.head_dim c)%nat in
  st <- define random (layer_key i "attn_wq") n n 0.02 st ;;
  st <- define random (layer_key i "attn_wk") kv n 0.02 st ;;
  st <- define random (layer_key i "attn_wv") kv n 0.02 st ;;
  st <- define random (layer_key i "attn_wo") n n 0.02 st ;;
  st <- define random (layer_key i "ffn_gate") (4 * n) n 0.02 st ;;
  st <- define random (layer_key i "ffn_up") (4 * n) n 0.02 st ;;
  define random (layer_key i "ffn_down") n (4 * n) 0.02 st.

(** [new Llama(config, tok)]: the fields [state] and [params]. *)
Definition new_Llama (c : Llama.LlamaConfig) (vocabSize : nat)
  (random : nat -> R) : M (list (string * list (list Value)) * list Value) :=
  let n := Llama.n_embd c in
  st <- define random "wte" vocabSize n 0.02 ([], 0%nat) ;;
  st <- define random "lm_head" vocabSize n 0.02 st ;;
  st <- for_range (Llama.n_layer c) (llama_layer c random) st ;;
  ret (fst st, flatten (fst st)).

(** The body of the loop over the experts in the constructor of
    [Deepseek]. *)
Definition deepseek_expert (c : Deepseek.DeepseekConfig) (random : nat -> R)
  (i e : nat) (st : list (string * list (list Value)) * nat)
  : M (list (string * list (list Value)) * nat) :=
  let n := Deepseek.n_embd c in
  st <- define random (expert_key i e "gate") (4 * n) n 0.02 st ;;
  st <- define random (expert_key i e "up") (4 * n) n 0.02 st ;;
  define random (expert_key i e "down") n (4 * n) 0.02 st.

(** The body of the loop over the layers in the constructor of
    [Deepseek]. *)
Definition deepseek_layer (c : Deepseek.DeepseekConfig) (random : nat -> R)
  (i : nat) (st : list (string * list (list Value)) * nat)
  : M (list (string * list (list Value)) * nat) :=
  let n := Deepseek.n_embd c in
  let l := Deepseek.latent_dim c in
  st <- define random (layer_key i "attn_wq") n n 0.02 st ;;
  st <- define random (layer_key i "attn_compress_kv") l n 0.02 st ;;
  st <- define random (layer_key i "attn_wkv") n l 0.02 st ;;
  st <- define random (layer_key i "attn_wo") n n 0.02 st ;;
  st <- define random (layer_key i "router") (Deepseek.n_experts c) n 0.02 st ;;
  for_range (Deepseek.n_experts c) (deepseek_expert c random i) st.

(** [new Deepseek(config, tok)]: the fields [state] and [params]. *)
Definition new_Deepseek (c : Deepseek.DeepseekConfig) (vocabSize : nat)
  (random : nat -> R) : M (list (string * list (list Value)) * list Value) :=
  let n := Deepseek.n_embd c in
  st <- define random "wte" vocabSize n 0.02 ([], 0%nat) ;;
  st <- define random "lm_head" vocabSize n 0.02 st ;;
  st <- for_range (Deepseek.n_layer c) (deepseek_layer c random) st ;;
  ret (fst st, flatten (fst st)).

(** [save] of both classes, up to the array that is written to the file:
    [this.params.map((e) => e.data)]. *)
Definition save (params : list Value) : M (list R) := mapM get_data params.

End Models.

(* ================================================================== *)
(** * Specification-level definitions *)
(* ================================================================== *)

(** ** Computation graphs *)

Module Graph.

Import Autograd.
Local Open Scope R_scope.

(** A node created by [new Value(..)] lists children that exist already:
    every child has a smaller index.  This is the acyclicity invariant of the
    data model.  The two arrays of a node have the same length. *)
Definition wf_node (i : nat) (n : Node) : Prop :=
  Forall (fun c => (c < i)%nat) (_children n) /\
  length (_children n) = length (_localGrads n).

Definition wf_heap (h : Heap) : Prop :=
  forall i n, nth_error h i = Some n -> wf_node i n.

(** The pairs [(parent, coefficient)] of a node. *)
Definition edges (h : Heap) (u : Value) : list (Value * R) :=
  match nth_error h u with
  | Some n => combine (_children n) (_localGrads n)
  | None => []
  end.

Definition grad_of (h : Heap) (v : Value) : R :=
  match nth_error h v with
  | Some n => grad n
  | None => 0
  end.

(** [v] can be reached from [u] along [_children]. *)
Inductive reachable (h : Heap) : Value -> Value -> Prop :=
| reach_refl : forall u, (u < length h)%nat -> reachable h u u
| reach_step : forall u c lg v,
    In (c, lg) (edges h u) -> reachable h c v -> reachable h u v.

Definition Rsum {A} (f : A -> R) (l : list A) : R :=
  fold_right (fun x acc => f x + acc) 0 l.

(** The derivative of node [u] with respect to node [v], with [v] taken as an
    independent variable: [1] when [u] is [v], and otherwise the chain rule
    over the operands of [u], each weighted by the local partial derivative
    recorded at construction. *)
Fixpoint chain (fuel : nat) (h : Heap) (u v : Value) : R :=
  match fuel with
  | O => 0
  | S fuel' =>
    if Nat.eqb u v then 1
    else Rsum (fun e => snd e * chain fuel' h (fst e) v) (edges h u)
  end.

Definition partial (h : Heap) (u v : Value) : R := chain (S u) h u v.

(** Two heaps that differ in the [grad] fields only. *)
Definition same_graph (h h' : Heap) : Prop :=
  forall i, option_map (with_grad 0) (nth_error h i) =
            option_map (with_grad 0) (nth_error h' i).

(** A list in which every node comes before its children and occurs once:
    the order in which [backward] distributes gradients. *)
Inductive rev_topo (h : Heap) : list Value -> Prop :=
| rt_nil : rev_topo h []
| rt_cons : forall u rest,
    ~ In u rest ->
    (forall c lg, In (c, lg) (edges h u) -> In c rest) ->
    (u < length h)%nat ->
    rev_topo h rest ->
    rev_topo h (u :: rest).

(** Every node of the list is preceded by all its children. *)
Definition postorder (h : Heap) (topo : list Value) : Prop :=
  forall pre x post c lg,
    topo = pre ++ x :: post -> In (c, lg) (edges h x) -> In c pre.

End Graph.

(** ** Assertions about graph-building code *)

Module Hoare.

Import Autograd Graph.

(** The number held by the field [data] of a node. *)
Definition data_of (h : Heap) (v : Value) : option R :=
  option_map data (nth_error h v).

(** [h'] is [h] followed by freshly allocated nodes.  Every new node lists
    children that exist when it is allocated, and every new leaf (a number
    wrapped by [new Value(number)]) holds a constant that satisfies [L]. *)
Definition allocated (L : R -> Prop) (h h' : Heap) : Prop :=
  exists t, h' = h ++ t /\
            forall i n, nth_error t i = Some n ->
                        wf_node (length h + i) n /\
                        (_children n = [] -> L (data n)).

(** [m], started in [h], returns a result and a heap that extends [h] as
    [allocated] describes, and the two satisfy [Q]. *)
Definition runs {A} (L : R -> Prop) (m : M A) (h : Heap)
  (Q : A -> Heap -> Prop) : Prop :=
  exists a h', m h = Some (a, h') /\ allocated L h h' /\ Q a h'.

(** The nodes [vs] hold the numbers [xs]. *)
Definition vec_is (h : Heap) (vs : list Value) (xs : list R) : Prop :=
  Forall2 (fun v x => data_of h v = Some x) vs xs.

(** The rows of [w] hold the rows of [ws]. *)
Definition mat_is (h : Heap) (w : list (list Value)) (ws : list (list R))
  : Prop :=
  Forall2 (vec_is h) w ws.

(** An assertion that survives allocation. *)
Definition stable {A X} (P : Heap -> A -> X -> Prop) : Prop :=
  forall h t a x, P h a x -> P (h ++ t) a x.

Definition any : R -> Prop := fun _ => True.

End Hoare.


(** ** The numeric functions computed by the model operations *)

Module Pure.

Import Num.
Local Open Scope R_scope.

Definition sum_list (l : list R) : R := fold_right Rplus 0 l.

(** [xs.map((x, i) => g(x, i))] for a pure [g], from index [i] on. *)
Fixpoint mapi {X Y} (g : X -> nat -> Y) (xs : list X) (i : nat) : list Y :=
  match xs with
  | [] => []
  | x :: xs' => g x i :: mapi g xs' (S i)
  end.

(** The dot product of a weight row with an input; positions of the input
    past the end of the row are not read. *)
Definition dot (row x : list R) : R :=
  sum_list (map (fun p => fst p * snd p) (combine row x)).

(** Element [i] of the output is the dot product of the input with row
    [i]. *)
Definition linear_R (x : list R) (w : list (list R)) : list R :=
  map (fun row => dot row x) w.

(** Subtract the maximum, exponentiate, divide by the sum. *)
Definition softmax_R (xs : list R) : list R :=
  let es := map (fun x => exp (x - Math_max xs)) xs in
  map (fun e => e / sum_list es) es.

Definition mean_square (xs : list R) : R :=
  sum_list (map (fun x => x * x) xs) / INR (length xs).

(** RMS normalization with the constant [eps]:
    [scale = (mean_square + eps) ^ (-0.5)]. *)
Definition rmsnorm_eps (eps : R) (xs : list R) : list R :=
  map (fun x => x * Rpower (mean_square xs + eps) (-0.5)) xs.

Definition rmsnorm_R (xs : list R) : list R := rmsnorm_eps 1e-5 xs.

(** [f 0 + f 1 + ... + f (n - 1)] *)
Definition sum_n (n : nat) (f : nat -> R) : R := sum_list (map f (seq 0 n)).

(** The sum of the products of the first [n] entries. *)
Definition dot_n (n : nat) (q k : list R) : R :=
  sum_n n (fun j => nth j q 0 * nth j k 0).

(** Scaled dot-product attention of one query against the keys [ks] and the
    values [vs] of the cached positions: the logit of position [t] is
    [q . ks_t / sqrt hd], the weights are the softmax of the logits over the
    cached positions, and entry [j] of the result is the sum over the cached
    positions of weight times [vs_t[j]]. *)
Definition attention_R (hd : nat) (q : list R) (ks vs : list (list R))
  : list R :=
  let w := softmax_R (map (fun k => dot_n hd q k / sqrt (INR hd)) ks) in
  map (fun j => sum_n (length vs) (fun t => nth t w 0 * nth j (nth t vs []) 0))
      (seq 0 hd).

(** The rotation of the pair [i] of [xs] by the angle of position [pos]. *)
Definition rope_pair (xs : list R) (pos d i : nat) : list R :=
  let a := Ops.rope_angle i d pos in
  [nth (2 * i) xs 0 * cos a - nth (2 * i + 1) xs 0 * sin a;
   nth (2 * i) xs 0 * sin a + nth (2 * i + 1) xs 0 * cos a].

Definition rope_R (xs : list R) (pos d : nat) : list R :=
  flat_map (rope_pair xs pos d) (seq 0 (d / 2)).

(** [x + res], entry by entry. *)
Definition residual_R (xs rs : list R) : list R :=
  mapi (fun x i => x + nth i rs 0) xs 0.

(** [silu(gate) * up], entry by entry. *)
Definition swiglu_R (gate up : list R) : list R :=
  mapi (fun g i => g * Autograd.sigmoid g * nth i up 0) gate 0.

(** One expert: a SwiGLU feed-forward of the input. *)
Definition expert_R (xs : list R) (Wg Wu Wd : list (list R)) : list R :=
  linear_R (swiglu_R (linear_R xs Wg) (linear_R xs Wu)) Wd.

(** The soft mixture of experts: the router weights are the softmax of the
    router logits of the normalized input, every expert is evaluated on the
    normalized input, entry [j] of the mixture is the sum over all experts of
    router weight times expert output, and the input is added back. *)
Definition moe_R (n_experts n_embd : nat) (xs : list R) (Wr : list (list R))
  (Wg Wu Wd : nat -> list (list R)) : list R :=
  let xn := rmsnorm_R xs in
  let p := softmax_R (linear_R xn Wr) in
  residual_R
    (map (fun j =>
            sum_n n_experts
              (fun e => nth e p 0 * nth j (expert_R xn (Wg e) (Wu e) (Wd e)) 0))
         (seq 0 n_embd))
    xs.

(** The numbers held by nodes, read off a heap. *)
Definition datum (h : Autograd.Heap) (v : nat) : R :=
  match nth_error h v with
  | Some n => Autograd.data n
  | None => 0
  end.

Definition data_vec (h : Autograd.Heap) (v : list nat) : list R :=
  map (datum h) v.

Definition data_mat (h : Autograd.Heap) (w : list (list nat)) : list (list R) :=
  map (data_vec h) w.

End Pure.

(** ** Shapes *)

Module Shapes.

Import Autograd Store.

(** [v] is a vector of [n] nodes of the heap. *)
Definition vec_ok (h : Heap) (n : nat) (v : list Value) : Prop :=
  length v = n /\ Forall (fun x => x < length h) v.

(** [w] is a matrix of [rows] rows of [cols] nodes of the heap. *)
Definition mat_ok (h : Heap) (rows cols : nat) (w : list (list Value)) : Prop :=
  length w = rows /\ Forall (vec_ok h cols) w.

(** The parameter store holds a matrix of the given shape under [key]. *)
Definition has_matrix (h : Heap) (state : State) (key : string)
  (rows cols : nat) : Prop :=
  exists w, state key = Some w /\ mat_ok h rows cols w.

(** The matrices of expert [e] of layer [li], and the numbers they hold. *)
Definition expert_ok (h : Heap) (state : State) (li e : nat) (n_in n_out : nat)
  (Wg Wu Wd : list (list R)) : Prop :=
  exists gm um dm,
    state (expert_key li e "gate") = Some gm /\ Hoare.mat_is h gm Wg /\
    state (expert_key li e "up") = Some um /\ Hoare.mat_is h um Wu /\
    state (expert_key li e "down") = Some dm /\ Hoare.mat_is h dm Wd /\
    Forall (fun row => length row <= n_in)%nat gm /\
    Forall (fun row => length row <= n_in)%nat um /\
    (length gm <= length um)%nat /\
    Forall (fun row => length row <= length gm)%nat dm /\
    (n_out <= length dm)%nat.


(** A cache with one list per layer, every entry of which satisfies [P]. *)
Definition cache_ok {K} (P : K -> Prop) (n_layer : nat) (cache : list (list K))
  : Prop :=
  length cache = n_layer /\ Forall (Forall P) cache.

(** [cache'] is [cache] with exactly one entry appended to the list of
    every layer below [n], the earlier entries being kept in place. *)
Definition appended {K} (n : nat) (cache cache' : list (list K)) : Prop :=
  length cache' = length cache /\
  forall li, (li < length cache)%nat ->
    exists old, nth_error cache li = Some old /\
      if Nat.ltb li n
      then exists entry, nth_error cache' li = Some (old ++ [entry])
      else nth_error cache' li = Some old.

(** [cache'] is [cache] with exactly [k] entries appended to the list of
    every layer, the earlier entries being kept in place and in order. *)
Definition extended {K} (k : nat) (cache cache' : list (list K)) : Prop :=
  length cache' = length cache /\
  forall li old, nth_error cache li = Some old ->
    exists new, nth_error cache' li = Some (old ++ new) /\ length new = k.

(** The two caches hold the same number of entries in every layer. *)
Definition in_step {K V} (keys : list (list K)) (values : list (list V))
  : Prop :=
  forall li, length (nth li keys []) = length (nth li values []).

(** The state of the two caches when the loop over the layers reaches
    layer [li], [keys0] and [values0] being the caches the call received. *)
Definition caches_ok {K V} (PK : K -> Prop) (PV : V -> Prop) (n_layer : nat)
  (keys0 : list (list K)) (values0 : list (list V)) (li : nat)
  (keys : list (list K)) (values : list (list V)) : Prop :=
  cache_ok PK n_layer keys /\ cache_ok PV n_layer values /\
  in_step keys values /\
  appended li keys0 keys /\ appended li values0 values.

(** Every layer of [cache] holds exactly [k] entries. *)
Definition full {K} (k n_layer : nat) (cache : list (list K)) : Prop :=
  length cache = n_layer /\ Forall (fun l => length l = k) cache.

(** The numbers held by the matrix stored under [key]. *)
Definition state_data (h : Heap) (state : State) (key : string)
  : list (list R) :=
  match state key with
  | Some w => Pure.data_mat h w
  | None => []
  end.

(** A parameter store given by the list of its entries. *)
Definition table (entries : list (string * list (list Value))) : State :=
  fun key =>
    option_map snd (find (fun e => String.eqb (fst e) key) entries).

(** A model whose [forward] hands back the cache of the values it
    received. *)
Definition keeps_values {K V} (model : Driver.Model K V) : Prop :=
  forall tok pos keys values h r h',
    Driver.forward model tok pos keys values h = Some (r, h') ->
    snd r = values.

(** What a run of [forward_calls] shows apart from the cache of the
    values: the logits, the cache of the keys and the heap. *)
Definition observed {K V}
  (o : option (list (list Value) * list (list K) * list (list V) * Heap))
  : option (list (list Value) * list (list K) * Heap) :=
  option_map (fun r => (fst (fst (fst r)), snd (fst (fst r)), snd r)) o.

(** The shapes that [gpt.ts] gives to its parameters. *)
Definition gpt_shaped (h : Heap) (c : GPT.Config) (state : State)
  (vocabSize : nat) : Prop :=
  GPT.n_embd c = GPT.n_head c * GPT.head_dim c /\
  (0 < GPT.n_head c)%nat /\ (0 < GPT.head_dim c)%nat /\
  has_matrix h state "wte" vocabSize (GPT.n_embd c) /\
  has_matrix h state "wpe" (GPT.block_size c) (GPT.n_embd c) /\
  has_matrix h state "lm_head" vocabSize (GPT.n_embd c) /\
  forall li, (li < GPT.n_layer c)%nat ->
    has_matrix h state (layer_key li "attn_wq") (GPT.n_embd c) (GPT.n_embd c) /\
    has_matrix h state (layer_key li "attn_wk") (GPT.n_embd c) (GPT.n_embd c) /\
    has_matrix h state (layer_key li "attn_wv") (GPT.n_embd c) (GPT.n_embd c) /\
    has_matrix h state (layer_key li "attn_wo") (GPT.n_embd c) (GPT.n_embd c) /\
    has_matrix h state (layer_key li "mlp_fc1") (4 * GPT.n_embd c) (GPT.n_embd c) /\
    has_matrix h state (layer_key li "mlp_fc2") (GPT.n_embd c) (4 * GPT.n_embd c).

(** The shapes that the constructor of [Llama] gives to its parameters. *)
Definition llama_shaped (h : Heap) (c : Llama.LlamaConfig) (state : State)
  (vocabSize : nat) : Prop :=
  Llama.n_embd c = Llama.n_head c * Llama.head_dim c /\
  Llama.n_head c = Llama.n_rep c * Llama.n_kv_head c /\
  (0 < Llama.n_kv_head c)%nat /\ (0 < Llama.n_rep c)%nat /\
  (0 < Llama.head_dim c)%nat /\ Nat.Even (Llama.head_dim c) /\
  has_matrix h state "wte" vocabSize (Llama.n_embd c) /\
  has_matrix h state "lm_head" vocabSize (Llama.n_embd c) /\
  forall li, (li < Llama.n_layer c)%nat ->
    has_matrix h state (layer_key li "attn_wq") (Llama.n_embd c) (Llama.n_embd c) /\
    has_matrix h state (layer_key li "attn_wk")
               (Llama.n_kv_head c * Llama.head_dim c) (Llama.n_embd c) /\
    has_matrix h state (layer_key li "attn_wv")
               (Llama.n_kv_head c * Llama.head_dim c) (Llama.n_embd c) /\
    has_matrix h state (layer_key li "attn_wo") (Llama.n_embd c) (Llama.n_embd c) /\
    has_matrix h state (layer_key li "ffn_gate") (4 * Llama.n_embd c) (Llama.n_embd c) /\
    has_matrix h state (layer_key li "ffn_up") (4 * Llama.n_embd c) (Llama.n_embd c) /\
    has_matrix h state (layer_key li "ffn_down") (Llama.n_embd c) (4 * Llama.n_embd c).

(** The shapes that the constructor of [Deepseek] gives to its
    parameters. *)
Definition deepseek_shaped (h : Heap) (c : Deepseek.DeepseekConfig)
  (state : State) (vocabSize : nat) : Prop :=
  Deepseek.n_embd c = Deepseek.n_head c * Deepseek.head_dim c /\
  (2 <= Deepseek.n_head c)%nat /\
  (0 < Deepseek.head_dim c)%nat /\ Nat.Even (Deepseek.head_dim c) /\
  (0 < Deepseek.n_experts c)%nat /\
  has_matrix h state "wte" vocabSize (Deepseek.n_embd c) /\
  has_matrix h state "lm_head" vocabSize (Deepseek.n_embd c) /\
  forall li, (li < Deepseek.n_layer c)%nat ->
    has_matrix h state (layer_key li "attn_wq")
               (Deepseek.n_embd c) (Deepseek.n_embd c) /\
    has_matrix h state (layer_key li "attn_compress_kv")
               (Deepseek.latent_dim c) (Deepseek.n_embd c) /\
    has_matrix h state (layer_key li "attn_wkv")
               (Deepseek.n_embd c) (Deepseek.latent_dim c) /\
    has_matrix h state (layer_key li "attn_wo")
               (Deepseek.n_embd c) (Deepseek.n_embd c) /\
    has_matrix h state (layer_key li "router")
               (Deepseek.n_experts c) (Deepseek.n_embd c) /\
    forall e, (e < Deepseek.n_experts c)%nat ->
      has_matrix h state (expert_key li e "gate")
                 (4 * Deepseek.n_embd c) (Deepseek.n_embd c) /\
      has_matrix h state (expert_key li e "up")
                 (4 * Deepseek.n_embd c) (Deepseek.n_embd c) /\
      has_matrix h state (expert_key li e "down")
                 (Deepseek.n_embd c) (4 * Deepseek.n_embd c).

(** What holds of the parameters and of the caches between two calls of
    [forward], for each variant. *)
Definition gpt_inv (c : GPT.Config) (state : State) (vocab : nat) (h : Heap)
  (keys values : GPT.Cache) : Prop :=
  gpt_shaped h c state vocab /\
  cache_ok (vec_ok h (GPT.n_embd c)) (GPT.n_layer c) keys /\
  cache_ok (vec_ok h (GPT.n_embd c)) (GPT.n_layer c) values /\
  in_step keys values.

Definition llama_inv (c : Llama.LlamaConfig) (state : State) (vocab : nat)
  (h : Heap) (keys values : Llama.Cache) : Prop :=
  llama_shaped h c state vocab /\
  cache_ok (mat_ok h (Llama.n_kv_head c) (Llama.head_dim c))
           (Llama.n_layer c) keys /\
  cache_ok (mat_ok h (Llama.n_kv_head c) (Llama.head_dim c))
           (Llama.n_layer c) values /\
  in_step keys values.

Definition deepseek_inv {V} (c : Deepseek.DeepseekConfig) (state : State)
  (vocab : nat) (h : Heap) (keys : Deepseek.Cache) (values : list (list V))
  : Prop :=
  deepseek_shaped h c state vocab /\
  cache_ok (vec_ok h (Deepseek.latent_dim c)) (Deepseek.n_layer c) keys.

End Shapes.

(** ** The numeric function of a graph *)

Module Trace.

Import Num Autograd Pure.
Local Open Scope R_scope.

(** The operator that made a node.  The heap records the data, the operands
    and the local gradients of a node but not the operator; a trace lists
    one operator per node of the heap. *)
Inductive Op : Type :=
| OLeaf
| OAdd (a b : Value)
| OMul (a b : Value)
| OPow (a : Value) (p : R)
| OLog (a : Value)
| OExp (a : Value)
| ORelu (a : Value)
| OSilu (a : Value).

Definition op_children (op : Op) : list Value :=
  match op with
  | OLeaf => []
  | OAdd a b | OMul a b => [a; b]
  | OPow a _ | OLog a | OExp a | ORelu a | OSilu a => [a]
  end.

(** The number an operator computes from the numbers [val] of its operands;
    a leaf holds its own number [self]. *)
Definition op_data (op : Op) (self : R) (val : Value -> R) : R :=
  match op with
  | OLeaf => self
  | OAdd a b => val a + val b
  | OMul a b => val a * val b
  | OPow a p => js_pow (val a) p
  | OLog a => ln (val a)
  | OExp a => Rtrigo_def.exp (val a)
  | ORelu a => Rmax 0 (val a)
  | OSilu a => val a * sigmoid (val a)
  end.

(** The local gradients an operator records. *)
Definition op_grads (op : Op) (val : Value -> R) : list R :=
  match op with
  | OLeaf => []
  | OAdd _ _ => [1; 1]
  | OMul a b => [val b; val a]
  | OPow a p => [p * js_pow (val a) (p - 1)]
  | OLog a => [1 / val a]
  | OExp a => [Rtrigo_def.exp (val a)]
  | ORelu a => [step (val a)]
  | OSilu a => [sigmoid (val a) * (1 + val a * (1 - sigmoid (val a)))]
  end.

(** The node [n] of the heap [h] is what the operator [op] allocates. *)
Definition made_by (h : Heap) (op : Op) (n : Node) : Prop :=
  _children n = op_children op /\
  _localGrads n = op_grads op (datum h) /\
  data n = op_data op (data n) (datum h).

(** The trace [ops] tells how every node of [h] was made. *)
Definition explains (ops : list Op) (h : Heap) : Prop :=
  length ops = length h /\
  forall i op n,
    nth_error ops i = Some op -> nth_error h i = Some n -> made_by h op n.

(** The numbers of the first [k] nodes when the node [v] is given the
    number [x] and every node after it is computed again. *)
Fixpoint vals (ops : list Op) (h : Heap) (v : Value) (x : R) (k : nat)
  : list R :=
  match k with
  | O => []
  | S k' =>
    let acc := vals ops h v x k' in
    acc ++ [if Nat.eqb k' v then x
            else op_data (nth k' ops OLeaf) (datum h k')
                         (fun a => nth a acc 0)]
  end.

(** The number of node [u] as a function of the number [x] of node [v]. *)
Definition value_at (ops : list Op) (h : Heap) (v : Value) (x : R)
  (u : Value) : R :=
  nth u (vals ops h v x (S u)) 0.

(** The operands at which the operator is differentiable. *)
Definition smooth_op (op : Op) (val : Value -> R) : Prop :=
  match op with
  | OPow a p =>
    0 < val a \/ exists n : Z, p = IZR n /\ (val a <> 0 \/ (1 <= n)%Z)
  | OLog a => 0 < val a
  | ORelu a => val a <> 0
  | _ => True
  end.

Definition smooth (ops : list Op) (h : Heap) : Prop :=
  Forall (fun op => smooth_op op (datum h)) ops.

End Trace.

(* ================================================================== *)
(** ** Invariants of the loops *)

Module Invariants.

Import Num Autograd Store Graph.
Local Open Scope R_scope.
Local Open Scope m_scope.

(** What the traversal keeps true of [visited] and [topo]: the nodes
    finished so far are in post-order and have all been visited. *)
Definition dfs_good (h : Heap) (st : dfs_state) : Prop :=
  rev_topo h (rev (snd st)) /\ incl (snd st) (fst st).

(** The loop [v._children.forEach(build)]. *)
Definition build_children (fuel : nat) (h : Heap) (cs : list Value)
  (st : option dfs_state) : option dfs_state :=
  fold_left (fun acc c => match acc with
                          | Some st' => build fuel h c st'
                          | None => None
                          end) cs st.

(** The order [topo] computed by [backward] for the root [root]. *)
Definition topo_of (h : Heap) (root : Value) : option (list Value) :=
  option_map snd (build (length h) h root ([], [])).

(** The contribution that distributing from a node with the pairs [es] and
    gradient [g] makes to the gradient of [w]. *)
Definition contrib (es : list (Value * R)) (g : R) (w : Value) : R :=
  Rsum (fun e => if Nat.eqb (fst e) w then snd e * g else 0) es.

(** The anonymous callback of [v._children.forEach(..)] in [backward]. *)
Definition pass_grad (v : Value) (lgs : list R) (child : Value) (j : nat)
  : M unit :=
  lg <- idx lgs j ;;
  g <- get_grad v ;;
  add_grad child (lg * g)%R.

(** The key/value head that a cached position offers at index [kv]. *)
Definition has_head (hd kv : nat) (k_t : list (list Value)) : Prop :=
  exists k, nth_error k_t kv = Some k /\ (hd <= length k)%nat.

End Invariants.

(** ** Small instances *)

Module Examples.

Import Num Autograd Store Ops Shapes.
Local Open Scope R_scope.

(** A graph with fan-out:  [a = 2], [b = 3], [c = a * b], [d = c + a]. *)
Definition fanout_heap : Heap :=
  [ mkNode 2 0 [] [];
    mkNode 3 0 [] [];
    mkNode 6 0 [0%nat; 1%nat] [3; 2];
    mkNode 8 0 [2%nat; 0%nat] [1; 1] ].

(** The operators that made the nodes of [fanout_heap]. *)
Definition fanout_trace : list Trace.Op :=
  [Trace.OLeaf; Trace.OLeaf; Trace.OMul 0 1; Trace.OAdd 2 0].

(** Heaps of leaves. *)
Definition two_numbers : Heap := [mkNode 2 0 [] []; mkNode 3 0 [] []].


Definition one_parameter : Heap := [mkNode 0 0 [] []].






(** A heap of one leaf, and a parameter store whose matrices have the shapes
    of the three variants with [n_embd = 4], a vocabulary of one token and
    one layer; every entry of every matrix is that leaf. *)
Definition one_leaf : Heap := [mkNode 1 0 [] []].

Definition filled (rows cols : nat) : list (list Value) :=
  repeat (repeat 0%nat cols) rows.

Definition small_state : State :=
  table
    [("wte"%string, filled 1 4); ("wpe"%string, filled 1 4);
     ("lm_head"%string, filled 1 4);
     (layer_key 0 "attn_wq", filled 4 4); (layer_key 0 "attn_wk", filled 4 4);
     (layer_key 0 "attn_wv", filled 4 4); (layer_key 0 "attn_wo", filled 4 4);
     (layer_key 0 "mlp_fc1", filled 16 4); (layer_key 0 "mlp_fc2", filled 4 16);
     (layer_key 0 "ffn_gate", filled 16 4); (layer_key 0 "ffn_up", filled 16 4);
     (layer_key 0 "ffn_down", filled 4 16);
     (layer_key 0 "attn_compress_kv", filled 1 4);
     (layer_key 0 "attn_wkv", filled 4 1);
     (layer_key 0 "router", filled 1 4);
     (expert_key 0 0 "gate", filled 16 4); (expert_key 0 0 "up", filled 16 4);
     (expert_key 0 0 "down", filled 4 16)].

Definition small_gpt : GPT.Config :=
  {| GPT.n_embd := 4; GPT.n_head := 2; GPT.n_layer := 1; GPT.block_size := 1;
     GPT.head_dim := 2 |}.

Definition small_llama : Llama.LlamaConfig :=
  {| Llama.n_embd := 4; Llama.n_head := 2; Llama.n_kv_head := 2;
     Llama.n_layer := 1; Llama.block_size := 1; Llama.head_dim := 2;
     Llama.n_rep := 1 |}.

Definition small_deepseek : Deepseek.DeepseekConfig :=
  {| Deepseek.n_embd := 4; Deepseek.n_head := 2; Deepseek.n_layer := 1;
     Deepseek.block_size := 1; Deepseek.latent_dim := 1;
     Deepseek.n_experts := 1; Deepseek.n_active := 2;
     Deepseek.head_dim := 2 |}.

End Examples.

(** ** Notions used to state facts about the parameters and the optimizer *)

Module Notions.

Import Num Autograd Store Script.
Local Open Scope R_scope.
Local Open Scope string_scope.

(** The moments and the number of a parameter after its update. *)
Definition moment1 (mi g : R) : R := beta1 * mi + (1 - beta1) * g.
Definition moment2 (vi g : R) : R := beta2 * vi + (1 - beta2) * (g * g).
Definition updated (step numSteps : nat) (d mi vi g : R) : R :=
  d - lr_t step numSteps
      * (moment1 mi g / (1 - js_pow beta1 (INR (step + 1))))
      / (sqrt (moment2 vi g / (1 - js_pow beta2 (INR (step + 1)))) + eps).

(** A leaf as [new Value(number)] makes it, before any call of
    [backward]. *)
Definition leaf0 (n : Node) : Prop :=
  grad n = 0 /\ _children n = [] /\ _localGrads n = [].

(** [n] rows of [nin] consecutive references, from [base] on: a matrix
    whose entries were allocated one after the other, row by row. *)
Fixpoint rows_at (base nin n : nat) : list (list Value) :=
  match n with
  | O => []
  | S n' => seq base nin :: rows_at (base + nin) nin n'
  end.

(** What a statement [state[key] = matrix(nout, nin, std)] asks for:
    [(key, nout, nin, std)]. *)
Definition key_of (s : string * nat * nat * R) : string := fst (fst (fst s)).
Definition nout_of (s : string * nat * nat * R) : nat := snd (fst (fst s)).
Definition nin_of (s : string * nat * nat * R) : nat := snd (fst s).
Definition std_of (s : string * nat * nat * R) : R := snd s.

(** A sequence of such statements. *)
Fixpoint defines (random : nat -> R) (specs : list (string * nat * nat * R))
  (st : list (string * list (list Value)) * nat)
  : M (list (string * list (list Value)) * nat) :=
  match specs with
  | [] => ret st
  | s :: rest =>
    bind (define random (key_of s) (nout_of s) (nin_of s) (std_of s) st)
         (defines random rest)
  end.

(** The number of parameters the statements make. *)
Definition size_of (specs : list (string * nat * nat * R)) : nat :=
  fold_right (fun s acc => (nout_of s * nin_of s + acc)%nat) 0%nat specs.

(** The statements of the three constructions. *)
Definition gpt_layer_specs (c : GPT.Config) (i : nat)
  : list (string * nat * nat * R) :=
  let n := GPT.n_embd c in
  [(layer_key i "attn_wq", n, n, 0.02); (layer_key i "attn_wk", n, n, 0.02);
   (layer_key i "attn_wv", n, n, 0.02); (layer_key i "attn_wo", n, n, 0);
   (layer_key i "mlp_fc1", (4 * n)%nat, n, 0.02);
   (layer_key i "mlp_fc2", n, (4 * n)%nat, 0)].

Definition gpt_specs (c : GPT.Config) (vocabSize : nat)
  : list (string * nat * nat * R) :=
  let n := GPT.n_embd c in
  [("wte"%string, vocabSize, n, 0.02);
   ("wpe"%string, GPT.block_size c, n, 0.02);
   ("lm_head"%string, vocabSize, n, 0.02)]
  ++ concat (map (gpt_layer_specs c) (seq 0 (GPT.n_layer c))).

Definition llama_layer_specs (c : Llama.LlamaConfig) (i : nat)
  : list (string * nat * nat * R) :=
  let n := Llama.n_embd c in
  let kv := (Llama.n_kv_head c * Llama.head_dim c)%nat in
  [(layer_key i "attn_wq", n, n, 0.02); (layer_key i "attn_wk", kv, n, 0.02);
   (layer_key i "attn_wv", kv, n, 0.02); (layer_key i "attn_wo", n, n, 0.02);
   (layer_key i "ffn_gate", (4 * n)%nat, n, 0.02);
   (layer_key i "ffn_up", (4 * n)%nat, n, 0.02);
   (layer_key i "ffn_down", n, (4 * n)%nat, 0.02)].

Definition llama_specs (c : Llama.LlamaConfig) (vocabSize : nat)
  : list (string * nat * nat * R) :=
  let n := Llama.n_embd c in
  [("wte"%string, vocabSize, n, 0.02); ("lm_head"%string, vocabSize, n, 0.02)]
  ++ concat (map (llama_layer_specs c) (seq 0 (Llama.n_layer c))).

Definition deepseek_expert_specs (c : Deepseek.DeepseekConfig) (i e : nat)
  : list (string * nat * nat * R) :=
  let n := Deepseek.n_embd c in
  [(expert_key i e "gate", (4 * n)%nat, n, 0.02);
   (expert_key i e "up", (4 * n)%nat, n, 0.02);
   (expert_key i e "down", n, (4 * n)%nat, 0.02)].

Definition deepseek_layer_specs (c : Deepseek.DeepseekConfig) (i : nat)
  : list (string * nat * nat * R) :=
  let n := Deepseek.n_embd c in
  let l := Deepseek.latent_dim c in
  [(layer_key i "attn_wq", n, n, 0.02);
   (layer_key i "attn_compress_kv", l, n, 0.02);
   (layer_key i "attn_wkv", n, l, 0.02); (layer_key i "attn_wo", n, n, 0.02);
   (layer_key i "router", Deepseek.n_experts c, n, 0.02)]
  ++ concat (map (deepseek_expert_specs c i) (seq 0 (Deepseek.n_experts c))).

Definition deepseek_specs (c : Deepseek.DeepseekConfig) (vocabSize : nat)
  : list (string * nat * nat * R) :=
  let n := Deepseek.n_embd c in
  [("wte"%string, vocabSize, n, 0.02); ("lm_head"%string, vocabSize, n, 0.02)]
  ++ concat (map (deepseek_layer_specs c) (seq 0 (Deepseek.n_layer c))).

(** A decimal digit. *)
Definition is_digit (a : Ascii.ascii) : bool :=
  let n := Ascii.nat_of_ascii a in Nat.leb 48 n && Nat.leb n 57.

Fixpoint all_digits (s : string) : bool :=
  match s with
  | EmptyString => true
  | String a rest => is_digit a && all_digits rest
  end.


(** The entry [e] of the object [state] is what the statement [s] makes:
    a matrix of the shape asked for, of leaves that hold numbers drawn by
    [randn(0, std)]. *)
Definition entry_ok (h : Heap) (e : string * list (list Value))
  (s : string * nat * nat * R) : Prop :=
  fst e = key_of s /\
  length (snd e) = nout_of s /\
  Forall (fun row => length row = nin_of s) (snd e) /\
  Forall (Forall (fun v =>
            exists n, nth_error h v = Some n /\ leaf0 n /\
                      exists r1 r2, data n = randn 0 (std_of s) r1 r2))
         (snd e).

(** The leaves that [matrix(nout, nin, std)] allocates, in order, when [k]
    numbers have been drawn before. *)
Definition matrix_nodes (nout nin : nat) (std : R) (random : nat -> R)
  (k : nat) : list Node :=
  flat_map (fun i =>
              map (fun j =>
                     mkNode (randn 0 std (random (k + 2 * (i * nin + j))%nat)
                                   (random (S (k + 2 * (i * nin + j)))))
                            0 [] [])
                  (seq 0 nin))
           (seq 0 nout).

(** The names of the matrices of a layer of [Deepseek]: the key of expert
    [e] is the key of its layer with the name [expert_name e name]. *)
Definition expert_name (e : nat) (name : string) : string :=
  "expert" ++ string_of_nat e ++ "_" ++ name.

Definition deepseek_names (n_experts : nat) : list string :=
  ["attn_wq"; "attn_compress_kv"; "attn_wkv"; "attn_wo"; "router"]
  ++ concat (map (fun e => map (expert_name e) ["gate"; "up"; "down"])
                 (seq 0 n_experts)).

(** *** Where the nodes of a forward pass come from *)

(** A reference the forward pass may hold: a node of [S] (the parameters)
    or a node allocated since the heap had [b] nodes. *)
Definition good (b : nat) (S : Value -> Prop) (v : Value) : Prop :=
  S v \/ (b <= v)%nat.

Definition good_arg (b : nat) (S : Value -> Prop) (o : Value + R) : Prop :=
  match o with
  | inl v => good b S v
  | inr _ => True
  end.

(** The nodes [t] have gradient 0 and operands that are good. *)
Definition clean (b : nat) (S : Value -> Prop) (t : list Node) : Prop :=
  Forall (fun n => grad n = 0 /\ Forall (good b S) (_children n)) t.

(** Whenever [m] returns, it has only appended clean nodes to the heap, and
    its result satisfies [Q]. *)
Definition tidy {A} (b : nat) (S : Value -> Prop) (m : M A) (Q : A -> Prop)
  : Prop :=
  forall h a h', (b <= length h)%nat -> m h = Some (a, h') ->
    (exists t, h' = (h ++ t)%list /\ clean b S t) /\ Q a.

(** The caches and the loop state that a forward pass of Variant A
    holds. *)
Definition good_cache (b : nat) (S : Value -> Prop) (cache : GPT.Cache)
  : Prop :=
  Forall (Forall (Forall (good b S))) cache.

Definition good_state (b : nat) (S : Value -> Prop)
  (st : list Value * GPT.Cache * GPT.Cache) : Prop :=
  Forall (good b S) (fst (fst st)) /\ good_cache b S (snd (fst st)) /\
  good_cache b S (snd st).

(** The node [l] holds a number that is not negative. *)
Definition nonneg_at (h : Heap) (l : Value) : Prop :=
  exists x, Hoare.data_of h l = Some x /\ 0 <= x.

(** [train] up to the loss, before [loss.backward()]. *)
Definition train_forward {K V} (model : Driver.Model K V) (tokens : list nat)
  : M (Value * list (list K) * list (list V)) :=
  let n := Nat.min (Driver.block_size model) (length tokens - 1) in
  let keys := Driver.fresh_cache (Driver.n_layer model) in
  let values := Driver.fresh_cache (Driver.n_layer model) in
  bind (for_range n (Driver.train_position model tokens) ([], keys, values))
       (fun st =>
          let '(losses, keys, values) := st in
          bind (reduce Ops.add2 losses)
               (fun s => bind (div s (inr (INR n)))
                              (fun loss => ret (loss, keys, values)))).

(** The parameters of a model before a step of training: the matrices of
    [state] consist of parameters, and the parameters are distinct leaves
    with gradient 0. *)
Definition stored (state : State) (params : list Value) (h : Heap) : Prop :=
  Graph.wf_heap h /\ NoDup params /\
  (forall k w, state k = Some w -> Forall (Forall (fun v => In v params)) w) /\
  (forall p, In p params -> exists n, nth_error h p = Some n /\ leaf0 n).

(** The parameters of [gpt.ts] between two iterations of the training
    loop: the matrices of [state] have their shapes as well. *)
Definition trainable (c : GPT.Config) (state : State) (vocab : nat)
  (params : list Value) (h : Heap) : Prop :=
  Shapes.gpt_shaped h c state vocab /\ stored state params h.

(** The caches of [Llama]: per layer, per position, per head, a vector. *)
Definition good_heads (b : nat) (S : Value -> Prop) (cache : Llama.Cache)
  : Prop :=
  Forall (Forall (Forall (Forall (good b S)))) cache.

(** An array element that may be [undefined]. *)
Definition good_entry (b : nat) (S : Value -> Prop) (o : option (list Value))
  : Prop :=
  forall x, o = Some x -> Forall (good b S) x.

(** A vector together with two caches, as the loops of [forward] and of
    [train] hold them. *)
Definition good_with {K V} (b : nat) (S : Value -> Prop)
  (GK : list (list K) -> Prop) (GV : list (list V) -> Prop)
  (st : list Value * list (list K) * list (list V)) : Prop :=
  Forall (good b S) (fst (fst st)) /\ GK (snd (fst st)) /\ GV (snd st).

(** What one step of [train] leaves behind: the loss is a new node that
    holds a number that is not negative; every node that [backward] reaches
    is a parameter or a new node and holds the partial derivative of the
    loss, as does every parameter; and of the nodes that existed before,
    only the gradients of the parameters have changed. *)
Definition exact_gradients (params : list Value) (h : Heap) (loss : Value)
  (h' : Heap) : Prop :=
  (length h <= loss)%nat /\
  nonneg_at h' loss /\
  (forall v, Graph.reachable h' loss v ->
     (In v params \/ (length h <= v)%nat) /\
     Graph.grad_of h' v = Graph.partial h' loss v) /\
  (forall p, In p params -> Graph.grad_of h' p = Graph.partial h' loss p) /\
  (forall v, (v < length h)%nat ->
     option_map (with_grad 0) (nth_error h' v) =
     option_map (with_grad 0) (nth_error h v)) /\
  (forall v, (v < length h)%nat -> ~ In v params ->
     nth_error h' v = nth_error h v).

End Notions.

(** * Theorems *)
(* ================================================================== *)

Module HeapFacts.

Import Invariants Examples.
Import Autograd Graph.

Lemma update_node_Some (h : Heap) (v : Value) (f : Node -> Node) (n : Node) :
  nth_error h v = Some n ->
  exists h', update_node h v f = Some h' /\
             length h' = length h /\
             nth_error h' v = Some (f n) /\
             forall w, w <> v -> nth_error h' w = nth_error h w.
Proof.
  revert v; induction h as [|m h IH]; intros [|v] Hn; simpl in *; try discriminate.
  - injection Hn as ->. eexists; repeat split; auto.
    intros [|w] Hw; [congruence | reflexivity].
  - destruct (IH v Hn) as (h' & -> & Hl & Hv & Hw).
    simpl. eexists; repeat split; simpl; auto.
    intros [|w] Hne; [reflexivity | apply Hw; congruence].
Qed.

Lemma existsb_eqb_true (v : nat) (l : list nat) :
  existsb (Nat.eqb v) l = true <-> In v l.
Proof.
  rewrite existsb_exists. split.
  - intros (x & Hx & He). apply Nat.eqb_eq in He. now subst.
  - intros Hv. exists v. split; auto. apply Nat.eqb_refl.
Qed.

Lemma existsb_eqb_false (v : nat) (l : list nat) :
  existsb (Nat.eqb v) l = false <-> ~ In v l.
Proof.
  rewrite <- existsb_eqb_true. destruct (existsb (Nat.eqb v) l); split; congruence.
Qed.

Lemma edges_lt (h : Heap) (u c : Value) (lg : R) :
  wf_heap h -> In (c, lg) (edges h u) -> (c < u)%nat /\ (u < length h)%nat.
Proof.
  unfold edges. intros Hwf Hin.
  destruct (nth_error h u) as [n|] eqn:E; [|contradiction].
  split.
  - destruct (Hwf _ _ E) as [Hc _].
    apply in_combine_l in Hin. rewrite Forall_forall in Hc. auto.
  - apply nth_error_Some. congruence.
Qed.

Lemma edges_children (h : Heap) (u : Value) (n : Node) :
  wf_heap h -> nth_error h u = Some n ->
  map fst (edges h u) = _children n.
Proof.
  intros Hwf E. unfold edges. rewrite E.
  destruct (Hwf _ _ E) as [_ Hl].
  revert Hl. generalize (_localGrads n). induction (_children n) as [|c cs IH];
    intros [|g gs] Hl; simpl in *; try discriminate; auto.
  f_equal. apply IH. congruence.
Qed.

Lemma reachable_le (h : Heap) (u v : Value) :
  wf_heap h -> reachable h u v -> (v <= u)%nat /\ (u < length h)%nat.
Proof.
  intros Hwf. induction 1 as [u Hu|u c lg v Hin _ IH].
  - lia.
  - destruct (edges_lt _ _ _ _ Hwf Hin). lia.
Qed.

Lemma reachable_trans (h : Heap) (u v w : Value) :
  reachable h u v -> reachable h v w -> reachable h u w.
Proof.
  induction 1; intros; eauto using reachable.
Qed.

Lemma reachable_valid_r (h : Heap) (u v : Value) :
  reachable h u v -> (v < length h)%nat.
Proof. induction 1; auto. Qed.

Lemma reachable_valid_l (h : Heap) (u v : Value) :
  reachable h u v -> (u < length h)%nat.
Proof.
  destruct 1 as [u Hu|u c lg v Hin _]; auto.
  unfold edges in Hin. apply nth_error_Some.
  destruct (nth_error h u); [discriminate | contradiction].
Qed.

End HeapFacts.

(** ** The traversal of [backward] *)

Module Traversal.

Import Invariants Examples.
Import Autograd Graph HeapFacts.

Lemma build_children_spec (fuel : nat) (h : Heap) (b : nat) :
  (forall v visited topo,
      (v < fuel)%nat -> (v < length h)%nat ->
      dfs_good h (visited, topo) ->
      (forall x, In x visited -> (x <= v)%nat -> In x topo) ->
      exists visited' new,
        build fuel h v (visited, topo) = Some (visited', topo ++ new) /\
        (forall x, In x visited' <-> In x visited \/ In x new) /\
        Forall (reachable h v) new /\
        dfs_good h (visited', topo ++ new) /\
        In v (topo ++ new)) ->
  wf_heap h ->
  forall cs visited topo,
    Forall (fun c => c < fuel /\ c < length h /\ c < b)%nat cs ->
    dfs_good h (visited, topo) ->
    (forall x, In x visited -> (x < b)%nat -> In x topo) ->
    exists visited' new,
      build_children fuel h cs (Some (visited, topo)) = Some (visited', topo ++ new) /\
      (forall x, In x visited' <-> In x visited \/ In x new) /\
      Forall (fun x => exists c, In c cs /\ reachable h c x) new /\
      dfs_good h (visited', topo ++ new) /\
      (forall c, In c cs -> In c (topo ++ new)).
Proof.
  intros IH Hwf. induction cs as [|c cs IHcs]; intros visited topo Hcs Hgood Hfin.
  - exists visited, []. rewrite app_nil_r.
    split; [reflexivity|]. split; [intros x; simpl; tauto|].
    split; [constructor|]. split; [exact Hgood|]. intros c [].
  - inversion Hcs as [|? ? (Hc1 & Hc2 & Hc3) Hcs']; subst.
    destruct (IH c visited topo Hc1 Hc2 Hgood) as (vis1 & new1 & E1 & Hv1 & Hr1 & Hg1 & Hin1).
    { intros x Hx Hle. apply Hfin; auto. lia. }
    destruct (IHcs vis1 (topo ++ new1) Hcs' Hg1) as (vis2 & new2 & E2 & Hv2 & Hr2 & Hg2 & Hin2).
    { intros x Hx Hlt. apply Hv1 in Hx. destruct Hx as [Hx|Hx].
      - apply in_or_app. left. auto.
      - apply in_or_app. now right. }
    exists vis2, (new1 ++ new2).
    unfold build_children in *. simpl. rewrite E1.
    rewrite app_assoc. split; [exact E2|].
    split; [|split; [|split]].
    + intros x. rewrite Hv2, Hv1, in_app_iff. tauto.
    + apply Forall_app. split.
      * eapply Forall_impl; [|exact Hr1]. intros x Hx. exists c. split; [now left|auto].
      * eapply Forall_impl; [|exact Hr2]. intros x (c' & Hc' & Hx). exists c'. split; [now right|auto].
    + rewrite <- app_assoc in Hg2. rewrite <- app_assoc. exact Hg2.
    + intros c' [<-|Hc'].
      * rewrite <- app_assoc in *. rewrite app_assoc. apply in_or_app. now left.
      * rewrite <- app_assoc. rewrite app_assoc. auto.
Qed.

Lemma build_spec (h : Heap) :
  wf_heap h ->
  forall fuel v visited topo,
    (v < fuel)%nat -> (v < length h)%nat ->
    dfs_good h (visited, topo) ->
    (forall x, In x visited -> (x <= v)%nat -> In x topo) ->
    exists visited' new,
      build fuel h v (visited, topo) = Some (visited', topo ++ new) /\
      (forall x, In x visited' <-> In x visited \/ In x new) /\
      Forall (reachable h v) new /\
      dfs_good h (visited', topo ++ new) /\
      In v (topo ++ new).
Proof.
  intros Hwf. induction fuel as [|fuel IH]; intros v visited topo Hfuel Hv Hgood Hfin; [lia|].
  simpl. destruct (existsb (Nat.eqb v) visited) eqn:Evis.
  - apply existsb_eqb_true in Evis.
    exists visited, []. rewrite app_nil_r.
    split; [reflexivity|]. split; [intros x; simpl; tauto|].
    split; [constructor|]. split; [exact Hgood|]. apply Hfin; auto.
  - apply existsb_eqb_false in Evis.
    destruct (nth_error h v) as [n|] eqn:En.
    2:{ apply nth_error_None in En. lia. }
    pose proof (edges_children h v n Hwf En) as Hch.
    assert (Hlt : forall c, In c (_children n) -> (c < v)%nat).
    { destruct (Hwf _ _ En) as [Hc _]. rewrite Forall_forall in Hc. auto. }
    destruct (build_children_spec fuel h v IH Hwf (_children n) (v :: visited) topo)
      as (vis1 & new1 & E1 & Hv1 & Hr1 & Hg1 & Hin1).
    + apply Forall_forall. intros c Hc. specialize (Hlt c Hc). lia.
    + destruct Hgood as [Hg Hi]. split; simpl in *; auto.
      intros x Hx. right. auto.
    + intros x [<-|Hx] Hlt'; [lia|]. apply Hfin; auto. lia.
    + unfold build_children in E1. rewrite E1.
      assert (Hnew1 : forall x, In x new1 -> (x < v)%nat).
      { intros x Hx. rewrite Forall_forall in Hr1.
        destruct (Hr1 x Hx) as (c & Hc & Hreach).
        apply (reachable_le _ _ _ Hwf) in Hreach. specialize (Hlt c Hc). lia. }
      exists vis1, (new1 ++ [v]). rewrite app_assoc.
      split; [reflexivity|]. split; [|split; [|split]].
      * intros x. rewrite Hv1, in_app_iff. simpl. tauto.
      * apply Forall_app. split.
        -- eapply Forall_impl; [|exact Hr1]. intros x (c & Hc & Hreach).
           rewrite <- Hch in Hc. apply in_map_iff in Hc.
           destruct Hc as ([c' lg] & Hfst & Hc). simpl in Hfst. subst c'.
           eapply reach_step; eauto.
        -- constructor; [|constructor]. now apply reach_refl.
      * destruct Hg1 as [Hg1 Hi1]. destruct Hgood as [Hg0 Hi0]. simpl in *.
        split.
        -- unfold dfs_good in *. simpl in *. rewrite rev_app_distr. simpl. constructor; auto.
           ++ rewrite <- in_rev. intros Hv'. apply in_app_or in Hv'.
              destruct Hv' as [Hv'|Hv'].
              ** apply Evis. auto.
              ** specialize (Hnew1 v Hv'). lia.
           ++ intros c lg Hc. rewrite <- in_rev. apply Hin1.
              rewrite <- Hch. apply in_map_iff. exists (c, lg). auto.
        -- intros x Hx. apply in_app_or in Hx. destruct Hx as [Hx|[<-|[]]].
           ++ auto.
           ++ apply Hv1. left. now left.
      * apply in_or_app. right. now left.
Qed.

Lemma rev_topo_closed (h : Heap) (l : list Value) :
  rev_topo h l ->
  forall x y, In x l -> reachable h x y -> In y l.
Proof.
  induction 1 as [|u rest Hnot Hch Hu Hrt IH]; intros x y Hx Hreach; [contradiction|].
  revert Hx. induction Hreach as [x Hxv|x c lg y Hin Hreach IHr]; intros Hx; auto.
  apply IHr. right. destruct Hx as [<-|Hx].
  - eauto.
  - apply (IH x c Hx). eapply reach_step; eauto.
    apply reach_refl. eapply reachable_valid_l; eauto.
Qed.

End Traversal.

(** ** The chain rule over a heap *)

Module Chain.

Import Invariants Examples.
Import Autograd Graph HeapFacts.
Local Open Scope R_scope.

Lemma Rsum_ext {A} (f g : A -> R) (l : list A) :
  (forall x, In x l -> f x = g x) -> Rsum f l = Rsum g l.
Proof.
  induction l as [|a l IH]; intros H; simpl; auto.
  rewrite IH by (intros; apply H; right; auto).
  rewrite (H a) by (left; auto). reflexivity.
Qed.

Lemma Rsum_zero {A} (f : A -> R) (l : list A) :
  (forall x, In x l -> f x = 0) -> Rsum f l = 0.
Proof.
  induction l as [|a l IH]; intros H; simpl; auto.
  rewrite IH by (intros; apply H; right; auto).
  rewrite (H a) by (left; auto). lra.
Qed.

Lemma Rsum_plus {A} (f g : A -> R) (l : list A) :
  Rsum (fun x => f x + g x) l = Rsum f l + Rsum g l.
Proof. induction l as [|a l IH]; simpl; [lra | rewrite IH; lra]. Qed.

Lemma Rsum_scal {A} (k : R) (f : A -> R) (l : list A) :
  Rsum (fun x => k * f x) l = k * Rsum f l.
Proof. induction l as [|a l IH]; simpl; [lra | rewrite IH; lra]. Qed.

Lemma Rsum_app {A} (f : A -> R) (l1 l2 : list A) :
  Rsum f (l1 ++ l2) = Rsum f l1 + Rsum f l2.
Proof. induction l1 as [|a l IH]; simpl; [lra | rewrite IH; lra]. Qed.

(** Summing an indicator of [c] over a duplicate-free list that holds [c]
    selects the term at [c]. *)
Lemma Rsum_select (f : nat -> R) (c : nat) (l : list nat) :
  NoDup l -> In c l ->
  Rsum (fun w => if Nat.eqb c w then f w else 0) l = f c.
Proof.
  induction 1 as [|a l Ha Hnd IH]; intros Hin; [contradiction|].
  simpl. destruct Hin as [->|Hin].
  - rewrite Nat.eqb_refl. rewrite Rsum_zero; [lra|].
    intros x Hx. destruct (Nat.eqb_spec c x); auto. subst. contradiction.
  - destruct (Nat.eqb_spec c a) as [->|_]; [contradiction|].
    rewrite IH; auto. lra.
Qed.

Lemma Rsum_unselect (f : nat -> R) (c : nat) (l : list nat) :
  ~ In c l ->
  Rsum (fun w => if Nat.eqb c w then f w else 0) l = 0.
Proof.
  intros Hc. apply Rsum_zero. intros x Hx.
  destruct (Nat.eqb_spec c x); auto. subst. contradiction.
Qed.

(** Exchanging the sum over the receiving nodes with the sum over the
    pairs. *)
Lemma Rsum_contrib (es : list (Value * R)) (g : R) (f : nat -> R) (l : list nat) :
  NoDup l -> (forall c lg, In (c, lg) es -> In c l) ->
  Rsum (fun w => contrib es g w * f w) l =
  g * Rsum (fun e => snd e * f (fst e)) es.
Proof.
  intros Hnd. induction es as [|[c lg] es IH]; intros Hin.
  - simpl. rewrite Rsum_zero; [lra|]. intros; unfold contrib; simpl; lra.
  - unfold contrib in *. simpl.
    rewrite (Rsum_ext _ (fun w => (if Nat.eqb c w then (lg * g) * f w else 0) +
                                  Rsum (fun e => if Nat.eqb (fst e) w then snd e * g else 0) es * f w)).
    2:{ intros x _. destruct (Nat.eqb c x); lra. }
    rewrite Rsum_plus, IH.
    2:{ intros c' lg' H'. eapply Hin. right. exact H'. }
    rewrite (Rsum_select (fun w => lg * g * f w)); auto.
    + lra.
    + eapply Hin. left. reflexivity.
Qed.

Lemma chain_fuel (h : Heap) :
  wf_heap h ->
  forall f1 f2 u v, (u < f1)%nat -> (u < f2)%nat ->
                    chain f1 h u v = chain f2 h u v.
Proof.
  intros Hwf. induction f1 as [|f1 IH]; intros [|f2] u v H1 H2; try lia.
  simpl. destruct (Nat.eqb u v); auto.
  apply Rsum_ext. intros [c lg] Hin. simpl.
  destruct (edges_lt _ _ _ _ Hwf Hin). rewrite (IH f2); auto; lia.
Qed.

Lemma partial_unfold (h : Heap) (u v : Value) :
  wf_heap h ->
  partial h u v =
  if Nat.eqb u v then 1
  else Rsum (fun e => snd e * partial h (fst e) v) (edges h u).
Proof.
  intros Hwf. unfold partial at 1. simpl. destruct (Nat.eqb u v); auto.
  apply Rsum_ext. intros [c lg] Hin. simpl.
  destruct (edges_lt _ _ _ _ Hwf Hin). unfold partial.
  rewrite (chain_fuel h Hwf u (S c)); auto; lia.
Qed.

Lemma partial_refl (h : Heap) (u : Value) : partial h u u = 1.
Proof. unfold partial. simpl. now rewrite Nat.eqb_refl. Qed.

Lemma partial_unreachable (h : Heap) :
  wf_heap h ->
  forall u v, (u < length h)%nat -> ~ reachable h u v -> partial h u v = 0.
Proof.
  intros Hwf u. induction u as [u IH] using lt_wf_ind. intros v Hu Hnr.
  rewrite partial_unfold; auto.
  destruct (Nat.eqb_spec u v) as [->|Hne].
  - exfalso. apply Hnr. now apply reach_refl.
  - apply Rsum_zero. intros [c lg] Hin. simpl.
    destruct (edges_lt _ _ _ _ Hwf Hin) as [Hc _].
    rewrite IH; [lra | auto | lia |].
    intros Hr. apply Hnr. eapply reach_step; eauto.
Qed.

Lemma same_graph_refl (h : Heap) : same_graph h h.
Proof. intro; reflexivity. Qed.

Lemma same_graph_trans (h1 h2 h3 : Heap) :
  same_graph h1 h2 -> same_graph h2 h3 -> same_graph h1 h3.
Proof. intros H1 H2 i. now rewrite H1. Qed.

Lemma same_graph_length (h h' : Heap) :
  same_graph h h' -> length h = length h'.
Proof.
  intros H.
  destruct (Nat.lt_trichotomy (length h) (length h')) as [Hlt|[?|Hlt]]; auto.
  - specialize (H (length h)).
    rewrite (proj2 (nth_error_None h (length h))) in H by lia.
    destruct (nth_error h' (length h)) eqn:E; [discriminate|].
    apply nth_error_None in E. lia.
  - specialize (H (length h')).
    rewrite (proj2 (nth_error_None h' (length h'))) in H by lia.
    destruct (nth_error h (length h')) eqn:E; [discriminate|].
    apply nth_error_None in E. lia.
Qed.

Lemma same_graph_edges (h h' : Heap) (u : Value) :
  same_graph h h' -> edges h u = edges h' u.
Proof.
  intros H. unfold edges. specialize (H u).
  destruct (nth_error h u) as [n|], (nth_error h' u) as [n'|]; simpl in H;
    try discriminate; auto.
  injection H as _ Hc Hl. now rewrite Hc, Hl.
Qed.

Lemma same_graph_data (h h' : Heap) (u : Value) (n : Node) :
  same_graph h h' -> nth_error h u = Some n ->
  exists n', nth_error h' u = Some n' /\ data n' = data n /\
             _children n' = _children n /\ _localGrads n' = _localGrads n.
Proof.
  intros H E. specialize (H u). rewrite E in H.
  destruct (nth_error h' u) as [n'|]; simpl in H; [|discriminate].
  injection H as Hd Hc Hl. eauto.
Qed.

Lemma same_graph_wf (h h' : Heap) :
  same_graph h h' -> wf_heap h -> wf_heap h'.
Proof.
  intros H Hwf i n' E.
  assert (H' : same_graph h' h) by (intro j; now rewrite H).
  destruct (same_graph_data h' h i n' H' E) as (n & En & _ & Hc & Hl).
  destruct (Hwf i n En) as [H1 H2]. unfold wf_node. now rewrite <- Hc, <- Hl.
Qed.

Lemma same_graph_chain (h h' : Heap) :
  same_graph h h' -> forall fuel u v, chain fuel h u v = chain fuel h' u v.
Proof.
  intros H. induction fuel as [|fuel IH]; intros u v; simpl; auto.
  rewrite (same_graph_edges h h' u H).
  destruct (Nat.eqb u v); auto. apply Rsum_ext. intros; now rewrite IH.
Qed.

Lemma same_graph_reachable (h h' : Heap) (u v : Value) :
  same_graph h h' -> reachable h u v -> reachable h' u v.
Proof.
  intros H. induction 1 as [u Hu|u c lg v Hin _ IH].
  - apply reach_refl. now rewrite <- (same_graph_length h h' H).
  - apply (reach_step h' u c lg v); auto.
    now rewrite <- (same_graph_edges h h' u H).
Qed.

End Chain.

(** ** Gradient distribution *)

Module Backward.

Import Invariants Examples.
Import Autograd Graph HeapFacts Traversal Chain.
Local Open Scope R_scope.
Local Open Scope m_scope.

Lemma grad_of_nth (h : Heap) (v : Value) (n : Node) :
  nth_error h v = Some n -> grad_of h v = grad n.
Proof. unfold grad_of. now intros ->. Qed.

Lemma modify_grad_spec (h : Heap) (v : Value) (f : Node -> R) :
  (v < length h)%nat ->
  exists n h', nth_error h v = Some n /\
    modify v (fun n => with_grad (f n) n) h = Some (tt, h') /\
    same_graph h h' /\
    forall w, grad_of h' w = if Nat.eqb v w then f n else grad_of h w.
Proof.
  intros Hv. destruct (nth_error h v) as [n|] eqn:En.
  2:{ apply nth_error_None in En. lia. }
  destruct (update_node_Some h v (fun n => with_grad (f n) n) n En)
    as (h' & Eu & _ & Hv' & Hw).
  exists n, h'. split; auto. unfold modify. rewrite Eu.
  split; [reflexivity|]. split.
  - intros i. destruct (Nat.eq_dec i v) as [->|Hne].
    + rewrite En, Hv'. reflexivity.
    + now rewrite Hw.
  - intros w. destruct (Nat.eqb_spec v w) as [<-|Hne].
    + now rewrite (grad_of_nth h' v _ Hv').
    + unfold grad_of. rewrite Hw; auto.
Qed.

Lemma skipn_cons_nth {A} (l : list A) :
  forall j a r, skipn j l = a :: r ->
                nth_error l j = Some a /\ skipn (S j) l = r.
Proof.
  induction l as [|x l IH]; intros [|j] a r H; simpl in *; try discriminate.
  - injection H as -> ->. auto.
  - apply IH in H. exact H.
Qed.

Lemma pass_grad_loop (v : Value) (lgs : list R) :
  forall cs gs j h,
    skipn j lgs = gs -> length cs = length gs ->
    Forall (fun c => c < v)%nat cs -> (v < length h)%nat ->
    exists h',
      forEach_from (pass_grad v lgs) cs j h = Some (tt, h') /\
      same_graph h h' /\
      forall w, grad_of h' w = grad_of h w + contrib (combine cs gs) (grad_of h v) w.
Proof.
  induction cs as [|c cs IH]; intros gs j h Hs Hl Hlt Hv.
  - exists h. simpl. split; [reflexivity|]. split; [apply same_graph_refl|].
    intros w. unfold contrib. simpl. lra.
  - destruct gs as [|g gs]; [discriminate|].
    inversion Hlt as [|? ? Hc Hlt']; subst.
    destruct (skipn_cons_nth lgs j g gs Hs) as [Hj Hs'].
    destruct (nth_error h v) as [nv|] eqn:Env.
    2:{ apply nth_error_None in Env. lia. }
    destruct (modify_grad_spec h c (fun n => grad n + g * grad nv)) as (nc & h1 & Enc & Em & Hsg & Hg);
      [lia|].
    destruct (IH gs (S j) h1 Hs') as (h' & E' & Hsg' & Hg').
    { simpl in Hl. congruence. }
    { exact Hlt'. }
    { now rewrite <- (same_graph_length h h1 Hsg). }
    exists h'. split; [|split].
    + simpl. unfold bind at 1. unfold pass_grad at 1, bind, idx. rewrite Hj.
      unfold ret, get_grad, bind, get_node. rewrite Env. simpl.
      unfold add_grad. rewrite Em. exact E'.
    + eapply same_graph_trans; eauto.
    + intros w. rewrite Hg', !Hg.
      destruct (Nat.eqb_spec c v) as [->|_]; [lia|].
      unfold contrib. simpl.
      rewrite (grad_of_nth h v nv Env).
      destruct (Nat.eqb_spec c w) as [<-|_].
      * rewrite (grad_of_nth h c nc Enc). lra.
      * lra.
Qed.

Lemma distribute_spec (h : Heap) (v : Value) :
  wf_heap h -> (v < length h)%nat ->
  exists h',
    distribute v h = Some (tt, h') /\
    same_graph h h' /\
    forall w, grad_of h' w = grad_of h w + contrib (edges h v) (grad_of h v) w.
Proof.
  intros Hwf Hv. destruct (nth_error h v) as [n|] eqn:En.
  2:{ apply nth_error_None in En. lia. }
  destruct (Hwf v n En) as [Hc Hl].
  destruct (pass_grad_loop v (_localGrads n) (_children n) (_localGrads n) 0 h)
    as (h' & E & Hsg & Hg); auto.
  exists h'. split; [|split; auto].
  - unfold distribute, bind, get_node. rewrite En. exact E.
  - intros w. rewrite Hg. unfold edges. now rewrite En.
Qed.

Lemma rev_topo_NoDup (h : Heap) (l : list Value) : rev_topo h l -> NoDup l.
Proof. induction 1; constructor; auto. Qed.

Lemma rev_topo_valid (h : Heap) (l : list Value) :
  rev_topo h l -> forall x, In x l -> (x < length h)%nat.
Proof.
  induction 1; intros x Hx; [contradiction|].
  destruct Hx as [<-|Hx]; auto.
Qed.

Lemma rev_topo_app (h : Heap) (l1 l2 : list Value) :
  rev_topo h (l1 ++ l2) -> rev_topo h l2.
Proof. induction l1; simpl; auto. inversion 1; auto. Qed.

Lemma same_graph_rev_topo (h h' : Heap) (l : list Value) :
  same_graph h h' -> rev_topo h l -> rev_topo h' l.
Proof.
  intros H. induction 1 as [|u rest Hn Hc Hu Hr IH]; constructor; auto.
  - intros c lg Hin. rewrite <- (same_graph_edges h h' u H) in Hin. eauto.
  - now rewrite <- (same_graph_length h h' H).
Qed.

Lemma rev_topo_postorder (h : Heap) (topo : list Value) :
  rev_topo h (rev topo) -> postorder h topo.
Proof.
  intros Hrt pre x post c lg -> Hin.
  rewrite rev_app_distr in Hrt. simpl in Hrt. rewrite <- app_assoc in Hrt.
  apply rev_topo_app in Hrt. simpl in Hrt.
  inversion Hrt as [|? ? _ Hc _ _]; subst.
  apply in_rev. eauto.
Qed.

Lemma contrib_zero (es : list (Value * R)) (g : R) (w : Value) :
  (forall c lg, In (c, lg) es -> c <> w) -> contrib es g w = 0.
Proof.
  intros H. apply Rsum_zero. intros [c lg] Hin. simpl.
  destruct (Nat.eqb_spec c w); auto. subst. exfalso. eapply H; eauto.
Qed.

Lemma distribute_all_spec (T : Value -> R) :
  forall rest h,
    wf_heap h -> rev_topo h rest ->
    (forall v, In v rest ->
               Rsum (fun w => grad_of h w * partial h w v) rest = T v) ->
    exists h',
      distribute_all rest h = Some (tt, h') /\
      same_graph h h' /\
      (forall v, In v rest -> grad_of h' v = T v) /\
      (forall v, ~ In v rest -> grad_of h' v = grad_of h v).
Proof.
  induction rest as [|u rest IH]; intros h Hwf Hrt Hinv.
  - exists h. simpl. split; [reflexivity|]. split; [apply same_graph_refl|].
    split; [contradiction | reflexivity].
  - inversion Hrt as [|? ? Hnot Hch Hu Hrt']; subst.
    pose proof (rev_topo_NoDup h rest Hrt') as Hnd.
    (* the gradient of [u] is complete when [u] is processed *)
    assert (Hgu : grad_of h u = T u).
    { rewrite <- (Hinv u (or_introl eq_refl)). simpl.
      rewrite partial_refl, Rsum_zero; [lra|].
      intros w Hw. rewrite partial_unreachable; auto; [lra | |].
      - eapply rev_topo_valid; eauto.
      - intros Hr. apply Hnot. eapply rev_topo_closed; eauto. }
    destruct (distribute_spec h u Hwf Hu) as (h1 & E1 & Hsg1 & Hg1).
    destruct (IH h1) as (h' & E' & Hsg' & Hin' & Hout').
    + eapply same_graph_wf; eauto.
    + eapply same_graph_rev_topo; eauto.
    + intros v Hv.
      rewrite <- (Hinv v (or_intror Hv)). simpl.
      rewrite (Rsum_ext _ (fun w => grad_of h w * partial h w v +
                                    contrib (edges h u) (grad_of h u) w * partial h w v)).
      2:{ intros w _. rewrite Hg1. unfold partial.
          rewrite <- (same_graph_chain h h1 Hsg1). lra. }
      rewrite Rsum_plus, Rsum_contrib; auto.
      rewrite (partial_unfold h u v Hwf).
      destruct (Nat.eqb_spec u v) as [->|_]; [contradiction|]. lra.
    + exists h'. split; [|split; [|split]].
      * simpl. unfold bind. rewrite E1. exact E'.
      * eapply same_graph_trans; eauto.
      * intros v [<-|Hv]; auto.
        rewrite Hout', Hg1, contrib_zero; auto; [lra|].
        intros c lg Hin ->. destruct (edges_lt _ _ _ _ Hwf Hin). lia.
      * intros v Hv. rewrite Hout', Hg1, contrib_zero; [lra | |].
        -- intros c lg Hin ->. apply Hv. right. eauto.
        -- intros Hr. apply Hv. now right.
Qed.

End Backward.

(** ** The operators *)

Module Operators.

Import Invariants Examples.
Import Num Autograd Hoare.
Local Open Scope R_scope.

Lemma data_of_Some (h : Heap) (v : Value) (x : R) :
  data_of h v = Some x <-> exists n, nth_error h v = Some n /\ data n = x.
Proof.
  unfold data_of. destruct (nth_error h v) as [n|]; simpl; split.
  - intros [= <-]. eauto.
  - intros (n' & [= <-] & <-). reflexivity.
  - discriminate.
  - intros (n' & ? & _). discriminate.
Qed.

Lemma data_of_lt (h : Heap) (v : Value) (x : R) :
  data_of h v = Some x -> (v < length h)%nat.
Proof.
  intros H. apply data_of_Some in H. destruct H as (n & H & _).
  apply nth_error_Some. congruence.
Qed.

Lemma data_of_app (h t : Heap) (v : Value) (x : R) :
  data_of h v = Some x -> data_of (h ++ t) v = Some x.
Proof.
  intros H. pose proof (data_of_lt h v x H) as Hlt.
  unfold data_of in *. now rewrite nth_error_app1.
Qed.

Lemma data_of_new (h : Heap) (n : Node) (t : Heap) :
  data_of (h ++ n :: t) (length h) = Some (data n).
Proof.
  unfold data_of. rewrite nth_error_app2 by lia.
  now rewrite Nat.sub_diag.
Qed.

Lemma get_data_eq (h : Heap) (v : Value) (x : R) :
  data_of h v = Some x -> get_data v h = Some (x, h).
Proof.
  intros H. apply data_of_Some in H. destruct H as (n & H & <-).
  unfold get_data, bind, get_node, ret. now rewrite H.
Qed.

Lemma add_eq (h : Heap) (a b : Value) (x y : R) :
  data_of h a = Some x -> data_of h b = Some y ->
  add a (inl b) h = Some (length h, h ++ [mkNode (x + y) 0 [a; b] [1; 1]]).
Proof.
  intros Ha Hb. unfold add, bind, as_Value, ret.
  now rewrite (get_data_eq h a x Ha), (get_data_eq h b y Hb).
Qed.

Lemma mul_eq (h : Heap) (a b : Value) (x y : R) :
  data_of h a = Some x -> data_of h b = Some y ->
  mul a (inl b) h = Some (length h, h ++ [mkNode (x * y) 0 [a; b] [y; x]]).
Proof.
  intros Ha Hb. unfold mul, bind, as_Value, ret.
  now rewrite (get_data_eq h a x Ha), (get_data_eq h b y Hb).
Qed.

Lemma add_number_eq (h : Heap) (a : Value) (x k : R) :
  data_of h a = Some x ->
  add a (inr k) h =
  Some (S (length h),
        h ++ [mkNode k 0 [] []; mkNode (x + k) 0 [a; length h] [1; 1]]).
Proof.
  intros Ha. unfold add, bind, as_Value, new_Value.
  rewrite (get_data_eq _ a x (data_of_app h _ a x Ha)).
  rewrite (get_data_eq _ (length h) k (data_of_new h (mkNode k 0 [] []) [])).
  rewrite length_app, <- app_assoc. simpl. now rewrite Nat.add_1_r.
Qed.

Lemma mul_number_eq (h : Heap) (a : Value) (x k : R) :
  data_of h a = Some x ->
  mul a (inr k) h =
  Some (S (length h),
        h ++ [mkNode k 0 [] []; mkNode (x * k) 0 [a; length h] [k; x]]).
Proof.
  intros Ha. unfold mul, bind, as_Value, new_Value.
  rewrite (get_data_eq _ a x (data_of_app h _ a x Ha)).
  rewrite (get_data_eq _ (length h) k (data_of_new h (mkNode k 0 [] []) [])).
  rewrite length_app, <- app_assoc. simpl. now rewrite Nat.add_1_r.
Qed.

Lemma pow_eq (h : Heap) (a : Value) (x p : R) :
  data_of h a = Some x ->
  pow a p h =
  Some (length h, h ++ [mkNode (js_pow x p) 0 [a] [p * js_pow x (p - 1)]]).
Proof.
  intros Ha. unfold pow, bind. now rewrite (get_data_eq h a x Ha).
Qed.

Lemma log_eq (h : Heap) (a : Value) (x : R) :
  data_of h a = Some x ->
  log a h = Some (length h, h ++ [mkNode (ln x) 0 [a] [1 / x]]).
Proof.
  intros Ha. unfold log, bind. now rewrite (get_data_eq h a x Ha).
Qed.

Lemma exp_eq (h : Heap) (a : Value) (x : R) :
  data_of h a = Some x ->
  exp a h =
  Some (length h,
        h ++ [mkNode (Rtrigo_def.exp x) 0 [a] [Rtrigo_def.exp x]]).
Proof.
  intros Ha. unfold exp, bind. now rewrite (get_data_eq h a x Ha).
Qed.

Lemma relu_eq (h : Heap) (a : Value) (x : R) :
  data_of h a = Some x ->
  relu a h = Some (length h, h ++ [mkNode (Rmax 0 x) 0 [a] [step x]]).
Proof.
  intros Ha. unfold relu, bind. now rewrite (get_data_eq h a x Ha).
Qed.

Lemma silu_eq (h : Heap) (a : Value) (x : R) :
  data_of h a = Some x ->
  silu a h =
  Some (length h,
        h ++ [mkNode (x * sigmoid x) 0 [a]
                     [sigmoid x * (1 + x * (1 - sigmoid x))]]).
Proof.
  intros Ha. unfold silu, bind. now rewrite (get_data_eq h a x Ha).
Qed.

End Operators.

(** ** The arithmetic of [**] and the local derivatives *)

Module Analysis.

Import Invariants Examples.
Import Num.
Local Open Scope R_scope.

Lemma Int_part_IZR (n : Z) : Int_part (IZR n) = n.
Proof. symmetry. apply Int_part_spec. lra. Qed.

Lemma js_pow_int (x : R) (n : Z) : js_pow x (IZR n) = powerRZ x n.
Proof.
  unfold js_pow. rewrite Int_part_IZR.
  destruct (Req_dec_T (IZR n) (IZR n)); congruence.
Qed.

Lemma js_pow_pos (x p : R) : 0 < x -> js_pow x p = Rpower x p.
Proof.
  intros Hx. unfold js_pow.
  destruct (Req_dec_T p (IZR (Int_part p))) as [E|_]; auto.
  rewrite E at 2. now apply powerRZ_Rpower.
Qed.

Lemma js_pow_inverse (x : R) : js_pow x (-1) = / x.
Proof.
  change (-1) with (IZR (-1)). rewrite js_pow_int. simpl.
  now rewrite Rmult_1_r.
Qed.

Lemma js_pow_square (x : R) : js_pow x 2 = x * x.
Proof.
  change 2 with (IZR 2). rewrite js_pow_int. simpl. ring.
Qed.


Lemma js_pow_inv_sqrt (x : R) : 0 < x -> js_pow x (-0.5) = / sqrt x.
Proof.
  intros Hx. rewrite js_pow_pos by assumption.
  replace (-0.5) with (- / 2) by lra.
  rewrite Rpower_Ropp. f_equal. now apply Rpower_sqrt.
Qed.

(** A derivative depends only on the values near the point. *)
Lemma derivable_pt_lim_local (f g : R -> R) (x l d : R) :
  0 < d ->
  (forall t, Rabs (t - x) < d -> f t = g t) ->
  derivable_pt_lim g x l -> derivable_pt_lim f x l.
Proof.
  intros Hd Heq Hg eps Heps.
  destruct (Hg eps Heps) as [delta Hdelta].
  assert (Hm : 0 < Rmin delta d) by (apply Rmin_pos; [apply cond_pos | exact Hd]).
  exists (mkposreal _ Hm). simpl. intros k Hk Hlt.
  rewrite !Heq.
  - apply Hdelta; auto. eapply Rlt_le_trans; [exact Hlt | apply Rmin_l].
  - replace (x - x) with 0 by ring. now rewrite Rabs_R0.
  - replace (x + k - x) with k by ring.
    eapply Rlt_le_trans; [exact Hlt | apply Rmin_r].
Qed.

Lemma derivable_pt_lim_ext (f g : R -> R) (x l : R) :
  (forall t, f t = g t) -> derivable_pt_lim g x l -> derivable_pt_lim f x l.
Proof.
  intros H. apply (derivable_pt_lim_local f g x l 1 Rlt_0_1). auto.
Qed.

Lemma derivable_pt_lim_affine (a b x : R) :
  derivable_pt_lim (fun t => a * t + b) x a.
Proof.
  intros eps Heps. exists (mkposreal 1 Rlt_0_1). intros k Hk _.
  replace ((a * (x + k) + b - (a * x + b)) / k - a) with 0 by (field; auto).
  now rewrite Rabs_R0.
Qed.

Lemma derivable_pt_lim_js_pow (x p : R) :
  0 < x -> derivable_pt_lim (fun t => js_pow t p) x (p * js_pow x (p - 1)).
Proof.
  intros Hx. rewrite (js_pow_pos x (p - 1) Hx).
  apply (derivable_pt_lim_local _ (fun t => Rpower t p) x _ x Hx).
  - intros t Ht. apply js_pow_pos.
    apply Rabs_def2 in Ht. lra.
  - now apply derivable_pt_lim_power.
Qed.

Lemma derivable_pt_lim_relu (x : R) :
  x <> 0 -> derivable_pt_lim (Rmax 0) x (step x).
Proof.
  intros Hx. unfold step. destruct (Rlt_dec 0 x) as [Hpos|Hneg].
  - apply (derivable_pt_lim_local _ (fun t => 1 * t + 0) x 1 x Hpos).
    + intros t Ht. apply Rabs_def2 in Ht. rewrite Rmax_right; lra.
    + apply derivable_pt_lim_affine.
  - assert (Hlt : 0 < - x) by lra.
    apply (derivable_pt_lim_local _ (fun t => 0 * t + 0) x 0 (- x) Hlt).
    + intros t Ht. apply Rabs_def2 in Ht. rewrite Rmax_left; lra.
    + apply derivable_pt_lim_affine.
Qed.

Lemma derivable_pt_lim_powerRZ (x : R) (n : Z) :
  x <> 0 \/ (1 <= n)%Z ->
  derivable_pt_lim (fun t => powerRZ t n) x (IZR n * powerRZ x (n - 1)).
Proof.
  intros Hc. destruct n as [|p|p].
  - simpl. rewrite Rmult_0_l. apply (derivable_pt_lim_const 1).
  - simpl powerRZ at 1.
    pose proof (derivable_pt_lim_pow x (Pos.to_nat p)) as H.
    replace (IZR (Z.pos p) * powerRZ x (Z.pos p - 1))
      with (INR (Pos.to_nat p) * x ^ pred (Pos.to_nat p)); [exact H|].
    rewrite INR_IZR_INZ, Znat.positive_nat_Z. f_equal.
    rewrite pow_powerRZ. f_equal. lia.
  - destruct Hc as [Hx|Hn]; [|lia].
    simpl powerRZ at 1.
    destruct (Pos2Nat.is_succ p) as [m Em]. rewrite Em.
    replace (Z.neg p - 1)%Z with (Z.neg (p + 1)) by lia.
    simpl powerRZ. rewrite Pos2Nat.inj_add, Em.
    change (Pos.to_nat 1) with 1%nat.
    replace (S m + 1)%nat with (S (S m)) by lia.
    assert (HX : x ^ m <> 0) by now apply pow_nonzero.
    pose proof (derivable_pt_lim_div (fct_cte 1) (fun t => t ^ S m) x 0
                  (INR (S m) * x ^ pred (S m))
                  (derivable_pt_lim_const 1 x)
                  (derivable_pt_lim_pow x (S m))) as H.
    unfold div_fct, fct_cte in H.
    assert (HS : x ^ S m <> 0) by now apply pow_nonzero.
    specialize (H HS).
    replace (IZR (Z.neg p) * / x ^ S (S m))
      with ((0 * x ^ S m - INR (S m) * x ^ pred (S m) * 1) / (x ^ S m)²).
    + apply (derivable_pt_lim_ext _ (fun t => 1 / t ^ S m)); [|exact H].
      intros t. unfold Rdiv. now rewrite Rmult_1_l.
    + replace (IZR (Z.neg p)) with (- INR (S m)).
      2:{ rewrite <- Em, INR_IZR_INZ, Znat.positive_nat_Z.
          now rewrite <- opp_IZR. }
      unfold Rsqr. simpl pred. rewrite <- !tech_pow_Rmult.
      generalize (INR (S m)). intros k.
      revert HX. generalize (x ^ m). intros X HX. field. auto.
Qed.

Lemma derivable_pt_lim_pow_op (x p : R) :
  (0 < x \/ exists n : Z, p = IZR n /\ (x <> 0 \/ (1 <= n)%Z)) ->
  derivable_pt_lim (fun t => js_pow t p) x (p * js_pow x (p - 1)).
Proof.
  intros [Hx|(n & -> & Hn)]; [now apply derivable_pt_lim_js_pow|].
  rewrite <- minus_IZR, js_pow_int.
  apply (derivable_pt_lim_ext _ (fun t => powerRZ t n)).
  - intros t. apply js_pow_int.
  - now apply derivable_pt_lim_powerRZ.
Qed.

Lemma derivable_pt_lim_sigmoid (x : R) :
  derivable_pt_lim Autograd.sigmoid x
                   (Autograd.sigmoid x * (1 - Autograd.sigmoid x)).
Proof.
  pose proof (exp_pos (- x)) as He.
  assert (Hd : derivable_pt_lim (fun t => 1 + Rtrigo_def.exp (- t)) x
                                (- Rtrigo_def.exp (- x))).
  { replace (- Rtrigo_def.exp (- x)) with (0 + Rtrigo_def.exp (- x) * -1) by ring.
    apply (derivable_pt_lim_plus (fct_cte 1) (comp Rtrigo_def.exp (fun t => - t))).
    - apply derivable_pt_lim_const.
    - apply derivable_pt_lim_comp.
      + apply (derivable_pt_lim_ext _ (fun t => -1 * t + 0));
          [intro; ring | apply derivable_pt_lim_affine].
      + apply derivable_pt_lim_exp. }
  pose proof (derivable_pt_lim_div (fct_cte 1)
                (fun t => 1 + Rtrigo_def.exp (- t)) x 0 _
                (derivable_pt_lim_const 1 x) Hd) as H.
  unfold div_fct, fct_cte in H.
  assert (Hnz : 1 + Rtrigo_def.exp (- x) <> 0) by lra.
  specialize (H Hnz).
  replace (Autograd.sigmoid x * (1 - Autograd.sigmoid x))
    with ((0 * (1 + Rtrigo_def.exp (- x)) - - Rtrigo_def.exp (- x) * 1)
          / (1 + Rtrigo_def.exp (- x))²).
  - exact H.
  - unfold Autograd.sigmoid, Rsqr. field. exact Hnz.
Qed.

Lemma derivable_pt_lim_silu (x : R) :
  derivable_pt_lim (fun t => t * Autograd.sigmoid t) x
                   (Autograd.sigmoid x * (1 + x * (1 - Autograd.sigmoid x))).
Proof.
  replace (Autograd.sigmoid x * (1 + x * (1 - Autograd.sigmoid x)))
    with (1 * Autograd.sigmoid x + id x * (Autograd.sigmoid x * (1 - Autograd.sigmoid x)))
    by (unfold id; ring).
  apply (derivable_pt_lim_mult id Autograd.sigmoid).
  - apply derivable_pt_lim_id.
  - apply derivable_pt_lim_sigmoid.
Qed.

End Analysis.

Module OperatorTable.

Import Invariants Examples.
Import Num Autograd Hoare Operators Analysis.
Local Open Scope R_scope.

(** C2.  Started in a heap where [a] holds [x] and [b] holds [y], every
    operator allocates its result as the last node of the heap and returns
    it; the node holds the numeric result, lists the operands as its
    children and records the local partial derivatives of the table.  A
    number operand is first allocated as a leaf without children.  [neg],
    [sub] and [div] are compositions of [mul], [add] and [pow].  The
    recorded coefficients are the derivatives of the result in each operand
    ([pow] at a positive operand, or with an integral exponent at an operand
    other than 0 or with an exponent of at least 1; [log] at a positive
    operand; [relu] away from 0). *)
Theorem operators_table (h : Heap) (a b : Value) (x y p k : R) :
  data_of h a = Some x ->
  data_of h b = Some y ->
  (add a (inl b) h = Some (length h, h ++ [mkNode (x + y) 0 [a; b] [1; 1]]) /\
   mul a (inl b) h = Some (length h, h ++ [mkNode (x * y) 0 [a; b] [y; x]]) /\
   pow a p h =
     Some (length h, h ++ [mkNode (js_pow x p) 0 [a] [p * js_pow x (p - 1)]]) /\
   log a h = Some (length h, h ++ [mkNode (ln x) 0 [a] [1 / x]]) /\
   exp a h =
     Some (length h, h ++ [mkNode (Rtrigo_def.exp x) 0 [a] [Rtrigo_def.exp x]]) /\
   relu a h =
     Some (length h,
           h ++ [mkNode (Rmax 0 x) 0 [a] [if Rlt_dec 0 x then 1 else 0]])) /\
  (add a (inr k) h =
     Some (S (length h),
           h ++ [mkNode k 0 [] []; mkNode (x + k) 0 [a; length h] [1; 1]]) /\
   mul a (inr k) h =
     Some (S (length h),
           h ++ [mkNode k 0 [] []; mkNode (x * k) 0 [a; length h] [k; x]])) /\
  (neg a = mul a (inr (-1)) /\
   sub a (inl b) = bind (neg b) (fun n => add a (inl n)) /\
   sub a (inr k) = add a (inr (- k)) /\
   div a (inl b) = bind (pow b (-1)) (fun q => mul a (inl q)) /\
   div a (inr k) =
     bind (new_Value k [] [])
          (fun o => bind (pow o (-1)) (fun q => mul a (inl q)))) /\
  (derivable_pt_lim (fun t => t + y) x 1 /\
   derivable_pt_lim (fun t => x + t) y 1 /\
   derivable_pt_lim (fun t => t * y) x y /\
   derivable_pt_lim (fun t => x * t) y x /\
   (0 < x -> derivable_pt_lim (fun t => js_pow t p) x (p * js_pow x (p - 1))) /\
   (forall n : Z, p = IZR n -> x <> 0 \/ (1 <= n)%Z ->
      derivable_pt_lim (fun t => js_pow t p) x (p * js_pow x (p - 1))) /\
   (0 < x -> derivable_pt_lim ln x (1 / x)) /\
   derivable_pt_lim Rtrigo_def.exp x (Rtrigo_def.exp x) /\
   (x <> 0 -> derivable_pt_lim (Rmax 0) x (if Rlt_dec 0 x then 1 else 0))).
Proof.
  intros Ha Hb. split; [|split; [|split]].
  - repeat split.
    + now apply add_eq.
    + now apply mul_eq.
    + now apply pow_eq.
    + now apply log_eq.
    + now apply exp_eq.
    + now apply relu_eq.
  - split; [now apply add_number_eq | now apply mul_number_eq].
  - repeat split; reflexivity.
  - repeat split.
    + apply (derivable_pt_lim_ext _ (fun t => 1 * t + y));
        [intro; ring | apply derivable_pt_lim_affine].
    + apply (derivable_pt_lim_ext _ (fun t => 1 * t + x));
        [intro; ring | apply derivable_pt_lim_affine].
    + apply (derivable_pt_lim_ext _ (fun t => y * t + 0));
        [intro; ring | apply derivable_pt_lim_affine].
    + apply (derivable_pt_lim_ext _ (fun t => x * t + 0));
        [intro; ring | apply derivable_pt_lim_affine].
    + now apply derivable_pt_lim_js_pow.
    + intros n Hp Hn. apply derivable_pt_lim_pow_op. right. now exists n.
    + intros Hx. replace (1 / x) with (/ x) by (field; lra).
      now apply derivable_pt_lim_ln.
    + apply derivable_pt_lim_exp.
    + apply derivable_pt_lim_relu.
Qed.

Lemma operators_table_witness :
  mul 0%nat (inl 1%nat) two_numbers =
  Some (2%nat, two_numbers ++ [mkNode (2 * 3) 0 [0%nat; 1%nat] [3; 2]]).
Proof.
  apply (operators_table two_numbers 0%nat 1%nat 2 3 2 5);
    reflexivity.
Defined.

End OperatorTable.

(** ** The chain rule computes the derivative *)

Module Derivative.

Import Invariants Examples.
Import Num Autograd Graph Pure Trace HeapFacts Chain Analysis.
Local Open Scope R_scope.

Lemma vals_length (ops : list Op) (h : Heap) (v : Value) (x : R) (k : nat) :
  length (vals ops h v x k) = k.
Proof.
  induction k as [|k IH]; simpl; [reflexivity|].
  rewrite length_app, IH. simpl. lia.
Qed.

Lemma vals_nth (ops : list Op) (h : Heap) (v : Value) (x : R) (k u : nat) :
  (u < k)%nat -> nth u (vals ops h v x k) 0 = value_at ops h v x u.
Proof.
  induction k as [|k IH]; intros Hu; [lia|].
  destruct (Nat.eq_dec u k) as [->|Hne]; [reflexivity|].
  simpl. rewrite app_nth1 by (rewrite vals_length; lia).
  apply IH. lia.
Qed.

Lemma value_at_unfold (ops : list Op) (h : Heap) (v : Value) (x : R)
  (u : Value) :
  value_at ops h v x u =
  if Nat.eqb u v then x
  else op_data (nth u ops OLeaf) (datum h u)
               (fun a => nth a (vals ops h v x u) 0).
Proof.
  unfold value_at. simpl.
  rewrite app_nth2 by (rewrite vals_length; lia).
  rewrite vals_length, Nat.sub_diag. reflexivity.
Qed.

Lemma op_data_ext (op : Op) (self : R) (val val' : Value -> R) :
  (forall a, In a (op_children op) -> val a = val' a) ->
  op_data op self val = op_data op self val'.
Proof.
  intros H. destruct op; simpl in *; auto;
    rewrite ?(H a), ?(H b) by auto; reflexivity.
Qed.

(** The value of a node other than [v] is the operator applied to the
    values of its operands. *)
Lemma value_at_op (ops : list Op) (h : Heap) (v : Value) (x : R) (u : Value)
  (op : Op) :
  nth_error ops u = Some op -> u <> v ->
  Forall (fun c => c < u)%nat (op_children op) ->
  value_at ops h v x u = op_data op (datum h u) (value_at ops h v x).
Proof.
  intros Eop Hne Hlt. rewrite value_at_unfold.
  destruct (Nat.eqb_spec u v); [contradiction|].
  rewrite (nth_error_nth ops u OLeaf Eop).
  apply op_data_ext. intros a Ha. apply vals_nth.
  rewrite Forall_forall in Hlt. now apply Hlt.
Qed.

(** *** The value of a node as a function of another node *)

Lemma datum_nth (h : Heap) (u : Value) (n : Node) :
  nth_error h u = Some n -> datum h u = data n.
Proof. intros E. unfold datum. now rewrite E. Qed.

(** On a heap explained by a trace, the values recomputed after giving a
    node the number it holds are the numbers the heap holds, and the
    chain-rule coefficient [partial h u v] is the derivative of the value of
    [u] as a function of the number of [v]. *)
Lemma value_derivative (ops : list Op) (h : Heap) (v : Value) :
  wf_heap h -> explains ops h -> smooth ops h ->
  forall u, (u < length h)%nat ->
    value_at ops h v (datum h v) u = datum h u /\
    derivable_pt_lim (fun x => value_at ops h v x u) (datum h v)
                     (partial h u v).
Proof.
  intros Hwf [Hlen Hex] Hsm u.
  induction u as [u IH] using lt_wf_ind. intros Hu.
  destruct (nth_error h u) as [n|] eqn:En.
  2:{ apply nth_error_None in En. lia. }
  destruct (nth_error ops u) as [op|] eqn:Eop.
  2:{ apply nth_error_None in Eop. lia. }
  destruct (Hex u op n Eop En) as (Hch & Hlg & Hdata).
  destruct (Hwf u n En) as [Hlt _]. rewrite Hch in Hlt.
  assert (Hs : smooth_op op (datum h)).
  { unfold smooth in Hsm. rewrite Forall_forall in Hsm. apply Hsm.
    eapply nth_error_In; eauto. }
  destruct (Nat.eq_dec u v) as [->|Hne].
  { split.
    - rewrite value_at_unfold, Nat.eqb_refl. reflexivity.
    - rewrite partial_refl.
      apply (derivable_pt_lim_ext _ id); [|apply derivable_pt_lim_id].
      intros t. rewrite value_at_unfold, Nat.eqb_refl. reflexivity. }
  assert (Hval : forall x, value_at ops h v x u =
                           op_data op (datum h u) (value_at ops h v x)).
  { intros x. now apply value_at_op. }
  assert (Hed : edges h u = combine (op_children op) (op_grads op (datum h))).
  { unfold edges. now rewrite En, Hch, Hlg. }
  rewrite (partial_unfold h u v Hwf).
  destruct (Nat.eqb_spec u v) as [|_]; [contradiction|].
  rewrite Hed. rewrite (datum_nth h u n En) in *.
  assert (Hc : forall c, In c (op_children op) ->
               value_at ops h v (datum h v) c = datum h c /\
               derivable_pt_lim (fun x => value_at ops h v x c) (datum h v)
                                (partial h c v)).
  { intros c Hc. rewrite Forall_forall in Hlt. specialize (Hlt c Hc).
    apply IH; lia. }
  split.
  - rewrite Hval. symmetry. etransitivity; [exact Hdata|].
    apply op_data_ext. intros a Ha. symmetry. apply (Hc a Ha).
  - apply (derivable_pt_lim_ext _
             (fun x => op_data op (data n) (value_at ops h v x)));
      [exact Hval|].
    clear Hval Hed Hex Hsm IH.
    destruct op as [|a b|a b|a p|a|a|a|a]; simpl in *.
    + apply (derivable_pt_lim_const (data n)).
    + destruct (Hc a) as [_ Da]; [auto|]. destruct (Hc b) as [_ Db]; [auto|].
      replace (1 * partial h a v + (1 * partial h b v + 0))
        with (partial h a v + partial h b v) by ring.
      apply (derivable_pt_lim_plus _ _ _ _ _ Da Db).
    + destruct (Hc a) as [Va Da]; [auto|]. destruct (Hc b) as [Vb Db]; [auto|].
      replace (datum h b * partial h a v + (datum h a * partial h b v + 0))
        with (partial h a v * value_at ops h v (datum h v) b +
              value_at ops h v (datum h v) a * partial h b v)
        by (rewrite Va, Vb; ring).
      apply (derivable_pt_lim_mult _ _ _ _ _ Da Db).
    + destruct (Hc a) as [Va Da]; [auto|].
      replace (p * js_pow (datum h a) (p - 1) * partial h a v + 0)
        with (p * js_pow (datum h a) (p - 1) * partial h a v) by ring.
      apply (derivable_pt_lim_comp _ (fun t => js_pow t p) _ _ _ Da).
      rewrite Va. now apply derivable_pt_lim_pow_op.
    + destruct (Hc a) as [Va Da]; [auto|].
      replace (1 / datum h a * partial h a v + 0)
        with (/ datum h a * partial h a v) by (field; lra).
      apply (derivable_pt_lim_comp _ ln _ _ _ Da).
      rewrite Va. now apply derivable_pt_lim_ln.
    + destruct (Hc a) as [Va Da]; [auto|].
      replace (Rtrigo_def.exp (datum h a) * partial h a v + 0)
        with (Rtrigo_def.exp (datum h a) * partial h a v) by ring.
      apply (derivable_pt_lim_comp _ Rtrigo_def.exp _ _ _ Da).
      rewrite Va. apply derivable_pt_lim_exp.
    + destruct (Hc a) as [Va Da]; [auto|].
      replace (step (datum h a) * partial h a v + 0)
        with (step (datum h a) * partial h a v) by ring.
      apply (derivable_pt_lim_comp _ (Rmax 0) _ _ _ Da).
      rewrite Va. now apply derivable_pt_lim_relu.
    + destruct (Hc a) as [Va Da]; [auto|].
      replace (sigmoid (datum h a) * (1 + datum h a * (1 - sigmoid (datum h a)))
               * partial h a v + 0)
        with (sigmoid (datum h a) * (1 + datum h a * (1 - sigmoid (datum h a)))
              * partial h a v) by ring.
      apply (derivable_pt_lim_comp _ (fun t => t * sigmoid t) _ _ _ Da).
      rewrite Va. apply derivable_pt_lim_silu.
Qed.

(** *** The heaps built by the operators are explained by a trace *)

Lemma datum_data_of (h : Heap) (v : Value) (x : R) :
  Hoare.data_of h v = Some x -> datum h v = x.
Proof.
  unfold Hoare.data_of, datum. destruct (nth_error h v); simpl; congruence.
Qed.

Lemma datum_app (h t : Heap) (v : Value) :
  (v < length h)%nat -> datum (h ++ t) v = datum h v.
Proof. intros Hv. unfold datum. now rewrite nth_error_app1. Qed.

Lemma op_grads_ext (op : Op) (val val' : Value -> R) :
  (forall a, In a (op_children op) -> val a = val' a) ->
  op_grads op val = op_grads op val'.
Proof.
  intros H. destruct op; simpl in *; auto;
    rewrite ?(H a), ?(H b) by auto; reflexivity.
Qed.

Lemma made_by_app (h t : Heap) (op : Op) (n : Node) :
  Forall (fun c => c < length h)%nat (op_children op) ->
  made_by h op n -> made_by (h ++ t) op n.
Proof.
  intros Hlt (A & B & C). rewrite Forall_forall in Hlt.
  assert (E : forall a, In a (op_children op) ->
                        datum (h ++ t) a = datum h a).
  { intros a Ha. apply datum_app. auto. }
  split; [exact A|]. split.
  - rewrite B. symmetry. now apply op_grads_ext.
  - rewrite C at 1. symmetry. now apply op_data_ext.
Qed.

Lemma explains_snoc (ops : list Op) (h : Heap) (op : Op) (n : Node) :
  wf_heap h -> explains ops h ->
  Forall (fun c => c < length h)%nat (op_children op) ->
  made_by h op n ->
  explains (ops ++ [op]) (h ++ [n]).
Proof.
  intros Hwf [Hlen Hex] Hlt Hn. split.
  - rewrite !length_app. simpl. lia.
  - intros i op' n' Eop En.
    destruct (Nat.lt_ge_cases i (length h)) as [Hi|Hi].
    + rewrite nth_error_app1 in Eop by lia.
      rewrite nth_error_app1 in En by lia.
      pose proof (Hex i op' n' Eop En) as Hm.
      apply made_by_app; auto.
      destruct Hm as (A & _). rewrite <- A.
      destruct (Hwf i n' En) as [Hc _].
      eapply Forall_impl; [|exact Hc]. simpl. intros; lia.
    + rewrite nth_error_app2 in Eop by lia.
      rewrite nth_error_app2 in En by lia.
      rewrite Hlen in Eop.
      destruct (i - length h)%nat as [|j]; simpl in Eop, En.
      * injection Eop as <-. injection En as <-. now apply made_by_app.
      * destruct j; discriminate.
Qed.

Lemma wf_heap_snoc (h : Heap) (n : Node) :
  wf_heap h -> wf_node (length h) n -> wf_heap (h ++ [n]).
Proof.
  intros Hwf Hn i m E.
  destruct (Nat.lt_ge_cases i (length h)) as [Hi|Hi].
  - rewrite nth_error_app1 in E by lia. auto.
  - rewrite nth_error_app2 in E by lia.
    destruct (i - length h)%nat as [|j] eqn:Ej; simpl in E.
    + injection E as <-. replace i with (length h) by lia. exact Hn.
    + destruct j; discriminate.
Qed.

(** Every operator, and the allocation of a leaf, extends an explained
    heap into an explained heap. *)
Lemma operators_explained (ops : list Op) (h : Heap) (a b : Value)
  (x y p d : R) :
  wf_heap h -> explains ops h ->
  Hoare.data_of h a = Some x -> Hoare.data_of h b = Some y ->
  let grows (m : M Value) (op : Op) :=
      exists h', m h = Some (length h, h') /\
                 wf_heap h' /\ explains (ops ++ [op]) h' in
  grows (new_Value d [] []) OLeaf /\
  grows (add a (inl b)) (OAdd a b) /\
  grows (mul a (inl b)) (OMul a b) /\
  grows (pow a p) (OPow a p) /\
  grows (log a) (OLog a) /\
  grows (exp a) (OExp a) /\
  grows (relu a) (ORelu a) /\
  grows (silu a) (OSilu a).
Proof.
  intros Hwf Hex Ha Hb grows.
  pose proof (Operators.data_of_lt h a x Ha) as Hla.
  pose proof (Operators.data_of_lt h b y Hb) as Hlb.
  pose proof (datum_data_of h a x Ha) as Da.
  pose proof (datum_data_of h b y Hb) as Db.
  assert (G : forall (m : M Value) (op : Op) (n : Node),
             m h = Some (length h, h ++ [n]) ->
             _children n = op_children op ->
             _localGrads n = op_grads op (datum h) ->
             data n = op_data op (data n) (datum h) ->
             Forall (fun c => c < length h)%nat (op_children op) ->
             grows m op).
  { intros m op n E A B C Hlt. exists (h ++ [n]). split; [exact E|]. split.
    - apply wf_heap_snoc; auto. split.
      + now rewrite A.
      + rewrite A, B. destruct op; reflexivity.
    - apply explains_snoc; auto. repeat split; assumption. }
  repeat split.
  - apply (G _ OLeaf (mkNode d 0 [] [])); try reflexivity. constructor.
  - apply (G _ (OAdd a b) _ (Operators.add_eq h a b x y Ha Hb));
      simpl; rewrite ?Da, ?Db; auto.
  - apply (G _ (OMul a b) _ (Operators.mul_eq h a b x y Ha Hb));
      simpl; rewrite ?Da, ?Db; auto.
  - apply (G _ (OPow a p) _ (Operators.pow_eq h a x p Ha));
      simpl; rewrite ?Da; auto.
  - apply (G _ (OLog a) _ (Operators.log_eq h a x Ha));
      simpl; rewrite ?Da; auto.
  - apply (G _ (OExp a) _ (Operators.exp_eq h a x Ha));
      simpl; rewrite ?Da; auto.
  - apply (G _ (ORelu a) _ (Operators.relu_eq h a x Ha));
      simpl; rewrite ?Da; auto.
  - apply (G _ (OSilu a) _ (Operators.silu_eq h a x Ha));
      simpl; rewrite ?Da; auto.
Qed.

End Derivative.

(** ** The backward engine computes the partial derivatives *)

Module BackwardCorrect.

Import Invariants Examples.
Import Autograd Graph Pure Trace HeapFacts Traversal Chain Backward Derivative.
Local Open Scope R_scope.

(** C1.  On every finite acyclic graph whose reachable nodes have gradient 0,
    [backward] called on the node [root] terminates; the list [topo] it
    builds holds every node reachable from [root] exactly once, each node
    after all its children (post-order); only the [grad] fields change; and
    afterwards the gradient of every reachable node is the partial
    derivative of [root] with respect to that node given by the chain rule
    over the recorded pairs, the contributions of all the users of a node
    being accumulated.  Nodes that are not reachable keep their gradient.
    When the nodes were made by the operators, at operands where these are
    differentiable, that gradient is the derivative of the number of [root]
    as a function of the number of the node. *)
Theorem backward_partial_derivatives (h : Heap) (root : Value) :
  wf_heap h ->
  (root < length h)%nat ->
  (forall v, reachable h root v -> grad_of h v = 0) ->
  exists topo h',
    topo_of h root = Some topo /\
    backward root h = Some (tt, h') /\
    NoDup topo /\
    (forall v, In v topo <-> reachable h root v) /\
    postorder h topo /\
    same_graph h h' /\
    (forall v, reachable h root v -> grad_of h' v = partial h root v) /\
    (forall v, ~ reachable h root v -> grad_of h' v = grad_of h v) /\
    (forall ops v,
        explains ops h -> smooth ops h -> reachable h root v ->
        value_at ops h v (datum h v) root = datum h root /\
        derivable_pt_lim (fun x => value_at ops h v x root) (datum h v)
                         (grad_of h' v)).
Proof.
  intros Hwf Hroot Hzero.
  destruct (build_spec h Hwf (length h) root [] []) as (vis & topo & Eb & _ & Hreach & [Hrt _] & Hin);
    auto.
  { split; [constructor | intros x []]. }
  simpl in Eb, Hrt, Hin.
  assert (Hmem : forall v, In v topo <-> reachable h root v).
  { intros v. split.
    - intros Hv. rewrite Forall_forall in Hreach. auto.
    - intros Hr. apply in_rev. eapply rev_topo_closed; eauto.
      now apply in_rev in Hin. }
  destruct (modify_grad_spec h root (fun _ => 1) Hroot) as (nr & h0 & Enr & Em & Hsg0 & Hg0).
  destruct (distribute_all_spec (partial h root) (rev topo) h0)
    as (h' & Ed & Hsg' & Hgin & Hgout).
  { eapply same_graph_wf; eauto. }
  { eapply same_graph_rev_topo; eauto. }
  { intros v Hv.
    rewrite (Rsum_ext _ (fun w => if Nat.eqb root w then partial h w v else 0)).
    - rewrite (Rsum_select (fun w => partial h w v)); auto.
      + eapply rev_topo_NoDup; eauto.
      + now apply in_rev in Hin.
    - intros w Hw. rewrite Hg0. unfold partial.
      rewrite <- (same_graph_chain h h0 Hsg0).
      destruct (Nat.eqb root w); [lra|].
      rewrite Hzero; [lra|]. apply Hmem. now apply in_rev. }
  exists topo, h'.
  split; [unfold topo_of; now rewrite Eb|].
  split.
  { unfold backward. rewrite Eb. unfold bind, set_grad.
    assert (Em' : modify root (with_grad 1) h = Some (tt, h0)) by exact Em.
    rewrite Em'. exact Ed. }
  split.
  { rewrite <- (rev_involutive topo). apply NoDup_rev.
    eapply rev_topo_NoDup; eauto. }
  split; [exact Hmem|].
  split; [now apply rev_topo_postorder|].
  split; [eapply same_graph_trans; eauto|].
  assert (Hgrad : forall v, reachable h root v ->
                            grad_of h' v = partial h root v).
  { intros v Hr. apply Hgin. apply in_rev. rewrite rev_involutive.
    now apply Hmem. }
  split; [exact Hgrad|].
  split.
  - intros v Hnr. rewrite Hgout.
    + rewrite Hg0. destruct (Nat.eqb_spec root v) as [<-|_]; auto.
      exfalso. apply Hnr. now apply reach_refl.
    + intros Hv. apply Hnr. apply Hmem. now apply in_rev.
  - intros ops v Hex Hsm Hr. rewrite (Hgrad v Hr).
    now apply value_derivative.
Qed.

Lemma fanout_heap_wf : wf_heap fanout_heap.
Proof.
  intros i n Hi.
  do 4 (destruct i as [|i]; [injection Hi as <-; split; simpl; auto; repeat constructor; lia|]).
  destruct i; discriminate.
Qed.

Lemma fanout_heap_zero (v : Value) :
  reachable fanout_heap 3 v -> grad_of fanout_heap v = 0.
Proof.
  intros Hr. apply (reachable_valid_r fanout_heap 3 v) in Hr. simpl in Hr.
  do 4 (destruct v as [|v]; [reflexivity|]). lia.
Qed.

Lemma fanout_heap_explained :
  explains fanout_trace fanout_heap /\ smooth fanout_trace fanout_heap.
Proof.
  split.
  - split; [reflexivity|]. intros i op n Eop En.
    do 4 (destruct i as [|i];
          [injection Eop as <-; injection En as <-;
           repeat split; simpl; unfold datum; simpl; try reflexivity; lra|]).
    destruct i; discriminate.
  - repeat constructor.
Qed.

Lemma backward_partial_derivatives_witness :
  exists topo h',
    topo_of fanout_heap 3 = Some topo /\
    backward 3%nat fanout_heap = Some (tt, h') /\
    (forall v, reachable fanout_heap 3 v ->
               grad_of h' v = partial fanout_heap 3 v) /\
    derivable_pt_lim (fun x => value_at fanout_trace fanout_heap 0 x 3)
                     (datum fanout_heap 0) (grad_of h' 0).
Proof.
  assert (Hlt : (3 < length fanout_heap)%nat) by (simpl; lia).
  destruct (backward_partial_derivatives fanout_heap 3 fanout_heap_wf Hlt
                                         fanout_heap_zero)
    as (topo & h' & A & B & _ & _ & _ & _ & G & _ & I).
  exists topo, h'. split; [exact A|]. split; [exact B|]. split; [exact G|].
  destruct fanout_heap_explained as [Hex Hsm].
  apply (I fanout_trace 0%nat Hex Hsm).
  apply (reach_step fanout_heap 3 0 1 0).
  - right. left. reflexivity.
  - apply reach_refl. simpl. lia.
Defined.

End BackwardCorrect.

(** ** Reasoning about graph-building code *)

Module HoareFacts.

Import Invariants Examples.
Import Num Autograd Graph Hoare Operators Analysis.
Local Open Scope R_scope.

Lemma allocated_refl (L : R -> Prop) (h : Heap) : allocated L h h.
Proof.
  exists []. split; [now rewrite app_nil_r|].
  intros [|i] n Hn; discriminate.
Qed.

Lemma allocated_trans (L : R -> Prop) (h1 h2 h3 : Heap) :
  allocated L h1 h2 -> allocated L h2 h3 -> allocated L h1 h3.
Proof.
  intros (t1 & -> & H1) (t2 & -> & H2).
  exists (t1 ++ t2). split; [now rewrite app_assoc|].
  intros i n Hn. destruct (Nat.lt_ge_cases i (length t1)) as [Hlt|Hge].
  - rewrite nth_error_app1 in Hn by assumption. auto.
  - rewrite nth_error_app2 in Hn by assumption.
    destruct (H2 _ _ Hn) as [Hwf Hl]. split; auto.
    rewrite length_app in Hwf.
    replace (length h1 + i)%nat with (length h1 + length t1 + (i - length t1))%nat by lia.
    exact Hwf.
Qed.

Lemma allocated_weaken (L L' : R -> Prop) (h h' : Heap) :
  (forall k, L k -> L' k) -> allocated L h h' -> allocated L' h h'.
Proof.
  intros HL (t & -> & H). exists t. split; auto.
  intros i n Hn. destruct (H i n Hn). auto.
Qed.

Lemma allocated_data (L : R -> Prop) (h h' : Heap) (v : Value) (x : R) :
  allocated L h h' -> data_of h v = Some x -> data_of h' v = Some x.
Proof. intros (t & -> & _). apply data_of_app. Qed.

Lemma allocated_length (L : R -> Prop) (h h' : Heap) :
  allocated L h h' -> (length h <= length h')%nat.
Proof. intros (t & -> & _). rewrite length_app. lia. Qed.

Lemma allocated_wf (L : R -> Prop) (h h' : Heap) :
  allocated L h h' -> wf_heap h -> wf_heap h'.
Proof.
  intros (t & -> & H) Hwf i n Hn.
  destruct (Nat.lt_ge_cases i (length h)) as [Hlt|Hge].
  - rewrite nth_error_app1 in Hn by assumption. auto.
  - rewrite nth_error_app2 in Hn by assumption.
    destruct (H _ _ Hn) as [Hw _].
    now replace (length h + (i - length h))%nat with i in Hw by lia.
Qed.

Lemma allocated_node (L : R -> Prop) (h : Heap) (n : Node) :
  wf_node (length h) n -> (_children n = [] -> L (data n)) ->
  allocated L h (h ++ [n]).
Proof.
  intros Hw Hl. exists [n]. split; auto.
  intros [|[|i]] m Hm; simpl in Hm; try discriminate.
  injection Hm as <-. now rewrite Nat.add_0_r.
Qed.

Lemma vec_is_app (h t : Heap) (vs : list Value) (xs : list R) :
  vec_is h vs xs -> vec_is (h ++ t) vs xs.
Proof.
  induction 1; constructor; auto. now apply data_of_app.
Qed.

Lemma vec_is_alloc (L : R -> Prop) (h h' : Heap) (vs : list Value) (xs : list R) :
  allocated L h h' -> vec_is h vs xs -> vec_is h' vs xs.
Proof. intros (t & -> & _). apply vec_is_app. Qed.

Lemma mat_is_alloc (L : R -> Prop) (h h' : Heap) (w : list (list Value))
  (ws : list (list R)) :
  allocated L h h' -> mat_is h w ws -> mat_is h' w ws.
Proof.
  intros Ha. induction 1; constructor; auto. eapply vec_is_alloc; eauto.
Qed.

Lemma vec_is_length (h : Heap) (vs : list Value) (xs : list R) :
  vec_is h vs xs -> length vs = length xs.
Proof. apply Forall2_length. Qed.

Lemma vec_is_nth (h : Heap) (vs : list Value) (xs : list R) (i : nat) (v : Value) :
  vec_is h vs xs -> nth_error vs i = Some v ->
  exists x, nth_error xs i = Some x /\ data_of h v = Some x.
Proof.
  intros H. revert i. induction H as [|v' x vs xs Hv _ IH]; intros [|i] Hi;
    simpl in *; try discriminate.
  - injection Hi as <-. eauto.
  - auto.
Qed.

Lemma stable_vec_is : stable vec_is.
Proof. intros h t vs xs. apply vec_is_app. Qed.

Lemma stable_mat_is : stable mat_is.
Proof.
  intros h t w ws H. induction H; constructor; auto. now apply vec_is_app.
Qed.

Lemma stable_data_of : stable (fun h v x => data_of h v = Some x).
Proof. intros h t v x. apply data_of_app. Qed.

Lemma stable_alloc {A X} (P : Heap -> A -> X -> Prop) (L : R -> Prop)
  (h h' : Heap) (a : A) (x : X) :
  stable P -> allocated L h h' -> P h a x -> P h' a x.
Proof. intros HP (t & -> & _). apply HP. Qed.

(** *** Rules *)

Lemma runs_ret {A} (L : R -> Prop) (a : A) (h : Heap) (Q : A -> Heap -> Prop) :
  Q a h -> runs L (ret a) h Q.
Proof. intros HQ. exists a, h. repeat split; auto using allocated_refl. Qed.

Lemma runs_bind {A B} (L : R -> Prop) (m : M A) (f : A -> M B) (h : Heap)
  (P : A -> Heap -> Prop) (Q : B -> Heap -> Prop) :
  runs L m h P ->
  (forall a h1, allocated L h h1 -> P a h1 -> runs L (f a) h1 Q) ->
  runs L (bind m f) h Q.
Proof.
  intros (a & h1 & E1 & Ha1 & HP) Hf.
  destruct (Hf a h1 Ha1 HP) as (b & h2 & E2 & Ha2 & HQ).
  exists b, h2. unfold bind. rewrite E1.
  repeat split; eauto using allocated_trans.
Qed.

Lemma runs_bind_ret {A B} (L : R -> Prop) (a : A) (f : A -> M B) (h : Heap)
  (Q : B -> Heap -> Prop) :
  runs L (f a) h Q -> runs L (bind (ret a) f) h Q.
Proof. intros H. exact H. Qed.

Lemma runs_assoc {A B C} (L : R -> Prop) (m : M A) (f : A -> M B)
  (g : B -> M C) (h : Heap) (Q : C -> Heap -> Prop) :
  runs L (bind (bind m f) g) h Q ->
  runs L (bind m (fun x => bind (f x) g)) h Q.
Proof.
  intros (c & h' & E & Hal & HQ). exists c, h'. split; auto.
  rewrite <- E. unfold bind. destruct (m h) as [[a h1]|]; reflexivity.
Qed.

Lemma runs_weaken {A} (L : R -> Prop) (m : M A) (h : Heap)
  (P Q : A -> Heap -> Prop) :
  runs L m h P ->
  (forall a h1, allocated L h h1 -> P a h1 -> Q a h1) ->
  runs L m h Q.
Proof.
  intros (a & h1 & E1 & Ha1 & HP) HQ. exists a, h1. auto.
Qed.

Lemma runs_idx {A} (L : R -> Prop) (xs : list A) (i : nat) (x : A) (h : Heap) :
  nth_error xs i = Some x ->
  runs L (idx xs i) h (fun r h' => r = x /\ h' = h).
Proof.
  intros E. unfold idx. rewrite E. now apply runs_ret.
Qed.

Lemma runs_defined {A} (L : R -> Prop) (o : option A) (x : A) (h : Heap) :
  o = Some x -> runs L (defined o) h (fun r h' => r = x /\ h' = h).
Proof. intros ->. now apply runs_ret. Qed.

Lemma runs_get_data (L : R -> Prop) (v : Value) (x : R) (h : Heap) :
  data_of h v = Some x ->
  runs L (get_data v) h (fun r h' => r = x /\ h' = h).
Proof.
  intros Hv. exists x, h. rewrite (get_data_eq h v x Hv).
  repeat split; auto using allocated_refl.
Qed.

Ltac alloc_one :=
  apply allocated_node;
  [ split; simpl; [repeat constructor; eauto using data_of_lt | reflexivity]
  | simpl; try discriminate; auto ].

Lemma runs_new_Value (L : R -> Prop) (d : R) (h : Heap) :
  L d ->
  runs L (new_Value d [] []) h (fun r h' => data_of h' r = Some d).
Proof.
  intros HL. exists (length h), (h ++ [mkNode d 0 [] []]).
  split; [reflexivity|]. split; [alloc_one|].
  apply (data_of_new h (mkNode d 0 [] []) []).
Qed.

Lemma runs_add (L : R -> Prop) (h : Heap) (a b : Value) (x y : R) :
  data_of h a = Some x -> data_of h b = Some y ->
  runs L (add a (inl b)) h (fun r h' => data_of h' r = Some (x + y)).
Proof.
  intros Ha Hb. eexists _, _. split; [apply (add_eq h a b x y Ha Hb)|].
  split; [alloc_one|]. apply (data_of_new h (mkNode _ _ _ _) []).
Qed.

Lemma runs_mul (L : R -> Prop) (h : Heap) (a b : Value) (x y : R) :
  data_of h a = Some x -> data_of h b = Some y ->
  runs L (mul a (inl b)) h (fun r h' => data_of h' r = Some (x * y)).
Proof.
  intros Ha Hb. eexists _, _. split; [apply (mul_eq h a b x y Ha Hb)|].
  split; [alloc_one|]. apply (data_of_new h (mkNode _ _ _ _) []).
Qed.

Lemma runs_pow (L : R -> Prop) (h : Heap) (a : Value) (x p : R) :
  data_of h a = Some x ->
  runs L (pow a p) h (fun r h' => data_of h' r = Some (js_pow x p)).
Proof.
  intros Ha. eexists _, _. split; [apply (pow_eq h a x p Ha)|].
  split; [alloc_one|]. apply (data_of_new h (mkNode _ _ _ _) []).
Qed.

Lemma runs_log (L : R -> Prop) (h : Heap) (a : Value) (x : R) :
  data_of h a = Some x ->
  runs L (log a) h (fun r h' => data_of h' r = Some (ln x)).
Proof.
  intros Ha. eexists _, _. split; [apply (log_eq h a x Ha)|].
  split; [alloc_one|]. apply (data_of_new h (mkNode _ _ _ _) []).
Qed.

Lemma runs_exp (L : R -> Prop) (h : Heap) (a : Value) (x : R) :
  data_of h a = Some x ->
  runs L (exp a) h (fun r h' => data_of h' r = Some (Rtrigo_def.exp x)).
Proof.
  intros Ha. eexists _, _. split; [apply (exp_eq h a x Ha)|].
  split; [alloc_one|]. apply (data_of_new h (mkNode _ _ _ _) []).
Qed.

Lemma runs_relu (L : R -> Prop) (h : Heap) (a : Value) (x : R) :
  data_of h a = Some x ->
  runs L (relu a) h (fun r h' => data_of h' r = Some (Rmax 0 x)).
Proof.
  intros Ha. eexists _, _. split; [apply (relu_eq h a x Ha)|].
  split; [alloc_one|]. apply (data_of_new h (mkNode _ _ _ _) []).
Qed.

Lemma runs_silu (L : R -> Prop) (h : Heap) (a : Value) (x : R) :
  data_of h a = Some x ->
  runs L (silu a) h (fun r h' => data_of h' r = Some (x * sigmoid x)).
Proof.
  intros Ha. eexists _, _. split; [apply (silu_eq h a x Ha)|].
  split; [alloc_one|]. apply (data_of_new h (mkNode _ _ _ _) []).
Qed.


Lemma runs_new_node (L : R -> Prop) (d : R) (cs : list Value) (lgs : list R)
  (h : Heap) :
  Forall (fun c => c < length h)%nat cs -> length cs = length lgs ->
  (cs = [] -> L d) ->
  runs L (new_Value d cs lgs) h (fun r h' => data_of h' r = Some d).
Proof.
  intros Hcs Hl HL. exists (length h), (h ++ [mkNode d 0 cs lgs]).
  split; [reflexivity|]. split.
  - apply allocated_node; [split|]; auto.
  - apply (data_of_new h (mkNode d 0 cs lgs) []).
Qed.

Lemma runs_add_number (L : R -> Prop) (h : Heap) (a : Value) (x k : R) :
  data_of h a = Some x -> L k ->
  runs L (add a (inr k)) h (fun r h' => data_of h' r = Some (x + k)).
Proof.
  intros Ha HL. unfold add, as_Value.
  eapply runs_bind; [apply runs_new_Value; exact HL|].
  intros o h1 Hal Ho. simpl in Ho.
  eapply runs_bind; [apply runs_get_data; eapply allocated_data; eauto|].
  intros ? ? _ [-> ->].
  eapply runs_bind; [apply runs_get_data; eauto|].
  intros ? ? _ [-> ->].
  apply runs_new_node; auto; try discriminate.
  repeat constructor; eauto using data_of_lt, allocated_data.
Qed.

Lemma runs_mul_number (L : R -> Prop) (h : Heap) (a : Value) (x k : R) :
  data_of h a = Some x -> L k ->
  runs L (mul a (inr k)) h (fun r h' => data_of h' r = Some (x * k)).
Proof.
  intros Ha HL. unfold mul, as_Value.
  eapply runs_bind; [apply runs_new_Value; exact HL|].
  intros o h1 Hal Ho. simpl in Ho.
  eapply runs_bind; [apply runs_get_data; eapply allocated_data; eauto|].
  intros ? ? _ [-> ->].
  eapply runs_bind; [apply runs_get_data; eauto|].
  intros ? ? _ [-> ->].
  apply runs_new_node; auto; try discriminate.
  repeat constructor; eauto using data_of_lt, allocated_data.
Qed.

Lemma runs_sub (L : R -> Prop) (h : Heap) (a b : Value) (x y : R) :
  data_of h a = Some x -> data_of h b = Some y -> L (-1) ->
  runs L (sub a (inl b)) h (fun r h' => data_of h' r = Some (x - y)).
Proof.
  intros Ha Hb HL. unfold sub, neg.
  eapply runs_bind; [apply runs_mul_number; eauto|].
  intros n h1 Hal Hn. simpl in Hn.
  replace (x - y) with (x + y * -1) by ring.
  apply runs_add; eauto using allocated_data.
Qed.

Lemma runs_sub_number (L : R -> Prop) (h : Heap) (a : Value) (x k : R) :
  data_of h a = Some x -> L (- k) ->
  runs L (sub a (inr k)) h (fun r h' => data_of h' r = Some (x - k)).
Proof.
  intros Ha HL. unfold sub. replace (x - k) with (x + - k) by ring.
  now apply runs_add_number.
Qed.

Lemma runs_div (L : R -> Prop) (h : Heap) (a b : Value) (x y : R) :
  data_of h a = Some x -> data_of h b = Some y ->
  runs L (div a (inl b)) h (fun r h' => data_of h' r = Some (x / y)).
Proof.
  intros Ha Hb. unfold div, as_Value. apply runs_bind_ret.
  eapply runs_bind; [apply runs_pow; eauto|].
  intros q h2 Hal Hq. simpl in Hq. rewrite js_pow_inverse in Hq.
  unfold Rdiv. apply runs_mul; eauto using allocated_data.
Qed.

Lemma runs_div_number (L : R -> Prop) (h : Heap) (a : Value) (x k : R) :
  data_of h a = Some x -> L k ->
  runs L (div a (inr k)) h (fun r h' => data_of h' r = Some (x / k)).
Proof.
  intros Ha HL. unfold div, as_Value.
  eapply runs_bind; [apply runs_new_Value; exact HL|].
  intros o h1 Hal1 Ho. simpl in Ho.
  eapply runs_bind; [apply runs_pow; eauto|].
  intros q h2 Hal2 Hq. simpl in Hq. rewrite js_pow_inverse in Hq.
  unfold Rdiv. apply runs_mul; eauto using allocated_data.
Qed.

(** *** Loops *)

Import Pure.

Lemma runs_mapi_from {A B X Y} (L : R -> Prop)
  (RA : Heap -> A -> X -> Prop) (RB : Heap -> B -> Y -> Prop)
  (f : A -> nat -> M B) (g : X -> nat -> Y) :
  stable RA -> stable RB ->
  forall l xs i h,
    Forall2 (RA h) l xs ->
    (forall a x j h1,
        allocated L h h1 -> (i <= j)%nat ->
        nth_error l (j - i) = Some a -> RA h1 a x ->
        runs L (f a j) h1 (fun b h2 => RB h2 b (g x j))) ->
    runs L (mapi_from f l i) h
         (fun bs h' => Forall2 (RB h') bs (mapi g xs i)).
Proof.
  intros HA HB. induction l as [|a l IH]; intros xs i h Hl Hf.
  - inversion Hl; subst. apply runs_ret. constructor.
  - inversion Hl as [|? x ? xs' Hax Hl']; subst. simpl.
    eapply runs_bind.
    { apply (Hf a x i h); auto using allocated_refl.
      now rewrite Nat.sub_diag. }
    intros b h1 Hal1 Hb. simpl in Hb.
    eapply runs_bind.
    { apply (IH xs' (S i) h1).
      - eapply Forall2_impl; [|exact Hl']. intros; eapply stable_alloc; eauto.
      - intros a' x' j h2 Hal2 Hj Hn Ha'.
        apply Hf; eauto using allocated_trans; try lia.
        replace (j - i)%nat with (S (j - S i)) by lia. exact Hn. }
    intros bs h2 Hal2 Hbs. simpl in Hbs.
    apply runs_ret. constructor; auto. eapply stable_alloc; eauto.
Qed.

Lemma mapi_const {X Y} (g : X -> Y) (xs : list X) (i : nat) :
  mapi (fun x _ => g x) xs i = map g xs.
Proof. revert i. induction xs; intros; simpl; f_equal; auto. Qed.

Lemma runs_mapM {A B X Y} (L : R -> Prop)
  (RA : Heap -> A -> X -> Prop) (RB : Heap -> B -> Y -> Prop)
  (f : A -> M B) (g : X -> Y) (l : list A) (xs : list X) (h : Heap) :
  stable RA -> stable RB ->
  Forall2 (RA h) l xs ->
  (forall a x h1, allocated L h h1 -> In a l -> RA h1 a x ->
                  runs L (f a) h1 (fun b h2 => RB h2 b (g x))) ->
  runs L (mapM f l) h (fun bs h' => Forall2 (RB h') bs (map g xs)).
Proof.
  intros HA HB Hl Hf. unfold mapM, mapiM.
  rewrite <- (mapi_const g xs 0).
  apply (runs_mapi_from L RA RB); auto.
  intros a x j h1 Hal _ Hn Ha. apply Hf; auto.
  eapply nth_error_In; eauto.
Qed.

Lemma runs_reduce_from {A B} (L : R -> Prop) (f : B -> A -> nat -> M B)
  (I : nat -> B -> Heap -> Prop) :
  (forall j b h t, I j b h -> I j b (h ++ t)) ->
  forall xs i acc h,
    I i acc h ->
    (forall x j b h1,
        allocated L h h1 -> (i <= j)%nat ->
        nth_error xs (j - i) = Some x -> I j b h1 ->
        runs L (f b x j) h1 (fun b' h2 => I (S j) b' h2)) ->
    runs L (reduce_from f acc xs i) h
         (fun r h' => I (i + length xs)%nat r h').
Proof.
  intros HI. induction xs as [|x xs IH]; intros i acc h Hacc Hf; simpl.
  - apply runs_ret. now rewrite Nat.add_0_r.
  - eapply runs_bind.
    { apply (Hf x i acc h); auto using allocated_refl.
      now rewrite Nat.sub_diag. }
    intros b h1 Hal1 Hb. simpl in Hb.
    replace (i + S (length xs))%nat with (S i + length xs)%nat by lia.
    apply IH; auto.
    intros x' j b' h2 Hal2 Hj Hn Hb'.
    apply Hf; eauto using allocated_trans; try lia.
    replace (j - i)%nat with (S (j - S i)) by lia. exact Hn.
Qed.

Lemma runs_for_from {T} (L : R -> Prop) (body : nat -> T -> M T)
  (I : nat -> T -> Heap -> Prop) :
  (forall j a h t, I j a h -> I j a (h ++ t)) ->
  forall n lo acc h,
    I lo acc h ->
    (forall j a h1,
        allocated L h h1 -> (lo <= j < lo + n)%nat -> I j a h1 ->
        runs L (body j a) h1 (fun a' h2 => I (S j) a' h2)) ->
    runs L (for_from n lo body acc) h (fun r h' => I (lo + n)%nat r h').
Proof.
  intros HI. induction n as [|n IH]; intros lo acc h Hacc Hb; simpl.
  - apply runs_ret. now rewrite Nat.add_0_r.
  - eapply runs_bind.
    { apply (Hb lo acc h); auto using allocated_refl. lia. }
    intros a h1 Hal1 Ha. simpl in Ha.
    replace (lo + S n)%nat with (S lo + n)%nat by lia.
    apply IH; auto.
    intros j a' h2 Hal2 Hj Ha'.
    apply Hb; eauto using allocated_trans. lia.
Qed.

End HoareFacts.

(** ** [linear], [softmax] and [rmsnorm] compute the numeric functions *)

Module OpsFacts.

Import Invariants Examples.
Import Num Autograd Graph Hoare Operators Analysis HoareFacts Pure Ops.
Local Open Scope R_scope.

Lemma sum_list_firstn_S (l : list R) (k : nat) (y : R) :
  nth_error l k = Some y ->
  sum_list (firstn (S k) l) = sum_list (firstn k l) + y.
Proof.
  revert k. induction l as [|a l IH]; intros [|k] H; simpl in *; try discriminate.
  - injection H as ->. ring.
  - rewrite (IH k H). ring.
Qed.

Lemma sum_list_app (l1 l2 : list R) :
  sum_list (l1 ++ l2) = sum_list l1 + sum_list l2.
Proof. induction l1 as [|a l IH]; simpl; [ring | rewrite IH; ring]. Qed.

Lemma nth_error_combine {A B} (l1 : list A) (l2 : list B) (j : nat) (a : A) (b : B) :
  nth_error l1 j = Some a -> nth_error l2 j = Some b ->
  nth_error (combine l1 l2) j = Some (a, b).
Proof.
  revert l2 j. induction l1 as [|x l1 IH]; intros [|y l2] [|j] H1 H2;
    simpl in *; try discriminate.
  - congruence.
  - auto.
Qed.

Lemma runs_sum (L : R -> Prop) (vs : list Value) (xs : list R) (h : Heap) :
  vec_is h vs xs -> vs <> [] ->
  runs L (reduce add2 vs) h (fun r h' => data_of h' r = Some (sum_list xs)).
Proof.
  intros Hv Hne. destruct Hv as [|v x vs xs Hvx Hv]; [congruence|]. simpl.
  eapply runs_weaken.
  - apply (runs_reduce_from L (fun a b _ => add2 a b)
             (fun j acc h1 => data_of h1 acc = Some (x + sum_list (firstn (j - 1) xs)))).
    + intros j b h0 t. apply data_of_app.
    + simpl. rewrite Hvx. f_equal. ring.
    + intros w j b h1 Hal Hj Hn Hb.
      destruct (vec_is_nth h1 vs xs (j - 1) w) as (y & Hy & Hw); auto.
      { eapply vec_is_alloc; eauto. }
      eapply runs_weaken; [apply (runs_add L h1 b w _ y Hb Hw)|].
      intros r h2 _ Hr. simpl in Hr. rewrite Hr. f_equal.
      replace (S j - 1)%nat with (S (j - 1)) by lia.
      rewrite (sum_list_firstn_S xs (j - 1) y Hy). ring.
  - intros r h1 _ Hr. simpl in Hr. rewrite Hr. f_equal.
    rewrite Nat.sub_0_r, (vec_is_length _ _ _ Hv).
    now rewrite firstn_all.
Qed.

Lemma runs_dot (L : R -> Prop) (x row : list Value) (xs rs : list R) (h : Heap) :
  L 0 -> vec_is h x xs -> vec_is h row rs -> (length row <= length x)%nat ->
  runs L (zero <- new_Value 0 [] [] ;;
          reduce_init (fun sum wi i =>
                         xi <- idx x i ;;
                         p <- mul wi (inl xi) ;;
                         add sum (inl p))
                      zero row)%m h
       (fun r h' => data_of h' r = Some (dot rs xs)).
Proof.
  intros HL Hx Hrow Hlen.
  eapply runs_bind; [apply runs_new_Value; exact HL|].
  intros zero h0 Hal0 Hzero. simpl in Hzero.
  set (ps := map (fun p => fst p * snd p) (combine rs xs)).
  eapply runs_weaken.
  - apply (runs_reduce_from L _
             (fun j acc h1 => data_of h1 acc = Some (sum_list (firstn j ps)))).
    + intros j b h1 t. apply data_of_app.
    + exact Hzero.
    + intros wi j b h1 Hal1 _ Hn Hb. rewrite Nat.sub_0_r in Hn.
      assert (Hal : allocated L h h1) by eauto using allocated_trans.
      destruct (vec_is_nth h1 row rs j wi) as (rj & Hrj & Hwi); auto.
      { eapply vec_is_alloc; eauto. }
      assert (Hjx : (j < length x)%nat).
      { assert (j < length row)%nat by (apply nth_error_Some; congruence). lia. }
      destruct (nth_error x j) as [xi|] eqn:Exi.
      2:{ apply nth_error_None in Exi. lia. }
      destruct (vec_is_nth h1 x xs j xi) as (xj & Hxj & Hxi); auto.
      { eapply vec_is_alloc; eauto. }
      eapply runs_bind; [apply (runs_idx L x j xi h1 Exi)|].
      intros ? ? _ [-> ->].
      eapply runs_bind; [apply (runs_mul L h1 wi xi rj xj Hwi Hxi)|].
      intros p h2 Hal2 Hp. simpl in Hp.
      eapply runs_weaken;
        [apply (runs_add L h2 b p _ _ (allocated_data L h1 h2 b _ Hal2 Hb) Hp)|].
      intros r h3 _ Hr. simpl in Hr. rewrite Hr. f_equal.
      rewrite (sum_list_firstn_S ps j (rj * xj)); auto.
      unfold ps. rewrite nth_error_map.
      now rewrite (nth_error_combine rs xs j rj xj Hrj Hxj).
  - intros r h1 _ Hr. simpl in Hr. rewrite Hr. f_equal. unfold dot. fold ps.
    rewrite firstn_all2; auto. unfold ps.
    rewrite length_map, length_combine.
    rewrite <- (vec_is_length _ _ _ Hrow), <- (vec_is_length _ _ _ Hx). lia.
Qed.

Lemma runs_linear (L : R -> Prop) (x : list Value) (w : list (list Value))
  (xs : list R) (ws : list (list R)) (h : Heap) :
  L 0 -> vec_is h x xs -> mat_is h w ws ->
  Forall (fun row => length row <= length x)%nat w ->
  runs L (linear x w) h (fun out h' => vec_is h' out (linear_R xs ws)).
Proof.
  intros HL Hx Hw Hlen. unfold linear, linear_R.
  apply (runs_mapM L vec_is (fun h v y => data_of h v = Some y));
    auto using stable_vec_is, stable_data_of.
  intros row rs h1 Hal Hin Hrow.
  apply runs_dot; auto.
  - eapply vec_is_alloc; eauto.
  - rewrite Forall_forall in Hlen. auto.
Qed.


Lemma Forall2_eq_map {X} (l : list X) (xs : list X) :
  Forall2 (fun r y => r = y) l xs -> l = xs.
Proof. induction 1; subst; auto. Qed.

Lemma runs_softmax (L : R -> Prop) (logits : list Value) (xs : list R) (h : Heap) :
  vec_is h logits xs -> logits <> [] -> L (- Math_max xs) ->
  runs L (softmax logits) h (fun out h' => vec_is h' out (softmax_R xs)).
Proof.
  intros Hv Hne HL. unfold softmax.
  eapply runs_bind.
  { apply (runs_mapM L (fun h v y => data_of h v = Some y)
                     (fun (_ : Heap) (r y : R) => r = y) get_data (fun y => y));
      auto using stable_data_of.
    - intros h0 t a x; auto.
    - exact Hv.
    - intros v x h1 Hal _ Hvx.
      eapply runs_weaken; [apply (runs_get_data L v x h1 Hvx)|].
      intros r h2 _ [-> _]. reflexivity. }
  intros ds h1 Hal1 Hds. simpl in Hds. rewrite map_id in Hds.
  apply Forall2_eq_map in Hds. subst ds.
  set (m := Math_max xs) in *.
  eapply runs_bind.
  { apply (runs_mapM L (fun h v y => data_of h v = Some y)
                     (fun h v y => data_of h v = Some y)
                     (fun v => bind (sub v (inr m)) (fun t => exp t))
                     (fun x => Rtrigo_def.exp (x - m)));
      auto using stable_data_of.
    - eapply vec_is_alloc; eauto.
    - intros v x h2 Hal2 _ Hvx.
      eapply runs_bind; [apply (runs_sub_number L h2 v x m Hvx HL)|].
      intros t h3 _ Ht. simpl in Ht. now apply runs_exp. }
  intros exps h2 Hal2 Hexps. simpl in Hexps.
  set (es := map (fun x => Rtrigo_def.exp (x - m)) xs) in *.
  assert (Hexps_ne : exps <> []).
  { intros ->. inversion Hexps as [E|]. unfold es in E.
    destruct xs; [|discriminate]. inversion Hv. congruence. }
  eapply runs_bind; [apply (runs_sum L exps es h2 Hexps Hexps_ne)|].
  intros total h3 Hal3 Htotal. simpl in Htotal.
  unfold softmax_R. fold m. fold es.
  apply (runs_mapM L (fun h v y => data_of h v = Some y)
                   (fun h v y => data_of h v = Some y));
    auto using stable_data_of.
  - eapply vec_is_alloc; eauto.
  - intros e x h4 Hal4 _ Hex.
    apply runs_div; auto. eapply allocated_data; eauto.
Qed.

Lemma sum_squares_nonneg (xs : list R) :
  0 <= sum_list (map (fun x => x * x) xs).
Proof.
  induction xs as [|x xs IH]; simpl; [lra|]. nra.
Qed.

Lemma mean_square_nonneg (xs : list R) : xs <> [] -> 0 <= mean_square xs.
Proof.
  intros Hne. unfold mean_square.
  apply Rmult_le_pos; [apply sum_squares_nonneg|].
  apply Rlt_le, Rinv_0_lt_compat. apply lt_0_INR.
  destruct xs; [congruence | simpl; lia].
Qed.

Lemma runs_rmsnorm (L : R -> Prop) (x : list Value) (xs : list R) (h : Heap) :
  vec_is h x xs -> x <> [] -> L (INR (length x)) -> L 1e-5 ->
  runs L (rmsnorm x) h (fun out h' => vec_is h' out (rmsnorm_R xs)).
Proof.
  intros Hv Hne HLn HLe. unfold rmsnorm.
  assert (Hxs : xs <> []).
  { intros ->. inversion Hv. congruence. }
  eapply runs_bind.
  { apply (runs_mapM L (fun h v y => data_of h v = Some y)
                     (fun h v y => data_of h v = Some y)
                     (fun xi => mul xi (inl xi)) (fun y => y * y));
      auto using stable_data_of.
    - exact Hv.
    - intros v y h1 _ _ Hvy. now apply runs_mul. }
  intros sq h1 Hal1 Hsq. simpl in Hsq.
  assert (Hsq_ne : sq <> []).
  { intros ->. inversion Hsq as [E|]. destruct xs; [congruence | discriminate]. }
  eapply runs_bind; [apply (runs_sum L sq _ h1 Hsq Hsq_ne)|].
  intros s h2 Hal2 Hs. simpl in Hs.
  eapply runs_bind; [apply (runs_div_number L h2 s _ (INR (length x)) Hs HLn)|].
  intros ms h3 Hal3 Hms. simpl in Hms.
  eapply runs_bind; [apply (runs_add_number L h3 ms _ 1e-5 Hms HLe)|].
  intros t h4 Hal4 Ht. simpl in Ht.
  eapply runs_bind; [apply (runs_pow L h4 t _ (-0.5) Ht)|].
  intros scale h5 Hal5 Hscale. simpl in Hscale.
  rewrite (vec_is_length _ _ _ Hv) in Hscale.
  fold (mean_square xs) in Hscale.
  rewrite js_pow_pos in Hscale.
  2:{ pose proof (mean_square_nonneg xs Hxs). lra. }
  unfold rmsnorm_R, rmsnorm_eps.
  apply (runs_mapM L (fun h v y => data_of h v = Some y)
                   (fun h v y => data_of h v = Some y));
    auto using stable_data_of.
  - eapply vec_is_alloc; [|exact Hv].
    eauto 10 using allocated_trans.
  - intros xi y h6 Hal6 _ Hxi.
    apply runs_mul; auto. eapply allocated_data; eauto.
Qed.

End OpsFacts.

(** ** Properties of the numeric functions *)

Module PureFacts.

Import Invariants Examples.
Import Num Pure OpsFacts.
Local Open Scope R_scope.









Lemma sum_list_nonneg (l : list R) :
  Forall (fun e => 0 < e) l -> 0 <= sum_list l.
Proof. induction 1; simpl; lra. Qed.

Lemma sum_list_ge_In (l : list R) (e : R) :
  Forall (fun e => 0 < e) l -> In e l -> e <= sum_list l.
Proof.
  induction 1 as [|a l Ha Hl IH]; intros Hin; [contradiction|]. simpl.
  pose proof (sum_list_nonneg l Hl).
  destruct Hin as [->|Hin]; [lra|]. specialize (IH Hin). lra.
Qed.


Lemma softmax_R_range (xs : list R) :
  Forall (fun p => 0 < p <= 1) (softmax_R xs).
Proof.
  unfold softmax_R. set (es := map (fun x => exp (x - Math_max xs)) xs).
  assert (Hpos : Forall (fun e => 0 < e) es).
  { unfold es. apply Forall_forall. intros e He. apply in_map_iff in He.
    destruct He as (x & <- & _). apply exp_pos. }
  apply Forall_forall. intros p Hp. apply in_map_iff in Hp.
  destruct Hp as (e & <- & He).
  assert (0 < e) by (rewrite Forall_forall in Hpos; auto).
  pose proof (sum_list_ge_In es e Hpos He).
  assert (0 < sum_list es) by lra.
  split.
  - now apply Rdiv_lt_0_compat.
  - apply (Rmult_le_reg_r (sum_list es)); auto.
    unfold Rdiv. rewrite Rmult_assoc, Rinv_l by lra. lra.
Qed.










End PureFacts.

Module Primitives.

Import Invariants Examples.
Import Num Autograd Graph Hoare HoareFacts Pure Ops OpsFacts PureFacts.
Local Open Scope R_scope.







End Primitives.

(** ** Loading persisted parameters *)

Module Persistence.

Import Invariants Examples.
Import Autograd Store Hoare HeapFacts Operators.
Local Open Scope R_scope.


Lemma In_firstn {A} (x : A) (n : nat) (l : list A) :
  In x (firstn n l) -> In x l.
Proof.
  intros H. rewrite <- (firstn_skipn n l). apply in_or_app. now left.
Qed.





(** A file with no number leaves the parameter undefined, again without an
    error. *)
Example load_accepts_shorter_file :
  Llama.load [0%nat] [] one_parameter = Some ([0%nat], one_parameter).
Proof. reflexivity. Qed.


End Persistence.

(** ** Rules for the building blocks of the models *)

Module BlockFacts.

Import Invariants Examples.
Import Num Autograd Store Graph Hoare Operators Analysis HoareFacts Pure Ops
       OpsFacts PureFacts.
Local Open Scope R_scope.

Lemma sum_n_S (n : nat) (f : nat -> R) : sum_n (S n) f = sum_n n f + f n.
Proof.
  unfold sum_n. rewrite seq_S, map_app, sum_list_app. simpl. ring.
Qed.

Lemma sum_n_ext (n : nat) (f g : nat -> R) :
  (forall i, (i < n)%nat -> f i = g i) -> sum_n n f = sum_n n g.
Proof.
  intros H. unfold sum_n. f_equal. apply map_ext_in.
  intros i Hi. apply in_seq in Hi. apply H. lia.
Qed.

Lemma Forall2_firstn {A B} (P : A -> B -> Prop) (n : nat) (l : list A) (l' : list B) :
  Forall2 P l l' -> Forall2 P (firstn n l) (firstn n l').
Proof.
  intros H. revert n. induction H; intros [|n]; simpl; constructor; auto.
Qed.

Lemma Forall2_skipn {A B} (P : A -> B -> Prop) (n : nat) (l : list A) (l' : list B) :
  Forall2 P l l' -> Forall2 P (skipn n l) (skipn n l').
Proof.
  intros H. revert n. induction H; intros [|n]; simpl; auto.
Qed.

Lemma vec_is_slice (h : Heap) (v : list Value) (xs : list R) (a b : nat) :
  vec_is h v xs -> vec_is h (slice v a b) (slice xs a b).
Proof. intros H. now apply Forall2_firstn, Forall2_skipn. Qed.

Lemma slice_length {A} (l : list A) (a b : nat) :
  (b <= length l)%nat -> length (slice l a b) = (b - a)%nat.
Proof.
  intros H. unfold slice. rewrite length_firstn, length_skipn. lia.
Qed.

Lemma vec_is_snoc (h : Heap) (v : list Value) (xs : list R) (a : Value) (x : R) :
  vec_is h v xs -> data_of h a = Some x -> vec_is h (v ++ [a]) (xs ++ [x]).
Proof.
  intros H Ha. apply Forall2_app; [exact H|]. repeat constructor. exact Ha.
Qed.

Lemma vec_is_nth_default (h : Heap) (v : list Value) (xs : list R) (i : nat) :
  vec_is h v xs -> (i < length v)%nat ->
  exists a, nth_error v i = Some a /\ data_of h a = Some (nth i xs 0).
Proof.
  intros H Hi. destruct (nth_error v i) as [a|] eqn:Ea.
  2:{ apply nth_error_None in Ea. lia. }
  destruct (vec_is_nth h v xs i a H Ea) as (x & Hx & Hax).
  exists a. split; auto. now rewrite (nth_error_nth xs i 0 Hx).
Qed.

Lemma mat_is_nth (h : Heap) (w : list (list Value)) (ws : list (list R))
  (i : nat) (row : list Value) :
  mat_is h w ws -> nth_error w i = Some row ->
  vec_is h row (nth i ws []).
Proof.
  intros H. revert i. induction H as [|r rs w ws Hr _ IH]; intros [|i] Hi;
    simpl in *; try discriminate.
  - now injection Hi as <-.
  - auto.
Qed.


Lemma runs_lookup (L : R -> Prop) (state : State) (key : string)
  (w : list (list Value)) (h : Heap) :
  state key = Some w ->
  runs L (lookup state key) h (fun r h' => r = w /\ h' = h).
Proof. intros E. unfold lookup. now apply runs_defined. Qed.

Lemma push_at_spec {A} (cache : list (list A)) (li : nat) (x : A) (old : list A) :
  nth_error cache li = Some old ->
  exists cache',
    push_at cache li x = Some cache' /\
    length cache' = length cache /\
    nth_error cache' li = Some (old ++ [x]) /\
    forall j, j <> li -> nth_error cache' j = nth_error cache j.
Proof.
  revert li. induction cache as [|c rest IH]; intros [|li] Hli; simpl in *;
    try discriminate.
  - injection Hli as ->. eexists. repeat split; auto.
    intros [|j] Hj; [congruence | reflexivity].
  - destruct (IH li Hli) as (cache' & -> & Hl & Hn & Hj).
    simpl. eexists. repeat split; simpl; auto.
    intros [|j] Hne; [reflexivity | apply Hj; congruence].
Qed.

Lemma runs_push {A} (L : R -> Prop) (cache cache' : list (list A)) (li : nat)
  (x : A) (h : Heap) :
  push_at cache li x = Some cache' ->
  runs L (push cache li x) h (fun r h' => r = cache' /\ h' = h).
Proof. intros E. unfold push. now apply runs_defined. Qed.

Lemma runs_zeros (L : R -> Prop) (n : nat) (h : Heap) :
  L 0 ->
  runs L (Deepseek.zeros n) h (fun out h' => vec_is h' out (repeat 0 n)).
Proof.
  intros HL. unfold Deepseek.zeros.
  eapply runs_weaken.
  - apply (runs_mapM L (fun (_ : Heap) (_ _ : nat) => True)
                     (fun h v y => data_of h v = Some y)
                     (fun _ => new_Value 0 [] []) (fun _ => 0)
                     (repeat 0%nat n) (repeat 0%nat n));
      auto using stable_data_of.
    + intros h0 t a x; auto.
    + induction n; simpl; constructor; auto.
    + intros a x h1 _ _ _. now apply runs_new_Value.
  - intros out h1 _ Hout. simpl in Hout.
    now rewrite map_repeat in Hout.
Qed.

Lemma runs_residual (L : R -> Prop) (x res : list Value) (xs rs : list R)
  (h : Heap) :
  vec_is h x xs -> vec_is h res rs -> (length x <= length res)%nat ->
  runs L (mapiM (fun xi i => bind (idx res i) (fun r => add xi (inl r))) x) h
       (fun out h' => vec_is h' out (residual_R xs rs)).
Proof.
  intros Hx Hres Hlen. unfold mapiM, residual_R.
  apply (runs_mapi_from L (fun h v y => data_of h v = Some y)
                        (fun h v y => data_of h v = Some y));
    auto using stable_data_of.
  intros a xa j h1 Hal _ Hj Ha. rewrite Nat.sub_0_r in Hj.
  assert (Hjlt : (j < length res)%nat).
  { assert (j < length x)%nat by (apply nth_error_Some; congruence). lia. }
  destruct (vec_is_nth_default h1 res rs j) as (r & Er & Hr); auto.
  { eapply vec_is_alloc; eauto. }
  eapply runs_bind; [apply (runs_idx L res j r h1 Er)|].
  intros ? ? _ [-> ->]. now apply runs_add.
Qed.

Lemma flat_map_seq_S {A} (f : nat -> list A) (n : nat) :
  flat_map f (seq 0 (S n)) = flat_map f (seq 0 n) ++ f n.
Proof.
  rewrite seq_S, flat_map_app. simpl. now rewrite app_nil_r.
Qed.

Lemma runs_apply_rope (x : list Value) (xs : list R) (pos d : nat) (h : Heap) :
  vec_is h x xs -> (2 * (d / 2) <= length x)%nat ->
  runs any (apply_rope x pos d) h
       (fun out h' => vec_is h' out (rope_R xs pos d)).
Proof.
  intros Hx Hlen. unfold apply_rope, for_range, rope_R.
  eapply runs_weaken.
  - apply (runs_for_from any _
             (fun j out h1 => vec_is h1 out (flat_map (rope_pair xs pos d) (seq 0 j)))).
    + intros j a h0 t. apply vec_is_app.
    + constructor.
    + intros j out h1 Hal Hj Hout.
      assert (Hx1 : vec_is h1 x xs) by (eapply vec_is_alloc; eauto).
      destruct (vec_is_nth_default h1 x xs (2 * j)) as (x1 & E1 & H1); auto; [lia|].
      destruct (vec_is_nth_default h1 x xs (2 * j + 1)) as (x2 & E2 & H2); auto; [lia|].
      eapply runs_bind; [apply (runs_idx any x _ x1 h1 E1)|].
      intros ? ? _ [-> ->].
      eapply runs_bind; [apply (runs_idx any x _ x2 h1 E2)|].
      intros ? ? _ [-> ->].
      eapply runs_bind; [apply (runs_mul_number any h1 x1 _ _ H1 I)|].
      intros a h2 Hal2 Ha. simpl in Ha.
      eapply runs_bind;
        [apply (runs_mul_number any h2 x2 _ _ (allocated_data any h1 h2 _ _ Hal2 H2) I)|].
      intros b h3 Hal3 Hb. simpl in Hb.
      eapply runs_bind;
        [apply (runs_sub any h3 a b _ _ (allocated_data any h2 h3 _ _ Hal3 Ha) Hb I)|].
      intros r1 h4 Hal4 Hr1. simpl in Hr1.
      assert (Hal14 : allocated any h1 h4) by eauto using allocated_trans.
      eapply runs_bind;
        [apply (runs_mul_number any h4 x1 _ _ (allocated_data any h1 h4 _ _ Hal14 H1) I)|].
      intros a' h5 Hal5 Ha'. simpl in Ha'.
      assert (Hal15 : allocated any h1 h5) by eauto using allocated_trans.
      eapply runs_bind;
        [apply (runs_mul_number any h5 x2 _ _ (allocated_data any h1 h5 _ _ Hal15 H2) I)|].
      intros b' h6 Hal6 Hb'. simpl in Hb'.
      eapply runs_bind;
        [apply (runs_add any h6 a' b' _ _ (allocated_data any h5 h6 _ _ Hal6 Ha') Hb')|].
      intros r2 h7 Hal7 Hr2. simpl in Hr2.
      apply runs_ret. rewrite flat_map_seq_S.
      apply Forall2_app.
      * eapply vec_is_alloc; [|exact Hout]. eauto 10 using allocated_trans.
      * unfold rope_pair. repeat constructor; auto.
        eapply allocated_data; [|exact Hr1]. eauto 10 using allocated_trans.
  - intros out h1 _ Hout. exact Hout.
Qed.

Lemma rope_R_length (xs : list R) (pos d : nat) :
  length (rope_R xs pos d) = (2 * (d / 2))%nat.
Proof.
  unfold rope_R. generalize (d / 2)%nat. intros n.
  induction n as [|n IH]; [reflexivity|].
  rewrite flat_map_seq_S, length_app, IH. simpl. lia.
Qed.


Lemma firstn_S_nth {A} (l : list A) (t : nat) (d : A) :
  (t < length l)%nat -> firstn (S t) l = firstn t l ++ [nth t l d].
Proof.
  revert t. induction l as [|a l IH]; intros [|t] Ht; simpl in *; try lia; auto.
  f_equal. apply IH. lia.
Qed.

Lemma map_firstn_S {A B} (g : A -> B) (l : list A) (t : nat) (d : A) :
  (t < length l)%nat ->
  map g (firstn (S t) l) = map g (firstn t l) ++ [g (nth t l d)].
Proof.
  intros Ht. rewrite (firstn_S_nth l t d Ht), map_app. reflexivity.
Qed.

(** A loop that adds one term per iteration to an accumulator node. *)
Lemma runs_accumulate (L : R -> Prop) (n : nat) (body : nat -> Value -> M Value)
  (f : nat -> R) (acc0 : Value) (a0 : R) (h : Heap) :
  data_of h acc0 = Some a0 ->
  (forall j acc a h1,
      allocated L h h1 -> (j < n)%nat -> data_of h1 acc = Some a ->
      runs L (body j acc) h1 (fun r h2 => data_of h2 r = Some (a + f j))) ->
  runs L (for_range n body acc0) h
       (fun r h' => data_of h' r = Some (a0 + sum_n n f)).
Proof.
  intros H0 Hbody. unfold for_range.
  eapply runs_weaken.
  - apply (runs_for_from L body
             (fun j acc h1 => data_of h1 acc = Some (a0 + sum_n j f))).
    + intros j a h0 t. apply data_of_app.
    + rewrite H0. f_equal. unfold sum_n. simpl. ring.
    + intros j acc h1 Hal Hj Hacc.
      eapply runs_weaken;
        [apply (Hbody j acc (a0 + sum_n j f) h1 Hal); [lia | exact Hacc]|].
      intros r h2 _ Hr. simpl in Hr. rewrite Hr. f_equal.
      rewrite sum_n_S. ring.
  - intros r h1 _ Hr. exact Hr.
Qed.

(** *** Variant B: attention of one query head *)

Lemma runs_llama_logits (hd : nat) (q : list Value) (qs : list R)
  (kn : list (list Value)) (Ks : list (list R)) (h : Heap) :
  vec_is h q qs -> (hd <= length q)%nat ->
  mat_is h kn Ks -> Forall (fun k => hd <= length k)%nat kn ->
  runs any (Llama.attention_logits hd (Some q) (map Some kn)) h
       (fun out h' =>
          vec_is h' out (map (fun k => dot_n hd qs k / sqrt (INR hd)) Ks)).
Proof.
  intros Hq Hqlen Hk Hklen. unfold Llama.attention_logits, for_range.
  rewrite length_map.
  pose proof (Forall2_length Hk) as HlenK.
  eapply runs_weaken.
  - apply (runs_for_from any _
             (fun t out h1 =>
                vec_is h1 out
                  (map (fun k => dot_n hd qs k / sqrt (INR hd)) (firstn t Ks)))).
    + intros j a h0 t. apply vec_is_app.
    + constructor.
    + intros t out h1 Hal Ht Hout.
      destruct (nth_error kn t) as [kt|] eqn:Ekt.
      2:{ apply nth_error_None in Ekt. lia. }
      assert (Hkt : vec_is h1 kt (nth t Ks [])).
      { eapply mat_is_nth; [|exact Ekt]. eapply mat_is_alloc; eauto. }
      assert (Hktlen : (hd <= length kt)%nat).
      { rewrite Forall_forall in Hklen. apply Hklen. eapply nth_error_In; eauto. }
      eapply runs_bind; [apply (runs_new_Value any 0 h1 I)|].
      intros dot0 h2 Hal2 Hdot0. simpl in Hdot0.
      assert (Hal02 : allocated any h h2) by eauto using allocated_trans.
      eapply runs_bind.
      { apply (runs_accumulate any hd _
                 (fun j => nth j qs 0 * nth j (nth t Ks []) 0) dot0 0 h2 Hdot0).
        intros j acc a h3 Hal3 Hj Hacc.
        assert (Hal03 : allocated any h h3) by eauto using allocated_trans.
        assert (Hal13 : allocated any h1 h3) by eauto using allocated_trans.
        apply runs_bind_ret.
        destruct (vec_is_nth_default h3 q qs j) as (qj & Eqj & Hqj);
          [apply (vec_is_alloc any h h3 q qs Hal03 Hq) | lia |].
        eapply runs_bind; [apply (runs_idx any q j qj h3 Eqj)|].
        intros ? ? _ [-> ->].
        eapply runs_bind.
        { apply (runs_idx any (map Some kn) t (Some kt) h3).
          rewrite nth_error_map, Ekt. reflexivity. }
        intros ? ? _ [-> ->]. apply runs_bind_ret.
        destruct (vec_is_nth_default h3 kt (nth t Ks []) j) as (kj & Ekj & Hkj);
          [apply (vec_is_alloc any h1 h3 _ _ Hal13 Hkt) | lia |].
        eapply runs_bind; [apply (runs_idx any kt j kj h3 Ekj)|].
        intros ? ? _ [-> ->].
        eapply runs_bind; [apply (runs_mul any h3 qj kj _ _ Hqj Hkj)|].
        intros p h4 Hal4 Hp. simpl in Hp.
        apply runs_add; auto. eapply allocated_data; eauto. }
      intros dot h3 Hal3 Hdot. simpl in Hdot.
      eapply runs_bind; [apply (runs_new_Value any (sqrt (INR hd)) h3 I)|].
      intros sq h4 Hal4 Hsq. simpl in Hsq.
      eapply runs_bind;
        [apply (runs_div any h4 dot sq _ _ (allocated_data any h3 h4 _ _ Hal4 Hdot) Hsq)|].
      intros l h5 Hal5 Hl. simpl in Hl.
      apply runs_ret.
      rewrite (map_firstn_S _ Ks t []) by lia.
      apply vec_is_snoc.
      * eapply vec_is_alloc; [|exact Hout]. eauto 10 using allocated_trans.
      * rewrite Hl. f_equal. unfold dot_n. rewrite Rplus_0_l. reflexivity.
  - intros out h1 _ Hout. simpl in Hout.
    rewrite HlenK, firstn_all in Hout. exact Hout.
Qed.


Lemma map_seq_S {B} (g : nat -> B) (n : nat) :
  map g (seq 0 (S n)) = map g (seq 0 n) ++ [g n].
Proof. rewrite seq_S, map_app. reflexivity. Qed.

Lemma runs_llama_weighted (hd : nat) (weights : list Value) (ws : list R)
  (vn : list (list Value)) (Vs : list (list R)) (h : Heap) :
  vec_is h weights ws -> mat_is h vn Vs ->
  (length vn <= length weights)%nat ->
  Forall (fun v => hd <= length v)%nat vn ->
  runs any (Llama.weighted_values hd weights (map Some vn)) h
       (fun out h' =>
          vec_is h' out
            (map (fun j => sum_n (length Vs)
                             (fun t => nth t ws 0 * nth j (nth t Vs []) 0))
                 (seq 0 hd))).
Proof.
  intros Hw Hv Hlen Hvlen. unfold Llama.weighted_values, for_range.
  rewrite length_map.
  pose proof (Forall2_length Hv) as HlenV.
  eapply runs_weaken.
  - apply (runs_for_from any _
             (fun j out h1 =>
                vec_is h1 out
                  (map (fun j => sum_n (length Vs)
                                   (fun t => nth t ws 0 * nth j (nth t Vs []) 0))
                       (seq 0 j)))).
    + intros j a h0 t. apply vec_is_app.
    + constructor.
    + intros j out h1 Hal Hj Hout.
      eapply runs_bind; [apply (runs_new_Value any 0 h1 I)|].
      intros sum0 h2 Hal2 Hsum0. simpl in Hsum0.
      assert (Hal02 : allocated any h h2) by eauto using allocated_trans.
      eapply runs_bind.
      { apply (runs_accumulate any (length vn) _
                 (fun t => nth t ws 0 * nth j (nth t Vs []) 0) sum0 0 h2 Hsum0).
        intros t acc a h3 Hal3 Ht Hacc.
        assert (Hal03 : allocated any h h3) by eauto using allocated_trans.
        destruct (vec_is_nth_default h3 weights ws t) as (wt & Ewt & Hwt);
          [apply (vec_is_alloc any h h3 _ _ Hal03 Hw) | lia |].
        eapply runs_bind; [apply (runs_idx any weights t wt h3 Ewt)|].
        intros ? ? _ [-> ->].
        destruct (nth_error vn t) as [vt|] eqn:Evt.
        2:{ apply nth_error_None in Evt. lia. }
        assert (Hvt : vec_is h3 vt (nth t Vs [])).
        { eapply mat_is_nth; [|exact Evt]. eapply mat_is_alloc; eauto. }
        assert (Hvtlen : (hd <= length vt)%nat).
        { rewrite Forall_forall in Hvlen. apply Hvlen. eapply nth_error_In; eauto. }
        eapply runs_bind.
        { apply (runs_idx any (map Some vn) t (Some vt) h3).
          rewrite nth_error_map, Evt. reflexivity. }
        intros ? ? _ [-> ->]. apply runs_bind_ret.
        destruct (vec_is_nth_default h3 vt (nth t Vs []) j) as (vj & Evj & Hvj);
          [exact Hvt | lia |].
        eapply runs_bind; [apply (runs_idx any vt j vj h3 Evj)|].
        intros ? ? _ [-> ->].
        eapply runs_bind; [apply (runs_mul any h3 wt vj _ _ Hwt Hvj)|].
        intros p h4 Hal4 Hp. simpl in Hp.
        apply runs_add; auto. eapply allocated_data; eauto. }
      intros sum h3 Hal3 Hsum. simpl in Hsum.
      apply runs_ret. rewrite map_seq_S.
      apply vec_is_snoc.
      * eapply vec_is_alloc; [|exact Hout]. eauto 10 using allocated_trans.
      * rewrite Hsum. f_equal. rewrite Rplus_0_l, HlenV. reflexivity.
  - intros out h1 _ Hout. exact Hout.
Qed.

Lemma heads_at (h : Heap) (hd kv : nat) (cached : list (list (list Value)))
  (All : list (list (list R))) :
  Forall2 (mat_is h) cached All ->
  Forall (has_head hd kv) cached ->
  map (fun k_t => nth_error k_t kv) cached =
    map Some (map (fun k_t => nth kv k_t []) cached) /\
  mat_is h (map (fun k_t => nth kv k_t []) cached)
         (map (fun K => nth kv K []) All) /\
  Forall (fun k => hd <= length k)%nat (map (fun k_t => nth kv k_t []) cached).
Proof.
  intros H. induction H as [|k_t K cached All Hk _ IH]; intros Hh.
  - repeat split; constructor.
  - inversion Hh as [|? ? (k & Ek & Hlen) Hh']; subst.
    destruct (IH Hh') as (E & Hm & Hl). simpl.
    rewrite E, Ek, (nth_error_nth k_t kv [] Ek).
    split; [reflexivity|]. split.
    + constructor; auto. eapply mat_is_nth; eauto.
    + constructor; auto.
Qed.

Lemma runs_llama_head (c : Llama.LlamaConfig) (q_heads : list (list Value))
  (keys values : Llama.Cache) (li hq : nat) (x_attn : list Value)
  (q : list Value) (qs : list R)
  (keys_li values_li : list (list (list Value)))
  (KAll VAll : list (list (list R))) (h : Heap) :
  nth_error q_heads hq = Some q -> vec_is h q qs ->
  (Llama.head_dim c <= length q)%nat ->
  nth_error keys li = Some keys_li -> nth_error values li = Some values_li ->
  Forall2 (mat_is h) keys_li KAll -> Forall2 (mat_is h) values_li VAll ->
  keys_li <> [] -> length keys_li = length values_li ->
  Llama.n_rep c <> 0%nat ->
  Forall (has_head (Llama.head_dim c) (hq / Llama.n_rep c)) keys_li ->
  Forall (has_head (Llama.head_dim c) (hq / Llama.n_rep c)) values_li ->
  runs any (Llama.attention_head c q_heads keys values li hq x_attn) h
       (fun out h' =>
          exists o, out = x_attn ++ o /\
            vec_is h' o
              (attention_R (Llama.head_dim c) qs
                 (map (fun K => nth (hq / Llama.n_rep c) K []) KAll)
                 (map (fun V => nth (hq / Llama.n_rep c) V []) VAll))).
Proof.
  intros Eq Hq Hqlen Ek Ev HK HV Hne Hlen Hrep HhK HhV.
  unfold Llama.attention_head. rewrite Eq.
  assert (Efd : Llama.floor_div hq (Llama.n_rep c) = Some (hq / Llama.n_rep c)%nat).
  { unfold Llama.floor_div. destruct (Nat.eqb_spec (Llama.n_rep c) 0); congruence. }
  rewrite Efd. simpl Llama.at_index.
  set (kv := (hq / Llama.n_rep c)%nat) in *.
  destruct (heads_at h (Llama.head_dim c) kv keys_li KAll HK HhK) as (EK & HmK & HlK).
  destruct (heads_at h (Llama.head_dim c) kv values_li VAll HV HhV) as (EV & HmV & HlV).
  eapply runs_bind; [apply (runs_idx any keys li keys_li h Ek)|].
  intros ? ? _ [-> ->].
  eapply runs_bind; [apply (runs_idx any values li values_li h Ev)|].
  intros ? ? _ [-> ->].
  rewrite EK, EV.
  eapply runs_bind.
  { apply (runs_llama_logits (Llama.head_dim c) q qs _ _ h Hq Hqlen HmK HlK). }
  intros logits h1 Hal1 Hlogits. simpl in Hlogits.
  eapply runs_bind.
  { apply (runs_softmax any logits _ h1 Hlogits); [|exact I].
    intros ->. inversion Hlogits as [E|].
    destruct KAll; [|discriminate].
    inversion HK. congruence. }
  intros weights h2 Hal2 Hweights. simpl in Hweights.
  assert (Hal02 : allocated any h h2) by eauto using allocated_trans.
  eapply runs_bind.
  { eapply (runs_llama_weighted (Llama.head_dim c) weights _ _ _ h2 Hweights).
    - eapply mat_is_alloc; [exact Hal02 | exact HmV].
    - rewrite (vec_is_length _ _ _ Hweights). unfold softmax_R.
      rewrite !length_map, <- (Forall2_length HK). lia.
    - exact HlV. }
  intros head_out h3 Hal3 Hout. simpl in Hout.
  apply runs_ret. exists head_out. split; [reflexivity | exact Hout].
Qed.


(** *** Variant A: attention of one head *)

Lemma mapi_as_map {X Y} (g : X -> nat -> Y) (xs : list X) (d : X) (i : nat) :
  mapi g xs i = map (fun j => g (nth (j - i) xs d) j) (seq i (length xs)).
Proof.
  revert i. induction xs as [|x xs IH]; intros i; simpl; auto.
  rewrite Nat.sub_diag. f_equal. rewrite IH.
  apply map_ext_in. intros j Hj. apply in_seq in Hj.
  replace (j - i)%nat with (S (j - S i)) by lia. reflexivity.
Qed.

Lemma sum_list_mapi (g : R -> nat -> R) (xs : list R) :
  sum_list (mapi g xs 0) = sum_n (length xs) (fun j => g (nth j xs 0) j).
Proof.
  unfold sum_n. rewrite (mapi_as_map g xs 0 0). f_equal.
  apply map_ext. intros j. now rewrite Nat.sub_0_r.
Qed.

Lemma mapi_length {X Y} (g : X -> nat -> Y) (xs : list X) (i : nat) :
  length (mapi g xs i) = length xs.
Proof. revert i. induction xs; intros; simpl; auto. Qed.

Lemma mat_is_map_slice (h : Heap) (w : list (list Value)) (ws : list (list R))
  (a b : nat) :
  mat_is h w ws ->
  mat_is h (map (fun kk => slice kk a b) w) (map (fun kk => slice kk a b) ws).
Proof.
  induction 1; simpl; constructor; auto. now apply vec_is_slice.
Qed.

Lemma runs_weighted_term (L : R -> Prop) (weights : list Value) (ws : list R)
  (vh : list (list Value)) (Vh : list (list R)) (j : nat) (h : Heap) :
  vec_is h weights ws -> mat_is h vh Vh -> weights <> [] ->
  (length weights <= length vh)%nat ->
  Forall (fun v => j < length v)%nat vh ->
  runs L (terms <- mapiM (fun wt t =>
                            vt <- idx vh t ;;
                            vtj <- idx vt j ;;
                            mul wt (inl vtj)) weights ;;
          reduce add2 terms)%m h
       (fun val h' =>
          data_of h' val =
          Some (sum_n (length ws) (fun t => nth t ws 0 * nth j (nth t Vh []) 0))).
Proof.
  intros Hw Hv Hne Hlen Hrows.
  eapply runs_bind.
  { unfold mapiM.
    apply (runs_mapi_from L (fun h v y => data_of h v = Some y)
                          (fun h v y => data_of h v = Some y)
                          _ (fun w t => w * nth j (nth t Vh []) 0));
      auto using stable_data_of.
    - exact Hw.
    - intros wt w t h1 Hal _ Ht Hwt. rewrite Nat.sub_0_r in Ht.
      assert (Htlt : (t < length vh)%nat).
      { assert (t < length weights)%nat by (apply nth_error_Some; congruence). lia. }
      destruct (nth_error vh t) as [vt|] eqn:Evt.
      2:{ apply nth_error_None in Evt. lia. }
      assert (Hvt : vec_is h1 vt (nth t Vh [])).
      { eapply mat_is_nth; [|exact Evt]. eapply mat_is_alloc; eauto. }
      eapply runs_bind; [apply (runs_idx L vh t vt h1 Evt)|].
      intros ? ? _ [-> ->].
      destruct (vec_is_nth_default h1 vt (nth t Vh []) j) as (vj & Evj & Hvj); auto.
      { rewrite Forall_forall in Hrows. apply Hrows. eapply nth_error_In; eauto. }
      eapply runs_bind; [apply (runs_idx L vt j vj h1 Evj)|].
      intros ? ? _ [-> ->]. now apply runs_mul. }
  intros terms h1 Hal1 Hterms. simpl in Hterms.
  eapply runs_weaken.
  - apply (runs_sum L terms _ h1 Hterms).
    intros ->. inversion Hterms as [E|].
    destruct ws; [|discriminate]. inversion Hw. congruence.
  - intros val h2 _ Hval. simpl in Hval. rewrite Hval. f_equal.
    now rewrite sum_list_mapi.
Qed.

Lemma runs_gpt_head (c : GPT.Config) (q : list Value) (qs : list R)
  (keys values : GPT.Cache) (li hq : nat) (x_attn : list Value)
  (keys_li values_li : list (list Value)) (Ks Vs : list (list R)) (h : Heap) :
  let hd := GPT.head_dim c in
  let hs := (hq * hd)%nat in
  vec_is h q qs -> (hs + hd <= length q)%nat -> (0 < hd)%nat ->
  nth_error keys li = Some keys_li -> nth_error values li = Some values_li ->
  mat_is h keys_li Ks -> mat_is h values_li Vs ->
  keys_li <> [] -> length keys_li = length values_li ->
  Forall (fun k => hs + hd <= length k)%nat keys_li ->
  Forall (fun v => hs + hd <= length v)%nat values_li ->
  runs any (GPT.attention_head c q keys values li hq x_attn) h
       (fun out h' =>
          exists o, out = x_attn ++ o /\
            vec_is h' o
              (attention_R hd (slice qs hs (hs + hd))
                 (map (fun k => slice k hs (hs + hd)) Ks)
                 (map (fun v => slice v hs (hs + hd)) Vs))).
Proof.
  intros hd hs Hq Hqlen Hhd Ek Ev HK HV Hne Hlen HlK HlV.
  unfold GPT.attention_head. fold hd. fold hs.
  set (qh := slice q hs (hs + hd)).
  set (qhs := slice qs hs (hs + hd)).
  assert (Hqh : vec_is h qh qhs) by now apply vec_is_slice.
  assert (Hqhlen : length qh = hd).
  { unfold qh. rewrite slice_length by lia. lia. }
  assert (Hqhslen : length qhs = hd).
  { rewrite <- (vec_is_length _ _ _ Hqh). exact Hqhlen. }
  eapply runs_bind; [apply (runs_idx any keys li keys_li h Ek)|].
  intros ? ? _ [-> ->].
  eapply runs_bind; [apply (runs_idx any values li values_li h Ev)|].
  intros ? ? _ [-> ->].
  set (kh := map (fun kk => slice kk hs (hs + hd)) keys_li).
  set (vh := map (fun vv => slice vv hs (hs + hd)) values_li).
  set (Kh := map (fun k => slice k hs (hs + hd)) Ks).
  set (Vh := map (fun v => slice v hs (hs + hd)) Vs).
  assert (HKh : mat_is h kh Kh) by now apply mat_is_map_slice.
  assert (HVh : mat_is h vh Vh) by now apply mat_is_map_slice.
  assert (Hkhlen : Forall (fun k => length k = hd) kh).
  { unfold kh. apply Forall_forall. intros k Hk. apply in_map_iff in Hk.
    destruct Hk as (kk & <- & Hkk). rewrite Forall_forall in HlK.
    specialize (HlK kk Hkk). rewrite slice_length by lia. lia. }
  assert (Hvhlen : Forall (fun v => length v = hd) vh).
  { unfold vh. apply Forall_forall. intros v Hv. apply in_map_iff in Hv.
    destruct Hv as (vv & <- & Hvv). rewrite Forall_forall in HlV.
    specialize (HlV vv Hvv). rewrite slice_length by lia. lia. }
  eapply runs_bind.
  { apply (runs_mapM any vec_is (fun h v y => data_of h v = Some y) _
                     (fun k => dot_n hd qhs k / sqrt (INR hd)) kh Kh h);
      auto using stable_vec_is, stable_data_of.
    intros kt ks h1 Hal1 Hin Hkt.
    assert (Hktlen : length kt = hd) by (rewrite Forall_forall in Hkhlen; auto).
    eapply runs_bind.
    { unfold mapiM.
      apply (runs_mapi_from any (fun h v y => data_of h v = Some y)
                            (fun h v y => data_of h v = Some y)
                            _ (fun qv j => qv * nth j ks 0));
        auto using stable_data_of.
      - eapply vec_is_alloc; [exact Hal1 | exact Hqh].
      - intros qj qv j h2 Hal2 _ Hj Hqj. rewrite Nat.sub_0_r in Hj.
        assert (Hjlt : (j < hd)%nat).
        { rewrite <- Hqhlen. apply nth_error_Some. congruence. }
        destruct (vec_is_nth_default h2 kt ks j) as (kj & Ekj & Hkj);
          [eapply vec_is_alloc; eauto | lia |].
        eapply runs_bind; [apply (runs_idx any kt j kj h2 Ekj)|].
        intros ? ? _ [-> ->]. now apply runs_mul. }
    intros prods h2 Hal2 Hprods. simpl in Hprods.
    eapply runs_bind.
    { apply (runs_sum any prods _ h2 Hprods).
      intros ->. inversion Hprods as [E|].
      destruct qhs; [simpl in Hqhslen; lia | discriminate]. }
    intros s h3 Hal3 Hs. simpl in Hs.
    eapply runs_weaken; [apply (runs_div_number any h3 s _ _ Hs I)|].
    intros r h4 _ Hr. simpl in Hr. rewrite Hr. f_equal. f_equal.
    rewrite sum_list_mapi, Hqhslen. reflexivity. }
  intros logits h1 Hal1 Hlogits. simpl in Hlogits.
  eapply runs_bind.
  { apply (runs_softmax any logits _ h1 Hlogits); [|exact I].
    intros ->. inversion Hlogits as [E|].
    unfold Kh in E. destruct Ks; [|discriminate]. inversion HK. congruence. }
  intros weights h2 Hal2 Hweights. simpl in Hweights.
  assert (Hal02 : allocated any h h2) by eauto using allocated_trans.
  set (ws := softmax_R (map (fun k => dot_n hd qhs k / sqrt (INR hd)) Kh)) in *.
  assert (Hwslen : length ws = length Vh).
  { unfold ws, softmax_R, Kh, Vh. rewrite !length_map.
    rewrite <- (Forall2_length HK), <- (Forall2_length HV). exact Hlen. }
  assert (Hwlen : length weights = length keys_li).
  { rewrite (vec_is_length _ _ _ Hweights), Hwslen. unfold Vh.
    rewrite length_map, <- (Forall2_length HV). auto. }
  assert (Hwne : weights <> []).
  { intros E. rewrite E in Hwlen. simpl in Hwlen.
    destruct keys_li; [congruence | discriminate]. }
  unfold for_range.
  eapply runs_weaken.
  - apply (runs_for_from any _
             (fun j acc h3 =>
                exists o, acc = x_attn ++ o /\
                  vec_is h3 o
                    (map (fun j => sum_n (length Vh)
                                     (fun t => nth t ws 0 * nth j (nth t Vh []) 0))
                         (seq 0 j)))).
    + intros j a h0 t (o & -> & Ho). exists o. split; auto. now apply vec_is_app.
    + exists []. split; [now rewrite app_nil_r | constructor].
    + intros j acc h3 Hal3 Hj (o & -> & Ho).
      assert (Hal03 : allocated any h h3) by eauto using allocated_trans.
      apply runs_assoc. eapply runs_bind.
      { apply (runs_weighted_term any weights ws vh Vh j h3).
        - apply (vec_is_alloc any h2 h3 _ _ Hal3 Hweights).
        - apply (mat_is_alloc any h h3 _ _ Hal03 HVh).
        - exact Hwne.
        - rewrite (vec_is_length _ _ _ Hweights), Hwslen.
          rewrite (Forall2_length HVh). lia.
        - eapply Forall_impl; [|exact Hvhlen]. intros v Hv. simpl in Hv. lia. }
      intros val h4 Hal4 Hval. simpl in Hval.
      apply runs_ret. exists (o ++ [val]). split; [now rewrite app_assoc|].
      rewrite map_seq_S. apply vec_is_snoc.
      * eapply vec_is_alloc; eauto.
      * rewrite Hval, Hwslen. reflexivity.
  - intros out h3 _ (o & -> & Ho). exists o. split; auto.
Qed.


(** *** Loops that update an array of accumulators in place *)

Import Deepseek.

Lemma set_at_Forall2 {A B} (P : A -> B -> Prop) (l : list A) (l' : list B)
  (j : nat) (a : A) (b : B) :
  Forall2 P l l' -> P a b -> Forall2 P (set_at l j a) (set_at l' j b).
Proof.
  intros H Hab. revert j.
  induction H as [|x y l l' Hxy Hl IH]; intros [|j]; simpl;
    repeat constructor; auto.
Qed.

Lemma set_at_map_seq (f g : nat -> R) (j : nat) :
  forall n s, (j < n)%nat ->
    (forall i, i <> (s + j)%nat -> g i = f i) ->
    set_at (map f (seq s n)) j (g (s + j)%nat) = map g (seq s n).
Proof.
  induction j as [|j IH]; intros [|n] s Hj Hg; try lia; simpl.
  - rewrite Nat.add_0_r. f_equal. apply map_ext_in. intros i Hi.
    apply in_seq in Hi. symmetry. apply Hg. lia.
  - rewrite (Hg s) by lia. f_equal.
    replace (s + S j)%nat with (S s + j)%nat by lia.
    apply IH; [lia|]. intros i Hi. apply Hg. lia.
Qed.

Lemma nth_map_seq (f : nat -> R) (n j : nat) :
  (j < n)%nat -> nth j (map f (seq 0 n)) 0 = f j.
Proof.
  intros Hj. rewrite (nth_indep _ 0 (f 0%nat)) by (rewrite length_map, length_seq; lia).
  rewrite map_nth, seq_nth by lia. reflexivity.
Qed.

Lemma map_nth_seq (xs : list R) :
  map (fun j => nth j xs 0) (seq 0 (length xs)) = xs.
Proof.
  induction xs as [|x xs IH]; simpl; auto. f_equal.
  rewrite <- seq_shift, map_map. exact IH.
Qed.

(** One pass over the accumulators: accumulator [j] receives [f j]. *)
Lemma runs_update_pass (L : R -> Prop) (m : nat)
  (inner : nat -> list Value -> M (list Value)) (f : nat -> R)
  (acc0 : list Value) (ys : list R) (h : Heap) :
  vec_is h acc0 ys -> length ys = m ->
  (forall j acc zs h1,
      allocated L h h1 -> (j < m)%nat -> vec_is h1 acc zs -> length zs = m ->
      runs L (inner j acc) h1
           (fun acc' h2 => vec_is h2 acc' (set_at zs j (nth j zs 0 + f j)))) ->
  runs L (for_range m inner acc0) h
       (fun out h' => vec_is h' out (map (fun j => nth j ys 0 + f j) (seq 0 m))).
Proof.
  intros H0 Hlen Hinner. unfold for_range.
  set (G := fun j j' => nth j' ys 0 + (if Nat.ltb j' j then f j' else 0)).
  eapply runs_weaken.
  - apply (runs_for_from L inner
             (fun j acc h1 => vec_is h1 acc (map (G j) (seq 0 m)))).
    + intros j a h0 t. apply vec_is_app.
    + replace (map (G 0%nat) (seq 0 m)) with ys; auto.
      rewrite <- (map_nth_seq ys) at 1. rewrite Hlen.
      apply map_ext. intros j. unfold G. simpl. ring.
    + intros j acc h1 Hal Hj Hacc.
      eapply runs_weaken.
      * apply (Hinner j acc (map (G j) (seq 0 m)) h1 Hal); [lia | exact Hacc |].
        now rewrite length_map, length_seq.
      * intros acc' h2 _ Hacc'. simpl in Hacc'.
        rewrite nth_map_seq in Hacc' by lia.
        replace (G j j + f j) with (G (S j) (0 + j)%nat) in Hacc'.
        2:{ unfold G. simpl. rewrite Nat.ltb_irrefl.
            destruct (Nat.ltb_spec j (S j)); [ring | lia]. }
        rewrite set_at_map_seq in Hacc'; auto; [lia|].
        intros i Hi. unfold G.
        destruct (Nat.ltb_spec i (S j)), (Nat.ltb_spec i j); auto; lia.
  - intros out h1 _ Hout. simpl in Hout.
    replace (map (fun j => nth j ys 0 + f j) (seq 0 m)) with (map (G m) (seq 0 m)); auto.
    apply map_ext_in. intros j Hj. apply in_seq in Hj. unfold G.
    destruct (Nat.ltb_spec j m); [reflexivity | lia].
Qed.

(** [n] passes: accumulator [j] receives [F 0 j + ... + F (n - 1) j]. *)
Lemma runs_update_passes (L : R -> Prop) (n m : nat)
  (pass : nat -> list Value -> M (list Value)) (F : nat -> nat -> R)
  (acc0 : list Value) (ys : list R) (h : Heap) :
  vec_is h acc0 ys -> length ys = m ->
  (forall t acc zs h1,
      allocated L h h1 -> (t < n)%nat -> vec_is h1 acc zs -> length zs = m ->
      runs L (pass t acc) h1
           (fun acc' h2 =>
              vec_is h2 acc' (map (fun j => nth j zs 0 + F t j) (seq 0 m)))) ->
  runs L (for_range n pass acc0) h
       (fun out h' =>
          vec_is h' out
            (map (fun j => nth j ys 0 + sum_n n (fun t => F t j)) (seq 0 m))).
Proof.
  intros H0 Hlen Hpass. unfold for_range.
  eapply runs_weaken.
  - apply (runs_for_from L pass
             (fun t acc h1 =>
                vec_is h1 acc
                  (map (fun j => nth j ys 0 + sum_n t (fun t' => F t' j)) (seq 0 m)))).
    + intros j a h0 t. apply vec_is_app.
    + replace (map _ (seq 0 m)) with ys; auto.
      rewrite <- (map_nth_seq ys) at 1. rewrite Hlen.
      apply map_ext. intros j. unfold sum_n. simpl. ring.
    + intros t acc h1 Hal Ht Hacc.
      eapply runs_weaken.
      * apply (Hpass t acc
                 (map (fun j => nth j ys 0 + sum_n t (fun t' => F t' j)) (seq 0 m))
                 h1 Hal); [lia | exact Hacc |].
        now rewrite length_map, length_seq.
      * intros acc' h2 _ Hacc'. simpl in Hacc'.
        replace (map (fun j => nth j ys 0 + sum_n (S t) (fun t' => F t' j)) (seq 0 m))
          with (map (fun j =>
                       nth j (map (fun j0 => nth j0 ys 0 + sum_n t (fun t' => F t' j0))
                                  (seq 0 m)) 0 + F t j) (seq 0 m)); auto.
        apply map_ext_in. intros j Hj. apply in_seq in Hj.
        rewrite nth_map_seq by lia. rewrite sum_n_S. ring.
  - intros out h1 _ Hout. exact Hout.
Qed.


(** *** Variant C: attention of one head over the latent cache *)

Lemma linear_R_length (xs : list R) (ws : list (list R)) :
  length (linear_R xs ws) = length ws.
Proof. unfold linear_R. apply length_map. Qed.

Lemma runs_ds_logits (hd : nat) (state : State) (li : nat)
  (wkv : list (list Value)) (W : list (list R))
  (q : list Value) (qs : list R)
  (latents : list (list Value)) (Ls : list (list R)) (h : Heap) :
  state (layer_key li "attn_wkv") = Some wkv -> mat_is h wkv W ->
  vec_is h q qs -> (hd <= length q)%nat ->
  mat_is h latents Ls ->
  Forall (fun latent => Forall (fun row => length row <= length latent)%nat wkv)
         latents ->
  (hd <= length wkv)%nat -> (2 * (hd / 2) = hd)%nat ->
  runs any (attention_logits hd state li q latents) h
       (fun out h' =>
          vec_is h' out
            (map (fun L => dot_n hd qs (rope_R (slice (linear_R L W) 0 hd) 0 hd)
                           / sqrt (INR hd)) Ls)).
Proof.
  intros Ew HW Hq Hqlen HL Hrows Hwlen Heven.
  unfold attention_logits, for_range.
  pose proof (Forall2_length HL) as HlenL.
  pose proof (Forall2_length HW) as HlenW.
  eapply runs_weaken.
  - apply (runs_for_from any _
             (fun t out h1 =>
                vec_is h1 out
                  (map (fun L => dot_n hd qs (rope_R (slice (linear_R L W) 0 hd) 0 hd)
                                 / sqrt (INR hd)) (firstn t Ls)))).
    + intros j a h0 t. apply vec_is_app.
    + constructor.
    + intros t out h1 Hal Ht Hout.
      destruct (nth_error latents t) as [latent|] eqn:El.
      2:{ apply nth_error_None in El. lia. }
      assert (Hlat : vec_is h1 latent (nth t Ls [])).
      { eapply mat_is_nth; [|exact El]. eapply mat_is_alloc; eauto. }
      eapply runs_bind; [apply (runs_idx any latents t latent h1 El)|].
      intros ? ? _ [-> ->].
      eapply runs_bind; [apply (runs_lookup any state _ wkv h1 Ew)|].
      intros ? ? _ [-> ->].
      eapply runs_bind.
      { apply (runs_linear any latent wkv (nth t Ls []) W h1 I Hlat).
        - eapply mat_is_alloc; eauto.
        - rewrite Forall_forall in Hrows. apply Hrows. eapply nth_error_In; eauto. }
      intros kv_full h2 Hal2 Hkv. simpl in Hkv.
      set (KV := linear_R (nth t Ls []) W) in *.
      assert (Hk : vec_is h2 (slice kv_full 0 hd) (slice KV 0 hd))
        by now apply vec_is_slice.
      assert (Hklen : length (slice kv_full 0 hd) = hd).
      { rewrite slice_length; [lia|].
        rewrite (vec_is_length _ _ _ Hkv). unfold KV.
        rewrite linear_R_length. lia. }
      eapply runs_bind.
      { apply (runs_apply_rope _ _ 0 hd h2 Hk). lia. }
      intros k_rope h3 Hal3 Hkr. simpl in Hkr.
      set (KR := rope_R (slice KV 0 hd) 0 hd) in *.
      assert (Hkrlen : length k_rope = hd).
      { rewrite (vec_is_length _ _ _ Hkr). unfold KR.
        rewrite rope_R_length. exact Heven. }
      eapply runs_bind; [apply (runs_new_Value any 0 h3 I)|].
      intros dot0 h4 Hal4 Hdot0. simpl in Hdot0.
      assert (Hal04 : allocated any h h4) by eauto 10 using allocated_trans.
      eapply runs_bind.
      { apply (runs_accumulate any hd _
                 (fun j => nth j qs 0 * nth j KR 0) dot0 0 h4 Hdot0).
        intros j acc a h5 Hal5 Hj Hacc.
        assert (Hal05 : allocated any h h5) by eauto using allocated_trans.
        assert (Hal35 : allocated any h3 h5) by eauto using allocated_trans.
        destruct (vec_is_nth_default h5 q qs j) as (qj & Eqj & Hqj);
          [apply (vec_is_alloc any h h5 _ _ Hal05 Hq) | lia |].
        eapply runs_bind; [apply (runs_idx any q j qj h5 Eqj)|].
        intros ? ? _ [-> ->].
        destruct (vec_is_nth_default h5 k_rope KR j) as (kj & Ekj & Hkj);
          [apply (vec_is_alloc any h3 h5 _ _ Hal35 Hkr) | lia |].
        eapply runs_bind; [apply (runs_idx any k_rope j kj h5 Ekj)|].
        intros ? ? _ [-> ->].
        eapply runs_bind; [apply (runs_mul any h5 qj kj _ _ Hqj Hkj)|].
        intros p h6 Hal6 Hp. simpl in Hp.
        apply runs_add; auto. eapply allocated_data; eauto. }
      intros dot h5 Hal5 Hdot. simpl in Hdot.
      eapply runs_bind; [apply (runs_new_Value any (sqrt (INR hd)) h5 I)|].
      intros sq h6 Hal6 Hsq. simpl in Hsq.
      eapply runs_bind;
        [apply (runs_div any h6 dot sq _ _ (allocated_data any h5 h6 _ _ Hal6 Hdot) Hsq)|].
      intros l h7 Hal7 Hl. simpl in Hl.
      apply runs_ret.
      rewrite (map_firstn_S _ Ls t []) by lia.
      apply vec_is_snoc.
      * eapply vec_is_alloc; [|exact Hout]. eauto 20 using allocated_trans.
      * rewrite Hl. f_equal. unfold dot_n. rewrite Rplus_0_l. reflexivity.
  - intros out h1 _ Hout. simpl in Hout.
    rewrite HlenL, firstn_all in Hout. exact Hout.
Qed.

Lemma runs_ds_weighted (hd : nat) (state : State) (li : nat)
  (wkv : list (list Value)) (W : list (list R))
  (weights : list Value) (ws : list R)
  (latents : list (list Value)) (Ls : list (list R))
  (head_out : list Value) (ys : list R) (h : Heap) :
  state (layer_key li "attn_wkv") = Some wkv -> mat_is h wkv W ->
  vec_is h weights ws -> mat_is h latents Ls ->
  (length weights <= length latents)%nat ->
  Forall (fun latent => Forall (fun row => length row <= length latent)%nat wkv)
         latents ->
  (hd * 2 <= length wkv)%nat ->
  vec_is h head_out ys -> length ys = hd ->
  runs any (weighted_values hd state li weights latents head_out) h
       (fun out h' =>
          vec_is h' out
            (map (fun j =>
                    nth j ys 0 +
                    sum_n (length weights)
                      (fun t => nth t ws 0 *
                                nth j (slice (linear_R (nth t Ls []) W) hd (hd * 2)) 0))
                 (seq 0 hd))).
Proof.
  intros Ew HW Hw HL Hlen Hrows Hwlen Hout0 Hys.
  unfold weighted_values.
  apply (runs_update_passes any (length weights) hd _
           (fun t j => nth t ws 0 *
                       nth j (slice (linear_R (nth t Ls []) W) hd (hd * 2)) 0)
           head_out ys h Hout0 Hys).
  intros t acc zs h1 Hal Ht Hacc Hzs.
  destruct (nth_error latents t) as [latent|] eqn:El.
  2:{ apply nth_error_None in El. lia. }
  assert (Hlat : vec_is h1 latent (nth t Ls [])).
  { eapply mat_is_nth; [|exact El]. eapply mat_is_alloc; eauto. }
  eapply runs_bind; [apply (runs_idx any latents t latent h1 El)|].
  intros ? ? _ [-> ->].
  eapply runs_bind; [apply (runs_lookup any state _ wkv h1 Ew)|].
  intros ? ? _ [-> ->].
  eapply runs_bind.
  { apply (runs_linear any latent wkv (nth t Ls []) W h1 I Hlat).
    - eapply mat_is_alloc; eauto.
    - rewrite Forall_forall in Hrows. apply Hrows. eapply nth_error_In; eauto. }
  intros kv_full h2 Hal2 Hkv. simpl in Hkv.
  set (KV := linear_R (nth t Ls []) W) in *.
  assert (Hv : vec_is h2 (slice kv_full hd (hd * 2)) (slice KV hd (hd * 2)))
    by now apply vec_is_slice.
  assert (Hvlen : length (slice kv_full hd (hd * 2)) = hd).
  { rewrite slice_length; [lia|].
    rewrite (vec_is_length _ _ _ Hkv). unfold KV.
    rewrite linear_R_length, <- (Forall2_length HW). lia. }
  assert (Hal02 : allocated any h h2) by eauto using allocated_trans.
  apply (runs_update_pass any hd _
           (fun j => nth t ws 0 * nth j (slice KV hd (hd * 2)) 0) acc zs h2).
  - apply (vec_is_alloc any h1 h2 _ _ Hal2 Hacc).
  - exact Hzs.
  - intros j acc' zs' h3 Hal3 Hj Hacc' Hzs'.
    assert (Hal03 : allocated any h h3) by eauto using allocated_trans.
    destruct (vec_is_nth_default h3 acc' zs' j) as (hj & Ehj & Hhj); auto.
    { rewrite (vec_is_length _ _ _ Hacc'). lia. }
    eapply runs_bind; [apply (runs_idx any acc' j hj h3 Ehj)|].
    intros ? ? _ [-> ->].
    destruct (vec_is_nth_default h3 weights ws t) as (wt & Ewt & Hwt);
      [apply (vec_is_alloc any h h3 _ _ Hal03 Hw) | lia |].
    eapply runs_bind; [apply (runs_idx any weights t wt h3 Ewt)|].
    intros ? ? _ [-> ->].
    destruct (vec_is_nth_default h3 (slice kv_full hd (hd * 2))
                                 (slice KV hd (hd * 2)) j) as (vj & Evj & Hvj);
      [apply (vec_is_alloc any h2 h3 _ _ Hal3 Hv) | lia |].
    eapply runs_bind; [apply (runs_idx any _ j vj h3 Evj)|].
    intros ? ? _ [-> ->].
    eapply runs_bind; [apply (runs_mul any h3 wt vj _ _ Hwt Hvj)|].
    intros p h4 Hal4 Hp. simpl in Hp.
    eapply runs_bind;
      [apply (runs_add any h4 hj p _ _ (allocated_data any h3 h4 _ _ Hal4 Hhj) Hp)|].
    intros r h5 Hal5 Hr. simpl in Hr.
    apply runs_ret. apply set_at_Forall2; auto.
    eapply vec_is_alloc; [|exact Hacc']. eauto using allocated_trans.
Qed.


Lemma runs_ds_head (c : DeepseekConfig) (state : State)
  (q_heads : list (list Value)) (cache : Deepseek.Cache) (li hq : nat)
  (x_attn : list Value) (q : list Value) (qs : list R)
  (latents : list (list Value)) (Ls : list (list R))
  (wkv : list (list Value)) (W : list (list R)) (h : Heap) :
  let hd := head_dim c in
  nth_error q_heads hq = Some q -> vec_is h q qs -> (hd <= length q)%nat ->
  nth_error cache li = Some latents -> mat_is h latents Ls -> latents <> [] ->
  state (layer_key li "attn_wkv") = Some wkv -> mat_is h wkv W ->
  Forall (fun latent => Forall (fun row => length row <= length latent)%nat wkv)
         latents ->
  (hd * 2 <= length wkv)%nat -> (2 * (hd / 2) = hd)%nat ->
  runs any (attention_head c state q_heads cache li hq x_attn) h
       (fun out h' =>
          exists o, out = x_attn ++ o /\
            vec_is h' o
              (attention_R hd qs
                 (map (fun L => rope_R (slice (linear_R L W) 0 hd) 0 hd) Ls)
                 (map (fun L => slice (linear_R L W) hd (hd * 2)) Ls))).
Proof.
  intros hd Eq Hq Hqlen Ec HL Hne Ew HW Hrows Hwlen Heven.
  unfold attention_head. fold hd.
  eapply runs_bind; [apply (runs_idx any q_heads hq q h Eq)|].
  intros ? ? _ [-> ->].
  eapply runs_bind; [apply (runs_idx any cache li latents h Ec)|].
  intros ? ? _ [-> ->].
  eapply runs_bind.
  { apply (runs_ds_logits hd state li wkv W q qs latents Ls h); auto. lia. }
  intros logits h1 Hal1 Hlogits. simpl in Hlogits.
  assert (HLs : Ls <> []).
  { intros ->. inversion HL. congruence. }
  eapply runs_bind.
  { apply (runs_softmax any logits _ h1 Hlogits); [|exact I].
    intros ->. inversion Hlogits as [E|]. destruct Ls; [congruence | discriminate]. }
  intros weights h2 Hal2 Hweights. simpl in Hweights.
  set (ws := softmax_R _) in Hweights.
  assert (Hwlen' : length weights = length Ls).
  { rewrite (vec_is_length _ _ _ Hweights). unfold ws, softmax_R.
    now rewrite !length_map. }
  eapply runs_bind; [apply (runs_zeros any hd h2 I)|].
  intros head_out h3 Hal3 Hzeros. simpl in Hzeros.
  assert (Hal03 : allocated any h h3) by eauto 10 using allocated_trans.
  eapply runs_bind.
  { apply (runs_ds_weighted hd state li wkv W weights ws latents Ls head_out
                            (repeat 0 hd) h3); auto.
    - eapply mat_is_alloc; eauto.
    - apply (vec_is_alloc any h2 h3 _ _ Hal3 Hweights).
    - eapply mat_is_alloc; eauto.
    - rewrite Hwlen', (Forall2_length HL). lia.
    - apply repeat_length. }
  intros out h4 Hal4 Hout. simpl in Hout.
  apply runs_ret. exists out. split; [reflexivity|].
  unfold attention_R. rewrite map_map, length_map.
  replace (map _ (seq 0 hd)) with
    (map (fun j =>
            nth j (repeat 0 hd) 0 +
            sum_n (length weights)
              (fun t => nth t ws 0 *
                        nth j (slice (linear_R (nth t Ls []) W) hd (hd * 2)) 0))
         (seq 0 hd)); auto.
  apply map_ext_in. intros j Hj. apply in_seq in Hj.
  rewrite nth_repeat, Rplus_0_l, Hwlen'.
  apply sum_n_ext. intros t Ht.
  assert (E : nth t (map (fun L => slice (linear_R L W) hd (hd * 2)) Ls) [] =
              slice (linear_R (nth t Ls []) W) hd (hd * 2)).
  { rewrite (nth_indep _ [] (slice (linear_R [] W) hd (hd * 2)))
      by (rewrite length_map; lia).
    apply (map_nth (fun L => slice (linear_R L W) hd (hd * 2)) Ls []). }
  rewrite E. reflexivity.
Qed.




(** *** The feed-forward blocks *)

Lemma runs_swiglu (L : R -> Prop) (gate up : list Value) (gs us : list R)
  (h : Heap) :
  vec_is h gate gs -> vec_is h up us -> (length gate <= length up)%nat ->
  runs L (swiglu gate up) h (fun out h' => vec_is h' out (swiglu_R gs us)).
Proof.
  intros Hg Hu Hlen. unfold swiglu, for_range, swiglu_R.
  rewrite (mapi_as_map _ gs 0 0), <- (vec_is_length _ _ _ Hg).
  eapply runs_weaken.
  - apply (runs_for_from L _
             (fun j out h1 =>
                vec_is h1 out
                  (map (fun j => nth (j - 0) gs 0 * sigmoid (nth (j - 0) gs 0)
                                 * nth j us 0) (seq 0 j)))).
    + intros j a h0 t. apply vec_is_app.
    + constructor.
    + intros j out h1 Hal Hj Hout.
      destruct (vec_is_nth_default h1 gate gs j) as (g & Eg & Hgj);
        [apply (vec_is_alloc L h h1 _ _ Hal Hg) | lia |].
      eapply runs_bind; [apply (runs_idx L gate j g h1 Eg)|].
      intros ? ? _ [-> ->].
      eapply runs_bind; [apply (runs_silu L h1 g _ Hgj)|].
      intros s h2 Hal2 Hs. simpl in Hs.
      destruct (vec_is_nth_default h2 up us j) as (u & Eu & Huj);
        [apply (vec_is_alloc L h h2 _ _ (allocated_trans L _ _ _ Hal Hal2) Hu) | lia |].
      eapply runs_bind; [apply (runs_idx L up j u h2 Eu)|].
      intros ? ? _ [-> ->].
      eapply runs_bind; [apply (runs_mul L h2 s u _ _ Hs Huj)|].
      intros m h3 Hal3 Hm. simpl in Hm.
      apply runs_ret. rewrite map_seq_S. apply vec_is_snoc.
      * eapply vec_is_alloc; [|exact Hout]. eauto using allocated_trans.
      * rewrite Hm, Nat.sub_0_r. reflexivity.
  - intros out h1 _ Hout. exact Hout.
Qed.

Lemma swiglu_R_length (gs us : list R) : length (swiglu_R gs us) = length gs.
Proof. apply mapi_length. Qed.

Lemma runs_expert (state : State) (li : nat) (x : list Value) (xs : list R)
  (e : nat) (outs : list (list Value)) (n_out : nat)
  (Wg Wu Wd : list (list R)) (h : Heap) :
  vec_is h x xs ->
  Shapes.expert_ok h state li e (length x) n_out Wg Wu Wd ->
  runs any (expert state li x e outs) h
       (fun r h' =>
          exists o, r = outs ++ [o] /\ vec_is h' o (expert_R xs Wg Wu Wd)).
Proof.
  intros Hx (gm & um & dm & Eg & Hgm & Eu & Hum & Ed & Hdm & Rg & Ru & Hgu & Rd & _).
  unfold expert.
  eapply runs_bind; [apply (runs_lookup any state _ gm h Eg)|].
  intros ? ? _ [-> ->].
  eapply runs_bind; [apply (runs_linear any x gm xs Wg h I Hx Hgm Rg)|].
  intros gate h1 Hal1 Hgate. simpl in Hgate.
  eapply runs_bind; [apply (runs_lookup any state _ um h1 Eu)|].
  intros ? ? _ [-> ->].
  eapply runs_bind.
  { apply (runs_linear any x um xs Wu h1 I).
    - apply (vec_is_alloc any h h1 _ _ Hal1 Hx).
    - apply (mat_is_alloc any h h1 _ _ Hal1 Hum).
    - exact Ru. }
  intros up h2 Hal2 Hup. simpl in Hup.
  assert (Hal02 : allocated any h h2) by eauto using allocated_trans.
  eapply runs_bind.
  { apply (runs_swiglu any gate up (linear_R xs Wg) (linear_R xs Wu) h2).
    - apply (vec_is_alloc any h1 h2 _ _ Hal2 Hgate).
    - exact Hup.
    - rewrite (vec_is_length _ _ _ Hgate), (vec_is_length _ _ _ Hup).
      rewrite !linear_R_length.
      rewrite <- (Forall2_length Hgm), <- (Forall2_length Hum). exact Hgu. }
  intros sw h3 Hal3 Hsw. simpl in Hsw.
  eapply runs_bind; [apply (runs_lookup any state _ dm h3 Ed)|].
  intros ? ? _ [-> ->].
  eapply runs_bind.
  { apply (runs_linear any sw dm _ Wd h3 I Hsw).
    - eapply mat_is_alloc; [|exact Hdm]. eauto using allocated_trans.
    - eapply Forall_impl; [|exact Rd]. intros row Hrow. simpl in Hrow.
      rewrite (vec_is_length _ _ _ Hsw), swiglu_R_length, linear_R_length.
      now rewrite <- (Forall2_length Hgm). }
  intros out h4 Hal4 Hout. simpl in Hout.
  apply runs_ret. exists out. split; auto.
Qed.


Lemma expert_ok_alloc (L : R -> Prop) (h h' : Heap) (state : State)
  (li e n_in n_out : nat) (Wg Wu Wd : list (list R)) :
  allocated L h h' ->
  Shapes.expert_ok h state li e n_in n_out Wg Wu Wd ->
  Shapes.expert_ok h' state li e n_in n_out Wg Wu Wd.
Proof.
  intros Hal (gm & um & dm & Eg & Hgm & Eu & Hum & Ed & Hdm & Rest).
  exists gm, um, dm.
  split; [exact Eg|]. split; [eapply mat_is_alloc; eauto|].
  split; [exact Eu|]. split; [eapply mat_is_alloc; eauto|].
  split; [exact Ed|]. split; [eapply mat_is_alloc; eauto|].
  exact Rest.
Qed.

Lemma runs_experts (state : State) (li : nat) (x : list Value) (xs : list R)
  (n n_out : nat) (Wg Wu Wd : nat -> list (list R)) (h : Heap) :
  vec_is h x xs ->
  (forall e, (e < n)%nat ->
             Shapes.expert_ok h state li e (length x) n_out (Wg e) (Wu e) (Wd e)) ->
  runs any (for_range n (expert state li x) []) h
       (fun outs h' =>
          Forall2 (vec_is h') outs
                  (map (fun e => expert_R xs (Wg e) (Wu e) (Wd e)) (seq 0 n))).
Proof.
  intros Hx Hok. unfold for_range.
  eapply runs_weaken.
  - apply (runs_for_from any _
             (fun e outs h1 =>
                Forall2 (vec_is h1) outs
                        (map (fun e => expert_R xs (Wg e) (Wu e) (Wd e)) (seq 0 e)))).
    + intros j a h0 t. apply stable_mat_is.
    + constructor.
    + intros e outs h1 Hal He Houts.
      eapply runs_weaken.
      * apply (runs_expert state li x xs e outs n_out (Wg e) (Wu e) (Wd e) h1).
        -- apply (vec_is_alloc any h h1 _ _ Hal Hx).
        -- apply (expert_ok_alloc any h h1); auto. apply Hok. lia.
      * intros r h2 Hal2 (o & -> & Ho). rewrite map_seq_S.
        apply Forall2_app.
        -- apply (mat_is_alloc any h1 h2 _ _ Hal2 Houts).
        -- repeat constructor. exact Ho.
  - intros outs h1 _ Houts. exact Houts.
Qed.

Lemma runs_mix (n_experts n_embd : nat) (router_probs : list Value) (ps : list R)
  (expert_outputs : list (list Value)) (Es : list (list R))
  (output : list Value) (ys : list R) (h : Heap) :
  vec_is h router_probs ps -> (n_experts <= length router_probs)%nat ->
  mat_is h expert_outputs Es -> (n_experts <= length expert_outputs)%nat ->
  Forall (fun out => n_embd <= length out)%nat expert_outputs ->
  vec_is h output ys -> length ys = n_embd ->
  runs any (mix n_experts n_embd router_probs expert_outputs output) h
       (fun out h' =>
          vec_is h' out
            (map (fun j =>
                    nth j ys 0 +
                    sum_n n_experts (fun e => nth e ps 0 * nth j (nth e Es []) 0))
                 (seq 0 n_embd))).
Proof.
  intros Hp Hplen HE HElen Hrows Hout0 Hys. unfold mix.
  apply (runs_update_passes any n_experts n_embd _
           (fun e j => nth e ps 0 * nth j (nth e Es []) 0) output ys h Hout0 Hys).
  intros e acc zs h1 Hal He Hacc Hzs.
  apply (runs_update_pass any n_embd _
           (fun j => nth e ps 0 * nth j (nth e Es []) 0) acc zs h1 Hacc Hzs).
  intros j acc' zs' h2 Hal2 Hj Hacc' Hzs'.
  assert (Hal02 : allocated any h h2) by eauto using allocated_trans.
  destruct (vec_is_nth_default h2 acc' zs' j) as (oj & Eoj & Hoj); auto.
  { rewrite (vec_is_length _ _ _ Hacc'). lia. }
  eapply runs_bind; [apply (runs_idx any acc' j oj h2 Eoj)|].
  intros ? ? _ [-> ->].
  destruct (vec_is_nth_default h2 router_probs ps e) as (pe & Epe & Hpe);
    [apply (vec_is_alloc any h h2 _ _ Hal02 Hp) | lia |].
  eapply runs_bind; [apply (runs_idx any router_probs e pe h2 Epe)|].
  intros ? ? _ [-> ->].
  destruct (nth_error expert_outputs e) as [out_e|] eqn:Eoe.
  2:{ apply nth_error_None in Eoe. lia. }
  assert (Hoe : vec_is h2 out_e (nth e Es [])).
  { eapply mat_is_nth; [|exact Eoe]. apply (mat_is_alloc any h h2 _ _ Hal02 HE). }
  eapply runs_bind; [apply (runs_idx any expert_outputs e out_e h2 Eoe)|].
  intros ? ? _ [-> ->].
  destruct (vec_is_nth_default h2 out_e (nth e Es []) j) as (ej & Eej & Hej); auto.
  { rewrite Forall_forall in Hrows.
    specialize (Hrows out_e (nth_error_In _ _ Eoe)). lia. }
  eapply runs_bind; [apply (runs_idx any out_e j ej h2 Eej)|].
  intros ? ? _ [-> ->].
  eapply runs_bind; [apply (runs_mul any h2 pe ej _ _ Hpe Hej)|].
  intros p h3 Hal3 Hp3. simpl in Hp3.
  eapply runs_bind;
    [apply (runs_add any h3 oj p _ _ (allocated_data any h2 h3 _ _ Hal3 Hoj) Hp3)|].
  intros r h4 Hal4 Hr. simpl in Hr.
  apply runs_ret. apply set_at_Forall2; auto.
  eapply vec_is_alloc; [|exact Hacc']. eauto using allocated_trans.
Qed.

Lemma rmsnorm_R_length (xs : list R) : length (rmsnorm_R xs) = length xs.
Proof. unfold rmsnorm_R, rmsnorm_eps. apply length_map. Qed.

Lemma softmax_R_length (xs : list R) : length (softmax_R xs) = length xs.
Proof. unfold softmax_R. now rewrite !length_map. Qed.

Lemma runs_moe (c : DeepseekConfig) (state : State) (li : nat)
  (x : list Value) (xs : list R) (wr : list (list Value)) (Wr : list (list R))
  (Wg Wu Wd : nat -> list (list R)) (h : Heap) :
  vec_is h x xs -> x <> [] -> (n_embd c <= length x)%nat ->
  state (layer_key li "router") = Some wr -> mat_is h wr Wr ->
  Forall (fun row => length row <= length x)%nat wr ->
  (0 < n_experts c <= length wr)%nat ->
  (forall e, (e < n_experts c)%nat ->
             Shapes.expert_ok h state li e (length x) (n_embd c)
                              (Wg e) (Wu e) (Wd e)) ->
  runs any (moe c state li x) h
       (fun out h' =>
          vec_is h' out (moe_R (n_experts c) (n_embd c) xs Wr Wg Wu Wd)).
Proof.
  intros Hx Hne Hembd Er Hwr Rr Hn Hok. unfold moe, moe_R.
  eapply runs_bind; [apply (runs_rmsnorm any x xs h Hx Hne I I)|].
  intros xn h1 Hal1 Hxn. simpl in Hxn.
  assert (Hxnlen : length xn = length x).
  { rewrite (vec_is_length _ _ _ Hxn), rmsnorm_R_length.
    symmetry. apply (vec_is_length _ _ _ Hx). }
  eapply runs_bind; [apply (runs_lookup any state _ wr h1 Er)|].
  intros ? ? _ [-> ->].
  eapply runs_bind.
  { apply (runs_linear any xn wr _ Wr h1 I Hxn).
    - apply (mat_is_alloc any h h1 _ _ Hal1 Hwr).
    - now rewrite Hxnlen. }
  intros logits h2 Hal2 Hlogits. simpl in Hlogits.
  eapply runs_bind.
  { apply (runs_softmax any logits _ h2 Hlogits); [|exact I].
    intros ->. apply Forall2_length in Hlogits. simpl in Hlogits.
    rewrite linear_R_length, <- (Forall2_length Hwr) in Hlogits. lia. }
  intros probs h3 Hal3 Hprobs. simpl in Hprobs.
  assert (Hal03 : allocated any h h3) by eauto 10 using allocated_trans.
  assert (Hal13 : allocated any h1 h3) by eauto 10 using allocated_trans.
  eapply runs_bind.
  { apply (runs_experts state li xn (rmsnorm_R xs) (n_experts c) (n_embd c)
                        Wg Wu Wd h3).
    - apply (vec_is_alloc any h1 h3 _ _ Hal13 Hxn).
    - intros e He. rewrite Hxnlen.
      apply (expert_ok_alloc any h h3); auto. }
  intros outs h4 Hal4 Houts. simpl in Houts.
  eapply runs_bind; [apply (runs_zeros any (n_embd c) h4 I)|].
  intros output h5 Hal5 Hzeros. simpl in Hzeros.
  assert (Hal35 : allocated any h3 h5) by eauto 10 using allocated_trans.
  assert (Hal05 : allocated any h h5) by eauto 10 using allocated_trans.
  set (Es := map (fun e => expert_R (rmsnorm_R xs) (Wg e) (Wu e) (Wd e))
                 (seq 0 (n_experts c))) in *.
  eapply runs_bind.
  { apply (runs_mix (n_experts c) (n_embd c) probs
                    (softmax_R (linear_R (rmsnorm_R xs) Wr)) outs Es output
                    (repeat 0 (n_embd c)) h5).
    - apply (vec_is_alloc any h3 h5 _ _ Hal35 Hprobs).
    - rewrite (vec_is_length _ _ _ Hprobs), softmax_R_length, linear_R_length.
      rewrite <- (Forall2_length Hwr). lia.
    - apply (mat_is_alloc any h4 h5 _ _ Hal5 Houts).
    - rewrite (Forall2_length Houts). unfold Es.
      rewrite length_map, length_seq. lia.
    - (* every expert output has [n_embd] entries *)
      apply Forall_forall. intros out Hout.
      destruct (In_nth_error _ _ Hout) as (e & Ee).
      assert (He : (e < n_experts c)%nat).
      { assert (e < length outs)%nat by (apply nth_error_Some; congruence).
        rewrite (Forall2_length Houts) in H. unfold Es in H.
        now rewrite length_map, length_seq in H. }
      pose proof (mat_is_nth h4 outs Es e out Houts Ee) as Ho.
      rewrite (vec_is_length _ _ _ Ho). unfold Es.
      rewrite (nth_indep _ [] (expert_R (rmsnorm_R xs) (Wg 0%nat) (Wu 0%nat) (Wd 0%nat)))
        by (rewrite length_map, length_seq; lia).
      rewrite (map_nth (fun e => expert_R (rmsnorm_R xs) (Wg e) (Wu e) (Wd e))),
        seq_nth by lia.
      unfold expert_R. rewrite linear_R_length.
      destruct (Hok e He) as (gm & um & dm & _ & _ & _ & _ & _ & Hdm & _ & _ & _ & _ & Hd).
      simpl. rewrite <- (Forall2_length Hdm). exact Hd.
    - exact Hzeros.
    - apply repeat_length. }
  intros mixed h6 Hal6 Hmixed. simpl in Hmixed.
  eapply runs_weaken.
  - apply (runs_residual any mixed x _ xs h6 Hmixed).
    + eapply vec_is_alloc; [|exact Hx]. eauto using allocated_trans.
    + rewrite (vec_is_length _ _ _ Hmixed), length_map, length_seq. exact Hembd.
  - intros out h7 _ Hout. simpl in Hout.
    replace (map _ (seq 0 (n_embd c))) with
      (map (fun j =>
              nth j (repeat 0 (n_embd c)) 0 +
              sum_n (n_experts c)
                (fun e => nth e (softmax_R (linear_R (rmsnorm_R xs) Wr)) 0 *
                          nth j (nth e Es []) 0))
           (seq 0 (n_embd c))); auto.
    apply map_ext_in. intros j Hj.
    rewrite nth_repeat, Rplus_0_l.
    apply sum_n_ext. intros e He. unfold Es.
    rewrite (nth_indep _ [] (expert_R (rmsnorm_R xs) (Wg 0%nat) (Wu 0%nat) (Wd 0%nat)))
      by (rewrite length_map, length_seq; lia).
    rewrite (map_nth (fun e => expert_R (rmsnorm_R xs) (Wg e) (Wu e) (Wd e))),
      seq_nth by lia.
    reflexivity.
Qed.

End BlockFacts.

(** ** The attention and feed-forward blocks of the variants *)

Module Blocks.

Import Invariants Examples.
Import Num Autograd Store Graph Hoare HoareFacts Pure Ops OpsFacts PureFacts
       BlockFacts.
Local Open Scope R_scope.







End Blocks.

(** ** Shapes are preserved *)

Module ShapeFacts.

Import Invariants Examples.
Import Num Autograd Store Graph Hoare Operators HoareFacts Pure Ops OpsFacts
       PureFacts BlockFacts Shapes.
Local Open Scope R_scope.

Lemma vec_ok_is (h : Heap) (n : nat) (v : list Value) :
  vec_ok h n v -> vec_is h v (data_vec h v) /\ length (data_vec h v) = n.
Proof.
  intros [Hlen Hval]. split.
  - clear Hlen. induction Hval as [|a v Ha _ IH]; simpl; constructor; auto.
    unfold data_of, datum. destruct (nth_error h a) eqn:E; [reflexivity|].
    apply nth_error_None in E. lia.
  - unfold data_vec. now rewrite length_map.
Qed.

Lemma vec_is_ok (h : Heap) (n : nat) (v : list Value) (xs : list R) :
  vec_is h v xs -> length xs = n -> vec_ok h n v.
Proof.
  intros H Hlen. split.
  - now rewrite (vec_is_length _ _ _ H).
  - clear Hlen. induction H; constructor; eauto using data_of_lt.
Qed.

Lemma mat_ok_is (h : Heap) (rows cols : nat) (w : list (list Value)) :
  mat_ok h rows cols w -> mat_is h w (data_mat h w).
Proof.
  intros [_ H]. induction H as [|r w Hr _ IH]; simpl; constructor; auto.
  apply (vec_ok_is h cols r Hr).
Qed.

Lemma vec_ok_alloc (L : R -> Prop) (h h' : Heap) (n : nat) (v : list Value) :
  allocated L h h' -> vec_ok h n v -> vec_ok h' n v.
Proof.
  intros Hal [Hlen Hval]. split; auto.
  pose proof (allocated_length L h h' Hal).
  eapply Forall_impl; [|exact Hval]. simpl. intros; lia.
Qed.

Lemma mat_ok_alloc (L : R -> Prop) (h h' : Heap) (rows cols : nat)
  (w : list (list Value)) :
  allocated L h h' -> mat_ok h rows cols w -> mat_ok h' rows cols w.
Proof.
  intros Hal [Hlen H]. split; auto.
  eapply Forall_impl; [|exact H]. intros r. apply (vec_ok_alloc L h h' cols r Hal).
Qed.

Lemma has_matrix_alloc (L : R -> Prop) (h h' : Heap) (state : State)
  (key : string) (rows cols : nat) :
  allocated L h h' -> has_matrix h state key rows cols ->
  has_matrix h' state key rows cols.
Proof.
  intros Hal (w & E & Hw). exists w. split; auto.
  eapply mat_ok_alloc; eauto.
Qed.

Lemma cache_ok_impl {K} (P Q : K -> Prop) (n : nat) (cache : list (list K)) :
  (forall k, P k -> Q k) -> cache_ok P n cache -> cache_ok Q n cache.
Proof.
  intros HPQ [Hlen H]. split; auto.
  eapply Forall_impl; [|exact H]. intros l Hl.
  eapply Forall_impl; [|exact Hl]. exact HPQ.
Qed.

Lemma cache_ok_push {K} (P : K -> Prop) (n : nat) (cache cache' : list (list K))
  (li : nat) (x : K) :
  cache_ok P n cache -> P x -> push_at cache li x = Some cache' ->
  cache_ok P n cache'.
Proof.
  intros [Hlen H] Hx. revert li cache' n Hlen.
  induction H as [|c rest Hc Hrest IH]; intros [|li] cache' n Hlen E; simpl in E;
    try discriminate.
  - injection E as <-. split; auto. constructor; auto.
    apply Forall_app. split; auto.
  - destruct (push_at rest li x) as [rest'|] eqn:E'; [|discriminate].
    injection E as <-.
    destruct (IH li rest' (length rest) eq_refl E') as [Hl Hf].
    split; [simpl in *; lia|]. constructor; auto.
Qed.

Lemma cache_ok_nth {K} (P : K -> Prop) (n : nat) (cache : list (list K))
  (li : nat) :
  cache_ok P n cache -> (li < n)%nat ->
  exists c, nth_error cache li = Some c /\ Forall P c.
Proof.
  intros [Hlen H] Hli. destruct (nth_error cache li) as [c|] eqn:E.
  - exists c. split; auto. rewrite Forall_forall in H. apply H.
    eapply nth_error_In; eauto.
  - apply nth_error_None in E. lia.
Qed.

Lemma appended_refl {K} (cache : list (list K)) : appended 0 cache cache.
Proof.
  split; auto. intros li Hli.
  destruct (nth_error cache li) as [old|] eqn:E.
  - exists old. split; [reflexivity|]. reflexivity.
  - apply nth_error_None in E. lia.
Qed.

Lemma appended_push {K} (n : nat) (cache0 cache cache' : list (list K)) (x : K) :
  appended n cache0 cache -> push_at cache n x = Some cache' ->
  appended (S n) cache0 cache'.
Proof.
  intros [Hlen H] E.
  assert (Hn : (n < length cache)%nat).
  { revert E. clear. revert n cache'.
    induction cache as [|c rest IH]; intros [|n] cache' E; simpl in *;
      try discriminate; try lia.
    destruct (push_at rest n x) eqn:E'; [|discriminate].
    specialize (IH n _ E'). lia. }
  destruct (nth_error cache n) as [cur|] eqn:Ecur.
  2:{ apply nth_error_None in Ecur. lia. }
  destruct (push_at_spec cache n x cur Ecur) as (c2 & E2 & Hl2 & Hn2 & Hj2).
  rewrite E in E2. injection E2 as <-.
  split; [congruence|].
  intros li Hli. destruct (H li Hli) as (old & Eold & Hcase).
  exists old. split; auto.
  destruct (Nat.ltb_spec li n) as [Hlt|Hge].
  - destruct (Nat.ltb_spec li (S n)); [|lia].
    destruct Hcase as (entry & He). exists entry. rewrite Hj2 by lia. exact He.
  - destruct (Nat.eq_dec li n) as [->|Hne].
    + destruct (Nat.ltb_spec n (S n)); [|lia].
      exists x. rewrite Hn2. congruence.
    + destruct (Nat.ltb_spec li (S n)); [lia|].
      rewrite Hj2 by lia. exact Hcase.
Qed.

Lemma appended_current {K} (n : nat) (cache0 cache : list (list K)) (cur : list K) :
  appended n cache0 cache -> nth_error cache n = Some cur ->
  nth_error cache0 n = Some cur.
Proof.
  intros [Hlen H] E.
  assert (Hn : (n < length cache0)%nat).
  { rewrite <- Hlen. apply nth_error_Some. congruence. }
  destruct (H n Hn) as (old & Eold & Hcase).
  rewrite Nat.ltb_irrefl in Hcase. congruence.
Qed.

(** What one call leaves in the list of layer [li]: one more entry. *)
Lemma appended_length {K} (n : nat) (cache cache' : list (list K)) (li : nat) :
  appended n cache cache' -> (li < n)%nat -> (li < length cache)%nat ->
  length (nth li cache' []) = S (length (nth li cache [])).
Proof.
  intros [Hlen H] Hli Hlt. destruct (H li Hlt) as (old & Eold & Hcase).
  destruct (Nat.ltb_spec li n); [|lia].
  destruct Hcase as (entry & He).
  rewrite (nth_error_nth cache' li [] He), (nth_error_nth cache li [] Eold).
  rewrite length_app. simpl. lia.
Qed.

(** *** Shape-level rules *)

Lemma ok_rmsnorm (h : Heap) (n : nat) (x : list Value) :
  vec_ok h n x -> (0 < n)%nat ->
  runs any (rmsnorm x) h (fun out h' => vec_ok h' n out).
Proof.
  intros Hx Hn. destruct (vec_ok_is h n x Hx) as [Hd Hlen].
  eapply runs_weaken.
  - apply (runs_rmsnorm any x _ h Hd); try exact I.
    destruct Hx as [Hl _]. intros ->. simpl in Hl. lia.
  - intros out h1 _ Hout. simpl in Hout.
    eapply vec_is_ok; [exact Hout|]. now rewrite rmsnorm_R_length.
Qed.

Lemma ok_softmax (h : Heap) (n : nat) (x : list Value) :
  vec_ok h n x -> (0 < n)%nat ->
  runs any (softmax x) h (fun out h' => vec_ok h' n out).
Proof.
  intros Hx Hn. destruct (vec_ok_is h n x Hx) as [Hd Hlen].
  eapply runs_weaken.
  - apply (runs_softmax any x _ h Hd); try exact I.
    destruct Hx as [Hl _]. intros ->. simpl in Hl. lia.
  - intros out h1 _ Hout. simpl in Hout.
    eapply vec_is_ok; [exact Hout|]. now rewrite softmax_R_length.
Qed.

Lemma ok_linear (h : Heap) (state : State) (key : string) (rows cols n : nat)
  (x : list Value) :
  has_matrix h state key rows cols -> vec_ok h n x -> (cols <= n)%nat ->
  runs any (bind (lookup state key) (fun w => linear x w)) h
       (fun out h' => vec_ok h' rows out).
Proof.
  intros (w & Ew & Hw) Hx Hc.
  destruct (vec_ok_is h n x Hx) as [Hd Hlen].
  eapply runs_bind; [apply (runs_lookup any state key w h Ew)|].
  intros ? ? _ [-> ->].
  eapply runs_weaken.
  - apply (runs_linear any x w _ _ h I Hd (mat_ok_is h rows cols w Hw)).
    destruct Hw as [_ Hrows]. destruct Hx as [Hxl _].
    eapply Forall_impl; [|exact Hrows]. intros r [Hr _]. simpl. lia.
  - intros out h1 _ Hout. simpl in Hout.
    eapply vec_is_ok; [exact Hout|].
    rewrite linear_R_length. unfold data_mat. rewrite length_map.
    now destruct Hw.
Qed.

Lemma ok_residual (h : Heap) (n m : nat) (x res : list Value) :
  vec_ok h n x -> vec_ok h m res -> (n <= m)%nat ->
  runs any (mapiM (fun xi i => bind (idx res i) (fun r => add xi (inl r))) x) h
       (fun out h' => vec_ok h' n out).
Proof.
  intros Hx Hres Hnm.
  destruct (vec_ok_is h n x Hx) as [Hd Hlen].
  destruct (vec_ok_is h m res Hres) as [Hrd Hrlen].
  eapply runs_weaken.
  - apply (runs_residual any x res _ _ h Hd Hrd).
    destruct Hx, Hres. lia.
  - intros out h1 _ Hout. simpl in Hout.
    eapply vec_is_ok; [exact Hout|].
    unfold residual_R. now rewrite mapi_length.
Qed.


Lemma attention_R_length (hd : nat) (q : list R) (ks vs : list (list R)) :
  length (attention_R hd q ks vs) = hd.
Proof. unfold attention_R. now rewrite length_map, length_seq. Qed.

Lemma rows_ok_mat (h : Heap) (n : nat) (rows : list (list Value)) :
  Forall (vec_ok h n) rows -> mat_is h rows (data_mat h rows).
Proof.
  intros H. apply (mat_ok_is h (length rows) n). split; auto.
Qed.

Lemma Forall_vec_ok_alloc (L : R -> Prop) (h h' : Heap) (n : nat)
  (rows : list (list Value)) :
  allocated L h h' -> Forall (vec_ok h n) rows -> Forall (vec_ok h' n) rows.
Proof.
  intros Hal H. eapply Forall_impl; [|exact H].
  intros r. apply (vec_ok_alloc L h h' n r Hal).
Qed.

Lemma cache_vec_ok_alloc (L : R -> Prop) (h h' : Heap) (n k : nat)
  (cache : list (list (list Value))) :
  allocated L h h' -> cache_ok (vec_ok h n) k cache ->
  cache_ok (vec_ok h' n) k cache.
Proof.
  intros Hal. apply cache_ok_impl. intros v. apply (vec_ok_alloc L h h' n v Hal).
Qed.

Lemma gpt_shaped_alloc (L : R -> Prop) (h h' : Heap) (c : GPT.Config)
  (state : State) (vocab : nat) :
  allocated L h h' -> gpt_shaped h c state vocab -> gpt_shaped h' c state vocab.
Proof.
  intros Hal (H1 & H2 & H3 & H4 & H5 & H6 & H7).
  do 3 (split; [assumption|]).
  do 3 (split; [eapply has_matrix_alloc; eassumption|]).
  intros li Hli. destruct (H7 li Hli) as (A & B & C & D & E & F).
  repeat split; eapply has_matrix_alloc; eassumption.
Qed.

Lemma vec_ok_app (h t : Heap) (n : nat) (v : list Value) :
  vec_ok h n v -> vec_ok (h ++ t) n v.
Proof.
  intros [Hlen Hval]. split; auto.
  eapply Forall_impl; [|exact Hval]. simpl. intros a Ha.
  rewrite length_app. lia.
Qed.

(** *** Variant A *)

Lemma ok_gpt_heads (c : GPT.Config) (q : list Value) (keys values : GPT.Cache)
  (li : nat) (keys_li values_li : list (list Value)) (h : Heap) :
  let hd := GPT.head_dim c in
  let n := (GPT.n_head c * hd)%nat in
  vec_ok h n q -> (0 < hd)%nat ->
  nth_error keys li = Some keys_li -> nth_error values li = Some values_li ->
  Forall (vec_ok h n) keys_li -> Forall (vec_ok h n) values_li ->
  keys_li <> [] -> length keys_li = length values_li ->
  runs any (for_range (GPT.n_head c) (GPT.attention_head c q keys values li) []) h
       (fun out h' => vec_ok h' n out).
Proof.
  intros hd n Hq Hhd Ek Ev HK HV Hne Hlen. unfold for_range.
  eapply runs_weaken.
  - apply (runs_for_from any _ (fun j acc h1 => vec_ok h1 (j * hd) acc)).
    + intros j a h0 t Ha. now apply vec_ok_app.
    + split; [reflexivity | constructor].
    + intros j acc h1 Hal Hj Hacc.
      pose proof (vec_ok_alloc any h h1 n q Hal Hq) as Hq1.
      destruct (vec_ok_is h1 n q Hq1) as [Hqd Hqlen].
      pose proof (Forall_vec_ok_alloc any h h1 n _ Hal HK) as HK1.
      pose proof (Forall_vec_ok_alloc any h h1 n _ Hal HV) as HV1.
      assert (Hb : (j * hd + hd <= n)%nat) by (unfold n; nia).
      eapply runs_weaken.
      * apply (runs_gpt_head c q (data_vec h1 q) keys values li j acc
                             keys_li values_li (data_mat h1 keys_li)
                             (data_mat h1 values_li) h1 Hqd); auto.
        -- fold hd. destruct Hq1 as [Hl _]. lia.
        -- apply (rows_ok_mat h1 n keys_li HK1).
        -- apply (rows_ok_mat h1 n values_li HV1).
        -- eapply Forall_impl; [|exact HK1]. intros k [Hl _]. fold hd. lia.
        -- eapply Forall_impl; [|exact HV1]. intros k [Hl _]. fold hd. lia.
      * intros out h2 Hal2 (o & -> & Ho).
        apply (vec_is_ok h2 hd) in Ho; [|apply attention_R_length].
        pose proof (vec_ok_alloc any h1 h2 _ _ Hal2 Hacc) as [Hl1 Hv1].
        destruct Ho as [Hl2 Hv2].
        split; [rewrite length_app; simpl; lia | now apply Forall_app].
  - intros out h1 _ Hout. exact Hout.
Qed.


Lemma nth_of_nth_error {A} (a b : list A) (j : nat) (d : A) :
  nth_error a j = nth_error b j -> nth j a d = nth j b d.
Proof.
  intros E. destruct (nth_error b j) as [x|] eqn:Eb.
  - now rewrite (nth_error_nth a j d E), (nth_error_nth b j d Eb).
  - apply nth_error_None in E, Eb. now rewrite !nth_overflow.
Qed.

Lemma caches_ok_impl {K V} (PK PK' : K -> Prop) (PV PV' : V -> Prop) (n : nat)
  (keys0 : list (list K)) (values0 : list (list V)) (li : nat)
  (keys : list (list K)) (values : list (list V)) :
  (forall k, PK k -> PK' k) -> (forall v, PV v -> PV' v) ->
  caches_ok PK PV n keys0 values0 li keys values ->
  caches_ok PK' PV' n keys0 values0 li keys values.
Proof.
  intros HK HV (A & B & C & D & E).
  split; [exact (cache_ok_impl PK PK' n keys HK A)|].
  split; [exact (cache_ok_impl PV PV' n values HV B)|].
  split; [exact C|]. split; assumption.
Qed.

(** Pushing one entry on each cache at the layer the loop has reached. *)
Lemma caches_ok_push {K V} (PK : K -> Prop) (PV : V -> Prop) (n : nat)
  (keys0 : list (list K)) (values0 : list (list V)) (li : nat)
  (keys : list (list K)) (values : list (list V)) (k : K) (v : V) :
  caches_ok PK PV n keys0 values0 li keys values -> (li < n)%nat ->
  PK k -> PV v ->
  exists keys' values' keys_li values_li,
    push_at keys li k = Some keys' /\ push_at values li v = Some values' /\
    caches_ok PK PV n keys0 values0 (S li) keys' values' /\
    nth_error keys' li = Some keys_li /\
    nth_error values' li = Some values_li /\
    keys_li <> [] /\ length keys_li = length values_li /\
    Forall PK keys_li /\ Forall PV values_li.
Proof.
  intros (HK & HV & Hstep & HaK & HaV) Hli Hk Hv.
  destruct (cache_ok_nth PK n keys li HK Hli) as (ko & Eko & Hko).
  destruct (cache_ok_nth PV n values li HV Hli) as (vo & Evo & Hvo).
  destruct (push_at_spec keys li k ko Eko) as (keys' & Ek & Hlk & Hnk & Hjk).
  destruct (push_at_spec values li v vo Evo) as (values' & Ev & Hlv & Hnv & Hjv).
  assert (Hlen : length ko = length vo).
  { specialize (Hstep li).
    now rewrite (nth_error_nth keys li [] Eko),
                (nth_error_nth values li [] Evo) in Hstep. }
  exists keys', values', (ko ++ [k]), (vo ++ [v]).
  split; [exact Ek|]. split; [exact Ev|]. split.
  - split; [eapply cache_ok_push; eauto|].
    split; [eapply cache_ok_push; eauto|].
    split; [|split; eapply appended_push; eauto].
    intros j. destruct (Nat.eq_dec j li) as [->|Hne].
    + rewrite (nth_error_nth keys' li [] Hnk), (nth_error_nth values' li [] Hnv).
      rewrite !length_app. simpl. lia.
    + rewrite (nth_of_nth_error keys' keys j [] (Hjk j Hne)).
      rewrite (nth_of_nth_error values' values j [] (Hjv j Hne)).
      apply Hstep.
  - split; [exact Hnk|]. split; [exact Hnv|].
    split; [now destruct ko|].
    split; [rewrite !length_app; simpl; lia|].
    split; apply Forall_app; split; auto.
Qed.

Lemma Forall_mat_ok_alloc (L : R -> Prop) (h h' : Heap) (n m : nat)
  (ws : list (list (list Value))) :
  allocated L h h' -> Forall (mat_ok h n m) ws -> Forall (mat_ok h' n m) ws.
Proof.
  intros Hal H. eapply Forall_impl; [|exact H].
  intros w. apply (mat_ok_alloc L h h' n m w Hal).
Qed.

(** Facts about nodes of the heap are carried along an allocation. *)
Ltac lift Hal :=
  cbv beta in *;
  repeat match goal with
  | H : vec_ok ?ha _ _ |- _ =>
    match type of Hal with allocated _ ha _ =>
      apply (vec_ok_alloc _ _ _ _ _ Hal) in H end
  | H : Forall (vec_ok ?ha _) _ |- _ =>
    match type of Hal with allocated _ ha _ =>
      apply (Forall_vec_ok_alloc _ _ _ _ _ Hal) in H end
  | H : has_matrix ?ha _ _ _ _ |- _ =>
    match type of Hal with allocated _ ha _ =>
      apply (has_matrix_alloc _ _ _ _ _ _ _ Hal) in H end
  | H : mat_ok ?ha _ _ _ |- _ =>
    match type of Hal with allocated _ ha _ =>
      apply (mat_ok_alloc _ _ _ _ _ _ Hal) in H end
  | H : Forall (mat_ok ?ha _ _) _ |- _ =>
    match type of Hal with allocated _ ha _ =>
      apply (Forall_mat_ok_alloc _ _ _ _ _ _ Hal) in H end
  | H : cache_ok (vec_ok ?ha ?n) _ _ |- _ =>
    match type of Hal with allocated _ ha ?hb =>
      apply (cache_ok_impl _ (vec_ok hb n) _ _
               (fun k => vec_ok_alloc _ _ _ _ k Hal)) in H end
  | H : caches_ok (mat_ok ?ha ?n ?n') (mat_ok ?ha ?m ?m') _ _ _ _ _ _ |- _ =>
    match type of Hal with allocated _ ha ?hb =>
      apply (caches_ok_impl _ (mat_ok hb n n') _ (mat_ok hb m m') _ _ _ _ _ _
               (fun k => mat_ok_alloc _ _ _ _ _ k Hal)
               (fun k => mat_ok_alloc _ _ _ _ _ k Hal)) in H end
  | H : caches_ok (vec_ok ?ha ?n) (vec_ok ?ha ?m) _ _ _ _ _ _ |- _ =>
    match type of Hal with allocated _ ha ?hb =>
      apply (caches_ok_impl _ (vec_ok hb n) _ (vec_ok hb m) _ _ _ _ _ _
               (fun k => vec_ok_alloc _ _ _ _ k Hal)
               (fun k => vec_ok_alloc _ _ _ _ k Hal)) in H end
  end.

Ltac step_linear HM Hx :=
  apply runs_assoc;
  eapply runs_bind; [apply (ok_linear _ _ _ _ _ _ _ HM Hx); try lia|].

Lemma ok_activation (h : Heap) (n : nat) (x : list Value) :
  vec_ok h n x ->
  runs any (mapM (fun xi => bind (relu xi) (fun r => pow r 2)) x) h
       (fun out h' => vec_ok h' n out).
Proof.
  intros Hx. destruct (vec_ok_is h n x Hx) as [Hd Hlen].
  eapply runs_weaken.
  - apply (runs_mapM any (fun h v y => data_of h v = Some y)
                     (fun h v y => data_of h v = Some y)
                     _ (fun y => js_pow (Rmax 0 y) 2) x (data_vec h x) h);
      auto using stable_data_of.
    intros a y h1 _ _ Ha.
    eapply runs_bind; [apply (runs_relu any h1 a y Ha)|].
    intros r h2 _ Hr. simpl in Hr. now apply runs_pow.
  - intros out h1 _ Hout. simpl in Hout.
    eapply vec_is_ok; [exact Hout|]. now rewrite length_map.
Qed.

Lemma ok_gpt_layer (c : GPT.Config) (state : State) (vocab : nat)
  (keys0 values0 : GPT.Cache) (li : nat) (x : list Value)
  (keys values : GPT.Cache) (h : Heap) :
  let n := GPT.n_embd c in
  gpt_shaped h c state vocab -> (li < GPT.n_layer c)%nat ->
  vec_ok h n x ->
  caches_ok (vec_ok h n) (vec_ok h n) (GPT.n_layer c) keys0 values0 li
            keys values ->
  runs any (GPT.layer c state li (x, keys, values)) h
       (fun st h' =>
          vec_ok h' n (fst (fst st)) /\
          caches_ok (vec_ok h' n) (vec_ok h' n) (GPT.n_layer c) keys0 values0
                    (S li) (snd (fst st)) (snd st)).
Proof.
  intros n (En & Hnh & Hhd & _ & _ & _ & Hlay) Hli Hx Hc.
  destruct (Hlay li Hli) as (Mq & Mk & Mv & Mo & M1 & M2). clear Hlay.
  fold n in Mq, Mk, Mv, Mo, M1, M2.
  assert (Hn : (0 < n)%nat) by (unfold n; nia).
  unfold GPT.layer.
  eapply runs_bind; [apply (ok_rmsnorm h n x Hx Hn)|].
  intros x1 h1 Hal1 Hx1. lift Hal1.
  step_linear Mq Hx1. intros q h2 Hal2 Hq. lift Hal2.
  step_linear Mk Hx1. intros k h3 Hal3 Hk. lift Hal3.
  step_linear Mv Hx1. intros v h4 Hal4 Hv. lift Hal4.
  destruct (caches_ok_push _ _ _ _ _ _ _ _ k v Hc Hli Hk Hv)
    as (keys' & values' & kl & vl & Ek & Ev & Hc' & Enk & Env & Hne & Hlen
        & HK & HV).
  eapply runs_bind; [apply (runs_push any keys keys' li k h4 Ek)|].
  intros ? ? _ [-> ->].
  eapply runs_bind; [apply (runs_push any values values' li v h4 Ev)|].
  intros ? ? _ [-> ->].
  unfold n in Hq, HK, HV. rewrite En in Hq, HK, HV.
  eapply runs_bind.
  { apply (ok_gpt_heads c q keys' values' li kl vl h4 Hq Hhd Enk Env HK HV
                        Hne Hlen). }
  intros x_attn h5 Hal5 Ha. simpl in Ha. rewrite <- En in Ha. fold n in Ha.
  clear Hq HK HV. lift Hal5.
  step_linear Mo Ha. intros x2 h6 Hal6 Hx2. lift Hal6.
  eapply runs_bind; [apply (ok_residual h6 n n x2 x Hx2 Hx); lia|].
  intros x3 h7 Hal7 Hx3. lift Hal7.
  eapply runs_bind; [apply (ok_rmsnorm h7 n x3 Hx3 Hn)|].
  intros x4 h8 Hal8 Hx4. lift Hal8.
  step_linear M1 Hx4. intros x5 h9 Hal9 Hx5. lift Hal9.
  eapply runs_bind; [apply (ok_activation h9 _ x5 Hx5)|].
  intros x6 h10 Hal10 Hx6. lift Hal10.
  step_linear M2 Hx6. intros x7 h11 Hal11 Hx7. lift Hal11.
  eapply runs_bind; [apply (ok_residual h11 n n x7 x3 Hx7 Hx3); lia|].
  intros x8 h12 Hal12 Hx8. lift Hal12.
  apply runs_ret. simpl. split; assumption.
Qed.


Lemma mat_ok_nth (h : Heap) (rows cols : nat) (w : list (list Value)) (i : nat) :
  mat_ok h rows cols w -> (i < rows)%nat ->
  exists r, nth_error w i = Some r /\ vec_ok h cols r.
Proof.
  intros [Hlen H] Hi. destruct (nth_error w i) as [r|] eqn:E.
  - exists r. split; auto. rewrite Forall_forall in H. apply H.
    eapply nth_error_In; eauto.
  - apply nth_error_None in E. lia.
Qed.

Lemma caches_ok_app (h t : Heap) (n k : nat) (keys0 values0 : GPT.Cache)
  (li : nat) (keys values : GPT.Cache) :
  caches_ok (vec_ok h n) (vec_ok h n) k keys0 values0 li keys values ->
  caches_ok (vec_ok (h ++ t) n) (vec_ok (h ++ t) n) k keys0 values0 li
            keys values.
Proof.
  apply caches_ok_impl; intros v; apply vec_ok_app.
Qed.

(** The sum of the token embedding and the position embedding. *)
Lemma ok_embedding (h : Heap) (state : State) (rows n : nat) (posId : nat)
  (row : list Value) :
  has_matrix h state "wpe" rows n -> (posId < rows)%nat -> vec_ok h n row ->
  runs any
       (mapiM (fun t i =>
                 bind (lookup state "wpe") (fun wpe =>
                 bind (idx wpe posId) (fun prow =>
                 bind (idx prow i) (fun p => add t (inl p))))) row) h
       (fun out h' => vec_ok h' n out).
Proof.
  intros (wpe & Ew & Hw) Hpos Hrow.
  destruct (mat_ok_nth h rows n wpe posId Hw Hpos) as (prow & Ep & Hprow).
  destruct (vec_ok_is h n row Hrow) as [Hd Hlen].
  destruct (vec_ok_is h n prow Hprow) as [Hpd Hplen].
  eapply runs_weaken.
  - unfold mapiM.
    apply (runs_mapi_from any (fun h v y => data_of h v = Some y)
                          (fun h v y => data_of h v = Some y)
                          _ (fun y j => y + nth j (data_vec h prow) 0)
                          stable_data_of stable_data_of
                          row (data_vec h row) 0%nat h Hd).
    intros a y j h1 Hal _ Hj Ha. rewrite Nat.sub_0_r in Hj.
    assert (Hjlt : (j < length prow)%nat).
    { assert (j < length row)%nat by (apply nth_error_Some; congruence).
      destruct Hrow, Hprow. lia. }
    destruct (vec_is_nth_default h1 prow (data_vec h prow) j) as (r & Er & Hr);
      auto.
    { apply (vec_is_alloc any h h1 _ _ Hal Hpd). }
    eapply runs_bind; [apply (runs_lookup any state "wpe" wpe h1 Ew)|].
    intros ? ? _ [-> ->].
    eapply runs_bind; [apply (runs_idx any wpe posId prow h1 Ep)|].
    intros ? ? _ [-> ->].
    eapply runs_bind; [apply (runs_idx any prow j r h1 Er)|].
    intros ? ? _ [-> ->]. now apply runs_add.
  - intros out h1 _ Hout. simpl in Hout.
    eapply vec_is_ok; [exact Hout|]. now rewrite mapi_length.
Qed.

(** One call of [gpt]: the logits are a vector of [vocabSize] nodes, and
    each cache has received exactly one entry in every layer. *)
Lemma ok_gpt (c : GPT.Config) (state : State) (vocab tokenId posId : nat)
  (keys values : GPT.Cache) (h : Heap) :
  let n := GPT.n_embd c in
  gpt_shaped h c state vocab ->
  (tokenId < vocab)%nat -> (posId < GPT.block_size c)%nat ->
  cache_ok (vec_ok h n) (GPT.n_layer c) keys ->
  cache_ok (vec_ok h n) (GPT.n_layer c) values ->
  in_step keys values ->
  runs any (GPT.gpt c state tokenId posId keys values) h
       (fun r h' =>
          vec_ok h' vocab (fst (fst r)) /\
          caches_ok (vec_ok h' n) (vec_ok h' n) (GPT.n_layer c) keys values
                    (GPT.n_layer c) (snd (fst r)) (snd r)).
Proof.
  intros n Hsh Htok Hpos HK HV Hstep.
  pose proof Hsh as (En & Hnh & Hhd & Mwte & Mwpe & Mlm & _).
  fold n in Mwte, Mwpe, Mlm.
  assert (Hn : (0 < n)%nat) by (unfold n; nia).
  assert (Hc : caches_ok (vec_ok h n) (vec_ok h n) (GPT.n_layer c) keys values
                         0 keys values).
  { repeat split; try apply HK; try apply HV; try apply appended_refl.
    exact Hstep. }
  unfold GPT.gpt.
  destruct Mwte as (wte & Ewte & Hwte).
  destruct (mat_ok_nth h vocab n wte tokenId Hwte Htok) as (row & Erow & Hrow).
  eapply runs_bind; [apply (runs_lookup any state "wte" wte h Ewte)|].
  intros ? ? _ [-> ->].
  eapply runs_bind; [apply (runs_idx any wte tokenId row h Erow)|].
  intros ? ? _ [-> ->].
  eapply runs_bind.
  { apply (ok_embedding h state (GPT.block_size c) n posId row Mwpe Hpos Hrow). }
  intros x0 h1 Hal1 Hx0. lift Hal1.
  apply (gpt_shaped_alloc any h h1 c state vocab Hal1) in Hsh.
  eapply runs_bind; [apply (ok_rmsnorm h1 n x0 Hx0 Hn)|].
  intros x1 h2 Hal2 Hx1. lift Hal2.
  apply (gpt_shaped_alloc any h1 h2 c state vocab Hal2) in Hsh.
  eapply runs_bind.
  { unfold for_range.
    apply (runs_for_from any (GPT.layer c state)
             (fun li st h' =>
                vec_ok h' n (fst (fst st)) /\
                caches_ok (vec_ok h' n) (vec_ok h' n) (GPT.n_layer c)
                          keys values li (snd (fst st)) (snd st))).
    - intros j a h0 t [A B]. split; [now apply vec_ok_app|].
      now apply caches_ok_app.
    - split; simpl; assumption.
    - intros li [[x ks] vs] h3 Hal3 Hli [A B]. simpl in A, B.
      apply (ok_gpt_layer c state vocab keys values li x ks vs h3); auto.
      + apply (gpt_shaped_alloc any h2 h3 c state vocab Hal3 Hsh).
      + lia. }
  intros [[x ks] vs] h3 Hal3 [Hx Hc']. simpl in Hx, Hc'. lift Hal3.
  step_linear Mlm Hx. intros logits h4 Hal4 Hl. lift Hal4.
  apply runs_ret. simpl. split; assumption.
Qed.


(** *** Variant B *)

Lemma mat_ok_app (h t : Heap) (n m : nat) (w : list (list Value)) :
  mat_ok h n m w -> mat_ok (h ++ t) n m w.
Proof.
  intros [Hlen H]. split; auto.
  eapply Forall_impl; [|exact H]. intros r. apply vec_ok_app.
Qed.

Lemma mat_ok_snoc (h : Heap) (n m : nat) (w : list (list Value))
  (r : list Value) :
  mat_ok h n m w -> vec_ok h m r -> mat_ok h (S n) m (w ++ [r]).
Proof.
  intros [Hlen H] Hr. split.
  - rewrite length_app. simpl. lia.
  - apply Forall_app. split; auto.
Qed.

Lemma ok_slice (h : Heap) (m : nat) (v : list Value) (a b : nat) :
  vec_ok h m v -> (b <= m)%nat -> vec_ok h (b - a) (slice v a b).
Proof.
  intros Hv Hb. destruct (vec_ok_is h m v Hv) as [Hd Hlen].
  apply (vec_is_ok h (b - a) _ (slice (data_vec h v) a b)).
  - now apply vec_is_slice.
  - apply slice_length. lia.
Qed.

Lemma even_half (d : nat) : Nat.Even d -> (2 * (d / 2) = d)%nat.
Proof.
  intros [k ->]. rewrite (Nat.mul_comm 2 k), Nat.div_mul by lia. lia.
Qed.

Lemma ok_rope_heads (h : Heap) (n hd posId m : nat) (q : list Value) :
  vec_ok h m q -> (n * hd <= m)%nat -> Nat.Even hd ->
  runs any (Llama.rope_heads n hd posId q) h
       (fun heads h' => mat_ok h' n hd heads).
Proof.
  intros Hq Hm Hev. unfold Llama.rope_heads, for_range.
  pose proof (even_half hd Hev) as Hhalf.
  eapply runs_weaken.
  - apply (runs_for_from any _ (fun j heads h1 => mat_ok h1 j hd heads)).
    + intros j a h0 t. apply mat_ok_app.
    + split; [reflexivity | constructor].
    + intros j heads h1 Hal Hj Hheads. lift Hal.
      assert (Hs : vec_ok h1 hd (slice q (j * hd) (j * hd + hd))).
      { replace hd with (j * hd + hd - j * hd)%nat at 1 by lia.
        apply (ok_slice h1 m); auto. nia. }
      destruct (vec_ok_is h1 hd _ Hs) as [Hd Hlen].
      eapply runs_bind.
      { apply (runs_apply_rope _ _ posId hd h1 Hd).
        destruct Hs as [Hl _]. lia. }
      intros r h2 Hal2 Hr. simpl in Hr.
      apply (vec_is_ok h2 hd) in Hr; [|now rewrite rope_R_length].
      lift Hal2. apply runs_ret. now apply mat_ok_snoc.
  - intros heads h1 _ H. exact H.
Qed.

Lemma ok_split_heads (h : Heap) (n hd m : nat) (v : list Value) :
  vec_ok h m v -> (n * hd <= m)%nat ->
  runs any (Llama.split_heads n hd v) h
       (fun heads h' => mat_ok h' n hd heads).
Proof.
  intros Hv Hm. unfold Llama.split_heads, for_range.
  eapply runs_weaken.
  - apply (runs_for_from any _ (fun j heads h1 => mat_ok h1 j hd heads)).
    + intros j a h0 t. apply mat_ok_app.
    + split; [reflexivity | constructor].
    + intros j heads h1 Hal Hj Hheads. lift Hal.
      apply runs_ret. apply mat_ok_snoc; auto.
      replace hd with (j * hd + hd - j * hd)%nat at 1 by lia.
      apply (ok_slice h1 m); auto. nia.
  - intros heads h1 _ H. exact H.
Qed.

Lemma mats_ok_is (h : Heap) (n m : nat) (ws : list (list (list Value))) :
  Forall (mat_ok h n m) ws -> Forall2 (mat_is h) ws (map (data_mat h) ws).
Proof.
  intros H. induction H as [|w ws Hw _ IH]; simpl; constructor; auto.
  apply (mat_ok_is h n m w Hw).
Qed.

Lemma ok_llama_heads (c : Llama.LlamaConfig) (q_heads : list (list Value))
  (keys values : Llama.Cache) (li : nat)
  (keys_li values_li : list (list (list Value))) (h : Heap) :
  let hd := Llama.head_dim c in
  mat_ok h (Llama.n_head c) hd q_heads ->
  Llama.n_head c = (Llama.n_rep c * Llama.n_kv_head c)%nat ->
  (0 < Llama.n_rep c)%nat ->
  nth_error keys li = Some keys_li -> nth_error values li = Some values_li ->
  Forall (mat_ok h (Llama.n_kv_head c) hd) keys_li ->
  Forall (mat_ok h (Llama.n_kv_head c) hd) values_li ->
  keys_li <> [] -> length keys_li = length values_li ->
  runs any (for_range (Llama.n_head c)
              (Llama.attention_head c q_heads keys values li) []) h
       (fun out h' => vec_ok h' (Llama.n_head c * hd) out).
Proof.
  intros hd HQ Hdiv Hrep Ek Ev HK HV Hne Hlen. unfold for_range.
  eapply runs_weaken.
  - apply (runs_for_from any _ (fun j acc h1 => vec_ok h1 (j * hd) acc)).
    + intros j a h0 t Ha. now apply vec_ok_app.
    + split; [reflexivity | constructor].
    + intros j acc h1 Hal Hj Hacc. lift Hal.
      destruct (mat_ok_nth h1 _ hd q_heads j HQ) as (q & Eq & Hq); [lia|].
      destruct (vec_ok_is h1 hd q Hq) as [Hqd Hqlen].
      assert (Hkv : (j / Llama.n_rep c < Llama.n_kv_head c)%nat).
      { apply Nat.Div0.div_lt_upper_bound. lia. }
      assert (Hh : forall ws, Forall (mat_ok h1 (Llama.n_kv_head c) hd) ws ->
                 Forall (has_head hd (j / Llama.n_rep c)) ws).
      { intros ws Hws. eapply Forall_impl; [|exact Hws]. intros w Hw.
        destruct (mat_ok_nth h1 _ hd w _ Hw Hkv) as (k & Ek' & [Hkl _]).
        exists k. split; auto. lia. }
      eapply runs_weaken.
      * apply (runs_llama_head c q_heads keys values li j acc q (data_vec h1 q)
                 keys_li values_li (map (data_mat h1) keys_li)
                 (map (data_mat h1) values_li) h1 Eq Hqd); auto.
        -- destruct Hq as [Hl _]. fold hd. lia.
        -- apply (mats_ok_is h1 _ hd keys_li HK).
        -- apply (mats_ok_is h1 _ hd values_li HV).
        -- lia.
      * intros out h2 Hal2 (o & -> & Ho).
        apply (vec_is_ok h2 hd) in Ho; [|apply attention_R_length].
        lift Hal2. destruct Hacc as [Hl1 Hv1]. destruct Ho as [Hl2 Hv2].
        split; [rewrite length_app; simpl; lia | now apply Forall_app].
  - intros out h1 _ Hout. exact Hout.
Qed.

Lemma ok_swiglu (h : Heap) (n : nat) (gate up : list Value) :
  vec_ok h n gate -> vec_ok h n up ->
  runs any (Llama.swiglu gate up) h (fun out h' => vec_ok h' n out).
Proof.
  intros Hg Hu.
  destruct (vec_ok_is h n gate Hg) as [Hgd Hglen].
  destruct (vec_ok_is h n up Hu) as [Hud Hulen].
  eapply runs_weaken.
  - apply (runs_swiglu any gate up _ _ h Hgd Hud).
    destruct Hg, Hu. lia.
  - intros out h1 _ Hout. simpl in Hout.
    eapply vec_is_ok; [exact Hout|].
    unfold swiglu_R. now rewrite mapi_length.
Qed.


Lemma llama_shaped_alloc (L : R -> Prop) (h h' : Heap) (c : Llama.LlamaConfig)
  (state : State) (vocab : nat) :
  allocated L h h' -> llama_shaped h c state vocab ->
  llama_shaped h' c state vocab.
Proof.
  intros Hal (H1 & H2 & H3 & H4 & H5 & H6 & H7 & H8 & H9).
  do 6 (split; [assumption|]).
  do 2 (split; [eapply has_matrix_alloc; eassumption|]).
  intros li Hli. destruct (H9 li Hli) as (A & B & C & D & E & F & G).
  repeat split; eapply has_matrix_alloc; eassumption.
Qed.

Lemma ok_llama_layer (c : Llama.LlamaConfig) (state : State) (vocab posId : nat)
  (keys0 values0 : Llama.Cache) (li : nat) (x : list Value)
  (keys values : Llama.Cache) (h : Heap) :
  let n := Llama.n_embd c in
  let P := fun h => mat_ok h (Llama.n_kv_head c) (Llama.head_dim c) in
  llama_shaped h c state vocab -> (li < Llama.n_layer c)%nat ->
  vec_ok h n x ->
  caches_ok (P h) (P h) (Llama.n_layer c) keys0 values0 li keys values ->
  runs any (Llama.layer c state posId li (x, keys, values)) h
       (fun st h' =>
          vec_ok h' n (fst (fst st)) /\
          caches_ok (P h') (P h') (Llama.n_layer c) keys0 values0
                    (S li) (snd (fst st)) (snd st)).
Proof.
  intros n P (En & Hdiv & Hkv & Hrep & Hhd & Hev & _ & _ & Hlay) Hli Hx Hc.
  destruct (Hlay li Hli) as (Mq & Mk & Mv & Mo & Mg & Mu & Md). clear Hlay.
  fold n in Mq, Mk, Mv, Mo, Mg, Mu, Md. unfold P in *. clear P.
  assert (Hn : (0 < n)%nat) by (unfold n; nia).
  unfold Llama.layer.
  eapply runs_bind; [apply (ok_rmsnorm h n x Hx Hn)|].
  intros x1 h1 Hal1 Hx1. lift Hal1.
  step_linear Mq Hx1. intros q h2 Hal2 Hq. lift Hal2.
  step_linear Mk Hx1. intros k h3 Hal3 Hk. lift Hal3.
  step_linear Mv Hx1. intros v h4 Hal4 Hv. lift Hal4.
  eapply runs_bind.
  { apply (ok_rope_heads h4 (Llama.n_head c) (Llama.head_dim c) posId n q Hq);
      [unfold n; lia | exact Hev]. }
  intros q_heads h5 Hal5 HQ. lift Hal5.
  eapply runs_bind.
  { apply (ok_rope_heads h5 (Llama.n_kv_head c) (Llama.head_dim c) posId _ k Hk);
      [lia | exact Hev]. }
  intros k_heads h6 Hal6 HKh. lift Hal6.
  eapply runs_bind.
  { apply (ok_split_heads h6 (Llama.n_kv_head c) (Llama.head_dim c) _ v Hv). lia. }
  intros v_heads h7 Hal7 HVh. lift Hal7.
  destruct (caches_ok_push _ _ _ _ _ _ _ _ k_heads v_heads Hc Hli HKh HVh)
    as (keys' & values' & kl & vl & Ek & Ev & Hc' & Enk & Env & Hne & Hlen
        & HK & HV).
  eapply runs_bind; [apply (runs_push any keys keys' li k_heads h7 Ek)|].
  intros ? ? _ [-> ->].
  eapply runs_bind; [apply (runs_push any values values' li v_heads h7 Ev)|].
  intros ? ? _ [-> ->].
  eapply runs_bind.
  { apply (ok_llama_heads c q_heads keys' values' li kl vl h7 HQ Hdiv Hrep
                          Enk Env HK HV Hne Hlen). }
  intros x_attn h8 Hal8 Ha. simpl in Ha. rewrite <- En in Ha. fold n in Ha.
  clear HK HV. lift Hal8.
  step_linear Mo Ha. intros x2 h9 Hal9 Hx2. lift Hal9.
  eapply runs_bind; [apply (ok_residual h9 n n x2 x Hx2 Hx); lia|].
  intros x3 h10 Hal10 Hx3. lift Hal10.
  eapply runs_bind; [apply (ok_rmsnorm h10 n x3 Hx3 Hn)|].
  intros x4 h11 Hal11 Hx4. lift Hal11.
  step_linear Mg Hx4. intros gate h12 Hal12 Hg. lift Hal12.
  step_linear Mu Hx4. intros up h13 Hal13 Hu. lift Hal13.
  eapply runs_bind; [apply (ok_swiglu h13 _ gate up Hg Hu)|].
  intros sw h14 Hal14 Hsw. lift Hal14.
  step_linear Md Hsw. intros x5 h15 Hal15 Hx5. lift Hal15.
  eapply runs_bind; [apply (ok_residual h15 n n x5 x3 Hx5 Hx3); lia|].
  intros x6 h16 Hal16 Hx6. lift Hal16.
  apply runs_ret. simpl. split; assumption.
Qed.

(** One call of [Llama.forward]. *)
Lemma ok_llama (c : Llama.LlamaConfig) (state : State)
  (vocab tokenId posId : nat) (keys values : Llama.Cache) (h : Heap) :
  let P := fun h => mat_ok h (Llama.n_kv_head c) (Llama.head_dim c) in
  llama_shaped h c state vocab -> (tokenId < vocab)%nat ->
  cache_ok (P h) (Llama.n_layer c) keys ->
  cache_ok (P h) (Llama.n_layer c) values ->
  in_step keys values ->
  runs any (Llama.forward c state tokenId posId keys values) h
       (fun r h' =>
          vec_ok h' vocab (fst (fst r)) /\
          caches_ok (P h') (P h') (Llama.n_layer c) keys values
                    (Llama.n_layer c) (snd (fst r)) (snd r)).
Proof.
  intros P Hsh Htok HK HV Hstep. unfold P in *. clear P.
  pose proof Hsh as (En & Hdiv & Hkv & Hrep & Hhd & Hev & Mwte & Mlm & _).
  set (n := Llama.n_embd c) in *.
  assert (Hn : (0 < n)%nat) by (unfold n; nia).
  assert (Hc : caches_ok (mat_ok h (Llama.n_kv_head c) (Llama.head_dim c))
                         (mat_ok h (Llama.n_kv_head c) (Llama.head_dim c))
                         (Llama.n_layer c) keys values 0 keys values).
  { repeat split; try apply HK; try apply HV; try apply appended_refl.
    exact Hstep. }
  clear HK HV.
  unfold Llama.forward.
  destruct Mwte as (wte & Ewte & Hwte).
  destruct (mat_ok_nth h vocab n wte tokenId Hwte Htok) as (row & Erow & Hrow).
  eapply runs_bind; [apply (runs_lookup any state "wte" wte h Ewte)|].
  intros ? ? _ [-> ->].
  eapply runs_bind; [apply (runs_idx any wte tokenId row h Erow)|].
  intros ? ? _ [-> ->].
  eapply runs_bind; [apply (ok_rmsnorm h n row Hrow Hn)|].
  intros x1 h1 Hal1 Hx1. lift Hal1.
  apply (llama_shaped_alloc any h h1 c state vocab Hal1) in Hsh.
  eapply runs_bind.
  { unfold for_range.
    apply (runs_for_from any (Llama.layer c state posId)
             (fun li st h' =>
                vec_ok h' n (fst (fst st)) /\
                caches_ok (mat_ok h' (Llama.n_kv_head c) (Llama.head_dim c))
                          (mat_ok h' (Llama.n_kv_head c) (Llama.head_dim c))
                          (Llama.n_layer c) keys values li
                          (snd (fst st)) (snd st))).
    - intros j a h0 t [A B]. split; [now apply vec_ok_app|].
      revert B. apply caches_ok_impl; intros w; apply mat_ok_app.
    - split; simpl; assumption.
    - intros li [[x ks] vs] h3 Hal3 Hli [A B]. simpl in A, B.
      apply (ok_llama_layer c state vocab posId keys values li x ks vs h3); auto.
      + apply (llama_shaped_alloc any h1 h3 c state vocab Hal3 Hsh).
      + lia. }
  intros [[x ks] vs] h3 Hal3 [Hx Hc']. simpl in Hx, Hc'. lift Hal3.
  eapply runs_bind; [apply (ok_rmsnorm h3 n x Hx Hn)|].
  intros x2 h4 Hal4 Hx2. lift Hal4.
  step_linear Mlm Hx2. intros logits h5 Hal5 Hl. lift Hal5.
  apply runs_ret. simpl. split; assumption.
Qed.


(** *** Variant C *)

Lemma deepseek_shaped_alloc (L : R -> Prop) (h h' : Heap)
  (c : Deepseek.DeepseekConfig) (state : State) (vocab : nat) :
  allocated L h h' -> deepseek_shaped h c state vocab ->
  deepseek_shaped h' c state vocab.
Proof.
  intros Hal (H1 & H2 & H3 & H4 & H5 & H6 & H7 & H8).
  do 5 (split; [assumption|]).
  do 2 (split; [eapply has_matrix_alloc; eassumption|]).
  intros li Hli. destruct (H8 li Hli) as (A & B & C & D & E & F).
  do 5 (split; [eapply has_matrix_alloc; eassumption|]).
  intros e He. destruct (F e He) as (G1 & G2 & G3).
  repeat split; eapply has_matrix_alloc; eassumption.
Qed.

Lemma ok_ds_heads (c : Deepseek.DeepseekConfig) (state : State)
  (q_heads : list (list Value)) (cache : Deepseek.Cache) (li : nat)
  (latents : list (list Value)) (h : Heap) :
  let hd := Deepseek.head_dim c in
  mat_ok h (Deepseek.n_head c) hd q_heads ->
  nth_error cache li = Some latents ->
  Forall (vec_ok h (Deepseek.latent_dim c)) latents -> latents <> [] ->
  has_matrix h state (layer_key li "attn_wkv")
             (Deepseek.n_embd c) (Deepseek.latent_dim c) ->
  (hd * 2 <= Deepseek.n_embd c)%nat -> Nat.Even hd ->
  runs any (for_range (Deepseek.n_head c)
              (Deepseek.attention_head c state q_heads cache li) []) h
       (fun out h' => vec_ok h' (Deepseek.n_head c * hd) out).
Proof.
  intros hd HQ Ec HL Hne (wkv & Ew & Hw) H2 Hev. unfold for_range.
  eapply runs_weaken.
  - apply (runs_for_from any _ (fun j acc h1 => vec_ok h1 (j * hd) acc)).
    + intros j a h0 t Ha. now apply vec_ok_app.
    + split; [reflexivity | constructor].
    + intros j acc h1 Hal Hj Hacc. lift Hal.
      destruct (mat_ok_nth h1 _ hd q_heads j HQ) as (q & Eq & Hq); [lia|].
      destruct (vec_ok_is h1 hd q Hq) as [Hqd Hqlen].
      eapply runs_weaken.
      * apply (runs_ds_head c state q_heads cache li j acc q (data_vec h1 q)
                 latents (data_mat h1 latents) wkv (data_mat h1 wkv) h1 Eq Hqd);
          auto.
        -- destruct Hq as [Hl _]. fold hd. lia.
        -- apply (rows_ok_mat h1 _ latents HL).
        -- apply (mat_ok_is h1 _ _ wkv Hw).
        -- eapply Forall_impl; [|exact HL]. intros l [Hl _].
           destruct Hw as [_ Hrows].
           eapply Forall_impl; [|exact Hrows]. intros r [Hr _]. simpl. lia.
        -- destruct Hw as [Hl _]. fold hd. lia.
        -- apply even_half. exact Hev.
      * intros out h2 Hal2 (o & -> & Ho).
        apply (vec_is_ok h2 hd) in Ho; [|apply attention_R_length].
        lift Hal2. destruct Hacc as [Hl1 Hv1]. destruct Ho as [Hl2 Hv2].
        split; [rewrite length_app; simpl; lia | now apply Forall_app].
  - intros out h1 _ Hout. exact Hout.
Qed.

Lemma ok_ds_attention (c : Deepseek.DeepseekConfig) (state : State)
  (vocab posId : nat) (cache0 : Deepseek.Cache) (li : nat) (x : list Value)
  (cache : Deepseek.Cache) (h : Heap) :
  let n := Deepseek.n_embd c in
  let P := fun h => vec_ok h (Deepseek.latent_dim c) in
  deepseek_shaped h c state vocab -> (li < Deepseek.n_layer c)%nat ->
  vec_ok h n x ->
  cache_ok (P h) (Deepseek.n_layer c) cache -> appended li cache0 cache ->
  runs any (Deepseek.attention c state posId li x cache) h
       (fun r h' =>
          vec_ok h' n (fst r) /\
          cache_ok (P h') (Deepseek.n_layer c) (snd r) /\
          appended (S li) cache0 (snd r)).
Proof.
  intros n P (En & Hnh & Hhd & Hev & Hex & _ & _ & Hlay) Hli Hx Hc Hap.
  destruct (Hlay li Hli) as (Mq & Mc & Mkv & Mo & _). clear Hlay.
  fold n in Mq, Mc, Mkv, Mo. unfold P in *. clear P.
  assert (Hn : (0 < n)%nat) by (unfold n; nia).
  unfold Deepseek.attention.
  eapply runs_bind; [apply (ok_rmsnorm h n x Hx Hn)|].
  intros x1 h1 Hal1 Hx1. lift Hal1.
  step_linear Mq Hx1. intros q h2 Hal2 Hq. lift Hal2.
  step_linear Mc Hx1. intros lat h3 Hal3 Hlat. lift Hal3.
  destruct (cache_ok_nth _ _ cache li Hc Hli) as (old & Eold & Hold).
  destruct (push_at_spec cache li lat old Eold) as (cache' & Ep & Hl' & Hn' & Hj').
  eapply runs_bind; [apply (runs_push any cache cache' li lat h3 Ep)|].
  intros ? ? _ [-> ->].
  assert (Hc' : cache_ok (vec_ok h3 (Deepseek.latent_dim c))
                         (Deepseek.n_layer c) cache').
  { eapply cache_ok_push; eauto. }
  assert (Hap' : appended (S li) cache0 cache').
  { eapply appended_push; eauto. }
  assert (HL : Forall (vec_ok h3 (Deepseek.latent_dim c)) (old ++ [lat])).
  { apply Forall_app. split; auto. }
  eapply runs_bind.
  { apply (ok_rope_heads h3 (Deepseek.n_head c) (Deepseek.head_dim c) posId n
                         q Hq); [unfold n; lia | exact Hev]. }
  intros q_heads h4 Hal4 HQ. lift Hal4.
  eapply runs_bind.
  { apply (ok_ds_heads c state q_heads cache' li (old ++ [lat]) h4 HQ Hn' HL);
      auto.
    - now destruct old.
    - fold n. unfold n. nia. }
  intros x_attn h5 Hal5 Ha. simpl in Ha. rewrite <- En in Ha. fold n in Ha.
  clear HL. lift Hal5.
  step_linear Mo Ha. intros x2 h6 Hal6 Hx2. lift Hal6.
  eapply runs_bind; [apply (ok_residual h6 n n x2 x Hx2 Hx); lia|].
  intros x3 h7 Hal7 Hx3. lift Hal7.
  apply runs_ret. simpl. split; [assumption|]. split; assumption.
Qed.

Lemma ok_moe (c : Deepseek.DeepseekConfig) (state : State) (vocab li : nat)
  (x : list Value) (h : Heap) :
  let n := Deepseek.n_embd c in
  deepseek_shaped h c state vocab -> (li < Deepseek.n_layer c)%nat ->
  vec_ok h n x ->
  runs any (Deepseek.moe c state li x) h (fun out h' => vec_ok h' n out).
Proof.
  intros n (En & Hnh & Hhd & Hev & Hex & _ & _ & Hlay) Hli Hx.
  destruct (Hlay li Hli) as (_ & _ & _ & _ & (wr & Er & Hwr) & Mexp). clear Hlay.
  assert (Hn : (0 < n)%nat) by (unfold n; nia).
  destruct (vec_ok_is h n x Hx) as [Hd Hlen].
  pose proof Hx as [Hxl _].
  eapply runs_weaken.
  - apply (runs_moe c state li x (data_vec h x) wr (data_mat h wr)
             (fun e => state_data h state (expert_key li e "gate"))
             (fun e => state_data h state (expert_key li e "up"))
             (fun e => state_data h state (expert_key li e "down")) h Hd).
    + intros ->. simpl in Hxl. lia.
    + fold n. lia.
    + exact Er.
    + apply (mat_ok_is h _ _ wr Hwr).
    + destruct Hwr as [_ Hrows]. eapply Forall_impl; [|exact Hrows].
      intros r [Hr _]. simpl. fold n in Hr. lia.
    + destruct Hwr as [Hl _]. lia.
    + intros e He. destruct (Mexp e He) as ((gm & Eg & Hg) & (um & Eu & Hu)
                                            & (dm & Ed & Hdm)).
      exists gm, um, dm. unfold state_data. rewrite Eg, Eu, Ed.
      split; [reflexivity|]. split; [apply (mat_ok_is h _ _ gm Hg)|].
      split; [reflexivity|]. split; [apply (mat_ok_is h _ _ um Hu)|].
      split; [reflexivity|]. split; [apply (mat_ok_is h _ _ dm Hdm)|].
      destruct Hg as [Hgl Hgr], Hu as [Hul Hur], Hdm as [Hdl Hdr].
      fold n in Hgl, Hgr, Hul, Hur, Hdl, Hdr.
      split; [eapply Forall_impl; [|exact Hgr]; intros r [Hr _]; simpl; lia|].
      split; [eapply Forall_impl; [|exact Hur]; intros r [Hr _]; simpl; lia|].
      split; [lia|].
      split; [eapply Forall_impl; [|exact Hdr]; intros r [Hr _]; simpl; lia|].
      fold n. lia.
  - intros out h1 _ Hout. simpl in Hout.
    eapply vec_is_ok; [exact Hout|].
    unfold moe_R, residual_R. rewrite mapi_length, length_map, length_seq.
    reflexivity.
Qed.


Lemma ok_ds_layer (c : Deepseek.DeepseekConfig) (state : State)
  (vocab posId : nat) (cache0 : Deepseek.Cache) (li : nat) (x : list Value)
  (cache : Deepseek.Cache) (h : Heap) :
  let n := Deepseek.n_embd c in
  let P := fun h => vec_ok h (Deepseek.latent_dim c) in
  deepseek_shaped h c state vocab -> (li < Deepseek.n_layer c)%nat ->
  vec_ok h n x ->
  cache_ok (P h) (Deepseek.n_layer c) cache -> appended li cache0 cache ->
  runs any (Deepseek.layer c state posId li (x, cache)) h
       (fun r h' =>
          vec_ok h' n (fst r) /\
          cache_ok (P h') (Deepseek.n_layer c) (snd r) /\
          appended (S li) cache0 (snd r)).
Proof.
  intros n P Hsh Hli Hx Hc Hap. unfold P in *. clear P.
  unfold Deepseek.layer.
  eapply runs_bind.
  { apply (ok_ds_attention c state vocab posId cache0 li x cache h Hsh Hli Hx
                           Hc Hap). }
  intros [x1 cache1] h1 Hal1 (Hx1 & Hc1 & Hap1). simpl in Hx1, Hc1, Hap1.
  apply (deepseek_shaped_alloc any h h1 c state vocab Hal1) in Hsh.
  eapply runs_bind; [apply (ok_moe c state vocab li x1 h1 Hsh Hli Hx1)|].
  intros x2 h2 Hal2 Hx2. lift Hal2.
  apply runs_ret. simpl. split; [assumption|]. split; assumption.
Qed.

(** One call of [Deepseek.forward]. *)
Lemma ok_deepseek (c : Deepseek.DeepseekConfig) (state : State)
  (vocab tokenId posId : nat) (cache : Deepseek.Cache) (h : Heap) :
  let P := fun h => vec_ok h (Deepseek.latent_dim c) in
  deepseek_shaped h c state vocab -> (tokenId < vocab)%nat ->
  cache_ok (P h) (Deepseek.n_layer c) cache ->
  runs any (Deepseek.forward c state tokenId posId cache) h
       (fun r h' =>
          vec_ok h' vocab (fst r) /\
          cache_ok (P h') (Deepseek.n_layer c) (snd r) /\
          appended (Deepseek.n_layer c) cache (snd r)).
Proof.
  intros P Hsh Htok Hc. unfold P in *. clear P.
  pose proof Hsh as (En & Hnh & Hhd & Hev & Hex & Mwte & Mlm & _).
  set (n := Deepseek.n_embd c) in *.
  assert (Hn : (0 < n)%nat) by (unfold n; nia).
  unfold Deepseek.forward.
  destruct Mwte as (wte & Ewte & Hwte).
  destruct (mat_ok_nth h vocab n wte tokenId Hwte Htok) as (row & Erow & Hrow).
  eapply runs_bind; [apply (runs_lookup any state "wte" wte h Ewte)|].
  intros ? ? _ [-> ->].
  eapply runs_bind; [apply (runs_idx any wte tokenId row h Erow)|].
  intros ? ? _ [-> ->].
  eapply runs_bind; [apply (ok_rmsnorm h n row Hrow Hn)|].
  intros x1 h1 Hal1 Hx1. lift Hal1.
  apply (deepseek_shaped_alloc any h h1 c state vocab Hal1) in Hsh.
  eapply runs_bind.
  { unfold for_range.
    apply (runs_for_from any (Deepseek.layer c state posId)
             (fun li st h' =>
                vec_ok h' n (fst st) /\
                cache_ok (vec_ok h' (Deepseek.latent_dim c))
                         (Deepseek.n_layer c) (snd st) /\
                appended li cache (snd st))).
    - intros j a h0 t (A & B & C). split; [now apply vec_ok_app|].
      split; [|exact C].
      revert B. apply cache_ok_impl. intros v. apply vec_ok_app.
    - split; [|split]; simpl; try assumption. apply appended_refl.
    - intros li [x cs] h3 Hal3 Hli (A & B & C). simpl in A, B, C.
      apply (ok_ds_layer c state vocab posId cache li x cs h3); auto.
      + apply (deepseek_shaped_alloc any h1 h3 c state vocab Hal3 Hsh).
      + lia. }
  intros [x cs] h3 Hal3 (Hx & Hc' & Hap). simpl in Hx, Hc', Hap. lift Hal3.
  eapply runs_bind; [apply (ok_rmsnorm h3 n x Hx Hn)|].
  intros x2 h4 Hal4 Hx2. lift Hal4.
  step_linear Mlm Hx2. intros logits h5 Hal5 Hl. lift Hal5.
  apply runs_ret. simpl. split; [assumption|]. split; assumption.
Qed.


(** *** Sequences of calls *)

Lemma extended_0 {K} (cache : list (list K)) : extended 0 cache cache.
Proof.
  split; auto. intros li old E. exists []. now rewrite app_nil_r.
Qed.

Lemma extended_trans {K} (a b : nat) (c1 c2 c3 : list (list K)) :
  extended a c1 c2 -> extended b c2 c3 -> extended (a + b) c1 c3.
Proof.
  intros [L1 H1] [L2 H2]. split; [congruence|].
  intros li old E. destruct (H1 li old E) as (n1 & E1 & Hn1).
  destruct (H2 li _ E1) as (n2 & E2 & Hn2).
  exists (n1 ++ n2). rewrite app_assoc. split; auto.
  rewrite length_app. lia.
Qed.

Lemma appended_extended {K} (n : nat) (cache cache' : list (list K)) :
  appended n cache cache' -> length cache = n -> extended 1 cache cache'.
Proof.
  intros [Hlen H] Hn. split; auto. intros li old E.
  assert (Hli : (li < length cache)%nat) by (apply nth_error_Some; congruence).
  destruct (H li Hli) as (old' & E' & Hcase).
  rewrite E in E'. injection E' as <-.
  destruct (Nat.ltb_spec li n); [|lia].
  destruct Hcase as (entry & He). exists [entry]. auto.
Qed.

Lemma extended_fresh {K} (k n : nat) (cache' : list (list K)) :
  extended k (Driver.fresh_cache n) cache' -> full k n cache'.
Proof.
  unfold Driver.fresh_cache. intros [Hlen H]. rewrite repeat_length in Hlen.
  split; auto. apply Forall_forall. intros l Hl.
  destruct (In_nth_error _ _ Hl) as (li & Eli).
  assert (Hli : (li < n)%nat).
  { rewrite <- Hlen. apply nth_error_Some. congruence. }
  destruct (H li []) as (new & En & Hnew).
  { now apply nth_error_repeat. }
  simpl in En. congruence.
Qed.

Lemma fresh_cache_ok {K} (P : K -> Prop) (n : nat) :
  cache_ok P n (Driver.fresh_cache n).
Proof.
  unfold Driver.fresh_cache. split; [apply repeat_length|].
  apply Forall_forall. intros l Hl. apply repeat_spec in Hl. subst. constructor.
Qed.

Lemma fresh_in_step {K V} (n : nat) :
  in_step (@Driver.fresh_cache K n) (@Driver.fresh_cache V n).
Proof.
  intros li. unfold Driver.fresh_cache.
  destruct (Nat.lt_ge_cases li n) as [Hlt|Hge].
  - now rewrite !nth_repeat_lt.
  - now rewrite !nth_overflow by (rewrite repeat_length; lia).
Qed.

(** A sequence of calls of a model whose [forward] keeps an invariant [Inv]
    of the caches, adds one entry per layer to the cache of the keys and
    relates the cache of the values as [RV 1] says. *)
Lemma runs_forward_calls {K V} (model : Driver.Model K V)
  (valid : nat * nat -> Prop)
  (Inv : Heap -> list (list K) -> list (list V) -> Prop)
  (RV : nat -> list (list V) -> list (list V) -> Prop) (vocab : nat) :
  (forall vs, RV 0%nat vs vs) ->
  (forall a b v1 v2 v3, RV a v1 v2 -> RV b v2 v3 -> RV (a + b)%nat v1 v3) ->
  (forall tok pos ks vs h,
      valid (tok, pos) -> Inv h ks vs ->
      runs any (Driver.forward model tok pos ks vs) h
           (fun r h' =>
              vec_ok h' vocab (fst (fst r)) /\
              Inv h' (snd (fst r)) (snd r) /\
              extended 1 ks (snd (fst r)) /\ RV 1%nat vs (snd r))) ->
  forall args ks vs h,
    Forall valid args -> Inv h ks vs ->
    runs any (Driver.forward_calls model args ks vs) h
         (fun r h' =>
            length (fst (fst r)) = length args /\
            Forall (vec_ok h' vocab) (fst (fst r)) /\
            Inv h' (snd (fst r)) (snd r) /\
            extended (length args) ks (snd (fst r)) /\
            RV (length args) vs (snd r)).
Proof.
  intros RV0 RVt Hstep. induction args as [|[tok pos] args IH];
    intros ks vs h Hargs Hinv; simpl.
  - apply runs_ret. simpl.
    repeat split; auto using extended_0. apply extended_0.
  - inversion Hargs as [|? ? Hv Hrest]; subst.
    eapply runs_bind; [apply (Hstep tok pos ks vs h Hv Hinv)|].
    intros [[logits ks1] vs1] h1 Hal1 (Hl & Hinv1 & Hk1 & Hv1).
    simpl in Hl, Hinv1, Hk1, Hv1.
    eapply runs_bind; [apply (IH ks1 vs1 h1 Hrest Hinv1)|].
    intros [[outs ks2] vs2] h2 Hal2 (Ho & Hos & Hinv2 & Hk2 & Hv2).
    simpl in Ho, Hos, Hinv2, Hk2, Hv2.
    apply runs_ret. simpl.
    split; [lia|]. split.
    { constructor; auto. apply (vec_ok_alloc any h1 h2 _ _ Hal2 Hl). }
    split; [exact Hinv2|].
    split; [apply (extended_trans 1 _ ks ks1 ks2 Hk1 Hk2)|].
    apply (RVt 1%nat _ vs vs1 vs2 Hv1 Hv2).
Qed.

(** The calls are made one after the other: the calls that follow do not
    take part in the results of the calls that precede. *)
Lemma forward_calls_app {K V} (model : Driver.Model K V)
  (pre more : list (nat * nat)) (keys : list (list K))
  (values : list (list V)) (h : Heap) :
  Driver.forward_calls model (pre ++ more) keys values h =
  match Driver.forward_calls model pre keys values h with
  | Some (outs1, keys1, values1, h1) =>
    match Driver.forward_calls model more keys1 values1 h1 with
    | Some (outs2, keys2, values2, h2) =>
      Some (outs1 ++ outs2, keys2, values2, h2)
    | None => None
    end
  | None => None
  end.
Proof.
  revert keys values h. induction pre as [|[tok pos] pre IH];
    intros keys values h; simpl.
  - destruct (Driver.forward_calls model more keys values h)
      as [[[[outs ks] vs] h1]|]; reflexivity.
  - unfold bind, ret.
    destruct (Driver.forward model tok pos keys values h)
      as [[[[logits ks] vs] h1]|]; [|reflexivity].
    rewrite IH.
    destruct (Driver.forward_calls model pre ks vs h1)
      as [[[[outs1 ks1] vs1] h2]|]; [|reflexivity].
    destruct (Driver.forward_calls model more ks1 vs1 h2)
      as [[[[outs2 ks2] vs2] h3]|]; reflexivity.
Qed.


Lemma caches_ok_extended {K V} (PK : K -> Prop) (PV : V -> Prop) (n : nat)
  (keys keys' : list (list K)) (values values' : list (list V)) :
  cache_ok PK n keys -> cache_ok PV n values ->
  caches_ok PK PV n keys values n keys' values' ->
  cache_ok PK n keys' /\ cache_ok PV n values' /\ in_step keys' values' /\
  extended 1 keys keys' /\ extended 1 values values'.
Proof.
  intros [HK _] [HV _] (A & B & C & D & E).
  repeat split; try apply A; try apply B; try apply C;
    try apply (appended_extended n keys keys' D HK);
    try apply (appended_extended n values values' E HV).
Qed.

End ShapeFacts.

(** ** The training step and the sampling loop *)

Module DriverFacts.

Import Invariants Examples.
Import Num Autograd Store Graph Hoare HeapFacts Traversal Chain Backward
       Operators HoareFacts Pure Ops OpsFacts PureFacts BlockFacts Shapes
       ShapeFacts Driver.
Local Open Scope R_scope.

(** *** The three variants *)

Lemma gpt_inv_alloc (c : GPT.Config) (state : State) (vocab : nat)
  (h h' : Heap) (ks vs : GPT.Cache) :
  allocated any h h' -> gpt_inv c state vocab h ks vs ->
  gpt_inv c state vocab h' ks vs.
Proof.
  intros Hal (A & B & C & D). lift Hal.
  split; [apply (gpt_shaped_alloc any h h' c state vocab Hal A)|].
  split; [exact B|]. split; assumption.
Qed.

Lemma gpt_inv_step (c : GPT.Config) (state : State) (vocab : nat)
  (tok pos : nat) (ks vs : GPT.Cache) (h : Heap) :
  (tok < vocab)%nat -> (pos < block_size (of_gpt c state))%nat ->
  gpt_inv c state vocab h ks vs ->
  runs any (forward (of_gpt c state) tok pos ks vs) h
       (fun r h' =>
          vec_ok h' vocab (fst (fst r)) /\
          gpt_inv c state vocab h' (snd (fst r)) (snd r) /\
          extended 1 ks (snd (fst r)) /\ extended 1 vs (snd r)).
Proof.
  intros Ht Hp (Hs & Hk & Hv & Hi). simpl in Hp.
  eapply runs_weaken.
  - apply (ok_gpt c state vocab tok pos ks vs h Hs Ht Hp Hk Hv Hi).
  - intros [[logits ks'] vs'] h1 Hal1 [Hl Hc]. simpl in Hl, Hc. simpl.
    lift Hal1.
    destruct (caches_ok_extended _ _ _ ks ks' vs vs' Hk Hv Hc)
      as (A & B & C & D & E).
    split; [exact Hl|]. split; [|split; assumption].
    split; [apply (gpt_shaped_alloc any h h1 c state vocab Hal1 Hs)|].
    split; [exact A|]. split; assumption.
Qed.

Lemma llama_inv_alloc (c : Llama.LlamaConfig) (state : State) (vocab : nat)
  (h h' : Heap) (ks vs : Llama.Cache) :
  allocated any h h' -> llama_inv c state vocab h ks vs ->
  llama_inv c state vocab h' ks vs.
Proof.
  intros Hal (A & B & C & D).
  split; [apply (llama_shaped_alloc any h h' c state vocab Hal A)|].
  split; [|split; [|exact D]].
  - revert B. apply cache_ok_impl. intros k.
    apply (mat_ok_alloc any h h' _ _ k Hal).
  - revert C. apply cache_ok_impl. intros k.
    apply (mat_ok_alloc any h h' _ _ k Hal).
Qed.

Lemma llama_inv_step (c : Llama.LlamaConfig) (state : State) (vocab : nat)
  (tok pos : nat) (ks vs : Llama.Cache) (h : Heap) :
  (tok < vocab)%nat -> llama_inv c state vocab h ks vs ->
  runs any (forward (of_llama c state) tok pos ks vs) h
       (fun r h' =>
          vec_ok h' vocab (fst (fst r)) /\
          llama_inv c state vocab h' (snd (fst r)) (snd r) /\
          extended 1 ks (snd (fst r)) /\ extended 1 vs (snd r)).
Proof.
  intros Ht (Hs & Hk & Hv & Hi).
  eapply runs_weaken.
  - apply (ok_llama c state vocab tok pos ks vs h Hs Ht Hk Hv Hi).
  - intros [[logits ks'] vs'] h1 Hal1 [Hl Hc]. simpl in Hl, Hc. simpl.
    destruct (llama_inv_alloc c state vocab h h1 ks vs Hal1
                (conj Hs (conj Hk (conj Hv Hi)))) as (Hs1 & Hk1 & Hv1 & _).
    destruct (caches_ok_extended _ _ _ ks ks' vs vs' Hk1 Hv1 Hc)
      as (A & B & C & D & E).
    split; [exact Hl|]. split; [|split; assumption].
    split; [exact Hs1|]. split; [exact A|]. split; assumption.
Qed.

Lemma deepseek_inv_alloc (V : Type) (c : Deepseek.DeepseekConfig)
  (state : State) (vocab : nat) (h h' : Heap) (ks : Deepseek.Cache)
  (vs : list (list V)) :
  allocated any h h' -> deepseek_inv c state vocab h ks vs ->
  deepseek_inv c state vocab h' ks vs.
Proof.
  intros Hal (A & B). lift Hal.
  split; [apply (deepseek_shaped_alloc any h h' c state vocab Hal A)|exact B].
Qed.

Lemma deepseek_inv_step (V : Type) (c : Deepseek.DeepseekConfig)
  (state : State) (vocab : nat) (tok pos : nat) (ks : Deepseek.Cache)
  (vs : list (list V)) (h : Heap) :
  (tok < vocab)%nat -> deepseek_inv c state vocab h ks vs ->
  runs any (forward (of_deepseek V c state) tok pos ks vs) h
       (fun r h' =>
          vec_ok h' vocab (fst (fst r)) /\
          deepseek_inv c state vocab h' (snd (fst r)) (snd r) /\
          extended 1 ks (snd (fst r)) /\ snd r = vs).
Proof.
  intros Ht (Hs & Hk).
  unfold of_deepseek, forward.
  eapply runs_bind; [apply (ok_deepseek c state vocab tok pos ks h Hs Ht Hk)|].
  intros [logits ks'] h1 Hal1 (Hl & Hc & Hap). simpl in Hl, Hc, Hap.
  apply runs_ret. simpl.
  split; [exact Hl|]. split; [|split; [|reflexivity]].
  - split; [|exact Hc].
    apply (deepseek_shaped_alloc any h h1 c state vocab Hal1 Hs).
  - apply (appended_extended _ _ _ Hap). now destruct Hk.
Qed.

(** *** Sequences of calls on the three variants *)

Lemma gpt_calls (c : GPT.Config) (state : State) (vocab : nat)
  (args : list (nat * nat)) (keys values : GPT.Cache) (h : Heap) :
  gpt_shaped h c state vocab ->
  Forall (fun a => (fst a < vocab)%nat) args ->
  Forall (fun a => (snd a < GPT.block_size c)%nat) args ->
  cache_ok (vec_ok h (GPT.n_embd c)) (GPT.n_layer c) keys ->
  cache_ok (vec_ok h (GPT.n_embd c)) (GPT.n_layer c) values ->
  in_step keys values ->
  runs any (forward_calls (of_gpt c state) args keys values) h
       (fun r h' =>
          length (fst (fst r)) = length args /\
          Forall (vec_ok h' vocab) (fst (fst r)) /\
          extended (length args) keys (snd (fst r)) /\
          extended (length args) values (snd r)).
Proof.
  intros Hsh Htok Hpos HK HV Hstep.
  eapply runs_weaken.
  - apply (runs_forward_calls (of_gpt c state)
             (fun a => (fst a < vocab)%nat /\ (snd a < GPT.block_size c)%nat)
             (gpt_inv c state vocab) extended vocab
             (fun vs => extended_0 vs)
             (fun a b v1 v2 v3 => extended_trans a b v1 v2 v3)).
    + intros tok pos ks vs h0 [Ht Hp] Hinv.
      apply (gpt_inv_step c state vocab tok pos ks vs h0 Ht Hp Hinv).
    + rewrite Forall_forall in *. intros a Ha. split; auto.
    + split; [exact Hsh|]. split; [exact HK|]. split; assumption.
  - intros r h1 _ (A & B & _ & C & D).
    split; [exact A|]. split; [exact B|]. split; assumption.
Qed.

Lemma llama_calls (c : Llama.LlamaConfig) (state : State) (vocab : nat)
  (args : list (nat * nat)) (keys values : Llama.Cache) (h : Heap) :
  let P := fun h => mat_ok h (Llama.n_kv_head c) (Llama.head_dim c) in
  llama_shaped h c state vocab ->
  Forall (fun a => (fst a < vocab)%nat) args ->
  cache_ok (P h) (Llama.n_layer c) keys ->
  cache_ok (P h) (Llama.n_layer c) values ->
  in_step keys values ->
  runs any (forward_calls (of_llama c state) args keys values) h
       (fun r h' =>
          length (fst (fst r)) = length args /\
          Forall (vec_ok h' vocab) (fst (fst r)) /\
          extended (length args) keys (snd (fst r)) /\
          extended (length args) values (snd r)).
Proof.
  intros P Hsh Htok HK HV Hstep. unfold P in *. clear P.
  eapply runs_weaken.
  - apply (runs_forward_calls (of_llama c state)
             (fun a => (fst a < vocab)%nat)
             (llama_inv c state vocab) extended vocab
             (fun vs => extended_0 vs)
             (fun a b v1 v2 v3 => extended_trans a b v1 v2 v3)).
    + intros tok pos ks vs h0 Ht Hinv.
      apply (llama_inv_step c state vocab tok pos ks vs h0 Ht Hinv).
    + exact Htok.
    + split; [exact Hsh|]. split; [exact HK|]. split; assumption.
  - intros r h1 _ (A & B & _ & C & D).
    split; [exact A|]. split; [exact B|]. split; assumption.
Qed.

Lemma deepseek_calls (V : Type) (c : Deepseek.DeepseekConfig) (state : State)
  (vocab : nat) (args : list (nat * nat)) (keys : Deepseek.Cache)
  (values : list (list V)) (h : Heap) :
  deepseek_shaped h c state vocab ->
  Forall (fun a => (fst a < vocab)%nat) args ->
  cache_ok (vec_ok h (Deepseek.latent_dim c)) (Deepseek.n_layer c) keys ->
  runs any (forward_calls (of_deepseek V c state) args keys values) h
       (fun r h' =>
          length (fst (fst r)) = length args /\
          Forall (vec_ok h' vocab) (fst (fst r)) /\
          extended (length args) keys (snd (fst r)) /\
          snd r = values).
Proof.
  intros Hsh Htok HK.
  eapply runs_weaken.
  - apply (runs_forward_calls (of_deepseek V c state)
             (fun a => (fst a < vocab)%nat)
             (deepseek_inv c state vocab)
             (fun _ v v' => v' = v) vocab (fun vs => eq_refl)).
    + intros a b v1 v2 v3 -> ->. reflexivity.
    + intros tok pos ks vs h0 Ht Hinv.
      apply (deepseek_inv_step V c state vocab tok pos ks vs h0 Ht Hinv).
    + exact Htok.
    + split; assumption.
  - intros r h1 _ (A & B & _ & C & D).
    split; [exact A|]. split; [exact B|]. split; assumption.
Qed.

(** [backward] returns on every acyclic heap, and changes gradients only. *)
Lemma backward_total (h : Heap) (root : Value) :
  wf_heap h -> (root < length h)%nat ->
  exists h', backward root h = Some (tt, h') /\ same_graph h h'.
Proof.
  intros Hwf Hroot.
  destruct (build_spec h Hwf (length h) root [] [])
    as (vis & topo & Eb & _ & _ & [Hrt _] & _); auto.
  { split; [constructor | intros x []]. }
  simpl in Eb, Hrt.
  destruct (modify_grad_spec h root (fun _ => 1) Hroot)
    as (nr & h0 & _ & Em & Hsg0 & _).
  destruct (distribute_all_spec
              (fun v => Rsum (fun w => grad_of h0 w * partial h0 w v) (rev topo))
              (rev topo) h0) as (h' & Ed & Hsg' & _).
  { eapply same_graph_wf; eauto. }
  { eapply same_graph_rev_topo; eauto. }
  { reflexivity. }
  exists h'. split; [|eapply same_graph_trans; eauto].
  unfold backward. rewrite Eb. unfold bind, set_grad.
  assert (Em' : modify root (with_grad 1) h = Some (tt, h0)) by exact Em.
  rewrite Em'. exact Ed.
Qed.

(** The loop rule, for an invariant of any kind. *)
Lemma runs_for {T} (L : R -> Prop) (body : nat -> T -> M T)
  (I : nat -> T -> Heap -> Prop) :
  forall n lo acc h,
    I lo acc h ->
    (forall j a h1,
        allocated L h h1 -> (lo <= j < lo + n)%nat -> I j a h1 ->
        runs L (body j a) h1 (fun a' h2 => I (S j) a' h2)) ->
    runs L (for_from n lo body acc) h (fun r h' => I (lo + n)%nat r h').
Proof.
  induction n as [|n IH]; intros lo acc h Hacc Hb; simpl.
  - apply runs_ret. now rewrite Nat.add_0_r.
  - eapply runs_bind.
    { apply (Hb lo acc h); auto using allocated_refl. lia. }
    intros a h1 Hal1 Ha. simpl in Ha.
    replace (lo + S n)%nat with (S lo + n)%nat by lia.
    apply IH; auto.
    intros j a' h2 Hal2 Hj Ha'.
    apply Hb; eauto using allocated_trans. lia.
Qed.

Lemma vec_ok_nth (h : Heap) (n : nat) (v : list Value) (i : nat) :
  vec_ok h n v -> (i < n)%nat ->
  exists a x, nth_error v i = Some a /\ data_of h a = Some x.
Proof.
  intros Hv Hi. destruct (vec_ok_is h n v Hv) as [Hd _].
  destruct (vec_is_nth_default h v (data_vec h v) i Hd) as (a & Ea & Ha).
  { destruct Hv. lia. }
  eauto.
Qed.

Lemma vec_ok_snoc (h : Heap) (n : nat) (v : list Value) (a : Value) (x : R) :
  vec_ok h n v -> data_of h a = Some x -> vec_ok h (S n) (v ++ [a]).
Proof.
  intros [Hl Hv] Ha. split.
  - rewrite length_app. simpl. lia.
  - apply Forall_app. split; auto. repeat constructor.
    eapply data_of_lt; eauto.
Qed.

Section Calls.

Context {K V : Type}.
Variable model : Model K V.
Variable vocab : nat.
Variable Inv : Heap -> list (list K) -> list (list V) -> Prop.
Variable RV : nat -> list (list V) -> list (list V) -> Prop.

Hypothesis RV0 : forall vs, RV 0%nat vs vs.
Hypothesis RVt :
  forall a b v1 v2 v3, RV a v1 v2 -> RV b v2 v3 -> RV (a + b)%nat v1 v3.

Hypothesis Inv_alloc :
  forall h h' ks vs, allocated any h h' -> Inv h ks vs -> Inv h' ks vs.

(** What the lemmas of this section ask of [forward]: on a valid token
    and position, and on caches that satisfy [Inv], it returns [vocab]
    logits, keeps [Inv], adds one entry per layer to the cache of the keys
    and relates the caches of the values as [RV 1] says. *)
Hypothesis Hstep :
  forall tok pos ks vs h,
    (tok < vocab)%nat -> (pos < block_size model)%nat -> Inv h ks vs ->
    runs any (forward model tok pos ks vs) h
         (fun r h' =>
            vec_ok h' vocab (fst (fst r)) /\
            Inv h' (snd (fst r)) (snd r) /\
            extended 1 ks (snd (fst r)) /\ RV 1%nat vs (snd r)).

Lemma runs_train_position (tokens : list nat) (pos : nat)
  (losses : list Value) (ks0 ks : list (list K)) (vs0 vs : list (list V))
  (h : Heap) :
  Forall (fun t => t < vocab)%nat tokens ->
  (S pos < length tokens)%nat -> (pos < block_size model)%nat ->
  vec_ok h pos losses -> Inv h ks vs ->
  extended pos ks0 ks -> RV pos vs0 vs ->
  runs any (train_position model tokens pos (losses, ks, vs)) h
       (fun st h' =>
          vec_ok h' (S pos) (fst (fst st)) /\
          Inv h' (snd (fst st)) (snd st) /\
          extended (S pos) ks0 (snd (fst st)) /\ RV (S pos) vs0 (snd st)).
Proof.
  intros Htok Hlen Hpos Hl Hinv Hk Hv. unfold train_position.
  rewrite Forall_forall in Htok.
  destruct (nth_error tokens pos) as [tok|] eqn:Etok.
  2:{ apply nth_error_None in Etok. lia. }
  destruct (nth_error tokens (pos + 1)) as [next|] eqn:Enext.
  2:{ apply nth_error_None in Enext. lia. }
  assert (Ht : (tok < vocab)%nat) by (eapply Htok, nth_error_In; eauto).
  assert (Hn : (next < vocab)%nat) by (eapply Htok, nth_error_In; eauto).
  eapply runs_bind; [apply (runs_idx any tokens pos tok h Etok)|].
  intros ? ? _ [-> ->].
  eapply runs_bind; [apply (Hstep tok pos ks vs h Ht Hpos Hinv)|].
  intros [[logits ks1] vs1] h1 Hal1 (Hlg & Hinv1 & Hk1 & Hv1).
  simpl in Hlg, Hinv1, Hk1, Hv1. lift Hal1.
  eapply runs_bind; [apply (ok_softmax h1 vocab logits Hlg); lia|].
  intros probs h2 Hal2 Hp. lift Hal2.
  eapply runs_bind; [apply (runs_idx any tokens (pos + 1) next h2 Enext)|].
  intros ? ? _ [-> ->].
  destruct (vec_ok_nth h2 vocab probs next Hp Hn) as (p & x & Ep & Hx).
  eapply runs_bind; [apply (runs_idx any probs next p h2 Ep)|].
  intros ? ? _ [-> ->].
  eapply runs_bind; [apply (runs_log any h2 p x Hx)|].
  intros l h3 Hal3 Hlx. lift Hal3.
  eapply runs_bind.
  { unfold neg. apply (runs_mul_number any h3 l (ln x) (-1) Hlx I). }
  intros nl h4 Hal4 Hnl. lift Hal4.
  apply runs_ret. simpl.
  split; [eapply vec_ok_snoc; eauto|].
  split.
  - apply (Inv_alloc h1 h4); auto.
    eauto using allocated_trans.
  - split.
    + replace (S pos) with (pos + 1)%nat by lia.
      apply (extended_trans pos 1 ks0 ks ks1 Hk Hk1).
    + replace (S pos) with (pos + 1)%nat by lia.
      apply (RVt pos 1%nat vs0 vs vs1 Hv Hv1).
Qed.

(** One step of [train] returns: every call of [forward], the loss and
    [backward] return, and the caches have received one entry per layer for
    each of the [n] positions of the document. *)
Lemma train_step_total (tokens : list nat) (h : Heap) :
  wf_heap h ->
  Inv h (fresh_cache (n_layer model)) (fresh_cache (n_layer model)) ->
  Forall (fun t => t < vocab)%nat tokens ->
  (2 <= length tokens)%nat -> (1 <= block_size model)%nat ->
  exists loss ks vs h',
    train_step model tokens h = Some (loss, ks, vs, h') /\
    extended (Nat.min (block_size model) (length tokens - 1))
             (fresh_cache (n_layer model)) ks /\
    RV (Nat.min (block_size model) (length tokens - 1))
       (fresh_cache (n_layer model)) vs.
Proof.
  intros Hwf Hinv Htok Hlen Hblock.
  set (n := Nat.min (block_size model) (length tokens - 1)).
  set (ks0 := @fresh_cache K (n_layer model)) in *.
  set (vs0 := @fresh_cache V (n_layer model)) in *.
  assert (Hn : (1 <= n)%nat) by (unfold n; lia).
  assert (Hloop :
    runs any (for_range n (train_position model tokens) ([], ks0, vs0)) h
         (fun st h' =>
            vec_ok h' n (fst (fst st)) /\ Inv h' (snd (fst st)) (snd st) /\
            extended n ks0 (snd (fst st)) /\ RV n vs0 (snd st))).
  { unfold for_range.
    apply (runs_for any (train_position model tokens)
             (fun j st h' =>
                vec_ok h' j (fst (fst st)) /\ Inv h' (snd (fst st)) (snd st) /\
                extended j ks0 (snd (fst st)) /\ RV j vs0 (snd st)) n 0%nat).
    - simpl. split; [split; [reflexivity|constructor]|].
      split; [exact Hinv|]. split; [apply extended_0 | apply RV0].
    - intros j [[l k] v] h1 Hal Hj (A & B & C & D). simpl in A, B, C, D.
      apply runs_train_position; auto; unfold n in Hj; lia. }
  destruct Hloop as ([[losses ks] vs] & h1 & E1 & Hal1 & (Hl & Hinv1 & Hk & Hv)).
  simpl in Hl, Hinv1, Hk, Hv.
  assert (Hne : losses <> []).
  { destruct Hl as [Hl _]. intros ->. simpl in Hl. lia. }
  destruct (vec_ok_is h1 n losses Hl) as [Hd _].
  destruct (runs_sum any losses _ h1 Hd Hne) as (sm & h2 & E2 & Hal2 & Hs).
  destruct (runs_div_number any h2 sm _ (INR n) Hs I)
    as (loss & h3 & E3 & Hal3 & Hloss).
  assert (Hwf3 : wf_heap h3).
  { apply (allocated_wf any h h3); auto. eauto using allocated_trans. }
  destruct (backward_total h3 loss Hwf3 (data_of_lt h3 loss _ Hloss))
    as (h4 & E4 & _).
  exists loss, ks, vs, h4. split; [|split; assumption].
  unfold train_step. fold n ks0 vs0. unfold bind.
  rewrite E1. simpl. rewrite E2, E3, E4. reflexivity.
Qed.

(** The sampling loop returns, after at least one and at most [fuel] calls
    of [forward]. *)
Lemma runs_infere_from (BOS : nat) (choice : list R -> nat) :
  (forall ps, ps <> [] -> (choice ps < length ps)%nat) ->
  forall fuel pos tok sample ks vs h,
    (pos + fuel <= block_size model)%nat -> (tok < vocab)%nat ->
    Inv h ks vs ->
    runs any (infere_from model BOS choice fuel pos tok sample ks vs) h
         (fun r h' =>
            exists k, (k <= fuel)%nat /\ ((0 < fuel)%nat -> (1 <= k)%nat) /\
                      Inv h' (snd (fst r)) (snd r) /\
                      extended k ks (snd (fst r)) /\ RV k vs (snd r)).
Proof.
  intros Hchoice. induction fuel as [|fuel IH];
    intros pos tok sample ks vs h Hpos Htok Hinv; simpl.
  - apply runs_ret. exists 0%nat. simpl.
    split; [lia|]. split; [lia|]. split; [exact Hinv|].
    split; [apply extended_0 | apply RV0].
  - eapply runs_bind; [apply (Hstep tok pos ks vs h Htok)|]; [lia | exact Hinv |].
    intros [[logits ks1] vs1] h1 Hal1 (Hlg & Hinv1 & Hk1 & Hv1).
    simpl in Hlg, Hinv1, Hk1, Hv1.
    destruct (vec_ok_is h1 vocab logits Hlg) as [Hd Hdl].
    eapply runs_bind.
    { apply (runs_mapM any (fun h v y => data_of h v = Some y)
                       (fun h v y => data_of h v = Some y)
                       (fun l => div l (inr 0.5)) (fun y => y / 0.5)
                       logits (data_vec h1 logits) h1
                       stable_data_of stable_data_of Hd).
      intros a y h2 _ _ Ha. apply (runs_div_number any h2 a y 0.5 Ha I). }
    intros scaled h2 Hal2 Hsc. simpl in Hsc.
    apply (vec_is_ok h2 vocab) in Hsc; [|now rewrite length_map].
    eapply runs_bind; [apply (ok_softmax h2 vocab scaled Hsc); lia|].
    intros probs h3 Hal3 Hp. simpl in Hp.
    destruct (vec_ok_is h3 vocab probs Hp) as [Hpd Hpl].
    eapply runs_bind.
    { apply (runs_mapM any (fun h v y => data_of h v = Some y)
                       (fun (_ : Heap) (r y : R) => r = y)
                       get_data (fun y => y)
                       probs (data_vec h3 probs) h3 stable_data_of).
      - intros h0 t a x E. exact E.
      - exact Hpd.
      - intros a y h4 _ _ Ha.
        eapply runs_weaken; [apply (runs_get_data any a y h4 Ha)|].
        intros r h5 _ [-> _]. reflexivity. }
    intros ps h4 Hal4 Hps. simpl in Hps.
    assert (Hpsl : length ps = vocab).
    { rewrite (Forall2_length Hps), length_map. exact Hpl. }
    assert (Hidx : (choice ps < vocab)%nat).
    { rewrite <- Hpsl. apply Hchoice. intros ->. simpl in Hpsl. lia. }
    assert (Hal14 : allocated any h1 h4) by eauto using allocated_trans.
    pose proof (Inv_alloc h1 h4 ks1 vs1 Hal14 Hinv1) as Hinv4.
    destruct (Nat.eqb (choice ps) BOS).
    + apply runs_ret. exists 1%nat. simpl.
      split; [lia|]. split; [lia|]. split; [exact Hinv4|]. split; assumption.
    + eapply runs_weaken.
      * apply (IH (S pos) (choice ps) (sample ++ [choice ps]) ks1 vs1 h4);
          auto. lia.
      * intros [[smp ks2] vs2] h5 _ (k & Hk & _ & Hinv5 & Hk2 & Hv2).
        simpl in Hinv5, Hk2, Hv2. exists (1 + k)%nat. simpl.
        split; [lia|]. split; [lia|]. split; [exact Hinv5|].
        split; [apply (extended_trans 1 k ks ks1 ks2 Hk1 Hk2)|].
        apply (RVt 1%nat k vs vs1 vs2 Hv1 Hv2).
Qed.

End Calls.

Lemma gpt_inv_fresh (c : GPT.Config) (state : State) (vocab : nat) (h : Heap) :
  gpt_shaped h c state vocab ->
  gpt_inv c state vocab h (fresh_cache (GPT.n_layer c))
          (fresh_cache (GPT.n_layer c)).
Proof.
  intros Hs. split; [exact Hs|].
  split; [apply fresh_cache_ok|]. split; [apply fresh_cache_ok|].
  apply fresh_in_step.
Qed.

Lemma llama_inv_fresh (c : Llama.LlamaConfig) (state : State) (vocab : nat)
  (h : Heap) :
  llama_shaped h c state vocab ->
  llama_inv c state vocab h (fresh_cache (Llama.n_layer c))
            (fresh_cache (Llama.n_layer c)).
Proof.
  intros Hs. split; [exact Hs|].
  split; [apply fresh_cache_ok|]. split; [apply fresh_cache_ok|].
  apply fresh_in_step.
Qed.

(** One step of [train] on Variant A: it returns, and both caches hold one
    entry per layer for each position of the document. *)
Lemma gpt_train_step (c : GPT.Config) (state : State) (vocab : nat)
  (tokens : list nat) (h : Heap) :
  gpt_shaped h c state vocab -> wf_heap h ->
  Forall (fun t => t < vocab)%nat tokens ->
  (2 <= length tokens)%nat -> (1 <= GPT.block_size c)%nat ->
  exists loss ks vs h',
    train_step (of_gpt c state) tokens h = Some (loss, ks, vs, h') /\
    full (Nat.min (GPT.block_size c) (length tokens - 1)) (GPT.n_layer c) ks /\
    full (Nat.min (GPT.block_size c) (length tokens - 1)) (GPT.n_layer c) vs.
Proof.
  intros Hs Hwf Htok Hlen Hb.
  destruct (train_step_total (of_gpt c state) vocab (gpt_inv c state vocab)
              extended (fun vs => extended_0 vs)
              (fun a b v1 v2 v3 => extended_trans a b v1 v2 v3)
              (gpt_inv_alloc c state vocab)
              (gpt_inv_step c state vocab) tokens h Hwf
              (gpt_inv_fresh c state vocab h Hs) Htok Hlen Hb)
    as (loss & ks & vs & h' & E & Hk & Hv).
  exists loss, ks, vs, h'. split; [exact E|].
  split; now apply extended_fresh.
Qed.

(** One step of [train] on Variant B. *)
Lemma llama_train_step (c : Llama.LlamaConfig) (state : State) (vocab : nat)
  (tokens : list nat) (h : Heap) :
  llama_shaped h c state vocab -> wf_heap h ->
  Forall (fun t => t < vocab)%nat tokens ->
  (2 <= length tokens)%nat -> (1 <= Llama.block_size c)%nat ->
  exists loss ks vs h',
    train_step (of_llama c state) tokens h = Some (loss, ks, vs, h') /\
    full (Nat.min (Llama.block_size c) (length tokens - 1))
         (Llama.n_layer c) ks /\
    full (Nat.min (Llama.block_size c) (length tokens - 1))
         (Llama.n_layer c) vs.
Proof.
  intros Hs Hwf Htok Hlen Hb.
  destruct (train_step_total (of_llama c state) vocab
              (llama_inv c state vocab)
              extended (fun vs => extended_0 vs)
              (fun a b v1 v2 v3 => extended_trans a b v1 v2 v3)
              (llama_inv_alloc c state vocab)
              (fun tok pos ks vs h0 Ht _ Hi =>
                 llama_inv_step c state vocab tok pos ks vs h0 Ht Hi)
              tokens h Hwf
              (llama_inv_fresh c state vocab h Hs) Htok Hlen Hb)
    as (loss & ks & vs & h' & E & Hk & Hv).
  exists loss, ks, vs, h'. split; [exact E|].
  split; now apply extended_fresh.
Qed.

(** One step of [train] on Variant C: the latent cache holds one entry per
    layer for each position, the cache of the values none. *)
Lemma deepseek_train_step (V : Type) (c : Deepseek.DeepseekConfig)
  (state : State) (vocab : nat) (tokens : list nat) (h : Heap) :
  deepseek_shaped h c state vocab -> wf_heap h ->
  Forall (fun t => t < vocab)%nat tokens ->
  (2 <= length tokens)%nat -> (1 <= Deepseek.block_size c)%nat ->
  exists loss ks vs h',
    train_step (of_deepseek V c state) tokens h = Some (loss, ks, vs, h') /\
    full (Nat.min (Deepseek.block_size c) (length tokens - 1))
         (Deepseek.n_layer c) ks /\
    vs = fresh_cache (Deepseek.n_layer c).
Proof.
  intros Hs Hwf Htok Hlen Hb.
  destruct (train_step_total (of_deepseek V c state) vocab
              (deepseek_inv c state vocab)
              (fun _ v v' => v' = v) (fun vs => eq_refl)
              (fun a b v1 v2 v3 (E1 : v2 = v1) (E2 : v3 = v2) =>
                 eq_trans E2 E1)
              (deepseek_inv_alloc V c state vocab)
              (fun tok pos ks vs h0 Ht _ Hi =>
                 deepseek_inv_step V c state vocab tok pos ks vs h0 Ht Hi)
              tokens h Hwf
              (conj Hs (fresh_cache_ok _ _)) Htok Hlen Hb)
    as (loss & ks & vs & h' & E & Hk & Hv).
  exists loss, ks, vs, h'. split; [exact E|].
  split; [now apply extended_fresh | exact Hv].
Qed.

(** One sample of [infere] on Variant C: it returns after at least one and
    at most [block_size] calls of [forward]. *)
Lemma deepseek_infere_sample (V : Type) (c : Deepseek.DeepseekConfig)
  (state : State) (vocab BOS : nat) (choice : list R -> nat) (h : Heap) :
  deepseek_shaped h c state vocab -> (BOS < vocab)%nat ->
  (forall ps, ps <> [] -> (choice ps < length ps)%nat) ->
  runs any (infere_sample (of_deepseek V c state) BOS choice) h
       (fun r _ =>
          (exists k, (k <= Deepseek.block_size c)%nat /\
                     ((0 < Deepseek.block_size c)%nat -> (1 <= k)%nat) /\
                     full k (Deepseek.n_layer c) (snd (fst r))) /\
          snd r = fresh_cache (Deepseek.n_layer c)).
Proof.
  intros Hs HB Hchoice. unfold infere_sample.
  eapply runs_weaken.
  - apply (runs_infere_from (of_deepseek V c state) vocab
             (deepseek_inv c state vocab)
             (fun _ v v' => v' = v) (fun vs => eq_refl)
             (fun a b v1 v2 v3 (E1 : v2 = v1) (E2 : v3 = v2) =>
                eq_trans E2 E1)
             (deepseek_inv_alloc V c state vocab)
             (fun tok pos ks vs h0 Ht _ Hi =>
                deepseek_inv_step V c state vocab tok pos ks vs h0 Ht Hi)
             BOS choice Hchoice
             (block_size (of_deepseek V c state)) 0 BOS []
             (fresh_cache (n_layer (of_deepseek V c state)))
             (fresh_cache (n_layer (of_deepseek V c state))) h);
      [simpl; lia | exact HB | exact (conj Hs (fresh_cache_ok _ _))].
  - intros [[smp ks] vs] h1 _ (k & Hk & Hk1 & _ & Hext & Hv).
    simpl in Hk, Hk1, Hext, Hv. simpl.
    split; [|exact Hv]. exists k.
    split; [exact Hk|]. split; [exact Hk1|]. now apply extended_fresh.
Qed.

End DriverFacts.

(** ** The caches across the calls of [forward] *)

Module Caches.

Import Invariants Examples.
Import Num Autograd Store Graph Hoare HoareFacts Pure Ops Shapes ShapeFacts
       DriverFacts Driver.
Local Open Scope R_scope.

(** C4.  Whatever the variant, a sequence of [k] calls of [forward] with
    token ids below the vocabulary size (and, for Variant A, positions below
    [block_size]), on parameters of the shapes the constructor gives them
    and on caches of well-formed entries ([gpt_inv], [llama_inv],
    [deepseek_inv]), returns, and leaves every layer of each of its caches
    with the entries it had, in place and in order, followed by exactly [k]
    new ones; started on caches freshly allocated by the driver, it leaves
    exactly [k] entries in every layer.  For Variant C the cache is the
    latent cache.  The calls are made one after the other, so that the
    results of a call, and the cache it reads, owe nothing to the calls
    that follow. *)
Theorem cache_monotonicity (vocab : nat) (h : Heap) (args : list (nat * nat)) :
  let k := length args in
  Forall (fun a => (fst a < vocab)%nat) args ->
  (forall (c : GPT.Config) (state : State) (keys values : GPT.Cache),
      gpt_inv c state vocab h keys values ->
      Forall (fun a => (snd a < GPT.block_size c)%nat) args ->
      runs any (forward_calls (of_gpt c state) args keys values) h
           (fun r _ =>
              length (fst (fst r)) = k /\
              extended k keys (snd (fst r)) /\ extended k values (snd r))) /\
  (forall (c : GPT.Config) (state : State),
      gpt_shaped h c state vocab ->
      Forall (fun a => (snd a < GPT.block_size c)%nat) args ->
      runs any (forward_calls (of_gpt c state) args
                              (fresh_cache (GPT.n_layer c))
                              (fresh_cache (GPT.n_layer c))) h
           (fun r _ =>
              full k (GPT.n_layer c) (snd (fst r)) /\
              full k (GPT.n_layer c) (snd r))) /\
  (forall (c : Llama.LlamaConfig) (state : State) (keys values : Llama.Cache),
      llama_inv c state vocab h keys values ->
      runs any (forward_calls (of_llama c state) args keys values) h
           (fun r _ =>
              length (fst (fst r)) = k /\
              extended k keys (snd (fst r)) /\ extended k values (snd r))) /\
  (forall (c : Llama.LlamaConfig) (state : State),
      llama_shaped h c state vocab ->
      runs any (forward_calls (of_llama c state) args
                              (fresh_cache (Llama.n_layer c))
                              (fresh_cache (Llama.n_layer c))) h
           (fun r _ =>
              full k (Llama.n_layer c) (snd (fst r)) /\
              full k (Llama.n_layer c) (snd r))) /\
  (forall (V : Type) (c : Deepseek.DeepseekConfig) (state : State)
          (keys : Deepseek.Cache) (values : list (list V)),
      deepseek_inv c state vocab h keys values ->
      runs any (forward_calls (of_deepseek V c state) args keys values) h
           (fun r _ =>
              length (fst (fst r)) = k /\ extended k keys (snd (fst r)))) /\
  (forall (V : Type) (c : Deepseek.DeepseekConfig) (state : State)
          (values : list (list V)),
      deepseek_shaped h c state vocab ->
      runs any (forward_calls (of_deepseek V c state) args
                              (fresh_cache (Deepseek.n_layer c)) values) h
           (fun r _ => full k (Deepseek.n_layer c) (snd (fst r)))) /\
  (forall (K V : Type) (model : Model K V) (pre more : list (nat * nat))
          (keys : list (list K)) (values : list (list V)) (h0 : Heap),
      forward_calls model (pre ++ more) keys values h0 =
      match forward_calls model pre keys values h0 with
      | Some (outs1, keys1, values1, h1) =>
        match forward_calls model more keys1 values1 h1 with
        | Some (outs2, keys2, values2, h2) =>
          Some (outs1 ++ outs2, keys2, values2, h2)
        | None => None
        end
      | None => None
      end).
Proof.
  intros k Htok.
  assert (A : forall (c : GPT.Config) (state : State) (keys values : GPT.Cache),
      gpt_inv c state vocab h keys values ->
      Forall (fun a => (snd a < GPT.block_size c)%nat) args ->
      runs any (forward_calls (of_gpt c state) args keys values) h
           (fun r _ =>
              length (fst (fst r)) = k /\
              extended k keys (snd (fst r)) /\ extended k values (snd r))).
  { intros c state keys values (Hsh & HK & HV & Hstep) Hpos.
    eapply runs_weaken;
      [apply (gpt_calls c state vocab args keys values h Hsh Htok Hpos HK HV
                        Hstep)|].
    intros r h1 _ (R1 & _ & R2 & R3). split; [exact R1|]. split; assumption. }
  assert (B : forall (c : Llama.LlamaConfig) (state : State)
                     (keys values : Llama.Cache),
      llama_inv c state vocab h keys values ->
      runs any (forward_calls (of_llama c state) args keys values) h
           (fun r _ =>
              length (fst (fst r)) = k /\
              extended k keys (snd (fst r)) /\ extended k values (snd r))).
  { intros c state keys values (Hsh & HK & HV & Hstep).
    eapply runs_weaken;
      [apply (llama_calls c state vocab args keys values h Hsh Htok HK HV
                          Hstep)|].
    intros r h1 _ (R1 & _ & R2 & R3). split; [exact R1|]. split; assumption. }
  assert (C : forall (V : Type) (c : Deepseek.DeepseekConfig) (state : State)
                     (keys : Deepseek.Cache) (values : list (list V)),
      deepseek_inv c state vocab h keys values ->
      runs any (forward_calls (of_deepseek V c state) args keys values) h
           (fun r _ =>
              length (fst (fst r)) = k /\ extended k keys (snd (fst r)))).
  { intros V c state keys values (Hsh & HK).
    eapply runs_weaken;
      [apply (deepseek_calls V c state vocab args keys values h Hsh Htok HK)|].
    intros r h1 _ (R1 & _ & R2 & _). split; assumption. }
  split; [exact A|]. split.
  { intros c state Hsh Hpos.
    eapply runs_weaken.
    - apply (A c state _ _ (gpt_inv_fresh c state vocab h Hsh) Hpos).
    - intros r h1 _ (_ & R2 & R3). split; now apply extended_fresh. }
  split; [exact B|]. split.
  { intros c state Hsh.
    eapply runs_weaken.
    - apply (B c state _ _ (llama_inv_fresh c state vocab h Hsh)).
    - intros r h1 _ (_ & R2 & R3). split; now apply extended_fresh. }
  split; [exact C|]. split.
  { intros V c state values Hsh.
    eapply runs_weaken.
    - apply (C V c state _ values (conj Hsh (fresh_cache_ok _ _))).
    - intros r h1 _ (_ & R2). now apply extended_fresh. }
  intros K V model pre more keys values h0. apply forward_calls_app.
Qed.

Ltac stored :=
  eexists; split; [reflexivity|]; split; [reflexivity|];
  repeat constructor.

Lemma small_gpt_shaped : gpt_shaped one_leaf small_gpt small_state 1.
Proof.
  split; [reflexivity|]. split; [simpl; lia|]. split; [simpl; lia|].
  split; [stored|]. split; [stored|]. split; [stored|].
  intros li Hli. simpl in Hli. assert (li = 0%nat) as -> by lia.
  repeat split; stored.
Defined.

Lemma small_llama_shaped : llama_shaped one_leaf small_llama small_state 1.
Proof.
  split; [reflexivity|]. split; [reflexivity|].
  split; [simpl; lia|]. split; [simpl; lia|]. split; [simpl; lia|].
  split; [exists 1%nat; reflexivity|].
  split; [stored|]. split; [stored|].
  intros li Hli. simpl in Hli. assert (li = 0%nat) as -> by lia.
  repeat split; stored.
Defined.

Lemma small_deepseek_shaped :
  deepseek_shaped one_leaf small_deepseek small_state 1.
Proof.
  split; [reflexivity|]. split; [simpl; lia|]. split; [simpl; lia|].
  split; [exists 1%nat; reflexivity|]. split; [simpl; lia|].
  split; [stored|]. split; [stored|].
  intros li Hli. simpl in Hli. assert (li = 0%nat) as -> by lia.
  do 5 (split; [stored|]).
  intros e He. simpl in He. assert (e = 0%nat) as -> by lia.
  repeat split; stored.
Defined.

Lemma cache_monotonicity_witness :
  runs any (forward_calls (of_gpt small_gpt small_state) [(0, 0); (0, 0)]%nat
                          (fresh_cache 1) (fresh_cache 1)) one_leaf
       (fun r _ => full 2 1 (snd (fst r)) /\ full 2 1 (snd r)) /\
  runs any (forward_calls (of_llama small_llama small_state)
                          [(0, 0); (0, 0)]%nat
                          (fresh_cache 1) (fresh_cache 1)) one_leaf
       (fun r _ => full 2 1 (snd (fst r)) /\ full 2 1 (snd r)) /\
  runs any (forward_calls (of_deepseek (list Value) small_deepseek small_state)
                          [(0, 0); (0, 0)]%nat
                          (fresh_cache 1) (fresh_cache 1)) one_leaf
       (fun r _ => full 2 1 (snd (fst r))).
Proof.
  assert (Htok : Forall (fun a : nat * nat => (fst a < 1)%nat)
                        [(0, 0); (0, 0)]%nat).
  { repeat constructor. }
  destruct (cache_monotonicity 1 one_leaf [(0, 0); (0, 0)]%nat Htok)
    as (_ & A & _ & B & _ & C & _).
  split; [|split].
  - apply (A small_gpt small_state small_gpt_shaped). repeat constructor.
  - apply (B small_llama small_state small_llama_shaped).
  - apply (C (list Value) small_deepseek small_state (fresh_cache 1)
             small_deepseek_shaped).
Defined.


(** *** The fourth argument of the call *)

Lemma bind_Some {A B} (m : M A) (f : A -> M B) (h : Heap) (r : B * Heap) :
  bind m f h = Some r -> exists a h1, m h = Some (a, h1) /\ f a h1 = Some r.
Proof.
  unfold bind. destruct (m h) as [[a h1]|]; [|discriminate].
  intros E. exists a, h1. auto.
Qed.

Lemma for_from_keeps {T} (I : T -> Prop) (body : nat -> T -> M T) :
  (forall j a h a' h', body j a h = Some (a', h') -> I a -> I a') ->
  forall n lo acc h r h',
    for_from n lo body acc h = Some (r, h') -> I acc -> I r.
Proof.
  intros Hb. induction n as [|n IH]; intros lo acc h r h' E Hacc; simpl in E.
  - injection E as <- _. exact Hacc.
  - apply bind_Some in E. destruct E as (a & h1 & E1 & E2).
    apply (IH (S lo) a h1 r h' E2). apply (Hb lo acc h a h1 E1 Hacc).
Qed.

Lemma of_deepseek_keeps (V : Type) (c : Deepseek.DeepseekConfig)
  (state : State) : keeps_values (of_deepseek V c state).
Proof.
  intros tok pos keys values h r h' E. simpl in E.
  apply bind_Some in E. destruct E as (a & h1 & _ & E).
  injection E as <- _. reflexivity.
Qed.

Lemma train_step_keeps {K V} (model : Model K V) (tokens : list nat)
  (h : Heap) (r : Value * list (list K) * list (list V)) (h' : Heap) :
  keeps_values model ->
  train_step model tokens h = Some (r, h') ->
  snd r = fresh_cache (n_layer model).
Proof.
  intros Hk E. unfold train_step in E.
  apply bind_Some in E. destruct E as ([[losses ks] vs] & h1 & E1 & E2).
  assert (Hvs : vs = fresh_cache (n_layer model)).
  { apply (for_from_keeps (fun st => snd st = fresh_cache (n_layer model))
                          (train_position model tokens))
      in E1; [exact E1| |reflexivity].
    intros j [[l k0] v0] h0 [[l' k'] v'] h0' Eb Hv. simpl in Hv. subst v0.
    unfold train_position in Eb.
    apply bind_Some in Eb. destruct Eb as (tok & h2 & _ & Eb).
    apply bind_Some in Eb. destruct Eb as ([[lg k1] v1] & h3 & Ef & Eb).
    apply Hk in Ef. simpl in Ef. subst v1.
    apply bind_Some in Eb. destruct Eb as (probs & h4 & _ & Eb).
    apply bind_Some in Eb. destruct Eb as (next & h5 & _ & Eb).
    apply bind_Some in Eb. destruct Eb as (pr & h6 & _ & Eb).
    apply bind_Some in Eb. destruct Eb as (lo & h7 & _ & Eb).
    apply bind_Some in Eb. destruct Eb as (nl & h8 & _ & Eb).
    injection Eb as _ _ <- _. reflexivity. }
  apply bind_Some in E2. destruct E2 as (s & h2 & _ & E2).
  apply bind_Some in E2. destruct E2 as (loss & h3 & _ & E2).
  apply bind_Some in E2. destruct E2 as (u & h4 & _ & E2).
  injection E2 as <- _. exact Hvs.
Qed.

Lemma infere_from_keeps {K V} (model : Model K V) (BOS : nat)
  (choice : list R -> nat) (fuel : nat) :
  keeps_values model ->
  forall pos tokenId sample keys values h r h',
    infere_from model BOS choice fuel pos tokenId sample keys values h
      = Some (r, h') ->
    snd r = values.
Proof.
  intros Hk. induction fuel as [|fuel IH];
    intros pos tokenId sample keys values h r h' E; simpl in E.
  - injection E as <- _. reflexivity.
  - apply bind_Some in E. destruct E as ([[lg k1] v1] & h1 & Ef & E).
    apply Hk in Ef. simpl in Ef. subst v1.
    apply bind_Some in E. destruct E as (scaled & h2 & _ & E).
    apply bind_Some in E. destruct E as (probs & h3 & _ & E).
    apply bind_Some in E. destruct E as (ps & h4 & _ & E).
    destruct (Nat.eqb (choice ps) BOS).
    + injection E as <- _. reflexivity.
    + apply (IH _ _ _ _ _ _ _ _ E).
Qed.

Lemma of_deepseek_blind (V V2 : Type) (c : Deepseek.DeepseekConfig)
  (state : State) (values : list (list V)) (values2 : list (list V2))
  (args : list (nat * nat)) :
  forall keys h,
    observed (forward_calls (of_deepseek V c state) args keys values h) =
    observed (forward_calls (of_deepseek V2 c state) args keys values2 h).
Proof.
  induction args as [|[tok pos] args IH]; intros keys h; [reflexivity|].
  simpl. unfold bind, ret.
  destruct (Deepseek.forward c state tok pos keys h) as [[[logits ks] h1]|];
    [|reflexivity].
  simpl. specialize (IH ks h1).
  destruct (forward_calls (of_deepseek V c state) args ks values h1)
    as [[[[o1 k1] v1] g1]|];
    destruct (forward_calls (of_deepseek V2 c state) args ks values2 h1)
      as [[[[o2 k2] v2] g2]|]; simpl in *; try discriminate; try reflexivity.
  injection IH as -> -> ->. reflexivity.
Qed.

(** C10.  The driver calls [forward] of Variant C with a cache of keys and
    a cache of values.  The call runs the three-parameter method on the
    first three arguments and leaves the fourth as it was; what is passed as
    fourth argument has no influence on the logits, on the latent cache or
    on the heap.  A sequence of calls, a step of [train] and a sample of
    [infere], started as the driver starts them on freshly allocated caches,
    return; the latent cache has then received one entry per call in every
    layer, while the cache of the values is still the one the driver
    allocated, with no entry in any layer.  Whenever a step of [train] or a
    sample of [infere] returns, whatever the parameters, the cache of the
    values is that fresh cache. *)
Theorem deepseek_ignores_values_cache (V : Type)
  (c : Deepseek.DeepseekConfig) (state : State) :
  let model := of_deepseek V c state in
  let n := Deepseek.n_layer c in
  (forall tok pos keys values h,
      forward model tok pos keys values h =
      match Deepseek.forward c state tok pos keys h with
      | Some (logits, keys', h') => Some (logits, keys', values, h')
      | None => None
      end) /\
  (forall (V2 : Type) (values : list (list V)) (values2 : list (list V2))
          args keys h,
      observed (forward_calls model args keys values h) =
      observed (forward_calls (of_deepseek V2 c state) args keys values2 h)) /\
  (forall vocab args h,
      deepseek_shaped h c state vocab ->
      Forall (fun a => (fst a < vocab)%nat) args ->
      runs any (forward_calls model args (fresh_cache n) (fresh_cache n)) h
           (fun r _ =>
              full (length args) n (snd (fst r)) /\
              snd r = fresh_cache n /\ full 0 n (snd r))) /\
  (forall vocab tokens h,
      deepseek_shaped h c state vocab -> wf_heap h ->
      Forall (fun t => (t < vocab)%nat) tokens ->
      (2 <= length tokens)%nat -> (1 <= Deepseek.block_size c)%nat ->
      exists loss keys values h',
        train_step model tokens h = Some (loss, keys, values, h') /\
        full (Nat.min (Deepseek.block_size c) (length tokens - 1)) n keys /\
        values = fresh_cache n) /\
  (forall vocab BOS choice h,
      deepseek_shaped h c state vocab -> (BOS < vocab)%nat ->
      (forall ps, ps <> [] -> (choice ps < length ps)%nat) ->
      runs any (infere_sample model BOS choice) h
           (fun r _ =>
              (exists k, (k <= Deepseek.block_size c)%nat /\
                         ((0 < Deepseek.block_size c)%nat -> (1 <= k)%nat) /\
                         full k n (snd (fst r))) /\
              snd r = fresh_cache n)) /\
  (forall tokens h r h',
      train_step model tokens h = Some (r, h') -> snd r = fresh_cache n) /\
  (forall BOS choice h r h',
      infere_sample model BOS choice h = Some (r, h') ->
      snd r = fresh_cache n).
Proof.
  intros model n. split; [|split; [|split; [|split; [|split; [|split]]]]].
  - intros tok pos keys values h. unfold model. simpl. unfold bind, ret.
    destruct (Deepseek.forward c state tok pos keys h) as [[[logits ks] h1]|];
      reflexivity.
  - intros V2 values values2 args keys h. apply of_deepseek_blind.
  - intros vocab args h Hsh Htok.
    eapply runs_weaken.
    + apply (deepseek_calls V c state vocab args (fresh_cache n)
               (fresh_cache n) h Hsh Htok (fresh_cache_ok _ _)).
    + intros r h1 _ (_ & _ & Hk & Hv).
      split; [now apply extended_fresh|]. split; [exact Hv|].
      rewrite Hv. apply extended_fresh. apply extended_0.
  - intros vocab tokens h Hsh Hwf Htok Hlen Hb.
    apply (deepseek_train_step V c state vocab tokens h Hsh Hwf Htok Hlen Hb).
  - intros vocab BOS choice h Hsh HB Hchoice.
    apply (deepseek_infere_sample V c state vocab BOS choice h Hsh HB Hchoice).
  - intros tokens h r h' E.
    apply (train_step_keeps model tokens h r h' (of_deepseek_keeps V c state) E).
  - intros BOS choice h r h' E. unfold infere_sample in E.
    apply (infere_from_keeps model BOS choice _ (of_deepseek_keeps V c state)
             _ _ _ _ _ _ _ _ E).
Qed.

Lemma one_leaf_wf : wf_heap one_leaf.
Proof.
  intros i n Hi. destruct i as [|i]; [|destruct i; discriminate].
  injection Hi as <-. split; [constructor | reflexivity].
Defined.

Lemma deepseek_ignores_values_cache_witness :
  runs any (forward_calls (of_deepseek (list Value) small_deepseek small_state)
                          [(0, 0); (0, 1); (0, 2)]%nat
                          (fresh_cache 1) (fresh_cache 1)) one_leaf
       (fun r _ =>
          full 3 1 (snd (fst r)) /\ snd r = fresh_cache 1 /\
          full 0 1 (snd r)) /\
  (exists loss keys values h',
      train_step (of_deepseek (list Value) small_deepseek small_state)
                 [0; 0]%nat one_leaf = Some (loss, keys, values, h') /\
      full 1 1 keys /\ values = fresh_cache 1).
Proof.
  destruct (deepseek_ignores_values_cache (list Value) small_deepseek
                                          small_state) as (_ & _ & A & B & _).
  split.
  - apply (A 1%nat [(0, 0); (0, 1); (0, 2)]%nat one_leaf small_deepseek_shaped).
    repeat constructor.
  - apply (B 1%nat [0; 0]%nat one_leaf small_deepseek_shaped one_leaf_wf).
    + repeat constructor.
    + simpl. lia.
    + simpl. lia.
Defined.

End Caches.

(** ** The utilities of [gpt.ts] *)

Module UtilityFacts.

Import Script Pure.
Local Open Scope R_scope.


Lemma choice_from_bounds : forall ws r i k,
  choice_from ws r i = Some k -> (i <= k < i + length ws)%nat.
Proof.
  induction ws as [|w ws IH]; intros r i k H; simpl in *; [discriminate|].
  destruct (Rle_dec (r - w) 0).
  - inversion H. lia.
  - apply IH in H. lia.
Qed.



(** X1.  [weightedChoice] answers an index of the array whatever the
    weights and the drawn number are, provided the array is not empty; on
    the empty array it answers [-1]. *)
Theorem weightedChoice_range (weights : list R) (random : R) :
  match weights with
  | [] => weightedChoice weights random = (-1)%Z
  | _ :: _ =>
    (0 <= weightedChoice weights random < Z.of_nat (length weights))%Z
  end.
Proof.
  destruct weights as [|w ws]; [reflexivity|].
  unfold weightedChoice.
  destruct (choice_from (w :: ws) _ 0) as [k|] eqn:E.
  - apply choice_from_bounds in E. lia.
  - simpl length. lia.
Qed.



(** *** [shuffle] *)

Lemma store_length {T} : forall (arr : list T) i x,
  length (store arr i x) = length arr.
Proof.
  induction arr as [|y arr IH]; intros [|i] x; simpl; auto.
Qed.

Lemma store_perm {T} : forall (l : list T) j a b,
  nth_error l j = Some b -> Permutation (b :: store l j a) (a :: l).
Proof.
  induction l as [|y l IH]; intros [|j] a b H; simpl in *; try discriminate.
  - inversion H; subst. apply perm_swap.
  - transitivity (y :: b :: store l j a); [apply perm_swap|].
    transitivity (y :: a :: l); [|apply perm_swap].
    apply perm_skip, IH, H.
Qed.

Lemma store_store_perm {T} : forall (arr : list T) i j ai aj,
  nth_error arr i = Some ai -> nth_error arr j = Some aj ->
  Permutation (store (store arr i aj) j ai) arr.
Proof.
  induction arr as [|y arr IH]; intros [|i] [|j] ai aj Hi Hj; simpl in *;
    try discriminate.
  - inversion Hi; inversion Hj; subst. subst. reflexivity.
  - inversion Hi; subst. now apply store_perm.
  - inversion Hj; subst. now apply store_perm.
  - apply perm_skip. now apply IH.
Qed.

Lemma swap_spec {T} (arr : list T) (i j : nat) :
  (i < length arr)%nat -> (j < length arr)%nat ->
  exists arr', swap arr i j = Some arr' /\ Permutation arr arr'.
Proof.
  intros Hi Hj. unfold swap.
  destruct (nth_error arr j) as [aj|] eqn:Ej;
    [|apply nth_error_None in Ej; lia].
  destruct (nth_error arr i) as [ai|] eqn:Ei;
    [|apply nth_error_None in Ei; lia].
  eexists. split; [reflexivity|].
  symmetry. now apply store_store_perm.
Qed.

(** [Math.floor(Math.random() * (i + 1))] is an index between 0 and [i]. *)
Lemma floor_index_le (r : R) (i : nat) :
  unit_interval r -> (floor_index (r * INR (i + 1)) <= i)%nat.
Proof.
  intros [H0 H1]. unfold floor_index.
  destruct (base_Int_part (r * INR (i + 1))) as [Hlo _].
  assert (Hpos : 0 < INR (i + 1)) by (apply lt_0_INR; lia).
  assert (Hlt : r * INR (i + 1) < 1 * INR (i + 1))
    by (apply Rmult_lt_compat_r; assumption).
  assert (Hz : (Int_part (r * INR (i + 1)) < Z.of_nat (i + 1))%Z)
    by (apply lt_IZR; rewrite <- INR_IZR_INZ; lra).
  lia.
Qed.

Lemma shuffle_from_spec {T} (random : nat -> R) :
  (forall i, unit_interval (random i)) ->
  forall i (arr : list T), (i < length arr)%nat ->
  exists arr', shuffle_from random i arr = Some arr' /\ Permutation arr arr'.
Proof.
  intros Hr. induction i as [|i IH]; intros arr Hi.
  - exists arr. split; reflexivity.
  - cbn [shuffle_from].
    pose proof (floor_index_le (random (S i)) (S i) (Hr (S i))) as Hj.
    destruct (swap_spec arr (S i) (floor_index (random (S i) * INR (S i + 1))))
      as (arr1 & E1 & P1); [lia|lia|].
    rewrite E1.
    destruct (IH arr1) as (arr2 & E2 & P2).
    { rewrite <- (Permutation_length P1). lia. }
    exists arr2. split; [exact E2|]. now transitivity arr1.
Qed.

(** X3.  With drawn numbers in [[0, 1)], [shuffle] never reads or writes
    outside the array, and it leaves the array with the same elements, each as
    often as before, in some order. *)
Theorem shuffle_permutation {T} (random : nat -> R) (arr : list T) :
  (forall i, unit_interval (random i)) ->
  exists arr', shuffle random arr = Some arr' /\ Permutation arr arr' /\
               length arr' = length arr.
Proof.
  intros Hr. unfold shuffle.
  destruct arr as [|x arr].
  - exists []. repeat split; constructor.
  - destruct (shuffle_from_spec random Hr (length (x :: arr) - 1) (x :: arr))
      as (arr' & E & P); [simpl; lia|].
    exists arr'. split; [exact E|]. split; [exact P|].
    symmetry. now apply Permutation_length.
Qed.

Lemma shuffle_permutation_witness :
  exists arr', shuffle (fun _ => 1 / 2) [1; 2; 3]%nat = Some arr' /\
               Permutation [1; 2; 3]%nat arr' /\
               length arr' = length [1; 2; 3]%nat.
Proof.
  apply (shuffle_permutation (fun _ => 1 / 2) [1; 2; 3]%nat).
  intros _. unfold unit_interval. lra.
Defined.

End UtilityFacts.

(** ** The tokenizer of [gpt.ts] *)

Module TokenizerFacts.

Import Script.

Lemma distinct_spec : forall s seen,
  NoDup seen ->
  NoDup (distinct s seen) /\
  forall c, In c (distinct s seen) <-> In c seen \/ In c s.
Proof.
  induction s as [|a s IH]; intros seen Hnd; simpl.
  - split; [exact Hnd|]. intros c. tauto.
  - destruct (existsb (Nat.eqb a) seen) eqn:E.
    + apply existsb_exists in E. destruct E as (x & Hx & Hax).
      apply Nat.eqb_eq in Hax. subst x.
      destruct (IH seen Hnd) as [H1 H2]. split; [exact H1|].
      intros c. rewrite H2. intuition (subst; auto).
    + assert (Hnot : ~ In a seen).
      { intros Hin.
        assert (existsb (Nat.eqb a) seen = true)
          by (apply existsb_exists; exists a; split;
              [exact Hin | apply Nat.eqb_refl]).
        congruence. }
      assert (Hnd' : NoDup (seen ++ [a])).
      { apply (Permutation_NoDup (l := a :: seen)).
        - apply Permutation_cons_append.
        - now constructor. }
      destruct (IH (seen ++ [a]) Hnd') as [H1 H2]. split; [exact H1|].
      intros c. rewrite H2, in_app_iff. simpl. tauto.
Qed.

Lemma insert_perm (c : nat) : forall l, Permutation (insert c l) (c :: l).
Proof.
  induction l as [|x l IH]; simpl; [reflexivity|].
  destruct (Nat.leb c x); [reflexivity|].
  transitivity (x :: c :: l); [now apply perm_skip | apply perm_swap].
Qed.

Lemma sort_perm : forall l, Permutation (sort l) l.
Proof.
  induction l as [|x l IH]; simpl; [reflexivity|].
  transitivity (x :: sort l); [apply insert_perm | now apply perm_skip].
Qed.

Lemma insert_sorted (c : nat) : forall l,
  StronglySorted le l -> StronglySorted le (insert c l).
Proof.
  induction l as [|x l IH]; intros Hs; simpl.
  - constructor; constructor.
  - inversion Hs as [|? ? Hs' Hall]; subst.
    destruct (Nat.leb c x) eqn:E.
    + apply Nat.leb_le in E. constructor; [exact Hs|].
      constructor; [exact E|].
      eapply Forall_impl; [|exact Hall]. simpl. intros; lia.
    + apply Nat.leb_gt in E. constructor; [now apply IH|].
      eapply Permutation_Forall; [symmetry; apply insert_perm|].
      constructor; [lia | exact Hall].
Qed.

Lemma sort_sorted : forall l, StronglySorted le (sort l).
Proof.
  induction l as [|x l IH]; simpl; [constructor|]. now apply insert_sorted.
Qed.

Lemma sorted_strict : forall l,
  StronglySorted le l -> NoDup l -> StronglySorted lt l.
Proof.
  induction l as [|x l IH]; intros Hs Hnd; [constructor|].
  inversion Hs as [|? ? Hs' Hall]; subst.
  inversion Hnd as [|? ? Hx Hnd']; subst.
  constructor; [now apply IH|].
  apply Forall_forall. intros y Hy.
  rewrite Forall_forall in Hall. specialize (Hall y Hy).
  assert (x <> y) by (intros ->; contradiction). lia.
Qed.

Lemma uchars_NoDup (docs : list (list nat)) : NoDup (uchars docs).
Proof.
  unfold uchars.
  apply (Permutation_NoDup (l := distinct (concat docs) [])).
  - symmetry. apply sort_perm.
  - apply distinct_spec. constructor.
Qed.

Lemma uchars_In (docs : list (list nat)) (c : nat) :
  In c (uchars docs) <-> In c (concat docs).
Proof.
  unfold uchars. split.
  - intros H. apply (Permutation_in _ (sort_perm _)) in H.
    apply distinct_spec in H; [|constructor]. destruct H as [[]|H]. exact H.
  - intros H. apply (Permutation_in _ (Permutation_sym (sort_perm _))).
    apply distinct_spec; [constructor|]. now right.
Qed.

(** [indexOf] answers the first position of the character. *)
Lemma indexOf_from_spec (c : nat) : forall l i,
  (In c l ->
   exists k, indexOf_from l c i = Z.of_nat (i + k) /\
             nth_error l k = Some c) /\
  (~ In c l -> indexOf_from l c i = (-1)%Z).
Proof.
  induction l as [|x l IH]; intros i; simpl.
  - split; [intros []|reflexivity].
  - destruct (Nat.eqb x c) eqn:E.
    + apply Nat.eqb_eq in E. subst x. split.
      * intros _. exists 0%nat. split; [f_equal; lia | reflexivity].
      * intros H. exfalso. apply H. now left.
    + apply Nat.eqb_neq in E. destruct (IH (S i)) as [H1 H2]. split.
      * intros [->|Hin]; [congruence|].
        destruct (H1 Hin) as (k & Hk & Hn).
        exists (S k). split; [rewrite Hk; f_equal; lia | exact Hn].
      * intros H. apply H2. tauto.
Qed.

Lemma indexOf_nth (l : list nat) (k : nat) (c : nat) :
  NoDup l -> nth_error l k = Some c -> indexOf l c = Z.of_nat k.
Proof.
  intros Hnd Hk. unfold indexOf.
  destruct (indexOf_from_spec c l 0) as [H1 _].
  destruct (H1 (nth_error_In _ _ Hk)) as (k0 & E & Hk0).
  rewrite E. simpl. f_equal.
  rewrite NoDup_nth_error in Hnd. apply Hnd.
  - apply nth_error_Some. congruence.
  - congruence.
Qed.

Lemma encode_known (docs : list (list nat)) (c : nat) :
  In c (concat docs) ->
  exists i, indexOf (uchars docs) c = Z.of_nat i /\ (i < BOS docs)%nat /\
            decode docs i = Some c.
Proof.
  intros Hc. apply uchars_In in Hc.
  destruct (In_nth_error _ _ Hc) as (i & Hi).
  exists i. split; [apply indexOf_nth; [apply uchars_NoDup | exact Hi]|].
  split; [|exact Hi].
  unfold BOS. apply nth_error_Some. congruence.
Qed.

(** X4.  The vocabulary [uchars] lists the characters of the documents, each
    once, in ascending order.  Encoding and decoding are inverse of each
    other between the characters of the documents and the indices below
    [BOS]; a character outside the documents encodes to [-1]; and [BOS] is
    the index of no character. *)
Theorem tokenizer_round_trip (docs : list (list nat)) :
  StronglySorted lt (uchars docs) /\
  (forall c, In c (uchars docs) <-> In c (concat docs)) /\
  (forall c, In c (concat docs) ->
     exists i, indexOf (uchars docs) c = Z.of_nat i /\ (i < BOS docs)%nat /\
               decode docs i = Some c) /\
  (forall i, (i < BOS docs)%nat ->
     exists c, decode docs i = Some c /\
               indexOf (uchars docs) c = Z.of_nat i) /\
  (forall c, ~ In c (concat docs) -> indexOf (uchars docs) c = (-1)%Z) /\
  decode docs (BOS docs) = None.
Proof.
  pose proof (uchars_NoDup docs) as Hnd.
  split; [|split; [|split; [|split; [|split]]]].
  - apply sorted_strict; [apply sort_sorted | exact Hnd].
  - apply uchars_In.
  - apply encode_known.
  - intros i Hi. unfold BOS in Hi. unfold decode.
    destruct (nth_error (uchars docs) i) as [c|] eqn:E;
      [|apply nth_error_None in E; lia].
    exists c. split; [reflexivity | now apply indexOf_nth].
  - intros c Hc. unfold indexOf.
    apply (indexOf_from_spec c (uchars docs) 0).
    now rewrite uchars_In.
  - unfold decode, BOS. apply nth_error_None. lia.
Qed.

(** The tokens of a document of the data set, as indices. *)
Lemma encoded_tokens (docs : list (list nat)) (doc : list nat) :
  In doc docs ->
  Forall (fun t => (t < vocabSize docs)%nat)
         (map (as_index (vocabSize docs)) (tokens docs doc)) /\
  (2 <= length (map (as_index (vocabSize docs)) (tokens docs doc)))%nat.
Proof.
  intros Hdoc.
  assert (HB : as_index (vocabSize docs) (Z.of_nat (BOS docs)) = BOS docs).
  { unfold as_index.
    destruct (Z.ltb_spec (Z.of_nat (BOS docs)) 0) as [H|_]; [lia|].
    apply Znat.Nat2Z.id. }
  unfold tokens. split.
  - rewrite !map_app. cbn [map]. rewrite HB.
    apply Forall_app. split; [repeat constructor; unfold vocabSize, BOS; lia|].
    apply Forall_app. split; [|repeat constructor; unfold vocabSize, BOS; lia].
    rewrite map_map. apply Forall_map. apply Forall_forall. intros ch Hch.
    destruct (encode_known docs ch) as (i & Ei & Hi & _).
    { apply in_concat. exists doc. split; assumption. }
    rewrite Ei. unfold as_index.
    destruct (Z.ltb_spec (Z.of_nat i) 0) as [H|_]; [lia|].
    rewrite Znat.Nat2Z.id. unfold vocabSize, BOS in *. lia.
  - rewrite length_map, !length_app. simpl. lia.
Qed.

(** X5.  The token list of a document of the data set is [BOS], one index
    below [BOS] per character, and [BOS] again: it has at least two tokens,
    every token is a row of an embedding table of [vocabSize] rows, and the
    inner tokens decode to the document. *)
Theorem tokens_in_vocabulary (docs : list (list nat)) (doc : list nat) :
  In doc docs ->
  exists inner,
    tokens docs doc =
      Z.of_nat (BOS docs) :: map Z.of_nat inner ++ [Z.of_nat (BOS docs)] /\
    length inner = length doc /\
    Forall (fun t => (t < BOS docs)%nat) inner /\
    map (decode docs) inner = map Some doc /\
    (2 <= length (tokens docs doc))%nat /\
    Forall (fun t => (0 <= t < Z.of_nat (vocabSize docs))%Z) (tokens docs doc).
Proof.
  intros Hdoc.
  assert (Hchars : forall c, In c doc -> In c (concat docs)).
  { intros c Hc. apply in_concat. exists doc. split; assumption. }
  assert (Hinner : exists inner,
            map (indexOf (uchars docs)) doc = map Z.of_nat inner /\
            length inner = length doc /\
            Forall (fun t => (t < BOS docs)%nat) inner /\
            map (decode docs) inner = map Some doc).
  { clear Hdoc. induction doc as [|c doc IH].
    - exists []. repeat split; constructor.
    - destruct IH as (inner & E & Hl & Hlt & Hdec);
        [intros; apply Hchars; now right|].
      destruct (encode_known docs c (Hchars c (or_introl eq_refl)))
        as (i & Ei & Hi & Di).
      exists (i :: inner). simpl. rewrite Ei, E, Hl, Di, Hdec.
      repeat split. now constructor. }
  destruct Hinner as (inner & E & Hl & Hlt & Hdec).
  exists inner. unfold tokens. rewrite E.
  split; [reflexivity|]. split; [exact Hl|]. split; [exact Hlt|].
  split; [exact Hdec|]. split.
  - simpl. rewrite length_app. simpl. lia.
  - unfold vocabSize. simpl. constructor; [unfold BOS; lia|].
    apply Forall_app. split.
    + apply Forall_map. eapply Forall_impl; [|exact Hlt].
      simpl. unfold BOS. intros; lia.
    + constructor; [unfold BOS; lia | constructor].
Qed.

Lemma tokens_in_vocabulary_witness :
  exists inner,
    tokens [[5; 3]%nat] [5; 3]%nat =
      Z.of_nat (BOS [[5; 3]%nat]) :: map Z.of_nat inner
        ++ [Z.of_nat (BOS [[5; 3]%nat])] /\
    length inner = length [5; 3]%nat /\
    Forall (fun t => (t < BOS [[5; 3]%nat])%nat) inner /\
    map (decode [[5; 3]%nat]) inner = map Some [5; 3]%nat /\
    (2 <= length (tokens [[5; 3]%nat] [5; 3]%nat))%nat /\
    Forall (fun t => (0 <= t < Z.of_nat (vocabSize [[5; 3]%nat]))%Z)
           (tokens [[5; 3]%nat] [5; 3]%nat).
Proof.
  apply (tokens_in_vocabulary [[5; 3]%nat] [5; 3]%nat).
  simpl. now left.
Defined.

End TokenizerFacts.

(** ** [backward] on a graph that holds gradients already *)

Module BackwardFacts.

Import Invariants Examples.
Import Autograd Graph HeapFacts Traversal Chain Backward.
Local Open Scope R_scope.




End BackwardFacts.

(** ** [save] and [load] *)

Module StorageFacts.

Import Invariants Examples.
Import Autograd Store Pure Models HeapFacts.
Local Open Scope R_scope.

Lemma save_from (h : Heap) : forall params i,
  Forall (fun v => v < length h)%nat params ->
  mapi_from (fun x (_ : nat) => get_data x) params i h =
    Some (data_vec h params, h).
Proof.
  induction params as [|v rest IH]; intros i Hval; [reflexivity|].
  inversion Hval as [|? ? Hv Hval']; subst.
  cbn [mapi_from].
  destruct (nth_error h v) as [n|] eqn:En;
    [|apply nth_error_None in En; lia].
  assert (Eg : get_data v h = Some (data n, h)).
  { apply Operators.get_data_eq. unfold Hoare.data_of. now rewrite En. }
  unfold bind. rewrite Eg, (IH (S i) Hval'). unfold ret. simpl.
  unfold datum at 1. now rewrite En.
Qed.

(** [load] on a file that is long enough: what becomes of every node. *)
Lemma load_from_nodes (floatArray : list R) : forall params i h,
  NoDup params ->
  Forall (fun v => v < length h)%nat params ->
  (i + length params <= length floatArray)%nat ->
  exists h',
    load_from params floatArray i h = Some ([], h') /\
    length h' = length h /\
    (forall j v, nth_error params j = Some v ->
       nth_error h' v =
         option_map (with_data (nth (i + j) floatArray 0)) (nth_error h v)) /\
    (forall w, ~ In w params -> nth_error h' w = nth_error h w).
Proof.
  induction params as [|v rest IH]; intros i h Hnd Hval Hlen.
  - exists h. simpl. repeat split; auto. intros [|j] ? Hj; discriminate.
  - inversion Hnd as [|? ? Hnot Hnd']; subst.
    inversion Hval as [|? ? Hv Hval']; subst.
    simpl in Hlen. cbn [load_from].
    destruct (nth_error floatArray i) as [x|] eqn:Ex;
      [|apply nth_error_None in Ex; lia].
    destruct (nth_error h v) as [n|] eqn:En;
      [|apply nth_error_None in En; lia].
    destruct (update_node_Some h v (with_data x) n En)
      as (h1 & Eu & Hl1 & Hv1 & Hw1).
    destruct (IH (S i) h1 Hnd') as (h' & E' & Hl' & Hd' & Hw').
    { rewrite Hl1. exact Hval'. }
    { lia. }
    exists h'. unfold bind, set_data, modify. rewrite Eu, E'.
    split; [reflexivity|]. split; [congruence|]. split.
    + intros [|j] w Hj; simpl in Hj.
      * injection Hj as <-. rewrite Nat.add_0_r.
        rewrite Hw' by exact Hnot. rewrite Hv1, En. simpl.
        now rewrite (nth_error_nth _ _ 0 Ex).
      * rewrite (Hd' j w Hj).
        replace (S i + j)%nat with (i + S j)%nat by lia.
        rewrite Hw1; [reflexivity|].
        intros ->. apply Hnot. eapply nth_error_In; eauto.
    + intros w Hw. rewrite Hw'.
      * apply Hw1. intros ->. apply Hw. now left.
      * intros Hin. apply Hw. now right.
Qed.

Lemma heap_ext (h h' : Heap) :
  (forall w, nth_error h' w = nth_error h w) -> h' = h.
Proof.
  revert h'. induction h as [|n h IH]; intros [|n' h'] H.
  - reflexivity.
  - specialize (H 0%nat). discriminate.
  - specialize (H 0%nat). discriminate.
  - pose proof (H 0%nat) as H0. simpl in H0. injection H0 as ->.
    f_equal. apply IH. intros w. exact (H (S w)).
Qed.

Lemma with_data_same (n : Node) : with_data (data n) n = n.
Proof. now destruct n. Qed.

(** X7.  [save] followed by [load] is a round trip.  [save] lists the data
    of the parameters and changes nothing.  Loading the saved array leaves
    no parameter undefined; into the heap it was saved from it changes
    nothing; into any heap that holds the parameters it changes the [data]
    fields of the parameters only, and a later [save] gives the same array
    back. *)
Theorem save_load_round_trip (params : list Value) (h : Heap) :
  NoDup params ->
  Forall (fun v => v < length h)%nat params ->
  exists floatArray,
    save params h = Some (floatArray, h) /\
    length floatArray = length params /\
    Llama.load params floatArray h = Some ([], h) /\
    Deepseek.load params floatArray h = Some ([], h) /\
    forall h2, Forall (fun v => v < length h2)%nat params ->
      exists h3,
        Llama.load params floatArray h2 = Some ([], h3) /\
        save params h3 = Some (floatArray, h3) /\
        (forall w, option_map (with_data 0) (nth_error h3 w) =
                   option_map (with_data 0) (nth_error h2 w)) /\
        (forall w, ~ In w params -> nth_error h3 w = nth_error h2 w).
Proof.
  intros Hnd Hval.
  exists (data_vec h params).
  assert (Hlen : length (data_vec h params) = length params)
    by (unfold data_vec; apply length_map).
  assert (Hload : forall h2, Forall (fun v => v < length h2)%nat params ->
            exists h3,
              Llama.load params (data_vec h params) h2 = Some ([], h3) /\
              length h3 = length h2 /\
              (forall j v, nth_error params j = Some v ->
                 nth_error h3 v =
                   option_map (with_data (datum h v)) (nth_error h2 v)) /\
              (forall w, ~ In w params -> nth_error h3 w = nth_error h2 w)).
  { intros h2 Hval2.
    destruct (load_from_nodes (data_vec h params) params 0 h2 Hnd Hval2)
      as (h3 & E & Hl & Hd & Hw); [simpl; lia|].
    exists h3. split; [exact E|]. split; [exact Hl|]. split; [|exact Hw].
    intros j v Hj. rewrite (Hd j v Hj). simpl.
    unfold data_vec.
    rewrite (nth_error_nth _ _ 0 (map_nth_error (datum h) _ _ Hj)).
    reflexivity. }
  assert (Hsame : Llama.load params (data_vec h params) h = Some ([], h)).
  { destruct (Hload h Hval) as (h3 & E & _ & Hd & Hw).
    rewrite E. do 2 f_equal. apply heap_ext. intros w.
    destruct (in_dec Nat.eq_dec w params) as [Hin|Hout]; [|now apply Hw].
    destruct (In_nth_error _ _ Hin) as (j & Hj).
    rewrite (Hd j w Hj). unfold datum.
    destruct (nth_error h w) as [n|]; [|reflexivity].
    simpl. now rewrite with_data_same. }
  split; [apply save_from; exact Hval|]. split; [exact Hlen|].
  split; [exact Hsame|]. split; [exact Hsame|].
  intros h2 Hval2.
  destruct (Hload h2 Hval2) as (h3 & E & Hl & Hd & Hw).
  exists h3. split; [exact E|]. split; [|split; [|exact Hw]].
  - unfold save, mapM, mapiM. rewrite save_from.
    + do 2 f_equal. unfold data_vec. apply map_ext_in. intros v Hin.
      destruct (In_nth_error _ _ Hin) as (j & Hj).
      unfold datum at 1. rewrite (Hd j v Hj).
      rewrite Forall_forall in Hval2. specialize (Hval2 v Hin).
      destruct (nth_error h2 v) as [n|] eqn:En;
        [reflexivity | apply nth_error_None in En; lia].
    + rewrite Hl. exact Hval2.
  - intros w.
    destruct (in_dec Nat.eq_dec w params) as [Hin|Hout];
      [|now rewrite Hw].
    destruct (In_nth_error _ _ Hin) as (j & Hj).
    rewrite (Hd j w Hj). now destruct (nth_error h2 w).
Qed.

Lemma save_load_round_trip_witness :
  exists floatArray,
    save [1; 0]%nat two_numbers = Some (floatArray, two_numbers) /\
    length floatArray = length [1; 0]%nat /\
    Llama.load [1; 0]%nat floatArray two_numbers = Some ([], two_numbers) /\
    Deepseek.load [1; 0]%nat floatArray two_numbers = Some ([], two_numbers) /\
    forall h2, Forall (fun v => v < length h2)%nat [1; 0]%nat ->
      exists h3,
        Llama.load [1; 0]%nat floatArray h2 = Some ([], h3) /\
        save [1; 0]%nat h3 = Some (floatArray, h3) /\
        (forall w, option_map (with_data 0) (nth_error h3 w) =
                   option_map (with_data 0) (nth_error h2 w)) /\
        (forall w, ~ In w [1; 0]%nat -> nth_error h3 w = nth_error h2 w).
Proof.
  apply (save_load_round_trip [1; 0]%nat two_numbers).
  - repeat constructor; simpl; intuition lia.
  - repeat constructor.
Defined.

End StorageFacts.

(** ** The optimizer of [gpt.ts] *)

Module AdamFacts.

Import Invariants Examples.
Import Num Autograd Store Graph Pure Script Notions.
Import HeapFacts Analysis UtilityFacts.
Local Open Scope R_scope.

Lemma nth_store_eq {T} : forall (l : list T) i x d,
  (i < length l)%nat -> nth i (store l i x) d = x.
Proof.
  induction l as [|y l IH]; intros [|i] x d Hi; simpl in *; try lia; auto.
  apply IH. lia.
Qed.

Lemma nth_store_neq {T} : forall (l : list T) i k x d,
  k <> i -> nth k (store l i x) d = nth k l d.
Proof.
  induction l as [|y l IH]; intros [|i] [|k] x d Hne; simpl; auto; try lia.
Qed.

Lemma adam_param_spec (step numSteps : nat) (m v : list R) (p : Value)
  (i : nat) (h : Heap) (n : Node) (mi vi : R) :
  nth_error h p = Some n ->
  nth_error m i = Some mi -> nth_error v i = Some vi ->
  exists h',
    adam_param step numSteps (m, v) p i h =
      Some ((store m i (moment1 mi (grad n)),
             store v i (moment2 vi (grad n))), h') /\
    length h' = length h /\
    nth_error h' p =
      Some (mkNode (updated step numSteps (data n) mi vi (grad n)) 0
                   (_children n) (_localGrads n)) /\
    forall w, w <> p -> nth_error h' w = nth_error h w.
Proof.
  intros En Em Ev.
  assert (Eg : get_grad p h = Some (grad n, h))
    by (unfold get_grad, get_node, bind, ret; now rewrite En).
  assert (Ed : get_data p h = Some (data n, h))
    by (unfold get_data, get_node, bind, ret; now rewrite En).
  destruct (update_node_Some h p
              (with_data (updated step numSteps (data n) mi vi (grad n))) n En)
    as (h1 & Eu1 & Hl1 & Hp1 & Hw1).
  destruct (update_node_Some h1 p (with_grad 0) _ Hp1)
    as (h2 & Eu2 & Hl2 & Hp2 & Hw2).
  exists h2. split; [|split; [congruence|split]].
  - unfold adam_param, idx. rewrite Em, Ev.
    unfold bind, ret.
    rewrite Eg. cbv beta iota. rewrite Eg. cbv beta iota.
    rewrite Ed. cbv beta iota.
    unfold set_data, set_grad, modify.
    rewrite js_pow_square.
    change (data n - _) with (updated step numSteps (data n) mi vi (grad n)).
    rewrite Eu1, Eu2. reflexivity.
  - rewrite Hp2. reflexivity.
  - intros w Hw. rewrite Hw2, Hw1; auto.
Qed.

(** The loop of the update from index [i] on. *)
Lemma adam_from_spec (step numSteps : nat) : forall params i m v h,
  NoDup params ->
  Forall (fun p => p < length h)%nat params ->
  (i + length params <= length m)%nat ->
  (i + length params <= length v)%nat ->
  exists m' v' h',
    reduce_from (adam_param step numSteps) (m, v) params i h =
      Some ((m', v'), h') /\
    length m' = length m /\ length v' = length v /\ length h' = length h /\
    (forall j p, nth_error params j = Some p ->
       exists n, nth_error h p = Some n /\
         nth (i + j) m' 0 = moment1 (nth (i + j) m 0) (grad n) /\
         nth (i + j) v' 0 = moment2 (nth (i + j) v 0) (grad n) /\
         nth_error h' p =
           Some (mkNode (updated step numSteps (data n) (nth (i + j) m 0)
                                 (nth (i + j) v 0) (grad n))
                        0 (_children n) (_localGrads n))) /\
    (forall k, (k < i)%nat -> nth k m' 0 = nth k m 0 /\ nth k v' 0 = nth k v 0) /\
    (forall w, ~ In w params -> nth_error h' w = nth_error h w).
Proof.
  induction params as [|p rest IH]; intros i m v h Hnd Hval Hm Hv.
  - exists m, v, h. simpl. repeat split; auto.
    intros [|j] ? Hj; discriminate.
  - inversion Hnd as [|? ? Hnot Hnd']; subst.
    inversion Hval as [|? ? Hp Hval']; subst.
    simpl in Hm, Hv.
    destruct (nth_error h p) as [n|] eqn:En;
      [|apply nth_error_None in En; lia].
    destruct (nth_error m i) as [mi|] eqn:Em;
      [|apply nth_error_None in Em; lia].
    destruct (nth_error v i) as [vi|] eqn:Ev;
      [|apply nth_error_None in Ev; lia].
    destruct (adam_param_spec step numSteps m v p i h n mi vi En Em Ev)
      as (h1 & E1 & Hl1 & Hp1 & Hw1).
    destruct (IH (S i) (store m i (moment1 mi (grad n)))
                 (store v i (moment2 vi (grad n))) h1 Hnd')
      as (m' & v' & h' & E' & Hlm & Hlv & Hlh & Hpar & Hlow & Hout).
    { rewrite Hl1. exact Hval'. }
    { rewrite store_length. lia. }
    { rewrite store_length. lia. }
    exists m', v', h'.
    split; [cbn [reduce_from]; unfold bind; rewrite E1; exact E'|].
    rewrite store_length in Hlm, Hlv.
    split; [exact Hlm|]. split; [exact Hlv|]. split; [congruence|].
    split; [|split].
    + intros [|j] q Hj; simpl in Hj.
      * injection Hj as <-. exists n. rewrite Nat.add_0_r.
        destruct (Hlow i ltac:(lia)) as [Hmi Hvi].
        rewrite Hmi, Hvi, !nth_store_eq by lia.
        rewrite (nth_error_nth _ _ 0 Em), (nth_error_nth _ _ 0 Ev).
        split; [exact En|]. split; [reflexivity|]. split; [reflexivity|].
        rewrite (Hout p Hnot). exact Hp1.
      * destruct (Hpar j q Hj) as (nq & Enq & Hmq & Hvq & Hhq).
        assert (Hqp : q <> p)
          by (intros ->; apply Hnot; eapply nth_error_In; eauto).
        rewrite (Hw1 q Hqp) in Enq.
        rewrite (nth_store_neq m) in Hmq, Hhq by lia.
        rewrite (nth_store_neq v) in Hvq, Hhq by lia.
        exists nq. replace (i + S j)%nat with (S i + j)%nat by lia.
        split; [exact Enq|]. split; [exact Hmq|]. split; [exact Hvq|].
        exact Hhq.
    + intros k Hk. destruct (Hlow k ltac:(lia)) as [Hmk Hvk].
      rewrite Hmk, Hvk, !nth_store_neq by lia. split; reflexivity.
    + intros w Hw. rewrite Hout.
      * apply Hw1. intros ->. apply Hw. now left.
      * intros Hin. apply Hw. now right.
Qed.







(** X10.  The learning rate follows half a cosine: it is [lr] at step 0,
    decreases strictly from one step to the next, and stays positive and at
    most [lr] at every step of the loop. *)
Theorem lr_t_schedule (numSteps : nat) :
  (0 < numSteps)%nat ->
  lr_t 0 numSteps = lr /\
  (forall step, (step < numSteps)%nat -> 0 < lr_t step numSteps <= lr) /\
  (forall s1 s2, (s1 < s2)%nat -> (s2 <= numSteps)%nat ->
                 lr_t s2 numSteps < lr_t s1 numSteps) /\
  lr_t numSteps numSteps = 0.
Proof.
  intros HN.
  assert (Hn : 0 < INR numSteps) by (apply lt_0_INR; exact HN).
  assert (Hang : forall s, (s <= numSteps)%nat ->
                   0 <= PI * INR s / INR numSteps <= PI).
  { intros s Hs. pose proof PI_RGT_0 as Hpi.
    assert (0 <= INR s) by apply pos_INR.
    assert (INR s <= INR numSteps) by (apply le_INR; exact Hs).
    split.
    - unfold Rdiv. apply Rmult_le_pos.
      + apply Rmult_le_pos; lra.
      + left. now apply Rinv_0_lt_compat.
    - apply (Rmult_le_reg_r (INR numSteps)); [exact Hn|].
      unfold Rdiv. rewrite Rmult_assoc, Rinv_l by lra.
      rewrite Rmult_1_r. apply Rmult_le_compat_l; lra. }
  assert (Hmono : forall s1 s2, (s1 < s2)%nat -> (s2 <= numSteps)%nat ->
                    cos (PI * INR s2 / INR numSteps)
                    < cos (PI * INR s1 / INR numSteps)).
  { intros s1 s2 H12 H2.
    destruct (Hang s1 ltac:(lia)) as [? ?].
    destruct (Hang s2 H2) as [? ?].
    apply cos_decreasing_1; auto.
    assert (INR s1 < INR s2) by (apply lt_INR; exact H12).
    pose proof PI_RGT_0.
    unfold Rdiv. apply Rmult_lt_compat_r; [now apply Rinv_0_lt_compat|].
    apply Rmult_lt_compat_l; lra. }
  assert (Hend : cos (PI * INR numSteps / INR numSteps) = -1).
  { replace (PI * INR numSteps / INR numSteps) with PI by (field; lra).
    apply cos_PI. }
  split; [|split; [|split]].
  - unfold lr_t. change (INR 0) with 0.
    replace (PI * 0 / INR numSteps) with 0 by (unfold Rdiv; ring).
    rewrite cos_0. lra.
  - intros step Hs. unfold lr_t.
    pose proof (COS_bound (PI * INR step / INR numSteps)) as [_ Hc].
    pose proof (Hmono step numSteps Hs (Nat.le_refl _)) as Hlt.
    rewrite Hend in Hlt. unfold lr. lra.
  - intros s1 s2 H12 H2. unfold lr_t.
    pose proof (Hmono s1 s2 H12 H2). unfold lr. lra.
  - unfold lr_t. rewrite Hend. ring.
Qed.

Lemma lr_t_schedule_witness :
  lr_t 0 500 = lr /\
  (forall step, (step < 500)%nat -> 0 < lr_t step 500 <= lr) /\
  (forall s1 s2, (s1 < s2)%nat -> (s2 <= 500)%nat ->
                 lr_t s2 500 < lr_t s1 500) /\
  lr_t 500 500 = 0.
Proof.
  apply (lr_t_schedule 500). lia.
Defined.

End AdamFacts.

(** ** The keys of the parameter store *)

Module KeyFacts.

Import Store Notions.
Local Open Scope string_scope.

Lemma string_of_uint_digits : forall d,
  all_digits (NilEmpty.string_of_uint d) = true.
Proof.
  induction d; simpl; auto.
Qed.

Lemma to_uint_nonnil (n : nat) : Nat.to_uint n <> Decimal.Nil.
Proof.
  rewrite <- (DecimalNat.Unsigned.of_to n) at 1.
  rewrite DecimalNat.Unsigned.to_of.
  apply DecimalFacts.unorm_nonnil.
Qed.

Lemma string_of_nat_eq (n : nat) :
  string_of_nat n = NilEmpty.string_of_uint (Nat.to_uint n).
Proof.
  unfold string_of_nat. pose proof (to_uint_nonnil n) as H.
  destruct (Nat.to_uint n); [contradiction | reflexivity ..].
Qed.

Lemma string_of_nat_digits (n : nat) : all_digits (string_of_nat n) = true.
Proof. rewrite string_of_nat_eq. apply string_of_uint_digits. Qed.

Lemma string_of_nat_inj (n n' : nat) :
  string_of_nat n = string_of_nat n' -> n = n'.
Proof.
  rewrite !string_of_nat_eq. intros H.
  apply DecimalNat.Unsigned.to_uint_inj.
  assert (E : NilEmpty.uint_of_string
                (NilEmpty.string_of_uint (Nat.to_uint n)) =
              NilEmpty.uint_of_string
                (NilEmpty.string_of_uint (Nat.to_uint n')))
    by now rewrite H.
  rewrite !NilEmpty.usu in E. now injection E.
Qed.

(** A string of digits followed by a character that is no digit is read
    back in one way only. *)
Lemma digits_split : forall d1 d2 a1 a2 s1 s2,
  all_digits d1 = true -> all_digits d2 = true ->
  is_digit a1 = false -> is_digit a2 = false ->
  d1 ++ String a1 s1 = d2 ++ String a2 s2 ->
  d1 = d2 /\ a1 = a2 /\ s1 = s2.
Proof.
  induction d1 as [|b1 d1 IH]; intros [|b2 d2] a1 a2 s1 s2 H1 H2 N1 N2 E;
    simpl in *.
  - injection E as -> ->. auto.
  - injection E as -> _. apply andb_prop in H2. destruct H2. congruence.
  - injection E as -> _. apply andb_prop in H1. destruct H1. congruence.
  - injection E as -> E.
    apply andb_prop in H1. apply andb_prop in H2.
    destruct (IH d2 a1 a2 s1 s2) as (-> & -> & ->); tauto.
Qed.

Lemma layer_key_inj (i j : nat) (name name' : string) :
  layer_key i name = layer_key j name' -> i = j /\ name = name'.
Proof.
  unfold layer_key. simpl. intros E. injection E as E.
  apply digits_split in E; auto using string_of_nat_digits.
  destruct E as (E & _ & ->). split; [now apply string_of_nat_inj | reflexivity].
Qed.

Lemma expert_key_layer (i e : nat) (name : string) :
  expert_key i e name =
  layer_key i ("expert" ++ string_of_nat e ++ "_" ++ name).
Proof. reflexivity. Qed.

Lemma expert_key_inj (i j e e' : nat) (name name' : string) :
  expert_key i e name = expert_key j e' name' ->
  i = j /\ e = e' /\ name = name'.
Proof.
  rewrite !expert_key_layer. intros E.
  apply layer_key_inj in E. destruct E as [-> E].
  simpl in E. injection E as E.
  apply digits_split in E; auto using string_of_nat_digits.
  destruct E as (E & _ & ->).
  split; [reflexivity|]. split; [now apply string_of_nat_inj | reflexivity].
Qed.

End KeyFacts.

(** ** The construction of the parameters *)

Module ParameterFacts.

Import Invariants Examples.
Import Num Autograd Store Graph Hoare Pure Shapes Script Models Notions.
Import HeapFacts KeyFacts.
Local Open Scope R_scope.

Lemma bind_ext {A B} (m : M A) (f g : A -> M B) (h : Heap) :
  (forall a h', f a h' = g a h') -> bind m f h = bind m g h.
Proof.
  intros H. unfold bind. destruct (m h) as [[a h']|]; auto.
Qed.

Lemma bind_ret_r {A} (m : M A) (h : Heap) : bind m ret h = m h.
Proof.
  unfold bind, ret. now destruct (m h) as [[a h']|].
Qed.

(** *** [matrix] *)

Lemma row_alloc (f : nat -> R) : forall js i h,
  mapi_from (fun j (_ : nat) => new_Value (f j) [] []) js i h =
  Some (seq (length h) (length js),
        h ++ map (fun j => mkNode (f j) 0 [] []) js).
Proof.
  induction js as [|j js IH]; intros i h.
  - simpl. unfold ret. now rewrite app_nil_r.
  - cbn [mapi_from]. unfold bind, new_Value. rewrite IH. unfold ret.
    rewrite length_app, <- app_assoc. simpl.
    now rewrite Nat.add_1_r.
Qed.

Lemma rows_alloc (g : nat -> nat -> R) (nin : nat) : forall rows i h,
  mapi_from (fun r (_ : nat) =>
               mapM (fun j => new_Value (g r j) [] []) (seq 0 nin)) rows i h =
  Some (rows_at (length h) nin (length rows),
        h ++ flat_map (fun r => map (fun j => mkNode (g r j) 0 [] [])
                                    (seq 0 nin)) rows).
Proof.
  induction rows as [|r rows IH]; intros i h.
  - simpl. unfold ret. now rewrite app_nil_r.
  - cbn [mapi_from]. unfold bind, mapM, mapiM. rewrite row_alloc, IH.
    unfold ret. rewrite length_app, length_map, !length_seq, <- app_assoc.
    reflexivity.
Qed.

Lemma rows_at_length (b nin : nat) : forall n, length (rows_at b nin n) = n.
Proof.
  intros n. revert b. induction n as [|n IH]; intros b; simpl; auto.
Qed.

Lemma rows_at_rows (nin : nat) : forall n b,
  Forall (fun row => length row = nin) (rows_at b nin n).
Proof.
  induction n as [|n IH]; intros b; simpl; constructor; auto.
  apply length_seq.
Qed.

Lemma rows_at_concat (nin : nat) : forall n b,
  concat (rows_at b nin n) = seq b (n * nin).
Proof.
  induction n as [|n IH]; intros b; simpl; auto.
  now rewrite IH, seq_app.
Qed.

Lemma rows_at_range (nin : nat) : forall n b,
  Forall (Forall (fun v => b <= v < b + n * nin)%nat) (rows_at b nin n).
Proof.
  induction n as [|n IH]; intros b; simpl; constructor.
  - apply Forall_forall. intros v Hv. apply in_seq in Hv. lia.
  - eapply Forall_impl; [|apply IH]. simpl. intros row Hrow.
    eapply Forall_impl; [|exact Hrow]. simpl. intros; lia.
Qed.

(** [matrix] allocates [nout * nin] leaves and lists them row by row. *)
Lemma matrix_alloc (nout nin : nat) (std : R) (random : nat -> R) (k : nat)
  (h : Heap) :
  matrix nout nin std random k h =
    Some (rows_at (length h) nin nout,
          h ++ matrix_nodes nout nin std random k).
Proof.
  unfold matrix, mapM at 1, mapiM.
  rewrite (rows_alloc
             (fun i j => randn 0 std (random (k + 2 * (i * nin + j))%nat)
                               (random (S (k + 2 * (i * nin + j)))))).
  rewrite length_seq. reflexivity.
Qed.

Lemma matrix_nodes_length (nout nin : nat) (std : R) (random : nat -> R)
  (k : nat) :
  length (matrix_nodes nout nin std random k) = (nout * nin)%nat.
Proof.
  unfold matrix_nodes.
  assert (G : forall (f : nat -> nat -> Node) (rows : list nat),
            length (flat_map (fun i => map (f i) (seq 0 nin)) rows) =
            (length rows * nin)%nat).
  { intros f. induction rows as [|r rows IH]; simpl; auto.
    now rewrite length_app, length_map, length_seq, IH. }
  rewrite (G (fun i j => mkNode _ 0 [] [])). now rewrite length_seq.
Qed.

Lemma matrix_nodes_leaves (nout nin : nat) (std : R) (random : nat -> R)
  (k : nat) :
  Forall (fun n => leaf0 n /\ exists r1 r2, data n = randn 0 std r1 r2)
         (matrix_nodes nout nin std random k).
Proof.
  unfold matrix_nodes. apply Forall_forall. intros n Hn.
  apply in_flat_map in Hn. destruct Hn as (r & _ & Hn).
  apply in_map_iff in Hn. destruct Hn as (j & <- & _).
  split; [repeat split|]. simpl. eauto.
Qed.

(** *** The object [state] *)

Lemma assign_fresh : forall state key w,
  ~ In key (map fst state) -> assign state key w = state ++ [(key, w)].
Proof.
  induction state as [|[k x] state IH]; intros key w H; simpl in *; auto.
  destruct (String.eqb_spec k key) as [->|Hne]; [tauto|].
  rewrite IH; auto.
Qed.

Lemma state_of_In : forall state key w,
  NoDup (map fst state) -> In (key, w) state -> state_of state key = Some w.
Proof.
  unfold state_of.
  induction state as [|[k x] state IH]; intros key w Hnd Hin; [contradiction|].
  simpl in *. inversion Hnd as [|? ? Hk Hnd']; subst.
  destruct (String.eqb_spec k key) as [->|Hne].
  - destruct Hin as [E|Hin]; [now injection E as -> |].
    exfalso. apply Hk. change key with (fst (key, w)). now apply in_map.
  - destruct Hin as [E|Hin]; [congruence|]. now apply IH.
Qed.

Lemma flatten_cons (e : string * list (list Value)) state :
  flatten (e :: state) = concat (snd e) ++ flatten state.
Proof. unfold flatten. simpl. now rewrite concat_app. Qed.

Lemma entry_ok_app (h t : Heap) e s : entry_ok h e s -> entry_ok (h ++ t) e s.
Proof.
  intros (Hk & Hr & Hc & Hn). repeat split; auto.
  eapply Forall_impl; [|exact Hn]. simpl. intros row Hrow.
  eapply Forall_impl; [|exact Hrow]. simpl.
  intros v (n & En & Hleaf). exists n. split; [|exact Hleaf].
  rewrite nth_error_app1; [exact En|]. apply nth_error_Some. congruence.
Qed.

Lemma define_fresh (random : nat -> R) (key : string) (nout nin : nat)
  (std : R) state (k : nat) (h : Heap) :
  ~ In key (map fst state) ->
  define random key nout nin std (state, k) h =
    Some ((state ++ [(key, rows_at (length h) nin nout)],
           (k + 2 * (nout * nin))%nat),
          h ++ matrix_nodes nout nin std random k).
Proof.
  intros Hk. unfold define, bind. rewrite matrix_alloc. unfold ret.
  now rewrite assign_fresh.
Qed.

Lemma new_entry_ok (random : nat -> R) (key : string) (nout nin : nat)
  (std : R) (k : nat) (h : Heap) :
  entry_ok (h ++ matrix_nodes nout nin std random k)
           (key, rows_at (length h) nin nout) (key, nout, nin, std).
Proof.
  split; [reflexivity|]. split; [apply rows_at_length|].
  split; [apply rows_at_rows|].
  eapply Forall_impl; [|apply rows_at_range]. simpl. intros row Hrow.
  eapply Forall_impl; [|exact Hrow]. simpl. intros v Hv.
  pose proof (matrix_nodes_length nout nin std random k) as Hl.
  destruct (nth_error (matrix_nodes nout nin std random k) (v - length h))
    as [n|] eqn:En; [|apply nth_error_None in En; lia].
  exists n. split.
  - rewrite nth_error_app2 by lia. exact En.
  - pose proof (matrix_nodes_leaves nout nin std random k) as Hall.
    rewrite Forall_forall in Hall. apply Hall. eapply nth_error_In; eauto.
Qed.

(** A sequence of statements with distinct new keys appends one entry per
    statement and allocates the parameters one after the other. *)
Lemma defines_spec (random : nat -> R) : forall specs state k h,
  NoDup (map fst state ++ map key_of specs) ->
  exists added t,
    defines random specs (state, k) h =
      Some ((state ++ added, (k + 2 * size_of specs)%nat), h ++ t) /\
    length t = size_of specs /\
    Forall leaf0 t /\
    flatten added = seq (length h) (size_of specs) /\
    Forall2 (entry_ok (h ++ t)) added specs.
Proof.
  induction specs as [|s rest IH]; intros state k h Hnd.
  - exists [], []. simpl. unfold ret. rewrite !app_nil_r, Nat.add_0_r.
    repeat split; constructor.
  - destruct s as [[[key nout] nin] std].
    simpl in Hnd.
    assert (Hfresh : ~ In key (map fst state)).
    { intros Hin. apply NoDup_remove_2 in Hnd. apply Hnd.
      apply in_or_app. now left. }
    assert (Hnd' : NoDup (map fst (state ++ [(key, rows_at (length h) nin nout)])
                          ++ map key_of rest)).
    { rewrite map_app, <- app_assoc. exact Hnd. }
    destruct (IH _ (k + 2 * (nout * nin))%nat
                 (h ++ matrix_nodes nout nin std random k) Hnd')
      as (added & t & E & Hlen & Hleaf & Hflat & Hall).
    exists ((key, rows_at (length h) nin nout) :: added),
           (matrix_nodes nout nin std random k ++ t).
    pose proof (matrix_nodes_length nout nin std random k) as Hl.
    split; [|split; [|split; [|split]]].
    + cbn [defines key_of nout_of nin_of std_of fst snd].
      unfold bind. rewrite (define_fresh random key nout nin std state k h Hfresh).
      rewrite E. rewrite <- !app_assoc.
      change (size_of ((key, nout, nin, std) :: rest))
        with (nout * nin + size_of rest)%nat.
      do 3 f_equal. lia.
    + rewrite length_app, Hlen, Hl. reflexivity.
    + apply Forall_app. split; [|exact Hleaf].
      eapply Forall_impl; [|apply matrix_nodes_leaves]. simpl. tauto.
    + rewrite flatten_cons, Hflat. simpl snd.
      rewrite rows_at_concat, length_app, Hl.
      change (size_of ((key, nout, nin, std) :: rest))
        with (nout * nin + size_of rest)%nat.
      now rewrite seq_app.
    + rewrite app_assoc. constructor; [|exact Hall].
      apply entry_ok_app, new_entry_ok.
Qed.

Lemma built_lookup (h : Heap) : forall state specs,
  Forall2 (entry_ok h) state specs ->
  NoDup (map key_of specs) ->
  forall s, In s specs ->
    exists w, state_of state (key_of s) = Some w /\ entry_ok h (key_of s, w) s.
Proof.
  intros state specs Hall Hnd s Hs.
  assert (Hkeys : map fst state = map key_of specs).
  { clear Hnd Hs. induction Hall as [|e s' state specs He _ IH]; simpl; auto.
    destruct He as [-> _]. now rewrite IH. }
  assert (Hex : exists e, In e state /\ entry_ok h e s).
  { clear Hnd Hkeys. induction Hall as [|e s' state specs He _ IH].
    - contradiction.
    - destruct Hs as [->|Hs].
      + exists e. split; [now left | exact He].
      + destruct (IH Hs) as (e' & Hin & Hok). exists e'. split; [now right|auto]. }
  destruct Hex as ([key w] & Hin & Hok).
  assert (key = key_of s) by (destruct Hok as [Hk _]; exact Hk). subst key.
  exists w. split; [|exact Hok].
  apply state_of_In; [|exact Hin]. now rewrite Hkeys.
Qed.

Lemma entry_has_matrix (h : Heap) state specs (s : string * nat * nat * R) :
  Forall2 (entry_ok h) state specs ->
  NoDup (map key_of specs) ->
  In s specs ->
  has_matrix h (state_of state) (key_of s) (nout_of s) (nin_of s).
Proof.
  intros Hall Hnd Hs.
  destruct (built_lookup h state specs Hall Hnd s Hs)
    as (w & Ew & _ & Hr & Hc & Hn).
  simpl in Hr, Hc, Hn.
  exists w. split; [exact Ew|]. split; [exact Hr|].
  rewrite Forall_forall in *. intros row Hrow. split; [now apply Hc|].
  specialize (Hn row Hrow). eapply Forall_impl; [|exact Hn]. simpl.
  intros v (n & En & _). apply nth_error_Some. congruence.
Qed.

(** *** The constructions are sequences of statements *)

Lemma defines_app (random : nat -> R) : forall a b st h,
  defines random (a ++ b) st h =
  bind (defines random a st) (defines random b) h.
Proof.
  induction a as [|s a IH]; intros b st h.
  - reflexivity.
  - cbn [app defines]. unfold bind.
    destruct (define random (key_of s) (nout_of s) (nin_of s) (std_of s) st h)
      as [[st1 h1]|]; [|reflexivity].
    apply IH.
Qed.

Lemma for_from_defines (random : nat -> R)
  (body : nat -> list (string * list (list Value)) * nat ->
          M (list (string * list (list Value)) * nat))
  (specs : nat -> list (string * nat * nat * R)) :
  (forall i st h, body i st h = defines random (specs i) st h) ->
  forall n lo st h,
    for_from n lo body st h =
    defines random (concat (map specs (seq lo n))) st h.
Proof.
  intros Hbody. induction n as [|n IH]; intros lo st h.
  - reflexivity.
  - cbn [for_from seq map concat]. rewrite defines_app.
    unfold bind. rewrite Hbody.
    destruct (defines random (specs lo) st h) as [[st1 h1]|]; [|reflexivity].
    apply IH.
Qed.

Ltac statements :=
  cbv zeta; cbn [defines key_of nout_of nin_of std_of fst snd app];
  repeat (apply bind_ext; intros; cbv beta);
  try (symmetry; apply bind_ret_r).

Lemma layer_parameters_defines (c : GPT.Config) (random : nat -> R) (i : nat)
  st (h : Heap) :
  layer_parameters c random i st h = defines random (gpt_layer_specs c i) st h.
Proof. unfold layer_parameters, gpt_layer_specs. statements. Qed.

Lemma llama_layer_defines (c : Llama.LlamaConfig) (random : nat -> R)
  (i : nat) st (h : Heap) :
  llama_layer c random i st h = defines random (llama_layer_specs c i) st h.
Proof. unfold llama_layer, llama_layer_specs. statements. Qed.

Lemma deepseek_expert_defines (c : Deepseek.DeepseekConfig)
  (random : nat -> R) (i e : nat) st (h : Heap) :
  deepseek_expert c random i e st h =
  defines random (deepseek_expert_specs c i e) st h.
Proof. unfold deepseek_expert, deepseek_expert_specs. statements. Qed.

Lemma deepseek_layer_defines (c : Deepseek.DeepseekConfig)
  (random : nat -> R) (i : nat) st (h : Heap) :
  deepseek_layer c random i st h =
  defines random (deepseek_layer_specs c i) st h.
Proof.
  unfold deepseek_layer, deepseek_layer_specs. rewrite defines_app.
  cbv zeta. cbn [defines key_of nout_of nin_of std_of fst snd].
  unfold bind.
  repeat match goal with
         | |- context [define ?r ?k ?a ?b ?s ?x ?y] =>
           destruct (define r k a b s x y) as [[? ?]|]; [|reflexivity]
         end.
  unfold ret, for_range. apply for_from_defines.
  apply deepseek_expert_defines.
Qed.

(** The result of a construction, from the result of its statements. *)
Lemma construction (random : nat -> R) (specs : list (string * nat * nat * R))
  (m : M (list (string * list (list Value)) * list Value)) (h : Heap) :
  (forall h0,
     m h0 = bind (defines random specs ([], 0%nat))
                 (fun st => ret (fst st, flatten (fst st))) h0) ->
  NoDup (map key_of specs) ->
  exists state t,
    m h = Some ((state, seq (length h) (length t)), h ++ t) /\
    length t = size_of specs /\
    Forall leaf0 t /\
    NoDup (map fst state) /\
    Forall2 (entry_ok (h ++ t)) state specs /\
    flatten state = seq (length h) (length t).
Proof.
  intros Hm Hnd.
  destruct (defines_spec random specs [] 0%nat h Hnd)
    as (state & t & E & Hlen & Hleaf & Hflat & Hall).
  exists state, t.
  split; [|split; [exact Hlen|split; [exact Hleaf|split; [|split]]]].
  - rewrite Hm. unfold bind. rewrite E. unfold ret. simpl.
    now rewrite Hflat, Hlen.
  - assert (Hkeys : map fst state = map key_of specs).
    { clear - Hall. induction Hall as [|e s ? ? He _ IH]; simpl; auto.
      destruct He as [-> _]. now rewrite IH. }
    now rewrite Hkeys.
  - exact Hall.
  - now rewrite Hflat, Hlen.
Qed.

Lemma wf_heap_leaves (h t : Heap) :
  wf_heap h -> Forall leaf0 t -> wf_heap (h ++ t).
Proof.
  intros Hwf Hleaf i n Hi.
  destruct (Nat.lt_ge_cases i (length h)) as [Hlt|Hge].
  - rewrite nth_error_app1 in Hi by exact Hlt. now apply Hwf.
  - rewrite nth_error_app2 in Hi by exact Hge.
    rewrite Forall_forall in Hleaf.
    destruct (Hleaf n (nth_error_In _ _ Hi)) as (_ & Hc & Hl).
    split; rewrite Hc; [constructor | now rewrite Hl].
Qed.

(** *** The keys are distinct *)

Lemma NoDup_map_inj {A B} (f : A -> B) (l : list A) :
  (forall x y, f x = f y -> x = y) -> NoDup l -> NoDup (map f l).
Proof.
  intros Hinj. induction 1 as [|x l Hx _ IH]; simpl; constructor; auto.
  intros Hin. apply in_map_iff in Hin. destruct Hin as (y & E & Hy).
  apply Hinj in E. now subst.
Qed.

Lemma indexed_In (f : nat -> string -> string) (names : nat -> list string)
  (key : string) : forall n lo,
  In key (concat (map (fun i => map (f i) (names i)) (seq lo n))) ->
  exists i name, (lo <= i < lo + n)%nat /\ In name (names i) /\ key = f i name.
Proof.
  intros n lo Hin. apply in_concat in Hin. destruct Hin as (l & Hl & Hin).
  apply in_map_iff in Hl. destruct Hl as (i & <- & Hi).
  apply in_map_iff in Hin. destruct Hin as (name & <- & Hname).
  apply in_seq in Hi. eauto.
Qed.

Lemma indexed_NoDup (f : nat -> string -> string) (names : nat -> list string) :
  (forall i j a b, f i a = f j b -> i = j /\ a = b) ->
  (forall i, NoDup (names i)) ->
  forall n lo,
    NoDup (concat (map (fun i => map (f i) (names i)) (seq lo n))).
Proof.
  intros Hinj Hnames. induction n as [|n IH]; intros lo; simpl.
  - constructor.
  - apply NoDup_app.
    + apply NoDup_map_inj; [|apply Hnames].
      intros a b E. now apply Hinj in E.
    + apply IH.
    + intros key H1 H2.
      apply in_map_iff in H1. destruct H1 as (a & <- & _).
      apply indexed_In in H2. destruct H2 as (j & b & Hj & _ & E).
      apply Hinj in E. lia.
Qed.



Ltac run_statements :=
  unfold bind; cbv zeta;
  cbn [app defines key_of nout_of nin_of std_of fst snd]; unfold bind;
  repeat match goal with
         | |- context [define ?r ?k ?a ?b ?s ?x ?y] =>
           destruct (define r k a b s x y) as [[? ?]|]; [|reflexivity]
         end;
  unfold for_range.

Lemma parameters_defines (c : GPT.Config) (vocabSize : nat)
  (random : nat -> R) (h0 : Heap) :
  parameters c vocabSize random h0 =
  bind (defines random (gpt_specs c vocabSize) ([], 0%nat))
       (fun st => ret (fst st, flatten (fst st))) h0.
Proof.
  unfold parameters, gpt_specs. run_statements.
  now rewrite (for_from_defines random _ (gpt_layer_specs c)
                 (layer_parameters_defines c random)).
Qed.

Lemma new_Llama_defines (c : Llama.LlamaConfig) (vocabSize : nat)
  (random : nat -> R) (h0 : Heap) :
  new_Llama c vocabSize random h0 =
  bind (defines random (llama_specs c vocabSize) ([], 0%nat))
       (fun st => ret (fst st, flatten (fst st))) h0.
Proof.
  unfold new_Llama, llama_specs. run_statements.
  now rewrite (for_from_defines random _ (llama_layer_specs c)
                 (llama_layer_defines c random)).
Qed.

Lemma new_Deepseek_defines (c : Deepseek.DeepseekConfig) (vocabSize : nat)
  (random : nat -> R) (h0 : Heap) :
  new_Deepseek c vocabSize random h0 =
  bind (defines random (deepseek_specs c vocabSize) ([], 0%nat))
       (fun st => ret (fst st, flatten (fst st))) h0.
Proof.
  unfold new_Deepseek, deepseek_specs. run_statements.
  now rewrite (for_from_defines random _ (deepseek_layer_specs c)
                 (deepseek_layer_defines c random)).
Qed.

Local Open Scope string_scope.

Ltac distinct_names :=
  repeat (constructor; [simpl; intuition discriminate|]); constructor.

Lemma base_not_indexed (f : nat -> string -> string) (key : string)
  (names : nat -> list string) (n lo : nat) :
  (forall i name, key <> f i name) ->
  ~ In key (concat (map (fun i => map (f i) (names i)) (seq lo n))).
Proof.
  intros Hne Hin. apply indexed_In in Hin.
  destruct Hin as (i & name & _ & _ & E). exact (Hne i name E).
Qed.

Ltac distinct_keys names :=
  cbv zeta; rewrite map_app, concat_map, map_map;
  apply NoDup_app;
  [ simpl; distinct_names
  | apply (indexed_NoDup layer_key names); [apply layer_key_inj|]
  | let key := fresh "key" in
    let Hbase := fresh "Hbase" in
    intros key Hbase; apply (base_not_indexed layer_key key names);
    intros i name; simpl in Hbase;
    repeat (destruct Hbase as [<-|Hbase];
            [unfold layer_key; simpl; discriminate|]);
    destruct Hbase ].

Lemma gpt_keys (c : GPT.Config) (vocabSize : nat) :
  NoDup (map key_of (gpt_specs c vocabSize)).
Proof.
  unfold gpt_specs.
  distinct_keys (fun _ : nat => ["attn_wq"; "attn_wk"; "attn_wv"; "attn_wo";
                                 "mlp_fc1"; "mlp_fc2"]).
  intros _. distinct_names.
Qed.

Lemma llama_keys (c : Llama.LlamaConfig) (vocabSize : nat) :
  NoDup (map key_of (llama_specs c vocabSize)).
Proof.
  unfold llama_specs.
  distinct_keys (fun _ : nat => ["attn_wq"; "attn_wk"; "attn_wv"; "attn_wo";
                                 "ffn_gate"; "ffn_up"; "ffn_down"]).
  intros _. distinct_names.
Qed.

Lemma expert_name_inj (e e' : nat) (name name' : string) :
  expert_name e name = expert_name e' name' -> e = e' /\ name = name'.
Proof.
  unfold expert_name. simpl. intros E. injection E as E.
  apply digits_split in E; auto using string_of_nat_digits.
  destruct E as (E & _ & ->). split; [now apply string_of_nat_inj | reflexivity].
Qed.

Lemma deepseek_names_NoDup (n_experts : nat) : NoDup (deepseek_names n_experts).
Proof.
  unfold deepseek_names. apply NoDup_app.
  - distinct_names.
  - apply (indexed_NoDup expert_name (fun _ => ["gate"; "up"; "down"]));
      [apply expert_name_inj | intros _; distinct_names].
  - intros key Hbase.
    apply (base_not_indexed expert_name key (fun _ => ["gate"; "up"; "down"])).
    intros e name. simpl in Hbase.
    repeat (destruct Hbase as [<-|Hbase];
            [unfold expert_name; simpl; discriminate|]).
    destruct Hbase.
Qed.

Lemma deepseek_layer_keys (c : Deepseek.DeepseekConfig) (i : nat) :
  map key_of (deepseek_layer_specs c i) =
  map (layer_key i) (deepseek_names (Deepseek.n_experts c)).
Proof.
  unfold deepseek_layer_specs, deepseek_names. cbv zeta.
  rewrite !map_app, !concat_map, !map_map.
  apply f_equal2; [reflexivity|]. apply f_equal.
  apply map_ext. intros e. reflexivity.
Qed.

Lemma deepseek_keys (c : Deepseek.DeepseekConfig) (vocabSize : nat) :
  NoDup (map key_of (deepseek_specs c vocabSize)).
Proof.
  unfold deepseek_specs. cbv zeta. rewrite map_app, concat_map, map_map.
  rewrite (map_ext _ _ (deepseek_layer_keys c)).
  apply NoDup_app.
  - simpl. distinct_names.
  - apply (indexed_NoDup layer_key
             (fun _ => deepseek_names (Deepseek.n_experts c)));
      [apply layer_key_inj | intros _; apply deepseek_names_NoDup].
  - intros key Hbase.
    apply (base_not_indexed layer_key key
             (fun _ => deepseek_names (Deepseek.n_experts c))).
    intros i name. simpl in Hbase.
    repeat (destruct Hbase as [<-|Hbase];
            [unfold layer_key; simpl; discriminate|]).
    destruct Hbase.
Qed.

(** *** The three constructions *)

Local Close Scope string_scope.

Ltac in_layer f li :=
  apply in_or_app; right; apply in_concat; exists (f li);
  split; [apply in_map, in_seq; lia | simpl; tauto].

Ltac stored_as Hall Hnd s :=
  refine (entry_has_matrix _ _ _ s Hall Hnd _).


(** The entries that the constructor of [Llama] makes have the shapes that
    [forward] relies on. *)
Lemma llama_entries_shaped (c : Llama.LlamaConfig) (vocabSize : nat) state
  (h : Heap) :
  Forall2 (entry_ok h) state (llama_specs c vocabSize) ->
  Llama.n_embd c = (Llama.n_head c * Llama.head_dim c)%nat ->
  Llama.n_head c = (Llama.n_rep c * Llama.n_kv_head c)%nat ->
  (0 < Llama.n_kv_head c)%nat -> (0 < Llama.n_rep c)%nat ->
  (0 < Llama.head_dim c)%nat -> Nat.Even (Llama.head_dim c) ->
  llama_shaped h c (state_of state) vocabSize.
Proof.
  intros Hall H1 H2 H3 H4 H5 H6.
  pose proof (llama_keys c vocabSize) as Hnd.
  do 6 (split; [assumption|]).
  split; [stored_as Hall Hnd ("wte"%string, vocabSize, Llama.n_embd c, 0.02);
          unfold llama_specs; simpl; tauto|].
  split; [stored_as Hall Hnd ("lm_head"%string, vocabSize, Llama.n_embd c, 0.02);
          unfold llama_specs; simpl; tauto|].
  intros li Hli.
  split; [stored_as Hall Hnd (layer_key li "attn_wq"%string, Llama.n_embd c,
                              Llama.n_embd c, 0.02);
          in_layer (llama_layer_specs c) li|].
  split; [stored_as Hall Hnd (layer_key li "attn_wk"%string,
                              (Llama.n_kv_head c * Llama.head_dim c)%nat,
                              Llama.n_embd c, 0.02);
          in_layer (llama_layer_specs c) li|].
  split; [stored_as Hall Hnd (layer_key li "attn_wv"%string,
                              (Llama.n_kv_head c * Llama.head_dim c)%nat,
                              Llama.n_embd c, 0.02);
          in_layer (llama_layer_specs c) li|].
  split; [stored_as Hall Hnd (layer_key li "attn_wo"%string, Llama.n_embd c,
                              Llama.n_embd c, 0.02);
          in_layer (llama_layer_specs c) li|].
  split; [stored_as Hall Hnd (layer_key li "ffn_gate"%string,
                              (4 * Llama.n_embd c)%nat, Llama.n_embd c, 0.02);
          in_layer (llama_layer_specs c) li|].
  split; [stored_as Hall Hnd (layer_key li "ffn_up"%string,
                              (4 * Llama.n_embd c)%nat, Llama.n_embd c, 0.02);
          in_layer (llama_layer_specs c) li|].
  stored_as Hall Hnd (layer_key li "ffn_down"%string, Llama.n_embd c,
                      (4 * Llama.n_embd c)%nat, 0.02).
  in_layer (llama_layer_specs c) li.
Qed.




Ltac in_expert c li e :=
  apply in_or_app; right; apply in_concat; exists (deepseek_layer_specs c li);
  split; [apply in_map, in_seq; lia|];
  unfold deepseek_layer_specs; apply in_or_app; right; apply in_concat;
  exists (deepseek_expert_specs c li e);
  split; [apply in_map, in_seq; lia | simpl; tauto].

(** The entries that the constructor of [Deepseek] makes have the shapes
    that [forward] relies on. *)
Lemma deepseek_entries_shaped (c : Deepseek.DeepseekConfig) (vocabSize : nat)
  state (h : Heap) :
  Forall2 (entry_ok h) state (deepseek_specs c vocabSize) ->
  Deepseek.n_embd c = (Deepseek.n_head c * Deepseek.head_dim c)%nat ->
  (2 <= Deepseek.n_head c)%nat ->
  (0 < Deepseek.head_dim c)%nat -> Nat.Even (Deepseek.head_dim c) ->
  (0 < Deepseek.n_experts c)%nat ->
  deepseek_shaped h c (state_of state) vocabSize.
Proof.
  intros Hall H1 H2 H3 H4 H5.
  pose proof (deepseek_keys c vocabSize) as Hnd.
  do 5 (split; [assumption|]).
  split; [stored_as Hall Hnd ("wte"%string, vocabSize, Deepseek.n_embd c, 0.02);
          unfold deepseek_specs; simpl; tauto|].
  split; [stored_as Hall Hnd ("lm_head"%string, vocabSize, Deepseek.n_embd c,
                              0.02);
          unfold deepseek_specs; simpl; tauto|].
  intros li Hli.
  split; [stored_as Hall Hnd (layer_key li "attn_wq"%string,
                              Deepseek.n_embd c, Deepseek.n_embd c, 0.02);
          in_layer (deepseek_layer_specs c) li|].
  split; [stored_as Hall Hnd (layer_key li "attn_compress_kv"%string,
                              Deepseek.latent_dim c, Deepseek.n_embd c, 0.02);
          in_layer (deepseek_layer_specs c) li|].
  split; [stored_as Hall Hnd (layer_key li "attn_wkv"%string,
                              Deepseek.n_embd c, Deepseek.latent_dim c, 0.02);
          in_layer (deepseek_layer_specs c) li|].
  split; [stored_as Hall Hnd (layer_key li "attn_wo"%string,
                              Deepseek.n_embd c, Deepseek.n_embd c, 0.02);
          in_layer (deepseek_layer_specs c) li|].
  split; [stored_as Hall Hnd (layer_key li "router"%string,
                              Deepseek.n_experts c, Deepseek.n_embd c, 0.02);
          in_layer (deepseek_layer_specs c) li|].
  intros e He.
  split; [stored_as Hall Hnd (expert_key li e "gate"%string,
                              (4 * Deepseek.n_embd c)%nat, Deepseek.n_embd c,
                              0.02);
          in_expert c li e|].
  split; [stored_as Hall Hnd (expert_key li e "up"%string,
                              (4 * Deepseek.n_embd c)%nat, Deepseek.n_embd c,
                              0.02);
          in_expert c li e|].
  stored_as Hall Hnd (expert_key li e "down"%string, Deepseek.n_embd c,
                      (4 * Deepseek.n_embd c)%nat, 0.02).
  in_expert c li e.
Qed.





(** The entries that the statements of [gpt.ts] make have the shapes that
    [gpt] relies on. *)
Lemma gpt_entries_shaped (c : GPT.Config) (vocabSize : nat) state (h : Heap) :
  Forall2 (entry_ok h) state (gpt_specs c vocabSize) ->
  GPT.n_embd c = (GPT.n_head c * GPT.head_dim c)%nat ->
  (0 < GPT.n_head c)%nat -> (0 < GPT.head_dim c)%nat ->
  gpt_shaped h c (state_of state) vocabSize.
Proof.
  intros Hall H1 H2 H3.
  pose proof (gpt_keys c vocabSize) as Hnd.
  do 3 (split; [assumption|]).
  split; [stored_as Hall Hnd ("wte"%string, vocabSize, GPT.n_embd c, 0.02);
          unfold gpt_specs; simpl; tauto|].
  split; [stored_as Hall Hnd ("wpe"%string, GPT.block_size c, GPT.n_embd c,
                              0.02);
          unfold gpt_specs; simpl; tauto|].
  split; [stored_as Hall Hnd ("lm_head"%string, vocabSize, GPT.n_embd c, 0.02);
          unfold gpt_specs; simpl; tauto|].
  intros li Hli.
  split; [stored_as Hall Hnd (layer_key li "attn_wq"%string, GPT.n_embd c,
                              GPT.n_embd c, 0.02);
          in_layer (gpt_layer_specs c) li|].
  split; [stored_as Hall Hnd (layer_key li "attn_wk"%string, GPT.n_embd c,
                              GPT.n_embd c, 0.02);
          in_layer (gpt_layer_specs c) li|].
  split; [stored_as Hall Hnd (layer_key li "attn_wv"%string, GPT.n_embd c,
                              GPT.n_embd c, 0.02);
          in_layer (gpt_layer_specs c) li|].
  split; [stored_as Hall Hnd (layer_key li "attn_wo"%string, GPT.n_embd c,
                              GPT.n_embd c, 0);
          in_layer (gpt_layer_specs c) li|].
  split; [stored_as Hall Hnd (layer_key li "mlp_fc1"%string,
                              (4 * GPT.n_embd c)%nat, GPT.n_embd c, 0.02);
          in_layer (gpt_layer_specs c) li|].
  stored_as Hall Hnd (layer_key li "mlp_fc2"%string, GPT.n_embd c,
                      (4 * GPT.n_embd c)%nat, 0).
  in_layer (gpt_layer_specs c) li.
Qed.

(** Every entry of the object consists of entries of [params]. *)
Lemma state_of_flatten state (key : string) (w : list (list Value)) :
  state_of state key = Some w ->
  Forall (Forall (fun v => In v (flatten state))) w.
Proof.
  unfold state_of. intros E.
  destruct (find _ state) as [[k w']|] eqn:Ef; [|discriminate].
  simpl in E. injection E as ->.
  apply find_some in Ef. destruct Ef as [Hin _].
  apply Forall_forall. intros row Hrow.
  apply Forall_forall. intros v Hv.
  unfold flatten. apply in_concat. exists row. split; [|exact Hv].
  apply in_concat. exists w. split; [|exact Hrow].
  change w with (snd (k, w)). now apply in_map.
Qed.

(** What a constructor leaves is ready for a step of training. *)
Lemma entries_stored state (h t : Heap) :
  wf_heap h -> Forall leaf0 t ->
  flatten state = seq (length h) (length t) ->
  stored (state_of state) (seq (length h) (length t)) (h ++ t).
Proof.
  intros Hwf Hleaf Hflat.
  split; [now apply wf_heap_leaves|]. split; [apply seq_NoDup|]. split.
  - intros k w Ew. rewrite <- Hflat. now apply (state_of_flatten state k).
  - intros p Hp. apply in_seq in Hp.
    rewrite nth_error_app2 by lia.
    destruct (nth_error t (p - length h)) as [n|] eqn:En;
      [|apply nth_error_None in En; lia].
    exists n. split; [reflexivity|].
    rewrite Forall_forall in Hleaf. eapply Hleaf, nth_error_In; eauto.
Qed.



End ParameterFacts.

(** ** What [forward] accepts and what it rejects *)

Module ForwardFacts.

Import Invariants Examples.
Import Num Autograd Store Ops Hoare Pure Shapes Driver.
Import HeapFacts HoareFacts ShapeFacts.
Local Open Scope R_scope.

Lemma mapi_from_fails {A B} (f : A -> nat -> M B) (x : A) (xs : list A)
  (i : nat) (h : Heap) :
  f x i h = None -> mapi_from f (x :: xs) i h = None.
Proof.
  intros E. cbn [mapi_from]. unfold bind. now rewrite E.
Qed.

(** X14.  [gpt] checks no index, yet a token that is no row of [wte] and a
    position that is no row of [wpe] both end the call with a [TypeError]:
    the position is bounded by [block_size], the token by the size of the
    vocabulary. *)
Theorem gpt_rejects_out_of_range (c : GPT.Config) (state : State)
  (vocab tokenId posId : nat) (keys values : GPT.Cache) (h : Heap) :
  gpt_shaped h c state vocab ->
  (vocab <= tokenId)%nat \/ (GPT.block_size c <= posId)%nat ->
  GPT.gpt c state tokenId posId keys values h = None.
Proof.
  intros (Hn & Hh & Hd & (wte & Ewte & Hwl & Hwte) & (wpe & Ewpe & Hpl & _) & _)
         Hout.
  unfold GPT.gpt, lookup. rewrite Ewte. unfold defined, bind at 1, ret at 1.
  unfold idx.
  destruct (nth_error wte tokenId) as [row|] eqn:Erow; [|reflexivity].
  assert (Htok : (tokenId < vocab)%nat)
    by (rewrite <- Hwl; apply nth_error_Some; congruence).
  destruct Hout as [Hout|Hout]; [lia|].
  unfold bind at 1, ret at 1.
  assert (Hrow : length row = GPT.n_embd c).
  { rewrite Forall_forall in Hwte.
    destruct (Hwte row (nth_error_In _ _ Erow)) as [Hl _]. exact Hl. }
  destruct row as [|t row]; [simpl in Hrow; nia|].
  unfold bind at 1, mapiM. rewrite mapi_from_fails; [reflexivity|].
  rewrite Ewpe. unfold bind at 1, ret at 1.
  assert (Enone : nth_error wpe posId = None)
    by (apply nth_error_None; lia).
  rewrite Enone. reflexivity.
Qed.

Lemma gpt_rejects_out_of_range_witness :
  GPT.gpt small_gpt small_state 1 0 [[]] [[]] one_leaf = None.
Proof.
  apply (gpt_rejects_out_of_range small_gpt small_state 1 1 0 [[]] [[]]
           one_leaf Caches.small_gpt_shaped).
  left. lia.
Defined.

(** X15.  [Llama.forward] bounds the token but not the position: on a
    token below the size of the vocabulary it returns one logit per token
    of the vocabulary for every position whatever, also past [block_size],
    and adds one entry per layer to both caches; on any other token it ends
    with a [TypeError]. *)
Theorem llama_accepts_every_position (c : Llama.LlamaConfig) (state : State)
  (vocab tokenId posId : nat) (keys values : Llama.Cache) (h : Heap) :
  llama_shaped h c state vocab ->
  cache_ok (mat_ok h (Llama.n_kv_head c) (Llama.head_dim c))
           (Llama.n_layer c) keys ->
  cache_ok (mat_ok h (Llama.n_kv_head c) (Llama.head_dim c))
           (Llama.n_layer c) values ->
  in_step keys values ->
  ((tokenId < vocab)%nat ->
   exists logits keys' values' h',
     Llama.forward c state tokenId posId keys values h =
       Some ((logits, keys', values'), h') /\
     length logits = vocab /\
     appended (Llama.n_layer c) keys keys' /\
     appended (Llama.n_layer c) values values') /\
  ((vocab <= tokenId)%nat ->
   Llama.forward c state tokenId posId keys values h = None).
Proof.
  intros Hs Hk Hv Hstep. split.
  - intros Htok.
    destruct (ok_llama c state vocab tokenId posId keys values h Hs Htok Hk Hv
                       Hstep)
      as ([[logits keys'] values'] & h' & E & _ & [Hl _] & _ & _ & _ & Ak & Av).
    simpl in Hl, Ak, Av.
    exists logits, keys', values', h'. auto.
  - intros Htok.
    destruct Hs as (_ & _ & _ & _ & _ & _ & (wte & Ewte & Hwl & _) & _).
    unfold Llama.forward, lookup. rewrite Ewte.
    unfold defined, bind at 1, ret at 1. unfold idx.
    assert (Enone : nth_error wte tokenId = None)
      by (apply nth_error_None; lia).
    rewrite Enone. reflexivity.
Qed.

Lemma llama_accepts_every_position_witness :
  ((0 < 1)%nat ->
   exists logits keys' values' h',
     Llama.forward small_llama small_state 0 7 [[]] [[]] one_leaf =
       Some ((logits, keys', values'), h') /\
     length logits = 1%nat /\
     appended (Llama.n_layer small_llama) [[]] keys' /\
     appended (Llama.n_layer small_llama) [[]] values') /\
  ((1 <= 0)%nat ->
   Llama.forward small_llama small_state 0 7 [[]] [[]] one_leaf = None).
Proof.
  apply (llama_accepts_every_position small_llama small_state 1 0 7 [[]] [[]]
           one_leaf Caches.small_llama_shaped).
  - split; [reflexivity | repeat constructor].
  - split; [reflexivity | repeat constructor].
  - intros [|[|li]]; reflexivity.
Defined.

(** X16.  [Deepseek.forward] bounds the token but not the position: on a
    token below the size of the vocabulary it returns one logit per token
    of the vocabulary for every position whatever, and adds one latent
    vector per layer to the cache; on any other token it ends with a
    [TypeError]. *)
Theorem deepseek_accepts_every_position (c : Deepseek.DeepseekConfig)
  (state : State) (vocab tokenId posId : nat) (cache : Deepseek.Cache)
  (h : Heap) :
  deepseek_shaped h c state vocab ->
  cache_ok (vec_ok h (Deepseek.latent_dim c)) (Deepseek.n_layer c) cache ->
  ((tokenId < vocab)%nat ->
   exists logits cache' h',
     Deepseek.forward c state tokenId posId cache h =
       Some ((logits, cache'), h') /\
     length logits = vocab /\
     appended (Deepseek.n_layer c) cache cache') /\
  ((vocab <= tokenId)%nat ->
   Deepseek.forward c state tokenId posId cache h = None).
Proof.
  intros Hs Hk. split.
  - intros Htok.
    destruct (ok_deepseek c state vocab tokenId posId cache h Hs Htok Hk)
      as ([logits cache'] & h' & E & _ & [Hl _] & _ & Ak).
    simpl in Hl, Ak.
    exists logits, cache', h'. auto.
  - intros Htok.
    destruct Hs as (_ & _ & _ & _ & _ & (wte & Ewte & Hwl & _) & _).
    unfold Deepseek.forward, lookup. rewrite Ewte.
    unfold defined, bind at 1, ret at 1. unfold idx.
    assert (Enone : nth_error wte tokenId = None)
      by (apply nth_error_None; lia).
    rewrite Enone. reflexivity.
Qed.

Lemma deepseek_accepts_every_position_witness :
  ((0 < 1)%nat ->
   exists logits cache' h',
     Deepseek.forward small_deepseek small_state 0 7 [[]] one_leaf =
       Some ((logits, cache'), h') /\
     length logits = 1%nat /\
     appended (Deepseek.n_layer small_deepseek) [[]] cache') /\
  ((1 <= 0)%nat ->
   Deepseek.forward small_deepseek small_state 0 7 [[]] one_leaf = None).
Proof.
  apply (deepseek_accepts_every_position small_deepseek small_state 1 0 7 [[]]
           one_leaf Caches.small_deepseek_shaped).
  split; [reflexivity | repeat constructor].
Defined.

End ForwardFacts.

(** ** The samples of [infere] *)

Module SamplingFacts.

Import Invariants Examples.
Import Num Autograd Store Ops Hoare Pure Shapes Driver.
Import HeapFacts HoareFacts OpsFacts ShapeFacts DriverFacts.
Local Open Scope R_scope.

Section Samples.

Context {K V : Type}.
Variable model : Model K V.
Variable vocab : nat.
Variable Inv : Heap -> list (list K) -> list (list V) -> Prop.

Hypothesis Inv_alloc :
  forall h h' ks vs, allocated any h h' -> Inv h ks vs -> Inv h' ks vs.

Hypothesis Hstep :
  forall tok pos ks vs h,
    (tok < vocab)%nat -> (pos < block_size model)%nat -> Inv h ks vs ->
    runs any (forward model tok pos ks vs) h
         (fun r h' =>
            vec_ok h' vocab (fst (fst r)) /\
            Inv h' (snd (fst r)) (snd r) /\
            extended 1 ks (snd (fst r)) /\ extended 1 vs (snd r)).



End Samples.





End SamplingFacts.

(** ** The nodes of a forward pass *)

Module TidyFacts.

Import Invariants Examples.
Import Num Autograd Store Ops Graph Hoare Pure Shapes Driver Notions.
Import HeapFacts.
Local Open Scope R_scope.

Section Tidy.

Variable b : nat.
Variable S : Value -> Prop.

Lemma tidy_ret {A} (a : A) (Q : A -> Prop) : Q a -> tidy b S (ret a) Q.
Proof.
  intros HQ h a' h' _ E. unfold ret in E. injection E as <- <-.
  split; [|exact HQ]. exists []. split; [now rewrite app_nil_r | constructor].
Qed.

Lemma tidy_throw {A} (Q : A -> Prop) : tidy b S throw Q.
Proof. intros h a h' _ E. discriminate. Qed.

Lemma tidy_bind {A B} (m : M A) (f : A -> M B) (P : A -> Prop)
  (Q : B -> Prop) :
  tidy b S m P -> (forall a, P a -> tidy b S (f a) Q) -> tidy b S (bind m f) Q.
Proof.
  intros Hm Hf h r h' Hb E. unfold bind in E.
  destruct (m h) as [[a h1]|] eqn:E1; [|discriminate].
  destruct (Hm h a h1 Hb E1) as [(t1 & -> & Hc1) Ha].
  destruct (Hf a Ha (h ++ t1) r h') as [(t2 & -> & Hc2) Hr]; auto.
  { rewrite length_app. lia. }
  split; [|exact Hr]. exists (t1 ++ t2).
  split; [now rewrite app_assoc | now apply Forall_app].
Qed.

Lemma tidy_weaken {A} (m : M A) (P Q : A -> Prop) :
  tidy b S m P -> (forall a, P a -> Q a) -> tidy b S m Q.
Proof.
  intros Hm HPQ h a h' Hb E. destruct (Hm h a h' Hb E) as [Ht Ha]. auto.
Qed.

Lemma tidy_idx {A} (xs : list A) (i : nat) (Q : A -> Prop) :
  Forall Q xs -> tidy b S (idx xs i) Q.
Proof.
  intros HQ. unfold idx. destruct (nth_error xs i) as [x|] eqn:E.
  - apply tidy_ret. rewrite Forall_forall in HQ.
    eapply HQ, nth_error_In; eauto.
  - apply tidy_throw.
Qed.

Lemma tidy_defined {A} (o : option A) (Q : A -> Prop) :
  (forall a, o = Some a -> Q a) -> tidy b S (defined o) Q.
Proof.
  intros HQ. destruct o as [a|]; [apply tidy_ret; auto | apply tidy_throw].
Qed.

Lemma tidy_get_data (v : Value) : tidy b S (get_data v) (fun _ => True).
Proof.
  intros h a h' _ E. unfold get_data, bind, get_node, ret in E.
  destruct (nth_error h v); [|discriminate]. injection E as _ <-.
  split; [|exact I]. exists []. split; [now rewrite app_nil_r | constructor].
Qed.

Lemma tidy_new_Value (d : R) (cs : list Value) (lgs : list R) :
  Forall (good b S) cs -> tidy b S (new_Value d cs lgs) (good b S).
Proof.
  intros Hcs h a h' Hb E. unfold new_Value in E. injection E as <- <-.
  split; [|now right]. eexists. split; [reflexivity|].
  constructor; [|constructor]. split; [reflexivity | exact Hcs].
Qed.

Lemma tidy_as_Value (o : Value + R) :
  good_arg b S o -> tidy b S (as_Value o) (good b S).
Proof.
  destruct o as [v|x]; simpl; intros Ho.
  - now apply tidy_ret.
  - apply tidy_new_Value. constructor.
Qed.

Ltac tidy_args :=
  repeat first [ assumption | exact I | constructor ].

Ltac tidy_op :=
  repeat first
    [ eapply tidy_bind; [apply tidy_as_Value; assumption|intros ? ?]
    | eapply tidy_bind; [apply tidy_get_data|intros ? _]
    | apply tidy_new_Value; tidy_args ].

Lemma tidy_add (a : Value) (o : Value + R) :
  good b S a -> good_arg b S o -> tidy b S (add a o) (good b S).
Proof. intros Ha Ho. unfold add. tidy_op. Qed.

Lemma tidy_mul (a : Value) (o : Value + R) :
  good b S a -> good_arg b S o -> tidy b S (mul a o) (good b S).
Proof. intros Ha Ho. unfold mul. tidy_op. Qed.

Lemma tidy_pow (a : Value) (p : R) :
  good b S a -> tidy b S (pow a p) (good b S).
Proof. intros Ha. unfold pow. tidy_op. Qed.

Lemma tidy_log (a : Value) : good b S a -> tidy b S (log a) (good b S).
Proof. intros Ha. unfold log. tidy_op. Qed.

Lemma tidy_exp (a : Value) : good b S a -> tidy b S (exp a) (good b S).
Proof. intros Ha. unfold exp. tidy_op. Qed.

Lemma tidy_relu (a : Value) : good b S a -> tidy b S (relu a) (good b S).
Proof. intros Ha. unfold relu. tidy_op. Qed.

Lemma tidy_silu (a : Value) : good b S a -> tidy b S (silu a) (good b S).
Proof. intros Ha. unfold silu. tidy_op. Qed.

Lemma tidy_neg (a : Value) : good b S a -> tidy b S (neg a) (good b S).
Proof. intros Ha. unfold neg. now apply tidy_mul. Qed.

Lemma tidy_sub (a : Value) (o : Value + R) :
  good b S a -> good_arg b S o -> tidy b S (sub a o) (good b S).
Proof.
  intros Ha Ho. unfold sub. destruct o as [v|x].
  - eapply tidy_bind; [now apply tidy_neg|]. intros n Hn.
    now apply tidy_add.
  - now apply tidy_add.
Qed.

Lemma tidy_div (a : Value) (o : Value + R) :
  good b S a -> good_arg b S o -> tidy b S (div a o) (good b S).
Proof.
  intros Ha Ho. unfold div.
  eapply tidy_bind; [now apply tidy_as_Value|]. intros o' Ho'.
  eapply tidy_bind; [now apply tidy_pow|]. intros p Hp.
  now apply tidy_mul.
Qed.

(** The result of an operator is a new node. *)
Lemma tidy_fresh_Value (d : R) (cs : list Value) (lgs : list R) :
  Forall (good b S) cs -> tidy b S (new_Value d cs lgs) (fun v => (b <= v)%nat).
Proof.
  intros Hcs h a h' Hb E.
  destruct (tidy_new_Value d cs lgs Hcs h a h' Hb E) as [Ht _].
  split; [exact Ht|]. unfold new_Value in E. now injection E as <- _.
Qed.

Lemma tidy_div_fresh (a : Value) (o : Value + R) :
  good b S a -> good_arg b S o ->
  tidy b S (div a o) (fun v => (b <= v)%nat).
Proof.
  intros Ha Ho. unfold div.
  eapply tidy_bind; [now apply tidy_as_Value|]. intros o' Ho'.
  eapply tidy_bind; [now apply tidy_pow|]. intros p Hp.
  unfold mul.
  eapply tidy_bind; [apply tidy_as_Value; exact Hp|]. intros p' Hp'.
  eapply tidy_bind; [apply tidy_get_data|]. intros x _.
  eapply tidy_bind; [apply tidy_get_data|]. intros y _.
  apply tidy_fresh_Value. tidy_args.
Qed.

Lemma tidy_add2 (a c : Value) :
  good b S a -> good b S c -> tidy b S (add2 a c) (good b S).
Proof. intros Ha Hc. unfold add2. now apply tidy_add. Qed.

(** *** Arrays and loops *)

Lemma tidy_mapi_from {A B} (f : A -> nat -> M B) (P : A -> Prop)
  (Q : B -> Prop) :
  (forall x i, P x -> tidy b S (f x i) Q) ->
  forall xs i, Forall P xs -> tidy b S (mapi_from f xs i) (Forall Q).
Proof.
  intros Hf. induction xs as [|x xs IH]; intros i HP; cbn [mapi_from].
  - apply tidy_ret. constructor.
  - inversion HP as [|? ? Hx Hxs]; subst.
    eapply tidy_bind; [apply Hf; exact Hx|]. intros y Hy.
    eapply tidy_bind; [apply IH; exact Hxs|]. intros ys Hys.
    apply tidy_ret. now constructor.
Qed.

Lemma tidy_mapiM {A B} (f : A -> nat -> M B) (P : A -> Prop) (Q : B -> Prop)
  (xs : list A) :
  Forall P xs -> (forall x i, P x -> tidy b S (f x i) Q) ->
  tidy b S (mapiM f xs) (Forall Q).
Proof. intros HP Hf. unfold mapiM. now apply (tidy_mapi_from f P Q). Qed.

Lemma tidy_mapM {A B} (f : A -> M B) (P : A -> Prop) (Q : B -> Prop)
  (xs : list A) :
  Forall P xs -> (forall x, P x -> tidy b S (f x) Q) ->
  tidy b S (mapM f xs) (Forall Q).
Proof.
  intros HP Hf. unfold mapM. apply (tidy_mapiM _ P Q); auto.
Qed.

Lemma tidy_reduce_from {A B} (f : B -> A -> nat -> M B) (P : B -> Prop)
  (PX : A -> Prop) :
  (forall acc x i, P acc -> PX x -> tidy b S (f acc x i) P) ->
  forall xs acc i, P acc -> Forall PX xs ->
    tidy b S (reduce_from f acc xs i) P.
Proof.
  intros Hf. induction xs as [|x xs IH]; intros acc i Ha HX;
    cbn [reduce_from].
  - now apply tidy_ret.
  - inversion HX as [|? ? Hx Hxs]; subst.
    eapply tidy_bind; [apply Hf; eassumption|]. intros acc' Hacc'.
    now apply IH.
Qed.

Lemma tidy_reduce {A} (f : A -> A -> M A) (P : A -> Prop) (xs : list A) :
  Forall P xs -> (forall x y, P x -> P y -> tidy b S (f x y) P) ->
  tidy b S (reduce f xs) P.
Proof.
  intros HP Hf. unfold reduce. destruct xs as [|x xs]; [apply tidy_throw|].
  inversion HP; subst.
  apply (tidy_reduce_from (fun x y _ => f x y) P P); auto.
Qed.

Lemma tidy_for_from {T} (body : nat -> T -> M T) (P : T -> Prop) :
  (forall i acc, P acc -> tidy b S (body i acc) P) ->
  forall n lo acc, P acc -> tidy b S (for_from n lo body acc) P.
Proof.
  intros Hb. induction n as [|n IH]; intros lo acc Ha; cbn [for_from].
  - now apply tidy_ret.
  - eapply tidy_bind; [now apply Hb|]. intros acc' Hacc'. now apply IH.
Qed.

Lemma tidy_for_range {T} (body : nat -> T -> M T) (P : T -> Prop) (n : nat)
  (acc : T) :
  P acc -> (forall i acc, P acc -> tidy b S (body i acc) P) ->
  tidy b S (for_range n body acc) P.
Proof. intros Ha Hb. unfold for_range. now apply tidy_for_from. Qed.

Lemma push_at_Forall {A} (P : A -> Prop) : forall cache li x cache',
  Forall (Forall P) cache -> P x -> push_at cache li x = Some cache' ->
  Forall (Forall P) cache'.
Proof.
  induction cache as [|c cache IH]; intros [|li] x cache' Hc Hx E;
    simpl in E; try discriminate; inversion Hc; subst.
  - injection E as <-. constructor; auto.
    apply Forall_app. split; auto.
  - destruct (push_at cache li x) as [r|] eqn:Er; [|discriminate].
    injection E as <-. constructor; eauto.
Qed.

Lemma tidy_push {A} (P : A -> Prop) (cache : list (list A)) (li : nat)
  (x : A) :
  Forall (Forall P) cache -> P x ->
  tidy b S (push cache li x) (Forall (Forall P)).
Proof.
  intros Hc Hx. unfold push. apply tidy_defined.
  intros cache' E. eapply push_at_Forall; eauto.
Qed.

Lemma Forall_slice {A} (P : A -> Prop) (xs : list A) (s e : nat) :
  Forall P xs -> Forall P (slice xs s e).
Proof.
  intros H. unfold slice. apply Forall_forall. intros x Hx.
  rewrite Forall_forall in H. apply H.
  apply Persistence.In_firstn in Hx.
  rewrite <- (firstn_skipn s xs). apply in_or_app. now right.
Qed.

(** *** The model operations *)

Lemma good_S (v : Value) : S v -> good b S v.
Proof. now left. Qed.

Lemma tidy_lookup (state : State) (key : string) :
  (forall k w, state k = Some w -> Forall (Forall S) w) ->
  tidy b S (lookup state key) (Forall (Forall (good b S))).
Proof.
  intros Hstate. unfold lookup. apply tidy_defined. intros w E.
  eapply Forall_impl; [|exact (Hstate key w E)]. simpl. intros row Hrow.
  eapply Forall_impl; [|exact Hrow]. apply good_S.
Qed.

Lemma tidy_linear (x : list Value) (w : list (list Value)) :
  Forall (good b S) x -> Forall (Forall (good b S)) w ->
  tidy b S (linear x w) (Forall (good b S)).
Proof.
  intros Hx Hw. unfold linear.
  apply (tidy_mapM _ (Forall (good b S)) (good b S)); [exact Hw|].
  intros row Hrow.
  eapply tidy_bind; [apply tidy_new_Value; constructor|]. intros zero Hz.
  unfold reduce_init.
  apply (tidy_reduce_from _ (good b S) (good b S)); auto.
  intros acc wi i Hacc Hwi.
  eapply tidy_bind; [apply tidy_idx; exact Hx|]. intros xi Hxi.
  eapply tidy_bind; [now apply tidy_mul|]. intros p Hp.
  now apply tidy_add.
Qed.

Lemma tidy_softmax (logits : list Value) :
  Forall (good b S) logits -> tidy b S (softmax logits) (Forall (good b S)).
Proof.
  intros Hl. unfold softmax.
  eapply tidy_bind.
  { apply (tidy_mapM _ (good b S) (fun _ => True)); [exact Hl|].
    intros v _. apply tidy_get_data. }
  intros ds _.
  eapply tidy_bind.
  { apply (tidy_mapM _ (good b S) (good b S)); [exact Hl|].
    intros v Hv. eapply tidy_bind; [now apply tidy_sub|].
    intros t Ht. now apply tidy_exp. }
  intros exps Hexps.
  eapply tidy_bind; [apply (tidy_reduce _ (good b S)); auto|].
  { intros x y Hx Hy. now apply tidy_add2. }
  intros total Htotal.
  apply (tidy_mapM _ (good b S) (good b S)); [exact Hexps|].
  intros e He. now apply tidy_div.
Qed.

Lemma tidy_rmsnorm (x : list Value) :
  Forall (good b S) x -> tidy b S (rmsnorm x) (Forall (good b S)).
Proof.
  intros Hx. unfold rmsnorm.
  eapply tidy_bind.
  { apply (tidy_mapM _ (good b S) (good b S)); [exact Hx|].
    intros xi Hxi. now apply tidy_mul. }
  intros sq Hsq.
  eapply tidy_bind; [apply (tidy_reduce _ (good b S)); auto|].
  { intros u v Hu Hv. now apply tidy_add2. }
  intros s Hs.
  eapply tidy_bind; [now apply tidy_div|]. intros ms Hms.
  eapply tidy_bind; [now apply tidy_add|]. intros t Ht.
  eapply tidy_bind; [now apply tidy_pow|]. intros scale Hscale.
  apply (tidy_mapM _ (good b S) (good b S)); [exact Hx|].
  intros xi Hxi. now apply tidy_mul.
Qed.

(** *** Variant A *)

Lemma tidy_gpt_head (c : GPT.Config) (q : list Value) (keys values : GPT.Cache)
  (li h : nat) (x_attn : list Value) :
  Forall (good b S) q -> good_cache b S keys -> good_cache b S values ->
  Forall (good b S) x_attn ->
  tidy b S (GPT.attention_head c q keys values li h x_attn)
       (Forall (good b S)).
Proof.
  intros Hq Hk Hv Hx. unfold GPT.attention_head. cbv zeta.
  eapply tidy_bind; [apply tidy_idx; exact Hk|]. intros keys_li Hkl.
  eapply tidy_bind; [apply tidy_idx; exact Hv|]. intros values_li Hvl.
  assert (Hkh : Forall (Forall (good b S))
                  (map (fun kk => slice kk (h * GPT.head_dim c)
                                        (h * GPT.head_dim c + GPT.head_dim c))
                       keys_li)).
  { apply Forall_map. eapply Forall_impl; [|exact Hkl].
    intros kk Hkk. now apply Forall_slice. }
  assert (Hvh : Forall (Forall (good b S))
                  (map (fun vv => slice vv (h * GPT.head_dim c)
                                        (h * GPT.head_dim c + GPT.head_dim c))
                       values_li)).
  { apply Forall_map. eapply Forall_impl; [|exact Hvl].
    intros vv Hvv. now apply Forall_slice. }
  eapply tidy_bind.
  { apply (tidy_mapM _ (Forall (good b S)) (good b S)); [exact Hkh|].
    intros kt Hkt.
    eapply tidy_bind.
    { apply (tidy_mapiM _ (good b S) (good b S));
        [apply Forall_slice; exact Hq|].
      intros qj j Hqj.
      eapply tidy_bind; [apply tidy_idx; exact Hkt|]. intros ktj Hktj.
      now apply tidy_mul. }
    intros prods Hprods.
    eapply tidy_bind; [apply (tidy_reduce _ (good b S)); auto|].
    { intros u v Hu Hv'. now apply tidy_add2. }
    intros s Hs. now apply tidy_div. }
  intros logits Hlogits.
  eapply tidy_bind; [now apply tidy_softmax|]. intros weights Hw.
  apply (tidy_for_range _ (Forall (good b S))); [exact Hx|].
  intros j acc Hacc.
  eapply tidy_bind.
  { apply (tidy_mapiM _ (good b S) (good b S)); [exact Hw|].
    intros wt t Hwt.
    eapply tidy_bind; [apply tidy_idx; exact Hvh|]. intros vt Hvt.
    eapply tidy_bind; [apply tidy_idx; exact Hvt|]. intros vtj Hvtj.
    now apply tidy_mul. }
  intros terms Hterms.
  eapply tidy_bind; [apply (tidy_reduce _ (good b S)); auto|].
  { intros u v Hu Hv'. now apply tidy_add2. }
  intros val Hval. apply tidy_ret.
  apply Forall_app. split; [exact Hacc | now constructor].
Qed.

Lemma tidy_gpt_residual (x x_res : list Value) :
  Forall (good b S) x -> Forall (good b S) x_res ->
  tidy b S (GPT.add_residual x x_res) (Forall (good b S)).
Proof.
  intros Hx Hr. unfold GPT.add_residual.
  apply (tidy_mapiM _ (good b S) (good b S)); [exact Hx|].
  intros xi i Hxi.
  eapply tidy_bind; [apply tidy_idx; exact Hr|]. intros r Hr'.
  now apply tidy_add.
Qed.

Lemma tidy_gpt_layer (c : GPT.Config) (state : State) (li : nat)
  (st : list Value * GPT.Cache * GPT.Cache) :
  (forall k w, state k = Some w -> Forall (Forall S) w) ->
  good_state b S st -> tidy b S (GPT.layer c state li st) (good_state b S).
Proof.
  intros Hstate Hst. destruct st as [[x keys] values].
  destruct Hst as (Hx & Hk & Hv). simpl in Hx, Hk, Hv.
  unfold GPT.layer.
  eapply tidy_bind; [now apply tidy_rmsnorm|]. intros x1 Hx1.
  eapply tidy_bind; [now apply tidy_lookup|]. intros wq Hwq.
  eapply tidy_bind; [now apply tidy_linear|]. intros q Hq.
  eapply tidy_bind; [now apply tidy_lookup|]. intros wk Hwk.
  eapply tidy_bind; [now apply tidy_linear|]. intros k Hk'.
  eapply tidy_bind; [now apply tidy_lookup|]. intros wv Hwv.
  eapply tidy_bind; [now apply tidy_linear|]. intros v Hv'.
  eapply tidy_bind; [now apply (tidy_push (Forall (good b S)))|]. intros keys1 Hk1.
  eapply tidy_bind; [now apply (tidy_push (Forall (good b S)))|]. intros values1 Hv1.
  eapply tidy_bind.
  { apply (tidy_for_range _ (Forall (good b S))); [constructor|].
    intros h acc Hacc. now apply tidy_gpt_head. }
  intros x_attn Hxa.
  eapply tidy_bind; [now apply tidy_lookup|]. intros wo Hwo.
  eapply tidy_bind; [now apply tidy_linear|]. intros x2 Hx2.
  eapply tidy_bind; [now apply tidy_gpt_residual|]. intros x3 Hx3.
  eapply tidy_bind; [now apply tidy_rmsnorm|]. intros x4 Hx4.
  eapply tidy_bind; [now apply tidy_lookup|]. intros fc1 Hfc1.
  eapply tidy_bind; [now apply tidy_linear|]. intros x5 Hx5.
  eapply tidy_bind.
  { apply (tidy_mapM _ (good b S) (good b S)); [exact Hx5|].
    intros xi Hxi. eapply tidy_bind; [now apply tidy_relu|].
    intros r Hr. now apply tidy_pow. }
  intros x6 Hx6.
  eapply tidy_bind; [now apply tidy_lookup|]. intros fc2 Hfc2.
  eapply tidy_bind; [now apply tidy_linear|]. intros x7 Hx7.
  eapply tidy_bind; [now apply tidy_gpt_residual|]. intros x8 Hx8.
  apply tidy_ret. repeat split; assumption.
Qed.

Lemma tidy_gpt (c : GPT.Config) (state : State) (tokenId posId : nat)
  (keys values : GPT.Cache) :
  (forall k w, state k = Some w -> Forall (Forall S) w) ->
  good_cache b S keys -> good_cache b S values ->
  tidy b S (GPT.gpt c state tokenId posId keys values) (good_state b S).
Proof.
  intros Hstate Hk Hv. unfold GPT.gpt.
  eapply tidy_bind; [now apply tidy_lookup|]. intros wte Hwte.
  eapply tidy_bind; [apply tidy_idx; exact Hwte|]. intros row Hrow.
  eapply tidy_bind.
  { apply (tidy_mapiM _ (good b S) (good b S)); [exact Hrow|].
    intros t i Ht.
    eapply tidy_bind; [now apply tidy_lookup|]. intros wpe Hwpe.
    eapply tidy_bind; [apply tidy_idx; exact Hwpe|]. intros prow Hprow.
    eapply tidy_bind; [apply tidy_idx; exact Hprow|]. intros p Hp.
    now apply tidy_add. }
  intros x Hx.
  eapply tidy_bind; [now apply tidy_rmsnorm|]. intros x1 Hx1.
  eapply tidy_bind.
  { apply (tidy_for_range _ (good_state b S)); [repeat split; assumption|].
    intros li st Hst. now apply tidy_gpt_layer. }
  intros [[x2 keys2] values2] (Hx2 & Hk2 & Hv2). simpl in Hx2, Hk2, Hv2.
  eapply tidy_bind; [now apply tidy_lookup|]. intros lm Hlm.
  eapply tidy_bind; [now apply tidy_linear|]. intros logits Hlogits.
  apply tidy_ret. repeat split; assumption.
Qed.

(** *** The training step, up to the loss *)

Section Forward.

Context {K V : Type}.
Variable model : Model K V.
Variable GK : list (list K) -> Prop.
Variable GV : list (list V) -> Prop.

Hypothesis GK_fresh : GK (fresh_cache (n_layer model)).
Hypothesis GV_fresh : GV (fresh_cache (n_layer model)).

Hypothesis Hforward :
  forall tok pos ks vs, GK ks -> GV vs ->
    tidy b S (forward model tok pos ks vs) (good_with b S GK GV).

Lemma tidy_position (tokens : list nat) (pos : nat)
  (st : list Value * list (list K) * list (list V)) :
  good_with b S GK GV st ->
  tidy b S (train_position model tokens pos st) (good_with b S GK GV).
Proof.
  intros Hst. destruct st as [[losses keys] values].
  destruct Hst as (Hl & Hk & Hv). simpl in Hl, Hk, Hv.
  unfold train_position.
  eapply tidy_bind; [apply (tidy_idx _ _ (fun _ => True))|].
  { apply Forall_forall. auto. }
  intros tok _.
  eapply tidy_bind; [now apply Hforward|].
  intros [[logits keys1] values1] (Hlg & Hk1 & Hv1). simpl in Hlg, Hk1, Hv1.
  eapply tidy_bind; [now apply tidy_softmax|]. intros probs Hp.
  eapply tidy_bind; [apply (tidy_idx _ _ (fun _ => True))|].
  { apply Forall_forall. auto. }
  intros next _.
  eapply tidy_bind; [apply tidy_idx; exact Hp|]. intros p Hp'.
  eapply tidy_bind; [now apply tidy_log|]. intros l Hl'.
  eapply tidy_bind; [now apply tidy_neg|]. intros nl Hnl.
  apply tidy_ret. split; [|split; assumption].
  apply Forall_app. split; [exact Hl | now constructor].
Qed.

(** The loss is a node of its own, made by the division that ends the
    forward part of the step. *)
Lemma tidy_loss (tokens : list nat) :
  tidy b S (train_forward model tokens) (fun r => (b <= fst (fst r))%nat).
Proof.
  unfold train_forward. cbv zeta.
  eapply tidy_bind.
  { apply (tidy_for_range _ (good_with b S GK GV)).
    - split; [constructor|]. split; assumption.
    - intros pos st Hst. now apply tidy_position. }
  intros [[losses keys] values] (Hl & _ & _). simpl in Hl.
  eapply tidy_bind; [apply (tidy_reduce _ (good b S)); auto|].
  { intros u v Hu Hv. now apply tidy_add2. }
  intros s Hs.
  eapply tidy_bind; [now apply tidy_div_fresh|]. intros loss Hloss.
  now apply tidy_ret.
Qed.

End Forward.

Lemma fresh_cache_Forall {A} (P : list A -> Prop) (n : nat) :
  P [] -> Forall P (fresh_cache n).
Proof.
  intros HP. unfold fresh_cache. apply Forall_forall.
  intros l Hl. apply repeat_spec in Hl. now subst.
Qed.

Lemma tidy_train_forward (c : GPT.Config) (state : State) (tokens : list nat) :
  (forall k w, state k = Some w -> Forall (Forall S) w) ->
  tidy b S (train_forward (of_gpt c state) tokens)
       (fun r => (b <= fst (fst r))%nat).
Proof.
  intros Hstate.
  apply (tidy_loss (of_gpt c state) (good_cache b S) (good_cache b S)).
  - apply fresh_cache_Forall. constructor.
  - apply fresh_cache_Forall. constructor.
  - intros tok pos ks vs Hk Hv. now apply tidy_gpt.
Qed.

(** *** Rotary embeddings *)

Lemma tidy_apply_rope (x : list Value) (pos d : nat) :
  Forall (good b S) x -> tidy b S (apply_rope x pos d) (Forall (good b S)).
Proof.
  intros Hx. unfold apply_rope.
  apply (tidy_for_range _ (Forall (good b S))); [constructor|].
  intros i out Hout. cbv zeta.
  eapply tidy_bind; [apply tidy_idx; exact Hx|]. intros x1 H1.
  eapply tidy_bind; [apply tidy_idx; exact Hx|]. intros x2 H2.
  eapply tidy_bind; [now apply tidy_mul|]. intros a Ha.
  eapply tidy_bind; [now apply tidy_mul|]. intros a0 Ha0.
  eapply tidy_bind; [now apply tidy_sub|]. intros r1 Hr1.
  eapply tidy_bind; [now apply tidy_mul|]. intros a' Ha'.
  eapply tidy_bind; [now apply tidy_mul|]. intros b' Hb'.
  eapply tidy_bind; [now apply tidy_add|]. intros r2 Hr2.
  apply tidy_ret. apply Forall_app. split; [exact Hout|].
  constructor; [exact Hr1|]. constructor; [exact Hr2 | constructor].
Qed.

(** *** Variant B *)

Lemma tidy_llama_rope_heads (n hd posId : nat) (q : list Value) :
  Forall (good b S) q ->
  tidy b S (Llama.rope_heads n hd posId q) (Forall (Forall (good b S))).
Proof.
  intros Hq. unfold Llama.rope_heads.
  apply (tidy_for_range _ (Forall (Forall (good b S)))); [constructor|].
  intros h heads Hh. cbv zeta.
  eapply tidy_bind; [apply tidy_apply_rope; now apply Forall_slice|].
  intros r Hr.
  apply tidy_ret. apply Forall_app. split; [exact Hh | now constructor].
Qed.

Lemma tidy_llama_split_heads (n hd : nat) (v : list Value) :
  Forall (good b S) v ->
  tidy b S (Llama.split_heads n hd v) (Forall (Forall (good b S))).
Proof.
  intros Hv. unfold Llama.split_heads.
  apply (tidy_for_range _ (Forall (Forall (good b S)))); [constructor|].
  intros h heads Hh. cbv zeta.
  apply tidy_ret. apply Forall_app. split; [exact Hh|].
  constructor; [now apply Forall_slice | constructor].
Qed.

Lemma tidy_llama_logits (hd : nat) (q_h : option (list Value))
  (k_h_all : list (option (list Value))) :
  good_entry b S q_h -> Forall (good_entry b S) k_h_all ->
  tidy b S (Llama.attention_logits hd q_h k_h_all) (Forall (good b S)).
Proof.
  intros Hq Hk. unfold Llama.attention_logits.
  apply (tidy_for_range _ (Forall (good b S))); [constructor|].
  intros t acc Hacc.
  eapply tidy_bind; [apply tidy_new_Value; constructor|]. intros dot Hdot.
  eapply tidy_bind.
  { apply (tidy_for_range _ (good b S)); [exact Hdot|].
    intros j d Hd.
    eapply tidy_bind; [apply tidy_defined; exact Hq|]. intros q Hq'.
    eapply tidy_bind; [apply tidy_idx; exact Hq'|]. intros qj Hqj.
    eapply tidy_bind; [apply tidy_idx; exact Hk|]. intros kt Hkt.
    eapply tidy_bind; [apply tidy_defined; exact Hkt|]. intros kt' Hkt'.
    eapply tidy_bind; [apply tidy_idx; exact Hkt'|]. intros ktj Hktj.
    eapply tidy_bind; [now apply tidy_mul|]. intros p Hp.
    now apply tidy_add. }
  intros dot' Hdot'.
  eapply tidy_bind; [apply tidy_new_Value; constructor|]. intros s Hs.
  eapply tidy_bind; [now apply tidy_div|]. intros l Hl.
  apply tidy_ret. apply Forall_app. split; [exact Hacc | now constructor].
Qed.

Lemma tidy_llama_values (hd : nat) (attn_weights : list Value)
  (v_h_all : list (option (list Value))) :
  Forall (good b S) attn_weights -> Forall (good_entry b S) v_h_all ->
  tidy b S (Llama.weighted_values hd attn_weights v_h_all) (Forall (good b S)).
Proof.
  intros Hw Hv. unfold Llama.weighted_values.
  apply (tidy_for_range _ (Forall (good b S))); [constructor|].
  intros j acc Hacc.
  eapply tidy_bind; [apply tidy_new_Value; constructor|]. intros sum Hsum.
  eapply tidy_bind.
  { apply (tidy_for_range _ (good b S)); [exact Hsum|].
    intros t s Hs.
    eapply tidy_bind; [apply tidy_idx; exact Hw|]. intros wt Hwt.
    eapply tidy_bind; [apply tidy_idx; exact Hv|]. intros vt Hvt.
    eapply tidy_bind; [apply tidy_defined; exact Hvt|]. intros vt' Hvt'.
    eapply tidy_bind; [apply tidy_idx; exact Hvt'|]. intros vtj Hvtj.
    eapply tidy_bind; [now apply tidy_mul|]. intros p Hp.
    now apply tidy_add. }
  intros sum' Hsum'.
  apply tidy_ret. apply Forall_app. split; [exact Hacc | now constructor].
Qed.

Lemma good_at_index (rows : list (list (list Value))) (i : option nat) :
  Forall (Forall (Forall (good b S))) rows ->
  Forall (good_entry b S) (map (fun r => Llama.at_index r i) rows).
Proof.
  intros Hrows. apply Forall_map. eapply Forall_impl; [|exact Hrows].
  intros r Hr x E. unfold Llama.at_index in E.
  destruct i as [i|]; [|discriminate].
  rewrite Forall_forall in Hr. eapply Hr, nth_error_In; eauto.
Qed.

Lemma tidy_llama_head (c : Llama.LlamaConfig) (q_heads : list (list Value))
  (keys values : Llama.Cache) (li h : nat) (x_attn : list Value) :
  Forall (Forall (good b S)) q_heads ->
  good_heads b S keys -> good_heads b S values ->
  Forall (good b S) x_attn ->
  tidy b S (Llama.attention_head c q_heads keys values li h x_attn)
       (Forall (good b S)).
Proof.
  intros Hq Hk Hv Hx. unfold Llama.attention_head. cbv zeta.
  eapply tidy_bind; [apply tidy_idx; exact Hk|]. intros keys_li Hkl.
  eapply tidy_bind; [apply tidy_idx; exact Hv|]. intros values_li Hvl.
  eapply tidy_bind.
  { apply tidy_llama_logits; [|now apply good_at_index].
    intros q E. rewrite Forall_forall in Hq.
    eapply Hq, nth_error_In; eauto. }
  intros logits Hlogits.
  eapply tidy_bind; [now apply tidy_softmax|]. intros weights Hw.
  eapply tidy_bind;
    [apply tidy_llama_values; [exact Hw | now apply good_at_index]|].
  intros head_out Hout.
  apply tidy_ret. apply Forall_app. split; assumption.
Qed.

Lemma tidy_llama_residual (x x_res : list Value) :
  Forall (good b S) x -> Forall (good b S) x_res ->
  tidy b S (Llama.add_residual x x_res) (Forall (good b S)).
Proof.
  intros Hx Hr. unfold Llama.add_residual.
  apply (tidy_mapiM _ (good b S) (good b S)); [exact Hx|].
  intros xi i Hxi.
  eapply tidy_bind; [apply tidy_idx; exact Hr|]. intros r Hr'.
  now apply tidy_add.
Qed.

Lemma tidy_llama_swiglu (gate up : list Value) :
  Forall (good b S) gate -> Forall (good b S) up ->
  tidy b S (Llama.swiglu gate up) (Forall (good b S)).
Proof.
  intros Hg Hu. unfold Llama.swiglu.
  apply (tidy_for_range _ (Forall (good b S))); [constructor|].
  intros i acc Hacc.
  eapply tidy_bind; [apply tidy_idx; exact Hg|]. intros g Hg'.
  eapply tidy_bind; [now apply tidy_silu|]. intros s Hs.
  eapply tidy_bind; [apply tidy_idx; exact Hu|]. intros u Hu'.
  eapply tidy_bind; [now apply tidy_mul|]. intros m Hm.
  apply tidy_ret. apply Forall_app. split; [exact Hacc | now constructor].
Qed.

Lemma tidy_llama_layer (c : Llama.LlamaConfig) (state : State)
  (posId li : nat) (st : list Value * Llama.Cache * Llama.Cache) :
  (forall k w, state k = Some w -> Forall (Forall S) w) ->
  good_with b S (good_heads b S) (good_heads b S) st ->
  tidy b S (Llama.layer c state posId li st)
       (good_with b S (good_heads b S) (good_heads b S)).
Proof.
  intros Hstate Hst. destruct st as [[x keys] values].
  destruct Hst as (Hx & Hk & Hv). simpl in Hx, Hk, Hv.
  unfold Llama.layer.
  eapply tidy_bind; [now apply tidy_rmsnorm|]. intros x1 Hx1.
  eapply tidy_bind; [now apply tidy_lookup|]. intros wq Hwq.
  eapply tidy_bind; [now apply tidy_linear|]. intros q Hq.
  eapply tidy_bind; [now apply tidy_lookup|]. intros wk Hwk.
  eapply tidy_bind; [now apply tidy_linear|]. intros k Hk'.
  eapply tidy_bind; [now apply tidy_lookup|]. intros wv Hwv.
  eapply tidy_bind; [now apply tidy_linear|]. intros v Hv'.
  eapply tidy_bind; [now apply tidy_llama_rope_heads|]. intros q_heads Hqh.
  eapply tidy_bind; [now apply tidy_llama_rope_heads|]. intros k_heads Hkh.
  eapply tidy_bind; [now apply tidy_llama_split_heads|]. intros v_heads Hvh.
  eapply tidy_bind;
    [now apply (tidy_push (Forall (Forall (good b S))))|]. intros keys1 Hk1.
  eapply tidy_bind;
    [now apply (tidy_push (Forall (Forall (good b S))))|]. intros values1 Hv1.
  eapply tidy_bind.
  { apply (tidy_for_range _ (Forall (good b S))); [constructor|].
    intros h acc Hacc. now apply tidy_llama_head. }
  intros x_attn Hxa.
  eapply tidy_bind; [now apply tidy_lookup|]. intros wo Hwo.
  eapply tidy_bind; [now apply tidy_linear|]. intros x2 Hx2.
  eapply tidy_bind; [now apply tidy_llama_residual|]. intros x3 Hx3.
  eapply tidy_bind; [now apply tidy_rmsnorm|]. intros x4 Hx4.
  eapply tidy_bind; [now apply tidy_lookup|]. intros w_gate Hwg.
  eapply tidy_bind; [now apply tidy_linear|]. intros gate Hgate.
  eapply tidy_bind; [now apply tidy_lookup|]. intros w_up Hwu.
  eapply tidy_bind; [now apply tidy_linear|]. intros up Hup.
  eapply tidy_bind; [now apply tidy_llama_swiglu|]. intros sw Hsw.
  eapply tidy_bind; [now apply tidy_lookup|]. intros w_down Hwd.
  eapply tidy_bind; [now apply tidy_linear|]. intros x5 Hx5.
  eapply tidy_bind; [now apply tidy_llama_residual|]. intros x6 Hx6.
  apply tidy_ret. split; [exact Hx6|]. split; assumption.
Qed.

Lemma tidy_llama (c : Llama.LlamaConfig) (state : State) (tokenId posId : nat)
  (keys values : Llama.Cache) :
  (forall k w, state k = Some w -> Forall (Forall S) w) ->
  good_heads b S keys -> good_heads b S values ->
  tidy b S (Llama.forward c state tokenId posId keys values)
       (good_with b S (good_heads b S) (good_heads b S)).
Proof.
  intros Hstate Hk Hv. unfold Llama.forward.
  eapply tidy_bind; [now apply tidy_lookup|]. intros wte Hwte.
  eapply tidy_bind; [apply tidy_idx; exact Hwte|]. intros x Hx.
  eapply tidy_bind; [now apply tidy_rmsnorm|]. intros x1 Hx1.
  eapply tidy_bind.
  { apply (tidy_for_range _
             (good_with b S (good_heads b S) (good_heads b S)));
      [split; [exact Hx1|split; assumption]|].
    intros li st Hst. now apply tidy_llama_layer. }
  intros [[x2 keys2] values2] (Hx2 & Hk2 & Hv2). simpl in Hx2, Hk2, Hv2.
  eapply tidy_bind; [now apply tidy_rmsnorm|]. intros x3 Hx3.
  eapply tidy_bind; [now apply tidy_lookup|]. intros lm Hlm.
  eapply tidy_bind; [now apply tidy_linear|]. intros logits Hlogits.
  apply tidy_ret. split; [exact Hlogits|]. split; assumption.
Qed.

Lemma tidy_llama_loss (c : Llama.LlamaConfig) (state : State)
  (tokens : list nat) :
  (forall k w, state k = Some w -> Forall (Forall S) w) ->
  tidy b S (train_forward (of_llama c state) tokens)
       (fun r => (b <= fst (fst r))%nat).
Proof.
  intros Hstate.
  apply (tidy_loss (of_llama c state) (good_heads b S) (good_heads b S)).
  - apply fresh_cache_Forall. constructor.
  - apply fresh_cache_Forall. constructor.
  - intros tok pos ks vs Hk Hv. now apply tidy_llama.
Qed.

(** *** Variant C *)

Lemma Forall_set_at {A} (P : A -> Prop) (x : A) : forall xs j,
  Forall P xs -> P x -> Forall P (Deepseek.set_at xs j x).
Proof.
  induction xs as [|y xs IH]; intros j Hxs Hx; simpl.
  - now constructor.
  - inversion Hxs; subst. destruct j as [|j]; constructor; auto.
Qed.

Lemma tidy_zeros (n : nat) :
  tidy b S (Deepseek.zeros n) (Forall (good b S)).
Proof.
  unfold Deepseek.zeros.
  apply (tidy_mapM _ (fun _ => True) (good b S)).
  - apply Forall_forall. auto.
  - intros _ _. apply tidy_new_Value. constructor.
Qed.

Lemma tidy_deepseek_rope_heads (n hd posId : nat) (q : list Value) :
  Forall (good b S) q ->
  tidy b S (Deepseek.rope_heads n hd posId q) (Forall (Forall (good b S))).
Proof.
  intros Hq. unfold Deepseek.rope_heads.
  apply (tidy_for_range _ (Forall (Forall (good b S)))); [constructor|].
  intros h heads Hh. cbv zeta.
  eapply tidy_bind; [apply tidy_apply_rope; now apply Forall_slice|].
  intros r Hr.
  apply tidy_ret. apply Forall_app. split; [exact Hh | now constructor].
Qed.

Lemma tidy_deepseek_logits (hd : nat) (state : State) (li : nat)
  (q_h : list Value) (latents : list (list Value)) :
  (forall k w, state k = Some w -> Forall (Forall S) w) ->
  Forall (good b S) q_h -> Forall (Forall (good b S)) latents ->
  tidy b S (Deepseek.attention_logits hd state li q_h latents)
       (Forall (good b S)).
Proof.
  intros Hstate Hq Hl. unfold Deepseek.attention_logits.
  apply (tidy_for_range _ (Forall (good b S))); [constructor|].
  intros t acc Hacc.
  eapply tidy_bind; [apply tidy_idx; exact Hl|]. intros latent Hlat.
  eapply tidy_bind; [now apply tidy_lookup|]. intros wkv Hwkv.
  eapply tidy_bind; [now apply tidy_linear|]. intros kv_full Hkv.
  cbv zeta.
  eapply tidy_bind; [apply tidy_apply_rope; now apply Forall_slice|].
  intros k_rope Hkr.
  eapply tidy_bind; [apply tidy_new_Value; constructor|]. intros dot Hdot.
  eapply tidy_bind.
  { apply (tidy_for_range _ (good b S)); [exact Hdot|].
    intros j d Hd.
    eapply tidy_bind; [apply tidy_idx; exact Hq|]. intros qj Hqj.
    eapply tidy_bind; [apply tidy_idx; exact Hkr|]. intros kj Hkj.
    eapply tidy_bind; [now apply tidy_mul|]. intros p Hp.
    now apply tidy_add. }
  intros dot' Hdot'.
  eapply tidy_bind; [apply tidy_new_Value; constructor|]. intros s Hs.
  eapply tidy_bind; [now apply tidy_div|]. intros l Hl'.
  apply tidy_ret. apply Forall_app. split; [exact Hacc | now constructor].
Qed.

Lemma tidy_deepseek_values (hd : nat) (state : State) (li : nat)
  (attn_weights : list Value) (latents : list (list Value))
  (head_out : list Value) :
  (forall k w, state k = Some w -> Forall (Forall S) w) ->
  Forall (good b S) attn_weights -> Forall (Forall (good b S)) latents ->
  Forall (good b S) head_out ->
  tidy b S (Deepseek.weighted_values hd state li attn_weights latents head_out)
       (Forall (good b S)).
Proof.
  intros Hstate Hw Hl Hout. unfold Deepseek.weighted_values.
  apply (tidy_for_range _ (Forall (good b S))); [exact Hout|].
  intros t acc Hacc.
  eapply tidy_bind; [apply tidy_idx; exact Hl|]. intros latent Hlat.
  eapply tidy_bind; [now apply tidy_lookup|]. intros wkv Hwkv.
  eapply tidy_bind; [now apply tidy_linear|]. intros kv_full Hkv.
  cbv zeta.
  apply (tidy_for_range _ (Forall (good b S))); [exact Hacc|].
  intros j acc' Hacc'.
  eapply tidy_bind; [apply tidy_idx; exact Hacc'|]. intros hj Hhj.
  eapply tidy_bind; [apply tidy_idx; exact Hw|]. intros wt Hwt.
  eapply tidy_bind; [apply tidy_idx; apply Forall_slice; exact Hkv|].
  intros vj Hvj.
  eapply tidy_bind; [now apply tidy_mul|]. intros p Hp.
  eapply tidy_bind; [now apply tidy_add|]. intros r Hr.
  apply tidy_ret. now apply Forall_set_at.
Qed.

Lemma tidy_deepseek_head (c : Deepseek.DeepseekConfig) (state : State)
  (q_heads : list (list Value)) (cache : Deepseek.Cache) (li h : nat)
  (x_attn : list Value) :
  (forall k w, state k = Some w -> Forall (Forall S) w) ->
  Forall (Forall (good b S)) q_heads -> good_cache b S cache ->
  Forall (good b S) x_attn ->
  tidy b S (Deepseek.attention_head c state q_heads cache li h x_attn)
       (Forall (good b S)).
Proof.
  intros Hstate Hq Hc Hx. unfold Deepseek.attention_head.
  eapply tidy_bind; [apply tidy_idx; exact Hq|]. intros q_h Hqh.
  eapply tidy_bind; [apply tidy_idx; exact Hc|]. intros latents Hl.
  eapply tidy_bind; [now apply tidy_deepseek_logits|]. intros logits Hlg.
  eapply tidy_bind; [now apply tidy_softmax|]. intros weights Hw.
  eapply tidy_bind; [apply tidy_zeros|]. intros head_out Hout.
  eapply tidy_bind; [now apply tidy_deepseek_values|]. intros head_out' Hout'.
  apply tidy_ret. apply Forall_app. split; assumption.
Qed.

Lemma tidy_deepseek_residual (x x_res : list Value) :
  Forall (good b S) x -> Forall (good b S) x_res ->
  tidy b S (Deepseek.add_residual x x_res) (Forall (good b S)).
Proof.
  intros Hx Hr. unfold Deepseek.add_residual.
  apply (tidy_mapiM _ (good b S) (good b S)); [exact Hx|].
  intros xi i Hxi.
  eapply tidy_bind; [apply tidy_idx; exact Hr|]. intros r Hr'.
  now apply tidy_add.
Qed.

Lemma tidy_deepseek_attention (c : Deepseek.DeepseekConfig) (state : State)
  (posId li : nat) (x : list Value) (cache : Deepseek.Cache) :
  (forall k w, state k = Some w -> Forall (Forall S) w) ->
  Forall (good b S) x -> good_cache b S cache ->
  tidy b S (Deepseek.attention c state posId li x cache)
       (fun r => Forall (good b S) (fst r) /\ good_cache b S (snd r)).
Proof.
  intros Hstate Hx Hc. unfold Deepseek.attention.
  eapply tidy_bind; [now apply tidy_rmsnorm|]. intros x1 Hx1.
  eapply tidy_bind; [now apply tidy_lookup|]. intros wq Hwq.
  eapply tidy_bind; [now apply tidy_linear|]. intros q Hq.
  eapply tidy_bind; [now apply tidy_lookup|]. intros wc Hwc.
  eapply tidy_bind; [now apply tidy_linear|]. intros kv_latent Hkv.
  eapply tidy_bind; [now apply (tidy_push (Forall (good b S)))|].
  intros cache1 Hc1.
  eapply tidy_bind; [now apply tidy_deepseek_rope_heads|]. intros q_heads Hqh.
  eapply tidy_bind.
  { apply (tidy_for_range _ (Forall (good b S))); [constructor|].
    intros h acc Hacc. now apply tidy_deepseek_head. }
  intros x_attn Hxa.
  eapply tidy_bind; [now apply tidy_lookup|]. intros wo Hwo.
  eapply tidy_bind; [now apply tidy_linear|]. intros x2 Hx2.
  eapply tidy_bind; [now apply tidy_deepseek_residual|]. intros x3 Hx3.
  apply tidy_ret. split; assumption.
Qed.

Lemma tidy_deepseek_swiglu (gate up : list Value) :
  Forall (good b S) gate -> Forall (good b S) up ->
  tidy b S (Deepseek.swiglu gate up) (Forall (good b S)).
Proof.
  intros Hg Hu. unfold Deepseek.swiglu.
  apply (tidy_for_range _ (Forall (good b S))); [constructor|].
  intros i acc Hacc.
  eapply tidy_bind; [apply tidy_idx; exact Hg|]. intros g Hg'.
  eapply tidy_bind; [now apply tidy_silu|]. intros s Hs.
  eapply tidy_bind; [apply tidy_idx; exact Hu|]. intros u Hu'.
  eapply tidy_bind; [now apply tidy_mul|]. intros m Hm.
  apply tidy_ret. apply Forall_app. split; [exact Hacc | now constructor].
Qed.

Lemma tidy_deepseek_expert (state : State) (li : nat) (x : list Value)
  (e : nat) (outs : list (list Value)) :
  (forall k w, state k = Some w -> Forall (Forall S) w) ->
  Forall (good b S) x -> Forall (Forall (good b S)) outs ->
  tidy b S (Deepseek.expert state li x e outs) (Forall (Forall (good b S))).
Proof.
  intros Hstate Hx Ho. unfold Deepseek.expert.
  eapply tidy_bind; [now apply tidy_lookup|]. intros w_gate Hwg.
  eapply tidy_bind; [now apply tidy_linear|]. intros gate Hgate.
  eapply tidy_bind; [now apply tidy_lookup|]. intros w_up Hwu.
  eapply tidy_bind; [now apply tidy_linear|]. intros up Hup.
  eapply tidy_bind; [now apply tidy_deepseek_swiglu|]. intros sw Hsw.
  eapply tidy_bind; [now apply tidy_lookup|]. intros w_down Hwd.
  eapply tidy_bind; [now apply tidy_linear|]. intros out Hout.
  apply tidy_ret. apply Forall_app. split; [exact Ho | now constructor].
Qed.

Lemma tidy_deepseek_mix (n_experts n_embd : nat) (router_probs : list Value)
  (outs : list (list Value)) (output : list Value) :
  Forall (good b S) router_probs -> Forall (Forall (good b S)) outs ->
  Forall (good b S) output ->
  tidy b S (Deepseek.mix n_experts n_embd router_probs outs output)
       (Forall (good b S)).
Proof.
  intros Hp Ho Hout. unfold Deepseek.mix.
  apply (tidy_for_range _ (Forall (good b S))); [exact Hout|].
  intros e acc Hacc.
  apply (tidy_for_range _ (Forall (good b S))); [exact Hacc|].
  intros j acc' Hacc'.
  eapply tidy_bind; [apply tidy_idx; exact Hacc'|]. intros oj Hoj.
  eapply tidy_bind; [apply tidy_idx; exact Hp|]. intros pe Hpe.
  eapply tidy_bind; [apply tidy_idx; exact Ho|]. intros out_e Hoe.
  eapply tidy_bind; [apply tidy_idx; exact Hoe|]. intros ej Hej.
  eapply tidy_bind; [now apply tidy_mul|]. intros p Hp'.
  eapply tidy_bind; [now apply tidy_add|]. intros r Hr.
  apply tidy_ret. now apply Forall_set_at.
Qed.

Lemma tidy_deepseek_moe (c : Deepseek.DeepseekConfig) (state : State)
  (li : nat) (x : list Value) :
  (forall k w, state k = Some w -> Forall (Forall S) w) ->
  Forall (good b S) x ->
  tidy b S (Deepseek.moe c state li x) (Forall (good b S)).
Proof.
  intros Hstate Hx. unfold Deepseek.moe.
  eapply tidy_bind; [now apply tidy_rmsnorm|]. intros x1 Hx1.
  eapply tidy_bind; [now apply tidy_lookup|]. intros wr Hwr.
  eapply tidy_bind; [now apply tidy_linear|]. intros logits Hlg.
  eapply tidy_bind; [now apply tidy_softmax|]. intros probs Hp.
  eapply tidy_bind.
  { apply (tidy_for_range _ (Forall (Forall (good b S)))); [constructor|].
    intros e acc Hacc. now apply tidy_deepseek_expert. }
  intros outs Ho.
  eapply tidy_bind; [apply tidy_zeros|]. intros output Hout.
  eapply tidy_bind; [now apply tidy_deepseek_mix|]. intros output' Hout'.
  now apply tidy_deepseek_residual.
Qed.

Lemma tidy_deepseek_layer (c : Deepseek.DeepseekConfig) (state : State)
  (posId li : nat) (st : list Value * Deepseek.Cache) :
  (forall k w, state k = Some w -> Forall (Forall S) w) ->
  Forall (good b S) (fst st) /\ good_cache b S (snd st) ->
  tidy b S (Deepseek.layer c state posId li st)
       (fun r => Forall (good b S) (fst r) /\ good_cache b S (snd r)).
Proof.
  intros Hstate Hst. destruct st as [x cache].
  destruct Hst as (Hx & Hc). simpl in Hx, Hc.
  unfold Deepseek.layer.
  eapply tidy_bind; [now apply tidy_deepseek_attention|].
  intros [x1 cache1] (Hx1 & Hc1). simpl in Hx1, Hc1.
  eapply tidy_bind; [now apply tidy_deepseek_moe|]. intros x2 Hx2.
  apply tidy_ret. split; assumption.
Qed.

Lemma tidy_deepseek (c : Deepseek.DeepseekConfig) (state : State)
  (tokenId posId : nat) (cache : Deepseek.Cache) :
  (forall k w, state k = Some w -> Forall (Forall S) w) ->
  good_cache b S cache ->
  tidy b S (Deepseek.forward c state tokenId posId cache)
       (fun r => Forall (good b S) (fst r) /\ good_cache b S (snd r)).
Proof.
  intros Hstate Hc. unfold Deepseek.forward.
  eapply tidy_bind; [now apply tidy_lookup|]. intros wte Hwte.
  eapply tidy_bind; [apply tidy_idx; exact Hwte|]. intros x Hx.
  eapply tidy_bind; [now apply tidy_rmsnorm|]. intros x1 Hx1.
  eapply tidy_bind.
  { apply (tidy_for_range _
             (fun r => Forall (good b S) (fst r) /\ good_cache b S (snd r)));
      [split; assumption|].
    intros li st Hst. now apply tidy_deepseek_layer. }
  intros [x2 cache2] (Hx2 & Hc2). simpl in Hx2, Hc2.
  eapply tidy_bind; [now apply tidy_rmsnorm|]. intros x3 Hx3.
  eapply tidy_bind; [now apply tidy_lookup|]. intros lm Hlm.
  eapply tidy_bind; [now apply tidy_linear|]. intros logits Hlogits.
  apply tidy_ret. split; assumption.
Qed.

Lemma tidy_deepseek_loss (V : Type) (c : Deepseek.DeepseekConfig)
  (state : State) (tokens : list nat) :
  (forall k w, state k = Some w -> Forall (Forall S) w) ->
  tidy b S (train_forward (of_deepseek V c state) tokens)
       (fun r => (b <= fst (fst r))%nat).
Proof.
  intros Hstate.
  apply (tidy_loss (of_deepseek V c state) (good_cache b S) (fun _ => True)).
  - apply fresh_cache_Forall. constructor.
  - exact I.
  - intros tok pos ks vs Hk _. unfold of_deepseek, forward.
    eapply tidy_bind; [now apply tidy_deepseek|].
    intros [logits ks'] (Hl & Hk'). simpl in Hl, Hk'.
    apply tidy_ret. split; [exact Hl|]. split; [exact Hk' | exact I].
Qed.

End Tidy.

End TidyFacts.

(** ** One step of training *)

Module TrainingFacts.

Import Invariants Examples.
Import Num Autograd Store Ops Graph Hoare Pure Shapes Driver Script Models
       Notions.
Import HeapFacts Traversal Chain Backward Operators HoareFacts OpsFacts.
Import PureFacts BlockFacts ShapeFacts DriverFacts TidyFacts AdamFacts.
Local Open Scope R_scope.

(** [train_step] is [train_forward] followed by [backward]. *)
Lemma train_step_split {K V} (model : Model K V) (tokens : list nat)
  (h : Heap) :
  train_step model tokens h =
  bind (train_forward model tokens)
       (fun r => bind (backward (fst (fst r))) (fun _ => ret r)) h.
Proof.
  unfold train_step, train_forward, bind. cbv zeta.
  destruct (for_range _ (train_position model tokens) _ h)
    as [[[[losses ks] vs] h1]|]; [|reflexivity].
  destruct (reduce add2 losses h1) as [[s h2]|]; [|reflexivity].
  destruct (div s _ h2) as [[loss h3]|]; [|reflexivity].
  unfold ret at 1. simpl.
  destruct (backward loss h3) as [[[] h4]|]; reflexivity.
Qed.

Lemma datum_of (h : Heap) (v : Value) (x : R) :
  data_of h v = Some x -> datum h v = x.
Proof.
  unfold data_of, datum. destruct (nth_error h v); simpl; congruence.
Qed.

Lemma nonneg_alloc (L : R -> Prop) (h h' : Heap) (l : Value) :
  allocated L h h' -> nonneg_at h l -> nonneg_at h' l.
Proof.
  intros Hal (x & Hx & H0). exists x. split; [|exact H0].
  eapply allocated_data; eauto.
Qed.

Section Loss.

Context {K V : Type}.
Variable model : Model K V.
Variable vocab : nat.
Variable Inv : Heap -> list (list K) -> list (list V) -> Prop.

Hypothesis Inv_alloc :
  forall h h' ks vs, allocated any h h' -> Inv h ks vs -> Inv h' ks vs.

Hypothesis Hstep :
  forall tok pos ks vs h,
    (tok < vocab)%nat -> (pos < block_size model)%nat -> Inv h ks vs ->
    runs any (forward model tok pos ks vs) h
         (fun r h' =>
            vec_ok h' vocab (fst (fst r)) /\ Inv h' (snd (fst r)) (snd r)).

(** One position of the training loop adds a loss term that is not
    negative: minus the logarithm of a probability. *)
Lemma runs_position_loss (tokens : list nat) (pos : nat)
  (losses : list Value) (ks : list (list K)) (vs : list (list V)) (h : Heap) :
  Forall (fun t => t < vocab)%nat tokens ->
  (S pos < length tokens)%nat -> (pos < block_size model)%nat ->
  length losses = pos -> Forall (nonneg_at h) losses -> Inv h ks vs ->
  runs any (train_position model tokens pos (losses, ks, vs)) h
       (fun st h' =>
          length (fst (fst st)) = S pos /\
          Forall (nonneg_at h') (fst (fst st)) /\
          Inv h' (snd (fst st)) (snd st)).
Proof.
  intros Htok Hlen Hpos Hl Hnn Hinv. unfold train_position.
  rewrite Forall_forall in Htok.
  destruct (nth_error tokens pos) as [tok|] eqn:Etok.
  2:{ apply nth_error_None in Etok. lia. }
  destruct (nth_error tokens (pos + 1)) as [next|] eqn:Enext.
  2:{ apply nth_error_None in Enext. lia. }
  assert (Ht : (tok < vocab)%nat) by (eapply Htok, nth_error_In; eauto).
  assert (Hn : (next < vocab)%nat) by (eapply Htok, nth_error_In; eauto).
  eapply runs_bind; [apply (runs_idx any tokens pos tok h Etok)|].
  intros ? ? _ [-> ->].
  eapply runs_bind; [apply (Hstep tok pos ks vs h Ht Hpos Hinv)|].
  intros [[logits ks1] vs1] h1 Hal1 (Hlg & Hinv1).
  simpl in Hlg, Hinv1.
  destruct (vec_ok_is h1 vocab logits Hlg) as [Hd Hdl].
  assert (Hne : logits <> []).
  { destruct Hlg as [Hll _]. intros ->. simpl in Hll. lia. }
  eapply runs_bind;
    [apply (runs_softmax any logits (data_vec h1 logits) h1 Hd Hne I)|].
  intros probs h2 Hal2 Hp. simpl in Hp.
  eapply runs_bind; [apply (runs_idx any tokens (pos + 1) next h2 Enext)|].
  intros ? ? _ [-> ->].
  assert (Hpl : length probs = vocab).
  { rewrite (Forall2_length Hp). unfold softmax_R. now rewrite !length_map. }
  destruct (vec_is_nth_default h2 probs _ next Hp) as (p & Ep & Hx); [lia|].
  set (x := nth next (softmax_R (data_vec h1 logits)) 0) in *.
  assert (Hrange : 0 < x <= 1).
  { pose proof (softmax_R_range (data_vec h1 logits)) as Hall.
    rewrite Forall_forall in Hall. apply Hall. apply nth_In.
    unfold softmax_R. rewrite !length_map. lia. }
  eapply runs_bind; [apply (runs_idx any probs next p h2 Ep)|].
  intros ? ? _ [-> ->].
  eapply runs_bind; [apply (runs_log any h2 p x Hx)|].
  intros l h3 Hal3 Hlx.
  eapply runs_bind.
  { unfold neg. apply (runs_mul_number any h3 l (ln x) (-1) Hlx I). }
  intros nl h4 Hal4 Hnl.
  apply runs_ret. simpl.
  assert (Hal : allocated any h h4) by eauto using allocated_trans.
  split; [rewrite length_app; simpl; lia|]. split.
  - apply Forall_app. split.
    + eapply Forall_impl; [|exact Hnn]. intros a.
      apply (nonneg_alloc any). exact Hal.
    + constructor; [|constructor]. exists (ln x * -1). split; [exact Hnl|].
      assert (ln x <= 0).
      { destruct Hrange as [H0 [H1| ->]].
        - left. rewrite <- ln_1. now apply ln_increasing.
        - rewrite ln_1. lra. }
      lra.
  - apply (Inv_alloc h1 h4); eauto using allocated_trans.
Qed.

(** The forward passes of one training step return, and the loss they
    build is a number that is not negative. *)
Lemma runs_train_forward (tokens : list nat) (h : Heap) :
  Inv h (fresh_cache (n_layer model)) (fresh_cache (n_layer model)) ->
  Forall (fun t => t < vocab)%nat tokens ->
  (2 <= length tokens)%nat -> (1 <= block_size model)%nat ->
  runs any (train_forward model tokens) h
       (fun r h' =>
          nonneg_at h' (fst (fst r)) /\ Inv h' (snd (fst r)) (snd r)).
Proof.
  intros Hinv Htok Hlen Hblock. unfold train_forward. cbv zeta.
  set (n := Nat.min (block_size model) (length tokens - 1)).
  assert (Hn : (1 <= n)%nat) by (unfold n; lia).
  eapply runs_bind.
  { unfold for_range.
    apply (runs_for any (train_position model tokens)
             (fun j st h' =>
                length (fst (fst st)) = j /\
                Forall (nonneg_at h') (fst (fst st)) /\
                Inv h' (snd (fst st)) (snd st)) n 0%nat).
    - simpl. split; [reflexivity|]. split; [constructor | exact Hinv].
    - intros j [[l k] v] h1 Hal Hj (A & B & C). simpl in A, B, C.
      apply runs_position_loss; auto; unfold n in Hj; lia. }
  intros [[losses ks] vs] h1 Hal1 (Hl & Hnn & Hinv1).
  simpl in Hl, Hnn, Hinv1.
  assert (Hne : losses <> []) by (intros ->; simpl in Hl; lia).
  assert (Hd : vec_is h1 losses (data_vec h1 losses)).
  { clear - Hnn. induction Hnn as [|l losses (x & Hx & _) _ IH];
      constructor; auto.
    now rewrite (datum_of h1 l x Hx). }
  assert (Hsum : 0 <= sum_list (data_vec h1 losses)).
  { clear - Hnn. induction Hnn as [|l losses (x & Hx & H0) _ IH]; simpl.
    - lra.
    - rewrite (datum_of h1 l x Hx). lra. }
  eapply runs_bind; [apply (runs_sum any losses _ h1 Hd Hne)|].
  intros s h2 Hal2 Hs.
  eapply runs_bind; [apply (runs_div_number any h2 s _ (INR n) Hs I)|].
  intros loss h3 Hal3 Hloss.
  apply runs_ret. simpl. split.
  - eexists. split; [exact Hloss|].
    apply Rmult_le_pos; [exact Hsum|].
    left. apply Rinv_0_lt_compat. apply lt_0_INR. lia.
  - apply (Inv_alloc h1 h3); eauto using allocated_trans.
Qed.

End Loss.

(** [backward] from a root all of whose reachable nodes hold gradient 0. *)
Lemma backward_from_zero (h : Heap) (root : Value) :
  wf_heap h -> (root < length h)%nat ->
  (forall v, reachable h root v -> grad_of h v = 0) ->
  exists topo h',
    backward root h = Some (tt, h') /\
    same_graph h h' /\
    (forall v, In v topo <-> reachable h root v) /\
    (forall v, reachable h root v -> grad_of h' v = partial h root v) /\
    (forall v, ~ reachable h root v -> grad_of h' v = grad_of h v).
Proof.
  intros Hwf Hroot Hzero.
  destruct (build_spec h Hwf (length h) root [] [])
    as (vis & topo & Eb & _ & Hreach & [Hrt _] & Hin); auto.
  { split; [constructor | intros x []]. }
  simpl in Eb, Hrt, Hin.
  assert (Hmem : forall v, In v topo <-> reachable h root v).
  { intros v. split.
    - intros Hv. rewrite Forall_forall in Hreach. auto.
    - intros Hr. apply in_rev. eapply rev_topo_closed; eauto.
      now apply in_rev in Hin. }
  destruct (modify_grad_spec h root (fun _ => 1) Hroot)
    as (nr & h0 & Enr & Em & Hsg0 & Hg0).
  destruct (distribute_all_spec (partial h root) (rev topo) h0)
    as (h' & Ed & Hsg' & Hgin & Hgout).
  { eapply same_graph_wf; eauto. }
  { eapply same_graph_rev_topo; eauto. }
  { intros v Hv.
    rewrite (Rsum_ext _ (fun w => if Nat.eqb root w then partial h w v else 0)).
    - rewrite (Rsum_select (fun w => partial h w v)); auto.
      + eapply rev_topo_NoDup; eauto.
      + now apply in_rev in Hin.
    - intros w Hw. rewrite Hg0. unfold partial.
      rewrite <- (same_graph_chain h h0 Hsg0).
      destruct (Nat.eqb root w); [lra|].
      rewrite Hzero; [lra|]. apply Hmem. now apply in_rev. }
  exists topo, h'.
  split.
  { unfold backward. rewrite Eb. unfold bind, set_grad.
    assert (Em' : modify root (with_grad 1) h = Some (tt, h0)) by exact Em.
    rewrite Em'. exact Ed. }
  split; [eapply same_graph_trans; eauto|].
  split; [exact Hmem|]. split.
  - intros v Hr. apply Hgin. apply in_rev. rewrite rev_involutive.
    now apply Hmem.
  - intros v Hnr. rewrite Hgout.
    + rewrite Hg0. destruct (Nat.eqb_spec root v) as [<-|_]; auto.
      exfalso. apply Hnr. now apply reach_refl.
    + intros Hv. apply Hnr. apply Hmem. now apply in_rev.
Qed.

(** From a good node only good nodes are reached, when the nodes of [S]
    are leaves of the old heap and the new nodes are clean. *)
Lemma reach_good (S : Value -> Prop) (h t : Heap) :
  (forall v, S v -> exists n, nth_error h v = Some n /\ _children n = []) ->
  clean (length h) S t ->
  forall u v, reachable (h ++ t) u v ->
    good (length h) S u -> good (length h) S v.
Proof.
  intros Hleaf Hclean u v Hr.
  induction Hr as [u Hu|u c lg v Hin _ IH]; intros Hg; [exact Hg|].
  apply IH. unfold edges in Hin.
  destruct Hg as [Hs|Hnew].
  - destruct (Hleaf u Hs) as (n & En & Hc).
    rewrite nth_error_app1 in Hin by (apply nth_error_Some; congruence).
    rewrite En, Hc in Hin. destruct Hin.
  - rewrite nth_error_app2 in Hin by exact Hnew.
    destruct (nth_error t (u - length h)) as [n|] eqn:En; [|destruct Hin].
    unfold clean in Hclean. rewrite Forall_forall in Hclean.
    destruct (Hclean n (nth_error_In _ _ En)) as [_ Hch].
    rewrite Forall_forall in Hch. apply Hch.
    eapply in_combine_l; eauto.
Qed.

Lemma node_eq (n n' : Node) :
  with_grad 0 n = with_grad 0 n' -> grad n = grad n' -> n = n'.
Proof.
  destruct n, n'. unfold with_grad. simpl. intros E ->.
  now injection E as -> -> ->.
Qed.

(** *** The step on any of the three models *)

Section Exact.

Context {K V : Type}.
Variable model : Model K V.
Variable vocab : nat.
Variable Inv : Heap -> list (list K) -> list (list V) -> Prop.
Variable params : list Value.

Hypothesis Inv_alloc :
  forall h h' ks vs, allocated any h h' -> Inv h ks vs -> Inv h' ks vs.

Hypothesis Hstep :
  forall tok pos ks vs h,
    (tok < vocab)%nat -> (pos < block_size model)%nat -> Inv h ks vs ->
    runs any (forward model tok pos ks vs) h
         (fun r h' =>
            vec_ok h' vocab (fst (fst r)) /\ Inv h' (snd (fst r)) (snd r)).

Hypothesis Htidy :
  forall b tokens,
    tidy b (fun v => In v params) (train_forward model tokens)
         (fun r => (b <= fst (fst r))%nat).

(** The forward passes append the clean nodes [t], and [backward] runs on
    a graph whose reachable nodes all hold gradient 0. *)
Lemma forward_backward (tokens : list nat) (h : Heap) :
  wf_heap h ->
  (forall p, In p params -> exists n, nth_error h p = Some n /\ leaf0 n) ->
  Inv h (fresh_cache (n_layer model)) (fresh_cache (n_layer model)) ->
  Forall (fun t => t < vocab)%nat tokens ->
  (2 <= length tokens)%nat -> (1 <= block_size model)%nat ->
  exists loss ks vs t topo h',
    train_step model tokens h = Some ((loss, ks, vs), h') /\
    clean (length h) (fun v => In v params) t /\
    allocated any h (h ++ t) /\
    (length h <= loss)%nat /\
    nonneg_at (h ++ t) loss /\
    same_graph (h ++ t) h' /\
    (forall v, In v topo <-> reachable (h ++ t) loss v) /\
    (forall v, reachable (h ++ t) loss v ->
               good (length h) (fun v => In v params) v /\
               grad_of h' v = partial (h ++ t) loss v) /\
    (forall v, ~ reachable (h ++ t) loss v ->
               grad_of h' v = grad_of (h ++ t) v) /\
    (forall p, In p params -> grad_of h' p = partial (h ++ t) loss p).
Proof.
  intros Hwf Hleaf Hinv Htok Hlen Hblock.
  destruct (runs_train_forward model vocab Inv Inv_alloc Hstep tokens h Hinv
              Htok Hlen Hblock)
    as ([[loss ks] vs] & h3 & E3 & Hal3 & Hnn & _).
  simpl in Hnn.
  destruct (Htidy (length h) tokens h (loss, ks, vs) h3 (Nat.le_refl _) E3)
    as [(t & -> & Hclean) Hgl].
  simpl in Hgl.
  assert (Hwf3 : wf_heap (h ++ t)) by (eapply allocated_wf; eauto).
  assert (Hloss : (loss < length (h ++ t))%nat).
  { destruct Hnn as (x & Hx & _). eapply data_of_lt; eauto. }
  assert (Hgood : forall v, reachable (h ++ t) loss v ->
                            good (length h) (fun v => In v params) v).
  { intros v Hr.
    apply (reach_good (fun v => In v params) h t) with (u := loss); auto;
      [|now right].
    intros p Hp. destruct (Hleaf p Hp) as (n & En & _ & Hc & _). eauto. }
  assert (Hzero : forall v, reachable (h ++ t) loss v ->
                            grad_of (h ++ t) v = 0).
  { intros v Hr. unfold grad_of.
    destruct (Hgood v Hr) as [Hp|Hnew].
    - destruct (Hleaf v Hp) as (n & En & Hg & _).
      rewrite nth_error_app1 by (apply nth_error_Some; congruence).
      now rewrite En.
    - rewrite nth_error_app2 by exact Hnew.
      destruct (nth_error t (v - length h)) as [n|] eqn:En; [|reflexivity].
      unfold clean in Hclean. rewrite Forall_forall in Hclean.
      now destruct (Hclean n (nth_error_In _ _ En)). }
  destruct (backward_from_zero (h ++ t) loss Hwf3 Hloss Hzero)
    as (topo & h4 & E4 & Hsg & Hmem & Hin & Hout).
  exists loss, ks, vs, t, topo, h4.
  split.
  { rewrite train_step_split. unfold bind. rewrite E3. simpl.
    now rewrite E4. }
  split; [exact Hclean|]. split; [exact Hal3|]. split; [exact Hgl|].
  split; [exact Hnn|].
  split; [exact Hsg|]. split; [exact Hmem|].
  split; [|split; [exact Hout|]].
  - intros v Hr. split; [now apply Hgood | now apply Hin].
  - intros p Hp.
    destruct (in_dec Nat.eq_dec p topo) as [Ht|Ht].
    + apply Hin. now apply Hmem.
    + assert (Hnr : ~ reachable (h ++ t) loss p)
        by (intros Hr; apply Ht; now apply Hmem).
      rewrite (Hout p Hnr), (partial_unreachable _ Hwf3 loss p Hloss Hnr).
      destruct (Hleaf p Hp) as (n & En & Hg & _).
      unfold grad_of.
      rewrite nth_error_app1 by (apply nth_error_Some; congruence).
      now rewrite En.
Qed.

(** The same, on the heap that the step leaves. *)
Lemma step_gradients (tokens : list nat) (h : Heap) :
  wf_heap h ->
  (forall p, In p params -> exists n, nth_error h p = Some n /\ leaf0 n) ->
  Inv h (fresh_cache (n_layer model)) (fresh_cache (n_layer model)) ->
  Forall (fun t => t < vocab)%nat tokens ->
  (2 <= length tokens)%nat -> (1 <= block_size model)%nat ->
  exists loss ks vs h',
    train_step model tokens h = Some ((loss, ks, vs), h') /\
    exact_gradients params h loss h'.
Proof.
  intros Hwf Hleaf Hinv Htok Hlen Hblock.
  destruct (forward_backward tokens h Hwf Hleaf Hinv Htok Hlen Hblock)
    as (loss & ks & vs & t & topo & h' & E & Hclean & Hal & Hfresh & Hnn
        & Hsg & Hmem & Hin & Hout & Hpar).
  assert (Hwf3 : wf_heap (h ++ t)) by (eapply allocated_wf; eauto).
  assert (Hloss : (loss < length (h ++ t))%nat).
  { destruct Hnn as (x & Hx & _). eapply data_of_lt; eauto. }
  assert (Hpart : forall v, partial h' loss v = partial (h ++ t) loss v).
  { intros v. unfold partial. symmetry. now apply same_graph_chain. }
  assert (Hsym : same_graph h' (h ++ t)) by (intros i; symmetry; apply Hsg).
  exists loss, ks, vs, h'. split; [exact E|].
  split; [exact Hfresh|].
  split.
  { destruct Hnn as (x & Hx & H0). exists x. split; [|exact H0].
    unfold data_of in *.
    destruct (nth_error (h ++ t) loss) as [n|] eqn:En; [|discriminate].
    destruct (same_graph_data _ _ _ _ Hsg En) as (n' & En' & Hd & _).
    rewrite En'. simpl in *. congruence. }
  split.
  { intros v Hr. apply (same_graph_reachable _ _ _ _ Hsym) in Hr.
    destruct (Hin v Hr) as [Hg Hgr]. split; [exact Hg|].
    now rewrite Hpart. }
  split.
  { intros p Hp. rewrite Hpart. now apply Hpar. }
  split.
  { intros v Hv. rewrite <- (Hsg v). now rewrite nth_error_app1. }
  intros v Hv Hnp.
  assert (Hnr : ~ reachable (h ++ t) loss v).
  { intros Hr. destruct (Hin v Hr) as [[Hp|Hnew] _]; [auto | lia]. }
  pose proof (Hout v Hnr) as Hg. pose proof (Hsg v) as Hn.
  rewrite nth_error_app1 in Hn by exact Hv.
  unfold grad_of in Hg. rewrite nth_error_app1 in Hg by exact Hv.
  destruct (nth_error h v) as [n|] eqn:En;
    [|apply nth_error_None in En; lia].
  destruct (nth_error h' v) as [n'|]; [|discriminate].
  simpl in Hn. f_equal. apply node_eq; [congruence | exact Hg].
Qed.

End Exact.

(** *** Variant A *)

Lemma gpt_step (c : GPT.Config) (state : State) (vocab : nat) (tok pos : nat)
  (ks vs : GPT.Cache) (h : Heap) :
  (tok < vocab)%nat -> (pos < block_size (of_gpt c state))%nat ->
  gpt_inv c state vocab h ks vs ->
  runs any (forward (of_gpt c state) tok pos ks vs) h
       (fun r h' =>
          vec_ok h' vocab (fst (fst r)) /\
          gpt_inv c state vocab h' (snd (fst r)) (snd r)).
Proof.
  intros Ht Hp Hi.
  apply (runs_weaken any _ h _ _
           (gpt_inv_step c state vocab tok pos ks vs h Ht Hp Hi)).
  intros r h1 _ H. exact (conj (proj1 H) (proj1 (proj2 H))).
Qed.

Lemma gpt_forward_backward (c : GPT.Config) (state : State) (vocab : nat)
  (params : list Value) (tokens : list nat) (h : Heap) :
  trainable c state vocab params h ->
  Forall (fun t => t < vocab)%nat tokens ->
  (2 <= length tokens)%nat -> (1 <= GPT.block_size c)%nat ->
  exists loss ks vs t topo h',
    train_step (of_gpt c state) tokens h = Some ((loss, ks, vs), h') /\
    clean (length h) (fun v => In v params) t /\
    allocated any h (h ++ t) /\
    (length h <= loss)%nat /\
    nonneg_at (h ++ t) loss /\
    same_graph (h ++ t) h' /\
    (forall v, In v topo <-> reachable (h ++ t) loss v) /\
    (forall v, reachable (h ++ t) loss v ->
               good (length h) (fun v => In v params) v /\
               grad_of h' v = partial (h ++ t) loss v) /\
    (forall v, ~ reachable (h ++ t) loss v ->
               grad_of h' v = grad_of (h ++ t) v) /\
    (forall p, In p params -> grad_of h' p = partial (h ++ t) loss p).
Proof.
  intros (Hs & Hwf & Hnd & Hstate & Hleaf) Htok Hlen Hblock.
  apply (forward_backward (of_gpt c state) vocab (gpt_inv c state vocab) params
           (gpt_inv_alloc c state vocab) (gpt_step c state vocab)
           (fun b tokens =>
              tidy_train_forward b (fun v => In v params) c state tokens
                                 Hstate)
           tokens h Hwf Hleaf (gpt_inv_fresh c state vocab h Hs) Htok Hlen
           Hblock).
Qed.

(** X19.  One step of training on Variant A, from parameters that are
    leaves with gradient 0.  The step returns; the loss is not negative;
    every node that [loss.backward()] reaches is a parameter or a node
    made during the step, and held gradient 0, so that afterwards its
    gradient is the partial derivative of the loss with respect to it, as is
    the gradient of every parameter.  Of the nodes that existed before the
    step only gradients have changed, and only those of parameters. *)
Theorem gpt_train_step_gradients (c : GPT.Config) (state : State)
  (vocab : nat) (params : list Value) (tokens : list nat) (h : Heap) :
  trainable c state vocab params h ->
  Forall (fun t => t < vocab)%nat tokens ->
  (2 <= length tokens)%nat -> (1 <= GPT.block_size c)%nat ->
  exists loss ks vs h',
    train_step (of_gpt c state) tokens h = Some ((loss, ks, vs), h') /\
    (length h <= loss)%nat /\
    nonneg_at h' loss /\
    (forall v, reachable h' loss v ->
       (In v params \/ (length h <= v)%nat) /\
       grad_of h' v = partial h' loss v) /\
    (forall p, In p params -> grad_of h' p = partial h' loss p) /\
    (forall v, (v < length h)%nat ->
       option_map (with_grad 0) (nth_error h' v) =
       option_map (with_grad 0) (nth_error h v)) /\
    (forall v, (v < length h)%nat -> ~ In v params ->
       nth_error h' v = nth_error h v).
Proof.
  intros (Hs & Hwf & Hnd & Hstate & Hleaf) Htok Hlen Hblock.
  destruct (step_gradients (of_gpt c state) vocab (gpt_inv c state vocab)
              params (gpt_inv_alloc c state vocab) (gpt_step c state vocab)
              (fun b tokens =>
                 tidy_train_forward b (fun v => In v params) c state tokens
                                    Hstate)
              tokens h Hwf Hleaf (gpt_inv_fresh c state vocab h Hs) Htok Hlen
              Hblock)
    as (loss & ks & vs & h' & E & Hexact).
  exists loss, ks, vs, h'. split; [exact E | exact Hexact].
Qed.

Lemma filled_params (rows cols : nat) :
  Forall (Forall (fun v => In v [0%nat])) (filled rows cols).
Proof.
  unfold filled. apply Forall_forall. intros row Hrow.
  apply repeat_spec in Hrow. subst row.
  apply Forall_forall. intros v Hv. apply repeat_spec in Hv. now left.
Qed.

Lemma small_stored : stored small_state [0%nat] one_leaf.
Proof.
  split; [exact Caches.one_leaf_wf|].
  split; [repeat constructor; intros []|].
  split.
  - intros k w E. unfold small_state, table in E.
    destruct (find _ _) as [[k' w']|] eqn:Ef; [|discriminate].
    simpl in E. injection E as ->.
    apply find_some in Ef. destruct Ef as [Hin _].
    simpl in Hin.
    repeat (destruct Hin as [E|Hin];
            [injection E as _ <-; apply filled_params|]).
    destruct Hin.
  - intros p [<-|[]]. eexists. split; [reflexivity|].
    repeat split.
Qed.

Lemma small_trainable : trainable small_gpt small_state 1 [0%nat] one_leaf.
Proof. split; [exact Caches.small_gpt_shaped | exact small_stored]. Qed.

Lemma gpt_train_step_gradients_witness :
  exists loss ks vs h',
    train_step (of_gpt small_gpt small_state) [0; 0]%nat one_leaf =
      Some ((loss, ks, vs), h') /\
    (length one_leaf <= loss)%nat /\
    nonneg_at h' loss /\
    (forall v, reachable h' loss v ->
       (In v [0%nat] \/ (length one_leaf <= v)%nat) /\
       grad_of h' v = partial h' loss v) /\
    (forall p, In p [0%nat] -> grad_of h' p = partial h' loss p) /\
    (forall v, (v < length one_leaf)%nat ->
       option_map (with_grad 0) (nth_error h' v) =
       option_map (with_grad 0) (nth_error one_leaf v)) /\
    (forall v, (v < length one_leaf)%nat -> ~ In v [0%nat] ->
       nth_error h' v = nth_error one_leaf v).
Proof.
  apply (gpt_train_step_gradients small_gpt small_state 1 [0%nat] [0; 0]%nat
           one_leaf small_trainable).
  - repeat constructor.
  - simpl. lia.
  - simpl. lia.
Defined.

Lemma has_matrix_le (h h' : Heap) (state : State) (key : string)
  (rows cols : nat) :
  (length h <= length h')%nat ->
  has_matrix h state key rows cols -> has_matrix h' state key rows cols.
Proof.
  intros Hle (w & Ew & Hr & Hall). exists w. split; [exact Ew|].
  split; [exact Hr|].
  eapply Forall_impl; [|exact Hall]. intros row [Hl Hv]. split; [exact Hl|].
  eapply Forall_impl; [|exact Hv]. simpl. intros; lia.
Qed.

Lemma gpt_shaped_le (h h' : Heap) (c : GPT.Config) (state : State)
  (vocab : nat) :
  (length h <= length h')%nat ->
  gpt_shaped h c state vocab -> gpt_shaped h' c state vocab.
Proof.
  intros Hle (A & B & C & D & E & F & G).
  split; [exact A|]. split; [exact B|]. split; [exact C|].
  split; [now apply (has_matrix_le h)|].
  split; [now apply (has_matrix_le h)|].
  split; [now apply (has_matrix_le h)|].
  intros li Hli. destruct (G li Hli) as (G1 & G2 & G3 & G4 & G5 & G6).
  split; [now apply (has_matrix_le h)|].
  split; [now apply (has_matrix_le h)|].
  split; [now apply (has_matrix_le h)|].
  split; [now apply (has_matrix_le h)|].
  split; now apply (has_matrix_le h).
Qed.

(** One iteration of the training loop of [gpt.ts], in detail. *)
Lemma training_step_spec (c : GPT.Config) (state : State) (vocab : nat)
  (params : list Value) (tokens : list nat) (step numSteps : nat)
  (m v : list R) (h : Heap) :
  trainable c state vocab params h ->
  length m = length params -> length v = length params ->
  Forall (fun t => t < vocab)%nat tokens ->
  (2 <= length tokens)%nat -> (1 <= GPT.block_size c)%nat ->
  exists loss ks vs h1 m' v' h',
    train_step (of_gpt c state) tokens h = Some ((loss, ks, vs), h1) /\
    training_step c state params tokens step numSteps (m, v) h =
      Some ((loss, (m', v')), h') /\
    trainable c state vocab params h' /\
    length m' = length params /\ length v' = length params /\
    (length h <= length h')%nat /\
    nonneg_at h' loss /\
    (forall i p, nth_error params i = Some p ->
       nth i m' 0 = moment1 (nth i m 0) (partial h1 loss p) /\
       nth i v' 0 = moment2 (nth i v 0) (partial h1 loss p) /\
       datum h' p = updated step numSteps (datum h p) (nth i m 0) (nth i v 0)
                            (partial h1 loss p)).
Proof.
  intros Htr Hm Hv Htok Hlen Hblock.
  destruct (gpt_forward_backward c state vocab params tokens h Htr Htok Hlen
              Hblock)
    as (loss & ks & vs & t & topo & h1 & E & Hclean & Hal & Hfresh & Hnn
        & Hsg & Hmem & Hin & Hout & Hpar).
  destruct Htr as (Hs & Hwf & Hnd & Hstate & Hleaf).
  assert (Hwf3 : wf_heap (h ++ t)) by (eapply allocated_wf; eauto).
  assert (Hwf1 : wf_heap h1) by (eapply same_graph_wf; eauto).
  assert (Hl1 : length h1 = (length h + length t)%nat).
  { rewrite <- (same_graph_length _ _ Hsg). apply length_app. }
  assert (Hpart : forall p, partial h1 loss p = partial (h ++ t) loss p).
  { intros p. unfold partial. symmetry. now apply same_graph_chain. }
  assert (Hold : forall p, In p params ->
            exists n n1, nth_error h p = Some n /\ nth_error h1 p = Some n1 /\
                         leaf0 n /\ data n1 = data n /\
                         _children n1 = [] /\ _localGrads n1 = [] /\
                         grad n1 = partial h1 loss p).
  { intros p Hp. destruct (Hleaf p Hp) as (n & En & Hl0).
    assert (En3 : nth_error (h ++ t) p = Some n).
    { rewrite nth_error_app1; [exact En|]. apply nth_error_Some. congruence. }
    destruct (same_graph_data _ _ _ _ Hsg En3) as (n1 & En1 & Hd & Hc & Hlg).
    exists n, n1. destruct Hl0 as (Hg0 & Hc0 & Hlg0).
    repeat split; auto; try congruence.
    rewrite Hpart, <- (Hpar p Hp). unfold grad_of. now rewrite En1. }
  assert (Hvalid : Forall (fun p => p < length h1)%nat params).
  { apply Forall_forall. intros p Hp.
    destruct (Hold p Hp) as (n & n1 & _ & En1 & _).
    apply nth_error_Some. congruence. }
  destruct (AdamFacts.adam_from_spec step numSteps params 0 m v h1 Hnd Hvalid)
    as (m' & v' & h' & Ea & Hlm & Hlv & Hlh & Hupd & _ & Hrest); [lia|lia|].
  exists loss, ks, vs, h1, m', v', h'.
  split; [exact E|]. split.
  { unfold training_step, bind. rewrite E.
    unfold adam_update, reduce_init. rewrite Ea. reflexivity. }
  assert (Hnew : forall p, In p params ->
            exists n n1 i, nth_error params i = Some p /\
              nth_error h p = Some n /\ nth_error h1 p = Some n1 /\
              nth_error h' p =
                Some (mkNode (updated step numSteps (data n) (nth i m 0)
                                      (nth i v 0) (partial h1 loss p)) 0 [] []) /\
              nth i m' 0 = moment1 (nth i m 0) (partial h1 loss p) /\
              nth i v' 0 = moment2 (nth i v 0) (partial h1 loss p)).
  { intros p Hp. destruct (In_nth_error _ _ Hp) as (i & Hi).
    destruct (Hold p Hp) as (n & n1 & En & En1 & _ & Hd & Hc & Hlg & Hg).
    destruct (Hupd i p Hi) as (n1' & En1' & Hmi & Hvi & Hp').
    assert (n1' = n1) by congruence. subst n1'. simpl in Hmi, Hvi, Hp'.
    rewrite Hd, Hc, Hlg, Hg in Hp'. rewrite Hg in Hmi, Hvi.
    exists n, n1, i. auto 10. }
  split; [|split; [congruence|split; [congruence|split; [lia|split]]]].
  - split; [apply (gpt_shaped_le h); [lia | exact Hs]|].
    split.
    { intros w n5 En5.
      destruct (in_dec Nat.eq_dec w params) as [Hp|Hnp].
      - destruct (Hnew w Hp) as (n & n1 & i & _ & _ & _ & Ew & _).
        assert (n5 = mkNode (updated step numSteps (data n) (nth i m 0)
                                     (nth i v 0) (partial h1 loss w)) 0 [] [])
          by congruence.
        subst n5. split; [constructor | reflexivity].
      - rewrite (Hrest w Hnp) in En5. now apply Hwf1. }
    split; [exact Hnd|]. split; [exact Hstate|].
    intros p Hp. destruct (Hnew p Hp) as (n & n1 & i & _ & _ & _ & Ew & _).
    eexists. split; [exact Ew|]. repeat split.
  - assert (Hnp : ~ In loss params).
    { intros Hp. destruct (Hleaf loss Hp) as (n & En & _).
      assert (loss < length h)%nat by (apply nth_error_Some; congruence).
      lia. }
    destruct Hnn as (x & Hx & H0). exists x. split; [|exact H0].
    unfold data_of in *. rewrite (Hrest loss Hnp).
    destruct (nth_error (h ++ t) loss) as [n|] eqn:En; [|discriminate].
    destruct (same_graph_data _ _ _ _ Hsg En) as (n' & En' & Hd & _).
    rewrite En'. simpl in *. congruence.
  - intros i p Hi.
    assert (Hp : In p params) by (eapply nth_error_In; eauto).
    destruct (Hnew p Hp) as (n & n1 & j & Hj & En & _ & Ew & Hmj & Hvj).
    assert (j = i).
    { rewrite NoDup_nth_error in Hnd. apply Hnd; [|congruence].
      apply nth_error_Some. congruence. }
    subst j. split; [exact Hmj|]. split; [exact Hvj|].
    unfold datum. now rewrite Ew, En.
Qed.

(** X20.  One iteration of the training loop of [gpt.ts] keeps what the
    next iteration needs: it returns, with a loss that is not negative; it
    applies the Adam rule to every parameter with the partial derivative of
    the loss with respect to that parameter as the gradient; and it leaves
    the parameters distinct leaves with gradient 0 and the matrices with
    their shapes, so that the next iteration starts as this one did. *)
Theorem training_step_invariant (c : GPT.Config) (state : State)
  (vocab : nat) (params : list Value) (tokens : list nat)
  (step numSteps : nat) (m v : list R) (h : Heap) :
  trainable c state vocab params h ->
  length m = length params -> length v = length params ->
  Forall (fun t => t < vocab)%nat tokens ->
  (2 <= length tokens)%nat -> (1 <= GPT.block_size c)%nat ->
  exists loss ks vs h1 m' v' h',
    train_step (of_gpt c state) tokens h = Some ((loss, ks, vs), h1) /\
    training_step c state params tokens step numSteps (m, v) h =
      Some ((loss, (m', v')), h') /\
    trainable c state vocab params h' /\
    length m' = length params /\ length v' = length params /\
    nonneg_at h' loss /\
    (forall i p, nth_error params i = Some p ->
       grad_of h1 p = partial h1 loss p /\
       grad_of h' p = 0 /\
       datum h' p = updated step numSteps (datum h p) (nth i m 0) (nth i v 0)
                            (partial h1 loss p)).
Proof.
  intros Htr Hm Hv Htok Hlen Hblock.
  destruct (training_step_spec c state vocab params tokens step numSteps m v h
              Htr Hm Hv Htok Hlen Hblock)
    as (loss & ks & vs & h1 & m' & v' & h' & E & Et & Htr' & Hlm & Hlv & _
        & Hnn & Hupd).
  destruct (gpt_forward_backward c state vocab params tokens h Htr Htok Hlen
              Hblock)
    as (loss0 & ks0 & vs0 & t & topo & h10 & E0 & _ & _ & _ & _
        & Hsg & _ & _ & _ & Hpar).
  assert (loss0 = loss /\ h10 = h1) as [-> ->]
    by (rewrite E in E0; injection E0 as <- _ _ <-; auto).
  exists loss, ks, vs, h1, m', v', h'.
  split; [exact E|]. split; [exact Et|]. split; [exact Htr'|].
  split; [exact Hlm|]. split; [exact Hlv|]. split; [exact Hnn|].
  intros i p Hi.
  assert (Hp : In p params) by (eapply nth_error_In; eauto).
  destruct (Hupd i p Hi) as (_ & _ & Hd).
  split; [|split; [|exact Hd]].
  - rewrite (Hpar p Hp). unfold partial. now apply same_graph_chain.
  - destruct Htr' as (_ & _ & _ & _ & Hleaf').
    destruct (Hleaf' p Hp) as (n & En & Hg & _).
    unfold grad_of. now rewrite En.
Qed.

Lemma training_step_invariant_witness :
  exists loss ks vs h1 m' v' h',
    train_step (of_gpt small_gpt small_state) [0; 0]%nat one_leaf =
      Some ((loss, ks, vs), h1) /\
    training_step small_gpt small_state [0%nat] [0; 0]%nat 0 500 ([0], [0])
                  one_leaf =
      Some ((loss, (m', v')), h') /\
    trainable small_gpt small_state 1 [0%nat] h' /\
    length m' = length [0%nat] /\ length v' = length [0%nat] /\
    nonneg_at h' loss /\
    (forall i p, nth_error [0%nat] i = Some p ->
       grad_of h1 p = partial h1 loss p /\
       grad_of h' p = 0 /\
       datum h' p = updated 0 500 (datum one_leaf p) (nth i [0] 0)
                            (nth i [0] 0) (partial h1 loss p)).
Proof.
  apply (training_step_invariant small_gpt small_state 1 [0%nat] [0; 0]%nat
           0 500 [0] [0] one_leaf small_trainable).
  - reflexivity.
  - reflexivity.
  - repeat constructor.
  - simpl. lia.
  - simpl. lia.
Defined.

(** *** The training loop *)

Lemma training_loop_from (c : GPT.Config) (state : State)
  (params : list Value) (docs : list (list nat)) (numSteps : nat) :
  docs <> [] -> (1 <= GPT.block_size c)%nat ->
  forall n lo m v h,
    trainable c state (vocabSize docs) params h ->
    length m = length params -> length v = length params ->
    exists m' v' h',
      for_from n lo
        (fun step mv =>
           bind (idx docs (step mod length docs))
                (fun doc =>
                   bind (training_step c state params
                           (map (as_index (vocabSize docs)) (tokens docs doc))
                           step numSteps mv)
                        (fun r => ret (snd r))))
        (m, v) h = Some ((m', v'), h') /\
      trainable c state (vocabSize docs) params h' /\
      length m' = length params /\ length v' = length params.
Proof.
  intros Hdocs Hblock. induction n as [|n IH]; intros lo m v h Htr Hm Hv.
  - exists m, v, h. split; [reflexivity|]. auto.
  - cbn [for_from].
    assert (Hlt : (lo mod length docs < length docs)%nat).
    { apply Nat.mod_upper_bound. destruct docs; [congruence | discriminate]. }
    destruct (nth_error docs (lo mod length docs)) as [doc|] eqn:Edoc;
      [|apply nth_error_None in Edoc; lia].
    destruct (TokenizerFacts.encoded_tokens docs doc (nth_error_In _ _ Edoc))
      as [Htok Hlen].
    destruct (training_step_spec c state (vocabSize docs) params _ lo numSteps
                m v h Htr Hm Hv Htok Hlen Hblock)
      as (loss & ks & vs & h1 & m1 & v1 & h2 & _ & Et & Htr2 & Hm1 & Hv1 & _).
    destruct (IH (S lo) m1 v1 h2 Htr2 Hm1 Hv1)
      as (m' & v' & h' & E' & Htr' & Hm' & Hv').
    exists m', v', h'. split; [|auto].
    unfold bind at 1. unfold idx. rewrite Edoc. unfold ret at 1.
    unfold bind at 1. unfold bind at 1. rewrite Et. unfold ret at 1.
    exact E'.
Qed.

(** X21.  The training of [gpt.ts] from the beginning.  On every data set
    with at least one document, the statements that make the parameters
    return, and the training loop then runs all its [numSteps] iterations
    without an error, whatever numbers are drawn for the initial
    parameters; at the end the parameters are still distinct leaves with
    gradient 0 in matrices of the right shapes. *)
Theorem training_loop_runs (c : GPT.Config) (docs : list (list nat))
  (random : nat -> R) (numSteps : nat) :
  docs <> [] ->
  GPT.n_embd c = (GPT.n_head c * GPT.head_dim c)%nat ->
  (0 < GPT.n_head c)%nat -> (0 < GPT.head_dim c)%nat ->
  (1 <= GPT.block_size c)%nat ->
  exists state params h0 m v h1,
    parameters c (vocabSize docs) random [] = Some ((state, params), h0) /\
    training_loop c (state_of state) params docs numSteps h0 =
      Some ((m, v), h1) /\
    trainable c (state_of state) (vocabSize docs) params h1 /\
    length m = length params /\ length v = length params.
Proof.
  intros Hdocs H1 H2 H3 Hblock.
  destruct (ParameterFacts.construction random (gpt_specs c (vocabSize docs))
              (parameters c (vocabSize docs) random) []
              (ParameterFacts.parameters_defines c (vocabSize docs) random)
              (ParameterFacts.gpt_keys c (vocabSize docs)))
    as (state & t & E & Hlen & Hleaf & Hkeys & Hall & Hflat).
  simpl in E, Hall, Hflat.
  assert (Htr : trainable c (state_of state) (vocabSize docs)
                          (seq 0 (length t)) t).
  { split; [now apply ParameterFacts.gpt_entries_shaped|].
    apply (ParameterFacts.entries_stored state [] t); auto.
    intros i n Hi. destruct i; discriminate. }
  destruct (training_loop_from c (state_of state) (seq 0 (length t)) docs
              numSteps Hdocs Hblock numSteps 0
              (repeat 0 (length (seq 0 (length t))))
              (repeat 0 (length (seq 0 (length t)))) t Htr)
    as (m & v & h1 & El & Htr1 & Hm & Hv);
    [apply repeat_length | apply repeat_length|].
  exists state, (seq 0 (length t)), t, m, v, h1.
  split; [exact E|]. split; [exact El|]. auto.
Qed.

Lemma training_loop_runs_witness :
  exists state params h0 m v h1,
    parameters small_gpt (vocabSize [[5; 3]%nat]) (fun _ => 0) [] =
      Some ((state, params), h0) /\
    training_loop small_gpt (state_of state) params [[5; 3]%nat] 2 h0 =
      Some ((m, v), h1) /\
    trainable small_gpt (state_of state) (vocabSize [[5; 3]%nat]) params h1 /\
    length m = length params /\ length v = length params.
Proof.
  apply (training_loop_runs small_gpt [[5; 3]%nat] (fun _ => 0) 2).
  - discriminate.
  - reflexivity.
  - simpl. lia.
  - simpl. lia.
  - simpl. lia.
Defined.

(** *** Variants B and C *)

Lemma llama_step (c : Llama.LlamaConfig) (state : State) (vocab : nat)
  (tok pos : nat) (ks vs : Llama.Cache) (h : Heap) :
  (tok < vocab)%nat -> (pos < block_size (of_llama c state))%nat ->
  llama_inv c state vocab h ks vs ->
  runs any (forward (of_llama c state) tok pos ks vs) h
       (fun r h' =>
          vec_ok h' vocab (fst (fst r)) /\
          llama_inv c state vocab h' (snd (fst r)) (snd r)).
Proof.
  intros Ht _ Hi.
  apply (runs_weaken any _ h _ _
           (llama_inv_step c state vocab tok pos ks vs h Ht Hi)).
  intros r h1 _ H. exact (conj (proj1 H) (proj1 (proj2 H))).
Qed.

Lemma deepseek_step (V : Type) (c : Deepseek.DeepseekConfig) (state : State)
  (vocab : nat) (tok pos : nat) (ks : Deepseek.Cache) (vs : list (list V))
  (h : Heap) :
  (tok < vocab)%nat -> (pos < block_size (of_deepseek V c state))%nat ->
  deepseek_inv c state vocab h ks vs ->
  runs any (forward (of_deepseek V c state) tok pos ks vs) h
       (fun r h' =>
          vec_ok h' vocab (fst (fst r)) /\
          deepseek_inv c state vocab h' (snd (fst r)) (snd r)).
Proof.
  intros Ht _ Hi.
  apply (runs_weaken any _ h _ _
           (deepseek_inv_step V c state vocab tok pos ks vs h Ht Hi)).
  intros r h1 _ H. exact (conj (proj1 H) (proj1 (proj2 H))).
Qed.

(** X22.  One step of [train] on [Llama], from parameters that are leaves
    with gradient 0 in matrices of the right shapes.  The step returns; the
    loss is a new node that holds a number that is not negative; every
    node that [loss.backward()] reaches is a parameter or a node made
    during the step, and afterwards its gradient is the partial derivative
    of the loss with respect to it, as is the gradient of every parameter.
    Of the nodes that existed before the step only gradients have changed,
    and only those of parameters. *)
Theorem llama_train_step_gradients (c : Llama.LlamaConfig) (state : State)
  (vocab : nat) (params : list Value) (tokens : list nat) (h : Heap) :
  llama_shaped h c state vocab -> stored state params h ->
  Forall (fun t => t < vocab)%nat tokens ->
  (2 <= length tokens)%nat -> (1 <= Llama.block_size c)%nat ->
  exists loss ks vs h',
    train_step (of_llama c state) tokens h = Some ((loss, ks, vs), h') /\
    exact_gradients params h loss h'.
Proof.
  intros Hs (Hwf & Hnd & Hstate & Hleaf) Htok Hlen Hblock.
  apply (step_gradients (of_llama c state) vocab (llama_inv c state vocab)
           params (llama_inv_alloc c state vocab) (llama_step c state vocab)
           (fun b tokens =>
              tidy_llama_loss b (fun v => In v params) c state tokens Hstate)
           tokens h Hwf Hleaf (llama_inv_fresh c state vocab h Hs) Htok Hlen
           Hblock).
Qed.

Lemma llama_train_step_gradients_witness :
  exists loss ks vs h',
    train_step (of_llama small_llama small_state) [0; 0]%nat one_leaf =
      Some ((loss, ks, vs), h') /\
    exact_gradients [0%nat] one_leaf loss h'.
Proof.
  apply (llama_train_step_gradients small_llama small_state 1 [0%nat]
           [0; 0]%nat one_leaf Caches.small_llama_shaped small_stored).
  - repeat constructor.
  - simpl. lia.
  - simpl. lia.
Defined.

(** X23.  One step of [train] on [Deepseek], from parameters that are
    leaves with gradient 0 in matrices of the right shapes: the step
    returns, and it leaves the gradients as it does on the other models.
    The keys and values that [forward] rebuilds from the cached latent
    vectors at every position are nodes of the step like any other. *)
Theorem deepseek_train_step_gradients (V : Type)
  (c : Deepseek.DeepseekConfig) (state : State) (vocab : nat)
  (params : list Value) (tokens : list nat) (h : Heap) :
  deepseek_shaped h c state vocab -> stored state params h ->
  Forall (fun t => t < vocab)%nat tokens ->
  (2 <= length tokens)%nat -> (1 <= Deepseek.block_size c)%nat ->
  exists loss ks vs h',
    train_step (of_deepseek V c state) tokens h = Some ((loss, ks, vs), h') /\
    exact_gradients params h loss h'.
Proof.
  intros Hs (Hwf & Hnd & Hstate & Hleaf) Htok Hlen Hblock.
  apply (step_gradients (of_deepseek V c state) vocab
           (deepseek_inv c state vocab) params
           (deepseek_inv_alloc V c state vocab)
           (deepseek_step V c state vocab)
           (fun b tokens =>
              tidy_deepseek_loss b (fun v => In v params) V c state tokens
                                 Hstate)
           tokens h Hwf Hleaf (conj Hs (fresh_cache_ok _ _)) Htok Hlen
           Hblock).
Qed.

Lemma deepseek_train_step_gradients_witness :
  exists loss ks vs h',
    train_step (of_deepseek (list Value) small_deepseek small_state)
               [0; 0]%nat one_leaf =
      Some ((loss, ks, vs), h') /\
    exact_gradients [0%nat] one_leaf loss h'.
Proof.
  apply (deepseek_train_step_gradients (list Value) small_deepseek small_state
           1 [0%nat] [0; 0]%nat one_leaf Caches.small_deepseek_shaped
           small_stored).
  - repeat constructor.
  - simpl. lia.
  - simpl. lia.
Defined.

(** *** From the constructor to the first step *)

Lemma wf_heap_nil : wf_heap [].
Proof. intros i n Hi. destruct i; discriminate. Qed.

(** X24.  A model that [new Llama(config, tok)] has just made can be
    trained: on every configuration that the constructor accepts and every
    document of tokens of the vocabulary, the first step of [train] returns
    and leaves in every parameter the partial derivative of the loss with
    respect to it. *)
Theorem llama_first_step (c : Llama.LlamaConfig) (vocabSize : nat)
  (random : nat -> R) (tokens : list nat) (h : Heap) :
  wf_heap h ->
  Llama.n_embd c = (Llama.n_head c * Llama.head_dim c)%nat ->
  Llama.n_head c = (Llama.n_rep c * Llama.n_kv_head c)%nat ->
  (0 < Llama.n_kv_head c)%nat -> (0 < Llama.n_rep c)%nat ->
  (0 < Llama.head_dim c)%nat -> Nat.Even (Llama.head_dim c) ->
  Forall (fun t => t < vocabSize)%nat tokens ->
  (2 <= length tokens)%nat -> (1 <= Llama.block_size c)%nat ->
  exists state params h0 loss ks vs h1,
    new_Llama c vocabSize random h = Some ((state, params), h0) /\
    train_step (of_llama c (state_of state)) tokens h0 =
      Some ((loss, ks, vs), h1) /\
    exact_gradients params h0 loss h1.
Proof.
  intros Hwf H1 H2 H3 H4 H5 H6 Htok Hlen Hblock.
  destruct (ParameterFacts.construction random (llama_specs c vocabSize)
              (new_Llama c vocabSize random) h
              (ParameterFacts.new_Llama_defines c vocabSize random)
              (ParameterFacts.llama_keys c vocabSize))
    as (state & t & E & _ & Hleaf & _ & Hall & Hflat).
  pose proof (ParameterFacts.llama_entries_shaped c vocabSize state (h ++ t)
                Hall H1 H2 H3 H4 H5 H6) as Hs.
  destruct (ParameterFacts.entries_stored state h t Hwf Hleaf Hflat)
    as (Hwf' & Hnd & Hstate & Hl).
  destruct (step_gradients (of_llama c (state_of state)) vocabSize
              (llama_inv c (state_of state) vocabSize)
              (seq (length h) (length t))
              (llama_inv_alloc c (state_of state) vocabSize)
              (llama_step c (state_of state) vocabSize)
              (fun b tokens =>
                 tidy_llama_loss b _ c (state_of state) tokens Hstate)
              tokens (h ++ t) Hwf' Hl
              (llama_inv_fresh c (state_of state) vocabSize (h ++ t) Hs)
              Htok Hlen Hblock)
    as (loss & ks & vs & h1 & Es & Hex).
  exists state, (seq (length h) (length t)), (h ++ t), loss, ks, vs, h1.
  split; [exact E|]. split; [exact Es | exact Hex].
Qed.

Lemma llama_first_step_witness :
  exists state params h0 loss ks vs h1,
    new_Llama small_llama 1 (fun _ => 0) [] = Some ((state, params), h0) /\
    train_step (of_llama small_llama (state_of state)) [0; 0]%nat h0 =
      Some ((loss, ks, vs), h1) /\
    exact_gradients params h0 loss h1.
Proof.
  apply (llama_first_step small_llama 1 (fun _ => 0) [0; 0]%nat []
           wf_heap_nil); try reflexivity; simpl; try lia.
  - exists 1%nat. reflexivity.
  - repeat constructor.
Defined.

(** X25.  A model that [new Deepseek(config, tok)] has just made can be
    trained: on every configuration that the constructor accepts and every
    document of tokens of the vocabulary, the first step of [train] returns
    and leaves in every parameter the partial derivative of the loss with
    respect to it. *)
Theorem deepseek_first_step (V : Type) (c : Deepseek.DeepseekConfig)
  (vocabSize : nat) (random : nat -> R) (tokens : list nat) (h : Heap) :
  wf_heap h ->
  Deepseek.n_embd c = (Deepseek.n_head c * Deepseek.head_dim c)%nat ->
  (2 <= Deepseek.n_head c)%nat ->
  (0 < Deepseek.head_dim c)%nat -> Nat.Even (Deepseek.head_dim c) ->
  (0 < Deepseek.n_experts c)%nat ->
  Forall (fun t => t < vocabSize)%nat tokens ->
  (2 <= length tokens)%nat -> (1 <= Deepseek.block_size c)%nat ->
  exists state params h0 loss ks vs h1,
    new_Deepseek c vocabSize random h = Some ((state, params), h0) /\
    train_step (of_deepseek V c (state_of state)) tokens h0 =
      Some ((loss, ks, vs), h1) /\
    exact_gradients params h0 loss h1.
Proof.
  intros Hwf H1 H2 H3 H4 H5 Htok Hlen Hblock.
  destruct (ParameterFacts.construction random (deepseek_specs c vocabSize)
              (new_Deepseek c vocabSize random) h
              (ParameterFacts.new_Deepseek_defines c vocabSize random)
              (ParameterFacts.deepseek_keys c vocabSize))
    as (state & t & E & _ & Hleaf & _ & Hall & Hflat).
  pose proof (ParameterFacts.deepseek_entries_shaped c vocabSize state (h ++ t)
                Hall H1 H2 H3 H4 H5) as Hs.
  destruct (ParameterFacts.entries_stored state h t Hwf Hleaf Hflat)
    as (Hwf' & Hnd & Hstate & Hl).
  destruct (step_gradients (of_deepseek V c (state_of state)) vocabSize
              (deepseek_inv c (state_of state) vocabSize)
              (seq (length h) (length t))
              (deepseek_inv_alloc V c (state_of state) vocabSize)
              (deepseek_step V c (state_of state) vocabSize)
              (fun b tokens =>
                 tidy_deepseek_loss b _ V c (state_of state) tokens Hstate)
              tokens (h ++ t) Hwf' Hl (conj Hs (fresh_cache_ok _ _))
              Htok Hlen Hblock)
    as (loss & ks & vs & h1 & Es & Hex).
  exists state, (seq (length h) (length t)), (h ++ t), loss, ks, vs, h1.
  split; [exact E|]. split; [exact Es | exact Hex].
Qed.

Lemma deepseek_first_step_witness :
  exists state params h0 loss ks vs h1,
    new_Deepseek small_deepseek 1 (fun _ => 0) [] =
      Some ((state, params), h0) /\
    train_step (of_deepseek (list Value) small_deepseek (state_of state))
               [0; 0]%nat h0 =
      Some ((loss, ks, vs), h1) /\
    exact_gradients params h0 loss h1.
Proof.
  apply (deepseek_first_step (list Value) small_deepseek 1 (fun _ => 0)
           [0; 0]%nat [] wf_heap_nil); try reflexivity; simpl; try lia.
  - exists 1%nat. reflexivity.
  - repeat constructor.
Defined.

End TrainingFacts.

(** ** The linear map, and the model before training *)

Module InitialFacts.

Import Invariants Examples.
Import Num Autograd Store Ops Graph Hoare Pure Shapes Driver Notions.
Import HeapFacts HoareFacts OpsFacts PureFacts BlockFacts ShapeFacts.
Local Open Scope R_scope.

Lemma vec_is_data (h : Heap) (v : list Value) (xs : list R) :
  vec_is h v xs -> data_vec h v = xs.
Proof.
  induction 1 as [|a x v xs Ha _ IH]; simpl; [reflexivity|].
  unfold datum. unfold data_of in Ha.
  destruct (nth_error h a) as [n|]; [|discriminate].
  simpl in Ha. injection Ha as ->. now rewrite <- IH.
Qed.

(** X26.  [linear(x, w)], when no row of [w] is longer than [x], returns
    one new node per row of [w], in order; node [i] holds the sum of
    [w[i][j] * x[j]] over the positions [j] of row [i], so that the entries
    of [x] past the end of a row are not read.  It changes no node that
    existed, and the only leaves it makes are the accumulators
    [new Value(0)]. *)
Theorem linear_spec (x : list Value) (w : list (list Value)) (xs : list R)
  (ws : list (list R)) (h : Heap) :
  vec_is h x xs -> mat_is h w ws ->
  Forall (fun row => length row <= length x)%nat w ->
  exists out t,
    linear x w h = Some (out, h ++ t) /\
    length out = length w /\
    data_vec (h ++ t) out = map (fun row => dot row xs) ws /\
    Forall (fun n => _children n = [] -> data n = 0) t.
Proof.
  intros Hx Hw Hlen.
  destruct (runs_linear (fun d => d = 0) x w xs ws h eq_refl Hx Hw Hlen)
    as (out & h' & E & (t & -> & Hnew) & Hout).
  exists out, t. split; [exact E|].
  split.
  { rewrite (vec_is_length _ _ _ Hout), linear_R_length.
    symmetry. exact (Forall2_length Hw). }
  split; [exact (vec_is_data _ _ _ Hout)|].
  apply Forall_forall. intros n Hn Hc.
  destruct (In_nth_error _ _ Hn) as (i & Hi).
  now destruct (Hnew i n Hi) as [_ HL]; auto.
Qed.

Lemma linear_spec_witness :
  exists out t,
    linear [0%nat] [[0%nat]; []] one_leaf = Some (out, one_leaf ++ t) /\
    length out = length [[0%nat]; @nil Value] /\
    data_vec (one_leaf ++ t) out = map (fun row => dot row [1]) [[1]; []] /\
    Forall (fun n => _children n = [] -> data n = 0) t.
Proof.
  apply (linear_spec [0%nat] [[0%nat]; []] [1] [[1]; []] one_leaf).
  - repeat constructor.
  - repeat constructor.
  - repeat constructor.
Defined.

(** *** Matrices of zeros *)

Lemma dot_zero (row x : list R) : Forall (fun r => r = 0) row -> dot row x = 0.
Proof.
  intros H. revert x. unfold dot, sum_list.
  induction H as [|r row -> _ IH]; intros [|y x]; simpl; try reflexivity.
  rewrite IH. ring.
Qed.

Lemma linear_R_zero (xs : list R) (ws : list (list R)) :
  Forall (Forall (fun r => r = 0)) ws -> linear_R xs ws = repeat 0 (length ws).
Proof.
  unfold linear_R. induction 1 as [|row ws Hrow _ IH]; simpl; [reflexivity|].
  now rewrite (dot_zero row xs Hrow), IH.
Qed.

Lemma residual_zero_from (rs pre : list R) :
  mapi (fun x i => x + nth i (pre ++ rs) 0) (repeat 0 (length rs)) (length pre)
  = rs.
Proof.
  revert pre. induction rs as [|r rs IH]; intros pre; simpl; [reflexivity|].
  f_equal.
  - rewrite nth_middle. ring.
  - specialize (IH (pre ++ [r])).
    rewrite length_app, Nat.add_1_r, <- app_assoc in IH. exact IH.
Qed.

Lemma residual_R_zero (rs : list R) (n : nat) :
  n = length rs -> residual_R (repeat 0 n) rs = rs.
Proof. intros ->. exact (residual_zero_from rs []). Qed.

Lemma data_mat_alloc (L : R -> Prop) (h h' : Heap) (rows cols : nat)
  (w : list (list Value)) :
  allocated L h h' -> mat_ok h rows cols w -> data_mat h' w = data_mat h w.
Proof.
  intros (t & -> & _) [_ Hw]. unfold data_mat, data_vec.
  apply map_ext_in. intros row Hrow.
  rewrite Forall_forall in Hw. destruct (Hw row Hrow) as [_ Hv].
  apply map_ext_in. intros v Hin. unfold datum.
  rewrite Forall_forall in Hv. now rewrite nth_error_app1 by now apply Hv.
Qed.

Lemma state_data_alloc (L : R -> Prop) (h h' : Heap) (state : State)
  (key : string) (rows cols : nat) :
  allocated L h h' -> has_matrix h state key rows cols ->
  state_data h' state key = state_data h state key.
Proof.
  intros Hal (w & Ew & Hw). unfold state_data. rewrite Ew.
  now apply (data_mat_alloc L h h' rows cols).
Qed.

(** The matrix stored under [key], applied to [x]. *)
Lemma runs_linear_stored (h : Heap) (state : State) (key : string)
  (rows cols : nat) (x : list Value) (xs : list R) :
  has_matrix h state key rows cols -> vec_is h x xs -> (cols <= length x)%nat ->
  runs any (bind (lookup state key) (fun w => linear x w)) h
       (fun out h' => vec_is h' out (linear_R xs (state_data h state key))).
Proof.
  intros (w & Ew & Hw) Hx Hc. unfold state_data. rewrite Ew.
  eapply runs_bind; [apply (runs_lookup any state key w h Ew)|].
  intros ? ? _ [-> ->].
  apply (runs_linear any x w xs _ h I Hx (mat_ok_is h rows cols w Hw)).
  destruct Hw as [_ Hrows].
  eapply Forall_impl; [|exact Hrows]. intros r [Hr _]. simpl. lia.
Qed.

Lemma state_data_length (h : Heap) (state : State) (key : string)
  (rows cols : nat) :
  has_matrix h state key rows cols -> length (state_data h state key) = rows.
Proof.
  intros (w & Ew & [Hl _]). unfold state_data, data_mat.
  now rewrite Ew, length_map.
Qed.

(** A block whose last matrix holds zeros adds nothing to the residual
    stream. *)
Lemma runs_zero_block (h : Heap) (state : State) (key : string)
  (n cols : nat) (y x_res : list Value) (xs : list R) :
  has_matrix h state key n cols ->
  Forall (Forall (fun r => r = 0)) (state_data h state key) ->
  vec_ok h cols y -> vec_is h x_res xs -> length xs = n ->
  runs any (bind (bind (lookup state key) (fun w => linear y w))
                 (fun x => GPT.add_residual x x_res)) h
       (fun out h' => vec_is h' out xs).
Proof.
  intros HM Hz Hy Hres Hlen.
  destruct (vec_ok_is h cols y Hy) as [Hd Hl].
  eapply runs_bind.
  { apply (runs_linear_stored h state key n cols y _ HM Hd).
    destruct Hy as [Hyl _]. lia. }
  intros x h1 Hal1 Hx. cbv beta in Hx.
  rewrite (linear_R_zero _ _ Hz), (state_data_length h state key n cols HM)
    in Hx.
  eapply runs_weaken.
  - apply (runs_residual any x x_res _ xs h1 Hx
             (vec_is_alloc any h h1 x_res xs Hal1 Hres)).
    rewrite (vec_is_length _ _ _ Hx), (vec_is_length _ _ _ Hres),
      repeat_length. lia.
  - intros out h2 _ Hout. cbv beta in Hout.
    now rewrite (residual_R_zero xs n (eq_sym Hlen)) in Hout.
Qed.

(** One layer of [gpt] whose matrices [attn_wo] and [mlp_fc2] hold zeros
    hands on the vector it received. *)
Lemma gpt_layer_initial (c : GPT.Config) (state : State) (vocab : nat)
  (keys0 values0 : GPT.Cache) (li : nat) (x : list Value) (xs : list R)
  (keys values : GPT.Cache) (h : Heap) :
  let n := GPT.n_embd c in
  gpt_shaped h c state vocab -> (li < GPT.n_layer c)%nat ->
  vec_is h x xs -> length xs = n ->
  caches_ok (vec_ok h n) (vec_ok h n) (GPT.n_layer c) keys0 values0 li
            keys values ->
  Forall (Forall (fun r => r = 0))
         (state_data h state (layer_key li "attn_wo")) ->
  Forall (Forall (fun r => r = 0))
         (state_data h state (layer_key li "mlp_fc2")) ->
  runs any (GPT.layer c state li (x, keys, values)) h
       (fun st h' =>
          vec_is h' (fst (fst st)) xs /\
          caches_ok (vec_ok h' n) (vec_ok h' n) (GPT.n_layer c) keys0 values0
                    (S li) (snd (fst st)) (snd st)).
Proof.
  intros n (En & Hnh & Hhd & _ & _ & _ & Hlay) Hli Hxs Hlen Hc Zo Z2.
  destruct (Hlay li Hli) as (Mq & Mk & Mv & Mo & M1 & M2). clear Hlay.
  fold n in Mq, Mk, Mv, Mo, M1, M2.
  assert (Hn : (0 < n)%nat) by (unfold n; nia).
  pose proof (vec_is_ok h n x xs Hxs Hlen) as Hx.
  assert (Zo' : forall h', allocated any h h' ->
            Forall (Forall (fun r => r = 0))
                   (state_data h' state (layer_key li "attn_wo")))
    by (intros h' A; now rewrite (state_data_alloc any h h' state _ n n A Mo)).
  assert (Z2' : forall h', allocated any h h' ->
            Forall (Forall (fun r => r = 0))
                   (state_data h' state (layer_key li "mlp_fc2")))
    by (intros h' A;
        now rewrite (state_data_alloc any h h' state _ n (4 * n) A M2)).
  clear Zo Z2.
  unfold GPT.layer.
  eapply runs_bind; [apply (ok_rmsnorm h n x Hx Hn)|].
  intros x1 h1 Hal1 Hx1. lift Hal1.
  step_linear Mq Hx1. intros q h2 Hal2 Hq. lift Hal2.
  step_linear Mk Hx1. intros k h3 Hal3 Hk. lift Hal3.
  step_linear Mv Hx1. intros v h4 Hal4 Hv. lift Hal4.
  destruct (caches_ok_push _ _ _ _ _ _ _ _ k v Hc Hli Hk Hv)
    as (keys' & values' & kl & vl & Ek & Ev & Hc' & Enk & Env & Hne & Hl
        & HK & HV).
  eapply runs_bind; [apply (runs_push any keys keys' li k h4 Ek)|].
  intros ? ? _ [-> ->].
  eapply runs_bind; [apply (runs_push any values values' li v h4 Ev)|].
  intros ? ? _ [-> ->].
  unfold n in Hq, HK, HV. rewrite En in Hq, HK, HV.
  eapply runs_bind.
  { apply (ok_gpt_heads c q keys' values' li kl vl h4 Hq Hhd Enk Env HK HV
                        Hne Hl). }
  intros x_attn h5 Hal5 Ha. simpl in Ha. rewrite <- En in Ha. fold n in Ha.
  clear Hq HK HV. lift Hal5.
  assert (A5 : allocated any h h5) by eauto 6 using allocated_trans.
  apply runs_assoc. apply runs_assoc.
  eapply runs_bind.
  { apply (runs_zero_block h5 state _ n n x_attn x xs Mo (Zo' h5 A5) Ha
             (vec_is_alloc any h h5 x xs A5 Hxs) Hlen). }
  intros x3 h7 Hal7 Hx3d. cbv beta in Hx3d.
  pose proof (vec_is_ok h7 n x3 xs Hx3d Hlen) as Hx3. lift Hal7.
  eapply runs_bind; [apply (ok_rmsnorm h7 n x3 Hx3 Hn)|].
  intros x4 h8 Hal8 Hx4. lift Hal8.
  step_linear M1 Hx4. intros x5 h9 Hal9 Hx5. lift Hal9.
  eapply runs_bind; [apply (ok_activation h9 _ x5 Hx5)|].
  intros x6 h10 Hal10 Hx6. lift Hal10.
  assert (A10 : allocated any h h10) by eauto 8 using allocated_trans.
  assert (A710 : allocated any h7 h10) by eauto 6 using allocated_trans.
  apply runs_assoc. apply runs_assoc.
  eapply runs_bind.
  { apply (runs_zero_block h10 state _ n (4 * n) x6 x3 xs M2 (Z2' h10 A10)
             Hx6
             (vec_is_alloc any h7 h10 x3 xs A710 Hx3d) Hlen). }
  intros x8 h12 Hal12 Hx8. cbv beta in Hx8. lift Hal12.
  apply runs_ret. simpl. split; assumption.
Qed.

(** The sum of the token embedding and the position embedding, as
    numbers. *)
Lemma runs_embedding (h : Heap) (state : State) (n : nat) (posId : nat)
  (row prow : list Value) (wpe : list (list Value)) :
  state "wpe"%string = Some wpe -> nth_error wpe posId = Some prow ->
  vec_ok h n row -> vec_ok h n prow ->
  runs any
       (mapiM (fun t i =>
                 bind (lookup state "wpe") (fun wpe =>
                 bind (idx wpe posId) (fun prow =>
                 bind (idx prow i) (fun p => add t (inl p))))) row) h
       (fun out h' =>
          vec_is h' out (residual_R (data_vec h row) (data_vec h prow))).
Proof.
  intros Ew Ep Hrow Hprow.
  destruct (vec_ok_is h n row Hrow) as [Hd Hlen].
  destruct (vec_ok_is h n prow Hprow) as [Hpd Hplen].
  unfold mapiM.
  apply (runs_mapi_from any (fun h v y => data_of h v = Some y)
                        (fun h v y => data_of h v = Some y)
                        _ (fun y j => y + nth j (data_vec h prow) 0)
                        stable_data_of stable_data_of
                        row (data_vec h row) 0%nat h Hd).
  intros a y j h1 Hal _ Hj Ha. rewrite Nat.sub_0_r in Hj.
  assert (Hjlt : (j < length prow)%nat).
  { assert (j < length row)%nat by (apply nth_error_Some; congruence).
    destruct Hrow, Hprow. lia. }
  destruct (vec_is_nth_default h1 prow (data_vec h prow) j) as (r & Er & Hr);
    auto.
  { apply (vec_is_alloc any h h1 _ _ Hal Hpd). }
  eapply runs_bind; [apply (runs_lookup any state "wpe" wpe h1 Ew)|].
  intros ? ? _ [-> ->].
  eapply runs_bind; [apply (runs_idx any wpe posId prow h1 Ep)|].
  intros ? ? _ [-> ->].
  eapply runs_bind; [apply (runs_idx any prow j r h1 Er)|].
  intros ? ? _ [-> ->]. now apply runs_add.
Qed.

Lemma state_data_nth (h : Heap) (state : State) (key : string)
  (w : list (list Value)) (i : nat) (row : list Value) :
  state key = Some w -> nth_error w i = Some row ->
  nth i (state_data h state key) [] = data_vec h row.
Proof.
  intros Ew Erow. unfold state_data, data_mat. rewrite Ew.
  apply nth_error_nth. now rewrite nth_error_map, Erow.
Qed.

(** X27.  [gpt] before training.  As long as the matrices [attn_wo] and
    [mlp_fc2] of every layer hold zeros, as [matrix(..., 0)] makes them,
    every layer hands on the vector it received, and the logits are those
    of the token and the position alone:
    [lm_head * rmsnorm(wte[tokenId] + wpe[posId])], whatever earlier calls
    have left in the caches. *)
Theorem gpt_initial_logits (c : GPT.Config) (state : State)
  (vocab tokenId posId : nat) (keys values : GPT.Cache) (h : Heap) :
  gpt_shaped h c state vocab ->
  (tokenId < vocab)%nat -> (posId < GPT.block_size c)%nat ->
  cache_ok (vec_ok h (GPT.n_embd c)) (GPT.n_layer c) keys ->
  cache_ok (vec_ok h (GPT.n_embd c)) (GPT.n_layer c) values ->
  in_step keys values ->
  (forall li, (li < GPT.n_layer c)%nat ->
     Forall (Forall (fun r => r = 0))
            (state_data h state (layer_key li "attn_wo")) /\
     Forall (Forall (fun r => r = 0))
            (state_data h state (layer_key li "mlp_fc2"))) ->
  exists logits keys' values' h',
    GPT.gpt c state tokenId posId keys values h =
      Some ((logits, keys', values'), h') /\
    data_vec h' logits =
      linear_R
        (rmsnorm_R (residual_R (nth tokenId (state_data h state "wte") [])
                               (nth posId (state_data h state "wpe") [])))
        (state_data h state "lm_head").
Proof.
  intros Hsh Htok Hpos HK HV Hstep Hzero.
  set (n := GPT.n_embd c) in *.
  pose proof Hsh as (En & Hnh & Hhd & Mwte & Mwpe & Mlm & Hlay).
  fold n in Mwte, Mwpe, Mlm.
  assert (Hn : (0 < n)%nat) by (unfold n; nia).
  assert (Hc : caches_ok (vec_ok h n) (vec_ok h n) (GPT.n_layer c) keys values
                         0 keys values).
  { repeat split; try apply HK; try apply HV; try apply appended_refl.
    exact Hstep. }
  destruct Mwte as (wte & Ewte & Hwte).
  destruct (mat_ok_nth h vocab n wte tokenId Hwte Htok) as (row & Erow & Hrow).
  destruct Mwpe as (wpe & Ewpe & Hwpe).
  destruct (mat_ok_nth h (GPT.block_size c) n wpe posId Hwpe Hpos)
    as (prow & Eprow & Hprow).
  rewrite (state_data_nth h state "wte" wte tokenId row Ewte Erow),
          (state_data_nth h state "wpe" wpe posId prow Ewpe Eprow).
  set (emb := residual_R (data_vec h row) (data_vec h prow)).
  assert (Hemb : length emb = n).
  { unfold emb, residual_R, data_vec. rewrite mapi_length, length_map.
    now destruct Hrow. }
  assert (Hrun :
    runs any (GPT.gpt c state tokenId posId keys values) h
         (fun r h' =>
            vec_is h' (fst (fst r))
                   (linear_R (rmsnorm_R emb) (state_data h state "lm_head")))).
  { unfold GPT.gpt.
    eapply runs_bind; [apply (runs_lookup any state "wte" wte h Ewte)|].
    intros ? ? _ [-> ->].
    eapply runs_bind; [apply (runs_idx any wte tokenId row h Erow)|].
    intros ? ? _ [-> ->].
    eapply runs_bind.
    { apply (runs_embedding h state n posId row prow wpe Ewpe Eprow Hrow
                            Hprow). }
    intros x0 h1 Hal1 Hx0. cbv beta in Hx0. fold emb in Hx0.
    assert (Hne : x0 <> []).
    { intros ->. apply vec_is_length in Hx0. simpl in Hx0. lia. }
    eapply runs_bind; [apply (runs_rmsnorm any x0 emb h1 Hx0 Hne I I)|].
    intros x1 h2 Hal2 Hx1. cbv beta in Hx1.
    assert (A2 : allocated any h h2) by eauto using allocated_trans.
    assert (Hxs : length (rmsnorm_R emb) = n)
      by now rewrite rmsnorm_R_length.
    eapply runs_bind.
    { unfold for_range.
      apply (runs_for_from any (GPT.layer c state)
               (fun li st h' =>
                  vec_is h' (fst (fst st)) (rmsnorm_R emb) /\
                  caches_ok (vec_ok h' n) (vec_ok h' n) (GPT.n_layer c)
                            keys values li (snd (fst st)) (snd st))).
      - intros j a h0 t [A B]. split; [now apply vec_is_app|].
        now apply caches_ok_app.
      - split; [exact Hx1|]. simpl.
        revert Hc. apply caches_ok_impl; intros v0;
          apply (vec_ok_alloc any h h2 n v0 A2).
      - intros li [[x ks] vs] h3 Hal3 Hli [A B]. simpl in A, B.
        assert (A3 : allocated any h h3) by eauto using allocated_trans.
        assert (Hli' : (li < GPT.n_layer c)%nat) by lia.
        destruct (Hlay li Hli') as (_ & _ & _ & Mo & _ & M2).
        destruct (Hzero li Hli') as [Zo Z2].
        apply (gpt_layer_initial c state vocab keys values li x
                 (rmsnorm_R emb) ks vs h3); auto.
        + apply (gpt_shaped_alloc any h h3 c state vocab A3 Hsh).
        + now rewrite (state_data_alloc any h h3 state _ _ _ A3 Mo).
        + now rewrite (state_data_alloc any h h3 state _ _ _ A3 M2). }
    intros [[x ks] vs] h3 Hal3 [Hx Hc']. simpl in Hx, Hc'.
    assert (A3 : allocated any h h3) by eauto using allocated_trans.
    apply runs_assoc.
    eapply runs_bind.
    { apply (runs_linear_stored h3 state "lm_head" vocab n x _
               (has_matrix_alloc any h h3 state _ _ _ A3 Mlm) Hx).
      rewrite (vec_is_length _ _ _ Hx). lia. }
    intros logits h4 Hal4 Hl. cbv beta in Hl.
    rewrite (state_data_alloc any h h3 state _ _ _ A3 Mlm) in Hl.
    apply runs_ret. exact Hl. }
  destruct Hrun as ([[logits keys'] values'] & h' & E & _ & Hl).
  exists logits, keys', values', h'. split; [exact E|].
  exact (vec_is_data _ _ _ Hl).
Qed.

Lemma gpt_initial_logits_witness :
  exists logits keys' values' h',
    GPT.gpt small_gpt small_state 0 0 [[]] [[]] one_parameter =
      Some ((logits, keys', values'), h') /\
    data_vec h' logits =
      linear_R
        (rmsnorm_R
           (residual_R (nth 0 (state_data one_parameter small_state "wte") [])
                       (nth 0 (state_data one_parameter small_state "wpe") [])))
        (state_data one_parameter small_state "lm_head").
Proof.
  apply (gpt_initial_logits small_gpt small_state 1 0 0 [[]] [[]]
           one_parameter).
  - apply (TrainingFacts.gpt_shaped_le one_leaf); [simpl; lia|].
    exact Caches.small_gpt_shaped.
  - lia.
  - simpl. lia.
  - apply (fresh_cache_ok _ 1).
  - apply (fresh_cache_ok _ 1).
  - apply (@fresh_in_step (list Value) (list Value) 1).
  - intros li Hli. simpl in Hli. assert (li = 0%nat) as -> by lia.
    split.
    + change (Forall (Forall (fun r => r = 0))
                     (data_mat one_parameter (filled 4 4))).
      repeat constructor.
    + change (Forall (Forall (fun r => r = 0))
                     (data_mat one_parameter (filled 4 16))).
      repeat constructor.
Defined.

(** *** The numbers that [randn] draws *)

(** X28.  [randn] takes the logarithm of [u = 1 - Math.random()], which
    lies in (0, 1] because [Math.random()] lies in [0, 1): the logarithm is
    never taken at 0, it is not positive, so the square root is taken of a
    number that is not negative, and the result lies within
    [|std| * sqrt(-2 ln u)] of [mean]. *)
Theorem randn_radius (mean std r1 r2 : R) :
  Script.unit_interval r1 ->
  0 < 1 - r1 <= 1 /\
  0 <= -2 * ln (1 - r1) /\
  Rabs (Script.randn mean std r1 r2 - mean)
    <= Rabs std * sqrt (-2 * ln (1 - r1)).
Proof.
  intros [H0 H1].
  assert (Hu : 0 < 1 - r1 <= 1) by lra.
  assert (Hln : ln (1 - r1) <= 0).
  { destruct (Rle_lt_or_eq_dec _ _ (proj2 Hu)) as [Hlt|Heq].
    - left. rewrite <- ln_1. apply ln_increasing; lra.
    - rewrite Heq, ln_1. lra. }
  split; [exact Hu|]. split; [lra|].
  unfold Script.randn. cbv zeta.
  replace (mean + std * sqrt (-2 * ln (1 - r1)) * cos (2 * PI * r2) - mean)
    with (std * sqrt (-2 * ln (1 - r1)) * cos (2 * PI * r2)) by ring.
  rewrite !Rabs_mult.
  rewrite (Rabs_right (sqrt _)) by (apply Rle_ge, sqrt_pos).
  rewrite <- (Rmult_1_r (Rabs std * sqrt (-2 * ln (1 - r1)))) at 2.
  apply Rmult_le_compat_l.
  - apply Rmult_le_pos; [apply Rabs_pos | apply sqrt_pos].
  - apply Rabs_le. destruct (COS_bound (2 * PI * r2)). lra.
Qed.

Lemma randn_radius_witness :
  0 < 1 - 0 <= 1 /\
  0 <= -2 * ln (1 - 0) /\
  Rabs (Script.randn 0 0.02 0 0 - 0) <= Rabs 0.02 * sqrt (-2 * ln (1 - 0)).
Proof.
  apply (randn_radius 0 0.02 0 0). unfold Script.unit_interval. lra.
Defined.

End InitialFacts.
